(** * CastToTV Media Hub: the page agent and the session registry

    A shallow embedding of the stateful scripts of the extension,

    - [content/mediaTracker.js], the per-page agent (module [Agent]) and
      its watch over the document (module [Document]),
    - [background.js], the service worker holding the session registry
      (module [Registry]), and
    - [popup/popup.js], as far as the panel talks to the worker (module
      [Popup]),

    together with the fragment of JavaScript they rely on (module [JS]):
    IEEE 754 binary64 numbers, [Number.isFinite], [Math.min], [Math.max],
    truthiness of strings, insertion-ordered [Map]s and the stable
    [Array.prototype.sort].

    Each script is a set of handlers over one mutable state; a handler
    is a function in a state monad, and the host environment (the DOM,
    the frame clock, promises, the extension's message channels) appears
    as the events that call the handlers and as the trace of calls the
    handlers make.  The agent's media listeners are capturing: an event
    of an element runs the listeners of its tracked ancestors before its
    own.

    The definitions come first.  The results follow: for the agent, the
    single active slot (C4), the order of a preemption (C5), the
    coalescing of progress events (C9) and the command listener (C1, C2,
    C8, C10); for the worker, the order of the pushed lists (C3),
    eviction (C6) and the dropping of commands for unknown sessions
    (C7).  C3 and C9 stand further down, after the lemmas they rest on
    (the order of a sorted list, the frame queue).  With them come the
    properties read off the code itself
    (X1 to X29): what the worker stores, drops, broadcasts and routes;
    how the agent hands out identifiers, registers, unregisters and
    stays silent; what the observer and [pagehide] leave of the maps;
    the frame queue; and the popup's copy of the list and its
    commands. *)

From Stdlib Require Import ZArith Ascii String List Bool Lia.
From Stdlib Require Import Sorting.Sorted Sorting.Permutation.
From Stdlib Require Import Floats.SpecFloat.
From stdpp Require Import base option list gmap strings pretty.

Local Open Scope string_scope.
Local Open Scope Z_scope.
Local Open Scope list_scope.

(* ===================================================================== *)
(** * JavaScript fragment *)
(* ===================================================================== *)

Module JS.

(** ** Numbers

    A JavaScript number is an IEEE 754 binary64 value: 53 bits of
    precision, largest exponent 1024.  [spec_float] is the Standard
    Library's specification of such numbers; it has one NaN, two
    infinities and two zeros, like the values a script can observe. *)

Definition prec : Z := 53.
Definition emax : Z := 1024.

Abbreviation number := spec_float.

Definition NaN : number := S754_nan.
Definition Infinity : number := S754_infinity false.
Definition NegInfinity : number := S754_infinity true.
Definition zero : number := S754_zero false.
Definition negzero : number := S754_zero true.

(** The number with integer value [z] (exact below 2^53). *)
Definition of_Z (z : Z) : number := binary_normalize prec emax z 0 false.

Definition isNaN (x : number) : bool :=
  match x with S754_nan => true | _ => false end.

(** Neither NaN nor an infinity. *)
Definition isFinite (x : number) : bool :=
  match x with S754_zero _ | S754_finite _ _ _ => true | _ => false end.

(** [a + b], [a < b], [a <= b], [a === b] on numbers. *)
Definition add (a b : number) : number := SFadd prec emax a b.
Definition lt (a b : number) : bool := SFltb a b.
Definition le (a b : number) : bool := SFleb a b.
Definition strict_eq (a b : number) : bool := SFeqb a b.

(** [Math.max(a, b)]: NaN if either argument is NaN; [+0] is larger
    than [-0]. *)
Definition Math_max (a b : number) : number :=
  match SFcompare a b with
  | None => NaN
  | Some Lt => b
  | Some Gt => a
  | Some Eq => match a with S754_zero true => b | _ => a end
  end.

(** [Math.min(a, b)]: NaN if either argument is NaN; [-0] is smaller
    than [+0]. *)
Definition Math_min (a b : number) : number :=
  match SFcompare a b with
  | None => NaN
  | Some Lt => a
  | Some Gt => b
  | Some Eq => match a with S754_zero false => b | _ => a end
  end.

(** ** Values

    The values that can travel in a message field: messages are
    serialised, so a field holds [undefined] (absent), [null], a boolean,
    a number or a string. *)

Inductive value :=
  | VUndefined
  | VNull
  | VBool (b : bool)
  | VNumber (x : number)
  | VString (s : string).

(** [Number.isFinite(v)]: no coercion, so only a number that is neither
    NaN nor an infinity passes. *)
Definition Number_isFinite (v : value) : bool :=
  match v with VNumber x => isFinite x | _ => false end.

(** A destructuring default [{ field = d }] applies to [undefined] only. *)
Definition with_default (d v : value) : value :=
  match v with VUndefined => d | _ => v end.

(** Truthiness of a string: every string but the empty one. *)
Definition truthy (s : string) : bool :=
  match s with EmptyString => false | _ => true end.

(** Truthiness of a value that is a string or [null]. *)
Definition truthy_opt (o : option string) : bool :=
  match o with Some s => truthy s | None => false end.

(** ** Insertion-ordered maps

    A [Map] with string keys, as the list of its entries in insertion
    order.  [Map_set] on a present key replaces the value where it is,
    on a new key appends.  What [delete] returns, whether the key was
    there, is [Map_has] before the deletion. *)

Definition Map (V : Type) : Type := list (string * V).

Fixpoint Map_get {V} (k : string) (m : Map V) : option V :=
  match m with
  | [] => None
  | (k', v) :: m' => if String.eqb k' k then Some v else Map_get k m'
  end.

Definition Map_has {V} (k : string) (m : Map V) : bool :=
  match Map_get k m with Some _ => true | None => false end.

Fixpoint Map_set {V} (k : string) (v : V) (m : Map V) : Map V :=
  match m with
  | [] => [(k, v)]
  | (k', v') :: m' =>
      if String.eqb k' k then (k, v) :: m' else (k', v') :: Map_set k v m'
  end.

Fixpoint Map_delete {V} (k : string) (m : Map V) : Map V :=
  match m with
  | [] => []
  | (k', v') :: m' =>
      if String.eqb k' k then m' else (k', v') :: Map_delete k m'
  end.

Definition Map_values {V} (m : Map V) : list V := map snd m.

(** The keys of a [Map] are distinct. *)
Definition Map_wf {V} (m : Map V) : Prop := NoDup (map fst m).

(** ** [Array.prototype.sort]

    The sort is stable, and for a comparator that is a consistent
    ordering the result is determined: it is what this insertion sort
    returns.  [compareFn a b <= 0] keeps [a] before [b]. *)

Fixpoint sort_insert {A} (compareFn : A -> A -> Z) (x : A) (l : list A) : list A :=
  match l with
  | [] => [x]
  | y :: l' =>
      if compareFn x y <=? 0 then x :: y :: l'
      else y :: sort_insert compareFn x l'
  end.

Fixpoint Array_sort {A} (compareFn : A -> A -> Z) (l : list A) : list A :=
  match l with
  | [] => []
  | x :: l' => sort_insert compareFn x (Array_sort compareFn l')
  end.

End JS.

(* ===================================================================== *)
(** * A state monad for the scripts' functions *)
(* ===================================================================== *)

Module StateMonad.

Definition M (S A : Type) : Type := S -> A * S.

Definition ret {S A} (a : A) : M S A := fun s => (a, s).
Definition bind {S A B} (m : M S A) (k : A -> M S B) : M S B :=
  fun s => let (a, s') := m s in k a s'.
Definition gets {S A} (f : S -> A) : M S A := fun s => (f s, s).
Definition modify {S} (f : S -> S) : M S unit := fun s => (tt, f s).
Definition exec {S A} (m : M S A) (s : S) : S := (m s).2.
Definition eval {S A} (m : M S A) (s : S) : A := (m s).1.

(** [when c m] is [if (c) { m }]. *)
Definition when {S} (c : bool) (m : M S unit) : M S unit :=
  if c then m else ret tt.

(** [l.forEach(f)]. *)
Fixpoint forEach {S A} (l : list A) (f : A -> M S unit) : M S unit :=
  match l with
  | [] => ret tt
  | x :: l' => bind (f x) (fun _ => forEach l' f)
  end.

Declare Scope monad_scope.
Delimit Scope monad_scope with monad.
Notation "'let*' x ':=' m 'in' k" := (bind m (fun x => k))
  (at level 10, x name, m at level 100, k at level 200) : monad_scope.
Notation "m '>>' k" := (bind m (fun _ => k))
  (at level 100, k at level 200, right associativity) : monad_scope.

End StateMonad.


(* ===================================================================== *)
(** * utils/messageTypes.js *)
(* ===================================================================== *)

Module MESSAGE_TYPES.
Definition MEDIA_UPDATE : string := "MEDIA_UPDATE".
Definition MEDIA_REMOVED : string := "MEDIA_REMOVED".
Definition MEDIA_COMMAND : string := "MEDIA_COMMAND".
Definition SESSIONS_UPDATED : string := "SESSIONS_UPDATED".
End MESSAGE_TYPES.

Module MEDIA_COMMANDS.
Definition TOGGLE_PLAY : string := "toggle-play".
Definition SEEK_RELATIVE : string := "seek-relative".
Definition SEEK_ABSOLUTE : string := "seek-absolute".
End MEDIA_COMMANDS.

Module PORT_NAMES.
Definition POPUP : string := "popup-panel".
End PORT_NAMES.

(* ===================================================================== *)
(** * content/mediaTracker.js: the page agent *)
(* ===================================================================== *)

Module Agent.
Import JS StateMonad.

(** ** The page

    A [Handle] is a reference to an [HTMLMediaElement] of the page.  The
    agent keeps references in its maps and closures while the page and
    the agent itself mutate the elements, so elements live in a store
    indexed by handle.  The record has the attributes the agent reads or
    writes; [castToTvMediaId] is [dataset.castToTvMediaId], [None] when
    the attribute [data-cast-to-tv-media-id] is absent.  An assignment
    to [currentTime] stores the number and [pause()] sets [paused];
    whatever else the media engine does to an element reaches the agent
    as an event.  [ancestors] is the element's place in the document, as
    far as the agent can tell: the media elements among its ancestors,
    outermost first.  The agent attaches its listeners with
    [capture = true], so an event of the element passes those of its
    ancestors on its way down. *)

Abbreviation Handle := nat.

Record MediaElement := {
  castToTvMediaId : option string;
  paused : bool;
  ended : bool;
  muted : bool;
  volume : number;
  playbackRate : number;
  duration : number;
  currentTime : number;
  ancestors : list Handle
}.

(** An element no script has touched yet: paused at position 0, no media
    loaded (duration NaN), no identifier. *)
Definition freshElement : MediaElement :=
  {| castToTvMediaId := None; paused := true; ended := false; muted := false;
     volume := of_Z 1; playbackRate := of_Z 1; duration := NaN;
     currentTime := zero; ancestors := [] |}.

#[export] Instance MediaElement_inhabited : Inhabited MediaElement :=
  populate freshElement.

Definition set_castToTvMediaId (v : option string) (e : MediaElement) :=
  {| castToTvMediaId := v; paused := paused e; ended := ended e;
     muted := muted e; volume := volume e; playbackRate := playbackRate e;
     duration := duration e; currentTime := currentTime e;
     ancestors := ancestors e |}.

Definition set_paused (v : bool) (e : MediaElement) :=
  {| castToTvMediaId := castToTvMediaId e; paused := v; ended := ended e;
     muted := muted e; volume := volume e; playbackRate := playbackRate e;
     duration := duration e; currentTime := currentTime e;
     ancestors := ancestors e |}.

Definition set_currentTime (v : number) (e : MediaElement) :=
  {| castToTvMediaId := castToTvMediaId e; paused := paused e;
     ended := ended e; muted := muted e; volume := volume e;
     playbackRate := playbackRate e; duration := duration e;
     currentTime := v; ancestors := ancestors e |}.

(** ** Messages *)

(** The object built by [serializeElement].  The presentation fields
    (title, artist, artwork, origin, siteName, pageTitle, favIcon,
    mediaKind, sourceUrl, pipActive, canPlay) are read from the document
    by heuristics that touch no agent state; they are left out. *)
Module Payload.
Record t := {
  elementId : string;
  isPlaying : bool;
  isEnded : bool;
  muted : bool;
  volume : number;
  duration : option number;
  currentTime : number;
  playbackRate : number
}.
End Payload.

(** What the agent passes to [chrome.runtime.sendMessage]. *)
Inductive Message :=
  | MEDIA_UPDATE (payload : Payload.t)
  | MEDIA_REMOVED (elementId : string).

(** The object passed to [sendResponse]; [error] is [None] for
    [undefined]. *)
Record Ack := { ok : bool; error : option string }.

(** Calls into the host environment, in the order the agent makes them. *)
Inductive HostCall :=
  | sendMessage (m : Message)
  | sendResponse (a : Ack)
  | requestAnimationFrame (rafId : nat)
  | cancelAnimationFrame (rafId : nat)
  | element_play (h : Handle)
  | element_pause (h : Handle).

(** How a promise settles; a rejection carries [err?.message]. *)
Inductive Settled :=
  | Fulfilled
  | Rejected (message : option string).

(** ** Agent state

    [trackedElements] maps an identifier to [{ element, listener }]; the
    listener is the closure of [registerElement] over that element, so
    the handle stands for both, and [listening] is the set of elements
    that closure is currently attached to.  The script's [Map] is the
    finite map [trackedElements] together with [trackedOrder], the keys
    in the order a traversal of the [Map] visits them (the order of
    insertion).  [pagehideListener] tells whether the [pagehide] handler,
    added with [{ once: true }], is still attached.  [frameCallbacks] is the
    host's list of animation-frame callbacks, each the closure of
    [scheduleUpdate] over [elementId] and [element].  [awaitingPlay]
    holds, for each toggle-play command whose [element.play()] promise
    has not settled, the element [finalize] closes over and how the
    handler's promise settles from the way [play()] does.  [crypto] is the
    sequence of strings [crypto.randomUUID()] returns, [uuidDraws] how
    many were taken.  [calls] is the trace of host calls, oldest
    first. *)

Record State := {
  dom : gmap Handle MediaElement;
  trackedElements : gmap string Handle;
  listening : gset Handle;
  pendingUpdates : gmap string nat;
  activeMediaId : option string;
  frameCallbacks : list (nat * (string * Handle));
  nextRafId : nat;
  awaitingPlay : list (Handle * (Settled -> Settled));
  crypto : nat -> string;
  uuidDraws : nat;
  calls : list HostCall;
  trackedOrder : list string;
  pagehideListener : bool
}.

Definition with_dom (f : gmap Handle MediaElement -> gmap Handle MediaElement)
    (s : State) : State :=
  {| dom := f (dom s); trackedElements := trackedElements s;
     listening := listening s; pendingUpdates := pendingUpdates s;
     activeMediaId := activeMediaId s; frameCallbacks := frameCallbacks s;
     nextRafId := nextRafId s; awaitingPlay := awaitingPlay s;
     crypto := crypto s; uuidDraws := uuidDraws s; calls := calls s;
     trackedOrder := trackedOrder s; pagehideListener := pagehideListener s |}.

Definition with_trackedElements (f : gmap string Handle -> gmap string Handle)
    (s : State) : State :=
  {| dom := dom s; trackedElements := f (trackedElements s);
     listening := listening s; pendingUpdates := pendingUpdates s;
     activeMediaId := activeMediaId s; frameCallbacks := frameCallbacks s;
     nextRafId := nextRafId s; awaitingPlay := awaitingPlay s;
     crypto := crypto s; uuidDraws := uuidDraws s; calls := calls s;
     trackedOrder := trackedOrder s; pagehideListener := pagehideListener s |}.

Definition with_listening (f : gset Handle -> gset Handle) (s : State) : State :=
  {| dom := dom s; trackedElements := trackedElements s;
     listening := f (listening s); pendingUpdates := pendingUpdates s;
     activeMediaId := activeMediaId s; frameCallbacks := frameCallbacks s;
     nextRafId := nextRafId s; awaitingPlay := awaitingPlay s;
     crypto := crypto s; uuidDraws := uuidDraws s; calls := calls s;
     trackedOrder := trackedOrder s; pagehideListener := pagehideListener s |}.

Definition with_pendingUpdates (f : gmap string nat -> gmap string nat)
    (s : State) : State :=
  {| dom := dom s; trackedElements := trackedElements s;
     listening := listening s; pendingUpdates := f (pendingUpdates s);
     activeMediaId := activeMediaId s; frameCallbacks := frameCallbacks s;
     nextRafId := nextRafId s; awaitingPlay := awaitingPlay s;
     crypto := crypto s; uuidDraws := uuidDraws s; calls := calls s;
     trackedOrder := trackedOrder s; pagehideListener := pagehideListener s |}.

Definition with_activeMediaId (v : option string) (s : State) : State :=
  {| dom := dom s; trackedElements := trackedElements s;
     listening := listening s; pendingUpdates := pendingUpdates s;
     activeMediaId := v; frameCallbacks := frameCallbacks s;
     nextRafId := nextRafId s; awaitingPlay := awaitingPlay s;
     crypto := crypto s; uuidDraws := uuidDraws s; calls := calls s;
     trackedOrder := trackedOrder s; pagehideListener := pagehideListener s |}.

Definition with_frameCallbacks
    (f : list (nat * (string * Handle)) -> list (nat * (string * Handle)))
    (s : State) : State :=
  {| dom := dom s; trackedElements := trackedElements s;
     listening := listening s; pendingUpdates := pendingUpdates s;
     activeMediaId := activeMediaId s; frameCallbacks := f (frameCallbacks s);
     nextRafId := nextRafId s; awaitingPlay := awaitingPlay s;
     crypto := crypto s; uuidDraws := uuidDraws s; calls := calls s;
     trackedOrder := trackedOrder s; pagehideListener := pagehideListener s |}.

Definition with_nextRafId (v : nat) (s : State) : State :=
  {| dom := dom s; trackedElements := trackedElements s;
     listening := listening s; pendingUpdates := pendingUpdates s;
     activeMediaId := activeMediaId s; frameCallbacks := frameCallbacks s;
     nextRafId := v; awaitingPlay := awaitingPlay s;
     crypto := crypto s; uuidDraws := uuidDraws s; calls := calls s;
     trackedOrder := trackedOrder s; pagehideListener := pagehideListener s |}.

Definition with_awaitingPlay
    (f : list (Handle * (Settled -> Settled)) -> list (Handle * (Settled -> Settled)))
    (s : State) : State :=
  {| dom := dom s; trackedElements := trackedElements s;
     listening := listening s; pendingUpdates := pendingUpdates s;
     activeMediaId := activeMediaId s; frameCallbacks := frameCallbacks s;
     nextRafId := nextRafId s; awaitingPlay := f (awaitingPlay s);
     crypto := crypto s; uuidDraws := uuidDraws s; calls := calls s;
     trackedOrder := trackedOrder s; pagehideListener := pagehideListener s |}.

Definition with_uuidDraws (v : nat) (s : State) : State :=
  {| dom := dom s; trackedElements := trackedElements s;
     listening := listening s; pendingUpdates := pendingUpdates s;
     activeMediaId := activeMediaId s; frameCallbacks := frameCallbacks s;
     nextRafId := nextRafId s; awaitingPlay := awaitingPlay s;
     crypto := crypto s; uuidDraws := v; calls := calls s;
     trackedOrder := trackedOrder s; pagehideListener := pagehideListener s |}.

Definition with_calls (f : list HostCall -> list HostCall) (s : State) : State :=
  {| dom := dom s; trackedElements := trackedElements s;
     listening := listening s; pendingUpdates := pendingUpdates s;
     activeMediaId := activeMediaId s; frameCallbacks := frameCallbacks s;
     nextRafId := nextRafId s; awaitingPlay := awaitingPlay s;
     crypto := crypto s; uuidDraws := uuidDraws s; calls := f (calls s);
     trackedOrder := trackedOrder s; pagehideListener := pagehideListener s |}.

Definition with_trackedOrder (f : list string -> list string) (s : State) : State :=
  {| dom := dom s; trackedElements := trackedElements s;
     listening := listening s; pendingUpdates := pendingUpdates s;
     activeMediaId := activeMediaId s; frameCallbacks := frameCallbacks s;
     nextRafId := nextRafId s; awaitingPlay := awaitingPlay s;
     crypto := crypto s; uuidDraws := uuidDraws s; calls := calls s;
     trackedOrder := f (trackedOrder s); pagehideListener := pagehideListener s |}.

Definition with_pagehideListener (v : bool) (s : State) : State :=
  {| dom := dom s; trackedElements := trackedElements s;
     listening := listening s; pendingUpdates := pendingUpdates s;
     activeMediaId := activeMediaId s; frameCallbacks := frameCallbacks s;
     nextRafId := nextRafId s; awaitingPlay := awaitingPlay s;
     crypto := crypto s; uuidDraws := uuidDraws s; calls := calls s;
     trackedOrder := trackedOrder s; pagehideListener := v |}.

(** [trackedElements.set(elementId, ...)]: a new key goes to the end of
    the order, a key already there keeps its place. *)
Definition trackedElements_set (elementId : string) (h : Handle) (s : State) : State :=
  with_trackedOrder
    (fun order => if bool_decide (elementId ∈ order) then order
                  else order ++ [elementId])
    (with_trackedElements <[elementId := h]> s).

(** [trackedElements.delete(elementId)]. *)
Definition trackedElements_delete (elementId : string) (s : State) : State :=
  with_trackedOrder (filter (fun key => key <> elementId))
    (with_trackedElements (delete elementId) s).

(** The state when the script starts on a page whose elements are [page]
    and whose random source is [rnd]. *)
Definition init (page : gmap Handle MediaElement) (rnd : nat -> string) : State :=
  {| dom := page; trackedElements := ∅; listening := ∅; pendingUpdates := ∅;
     activeMediaId := None; frameCallbacks := []; nextRafId := 1;
     awaitingPlay := []; crypto := rnd; uuidDraws := 0; calls := [];
     trackedOrder := []; pagehideListener := true |}.

Local Open Scope monad_scope.

Abbreviation M := (StateMonad.M State).

Definition element (h : Handle) : M MediaElement := gets (fun s => dom s !!! h).
Definition hostCall (c : HostCall) : M unit := modify (with_calls (fun l => l ++ [c])).


(** ** Host services *)

(** [crypto.randomUUID()] (or the timestamp-and-random fallback): the
    next string of the random source. *)
Definition randomUUID : M string :=
  fun s => (crypto s (uuidDraws s), with_uuidDraws (S (uuidDraws s)) s).

(** [requestAnimationFrame(cb)] queues the callback for the next frame and
    returns its id. *)
Definition host_requestAnimationFrame (cb : string * Handle) : M nat :=
  let* rafId := gets nextRafId in
  modify (with_nextRafId (S rafId)) >>
  modify (with_frameCallbacks (fun l => l ++ [(rafId, cb)])) >>
  hostCall (requestAnimationFrame rafId) >>
  ret rafId.

(** [cancelAnimationFrame(id)] drops the callback with that id. *)
Definition host_cancelAnimationFrame (rafId : nat) : M unit :=
  hostCall (cancelAnimationFrame rafId) >>
  modify (with_frameCallbacks (filter (fun cb => cb.1 <> rafId))).

(** ** The agent's functions *)

Definition safeSendMessage (m : Message) : M unit := hostCall (sendMessage m).

(** The body of the [if] in [ensureElementId]: draw an identifier and
    store it on the element. *)
Definition assignElementId (h : Handle) (e : MediaElement) : M string :=
  let* uuid := randomUUID in
  modify (with_dom <[h := set_castToTvMediaId (Some uuid) e]>) >>
  ret uuid.

Definition ensureElementId (h : Handle) : M string :=
  let* e := element h in
  match castToTvMediaId e with
  | Some id => if truthy id then ret id else assignElementId h e
  | None => assignElementId h e
  end.

(** The object literal [serializeElement] returns, for an element [e]
    that carries the identifier [elementId]. *)
Definition serialized (elementId : string) (e : MediaElement) : Payload.t :=
  let duration :=
    if isFinite (duration e) && lt zero (duration e)
    then Some (duration e) else None in
  let currentTime :=
    if isFinite (currentTime e) && le zero (currentTime e)
    then currentTime e else zero in
  {| Payload.elementId := elementId;
     Payload.isPlaying := negb (paused e) && negb (ended e);
     Payload.isEnded := ended e || false;
     Payload.muted := muted e;
     Payload.volume := if isFinite (volume e) then volume e else of_Z 1;
     Payload.duration := duration;
     Payload.currentTime := currentTime;
     Payload.playbackRate := playbackRate e |}.

Definition serializeElement (h : Handle) : M Payload.t :=
  let* elementId := ensureElementId h in
  let* e := element h in
  ret (serialized elementId e).

Definition flushUpdate (h : Handle) : M unit :=
  let* elementId := ensureElementId h in
  let* active := gets activeMediaId in
  if bool_decide (active = Some elementId) then
    let* payload := serializeElement h in
    safeSendMessage (MEDIA_UPDATE payload)
  else ret tt.

(** [if (pendingUpdates.has(id)) { cancelAnimationFrame(pendingUpdates.get(id));
    pendingUpdates.delete(id); }], which the script writes out in
    [scheduleUpdate], [setActiveElement] and [unregisterElement]. *)
Definition cancelPending (elementId : string) : M unit :=
  let* pending := gets pendingUpdates in
  match pending !! elementId with
  | Some rafId =>
      host_cancelAnimationFrame rafId >>
      modify (with_pendingUpdates (delete elementId))
  | None => ret tt
  end.

(** The callback [scheduleUpdate] hands to [requestAnimationFrame]. *)
Definition frameCallback (cb : string * Handle) : M unit :=
  modify (with_pendingUpdates (delete cb.1)) >>
  flushUpdate cb.2.

Definition scheduleUpdate (h : Handle) (immediate : bool) : M unit :=
  let* elementId := ensureElementId h in
  if immediate then
    cancelPending elementId >>
    flushUpdate h
  else
    let* pending := gets pendingUpdates in
    if bool_decide (is_Some (pending !! elementId)) then ret tt
    else
      let* rafId := host_requestAnimationFrame (elementId, h) in
      modify (with_pendingUpdates <[elementId := rafId]>) >>
      modify (with_pendingUpdates <[elementId := rafId]>).

Definition setActiveElement (h : Handle) : M unit :=
  let* newId := ensureElementId h in
  let* active := gets activeMediaId in
  if bool_decide (active = Some newId) then ret tt
  else
    match active with
    | Some old =>
        when (truthy old)
          (cancelPending old >>
           safeSendMessage (MEDIA_REMOVED old))
    | None => ret tt
    end >>
    modify (with_activeMediaId (Some newId)) >>
    scheduleUpdate h true.

Definition MEDIA_EVENTS : list string :=
  [ "play"; "pause"; "timeupdate"; "durationchange"; "volumechange";
    "ratechange"; "ended"; "loadeddata"; "loadedmetadata"; "seeked";
    "enterpictureinpicture"; "leavepictureinpicture" ].

(** The listener [registerElement] attaches to [element]; [type] is
    [event.type]. *)
Definition listener (h : Handle) (type : string) : M unit :=
  when (String.eqb type "play") (setActiveElement h) >>
  let isImmediate := negb (String.eqb type "timeupdate") in
  scheduleUpdate h isImmediate.

Definition registerElement (h : Handle) : M unit :=
  let* elementId := ensureElementId h in
  let* tracked := gets trackedElements in
  if bool_decide (is_Some (tracked !! elementId)) then ret tt
  else
    modify (with_listening (fun L => {[h]} ∪ L)) >>
    modify (trackedElements_set elementId h) >>
    let* active := gets activeMediaId in
    let* e := element h in
    when (negb (truthy_opt active) || (negb (paused e) && negb (ended e)))
      (setActiveElement h).

Definition unregisterElement (h : Handle) : M unit :=
  let* e := element h in
  match castToTvMediaId e with
  | None => ret tt
  | Some elementId =>
      if negb (truthy elementId) then ret tt
      else
        let* tracked := gets trackedElements in
        match tracked !! elementId with
        | None => ret tt
        | Some tracked_element =>
            modify (with_listening (fun L => L ∖ {[tracked_element]})) >>
            cancelPending elementId >>
            modify (trackedElements_delete elementId) >>
            modify (with_dom (fun d => <[h := set_castToTvMediaId None (d !!! h)]> d)) >>
            let* active := gets activeMediaId in
            when (bool_decide (active = Some elementId))
              (modify (with_activeMediaId None) >>
               safeSendMessage (MEDIA_REMOVED elementId))
        end
  end.

(** [Array.from(trackedElements.values())]: the tracked elements in the
    order of insertion. *)
Definition trackedElements_values (s : State) : list Handle :=
  omap (fun elementId => trackedElements s !! elementId) (trackedOrder s).

(** The [pagehide] handler. *)
Definition pagehide : M unit :=
  let* snapshot := gets trackedElements_values in
  forEach snapshot unregisterElement.

(** ** Commands *)

(** The message the background worker addresses to the agent. *)
Module Command.
Record t := {
  type : string;
  elementId : string;
  command : string;
  delta : value;
  time : value
}.
End Command.

(** What calling a property of [commandHandlers] yields: nothing that has
    a [then] method, a promise that is already settled, or a promise that
    settles as [k r] once the [element.play()] it waits for settles as
    [r]; or the call throws. *)
Inductive Completion :=
  | NotThenable
  | Promise (r : Settled)
  | PromiseOfPlay (k : Settled -> Settled)
  | Threw.

(** [p.catch(() => { })] is fulfilled however [p] settles. *)
Definition catch_ignore (r : Settled) : Settled :=
  match r with
  | Fulfilled => Fulfilled
  | Rejected _ => Fulfilled
  end.

Definition seekTo (h : Handle) (targetTime : number) : M unit :=
  let* e := element h in
  let duration :=
    if isFinite (duration e) && lt zero (duration e)
    then Some (duration e) else None in
  let nextTime :=
    match duration with
    | Some duration => Math_min (Math_max zero targetTime) duration
    | None => if lt targetTime zero then zero else targetTime
    end in
  modify (with_dom <[h := set_currentTime nextTime e]>).

(** [commandHandlers[TOGGLE_PLAY]], an [async] function: its promise
    follows [await element.play().catch(() => { })] in the first branch
    and is fulfilled at once in the second, where [pause()] also sets
    [paused]. *)
Definition TOGGLE_PLAY (h : Handle) (_ : Command.t) : M Completion :=
  let* e := element h in
  if paused e || ended e then
    hostCall (element_play h) >>
    ret (PromiseOfPlay catch_ignore)
  else
    hostCall (element_pause h) >>
    modify (with_dom <[h := set_paused true e]>) >>
    ret (Promise Fulfilled).

(** [commandHandlers[SEEK_RELATIVE]]; [{ delta = 0 }] defaults an absent
    field, and only a number passes [Number.isFinite]. *)
Definition SEEK_RELATIVE (h : Handle) (m : Command.t) : M Completion :=
  match with_default (VNumber zero) (Command.delta m) with
  | VNumber delta =>
      if negb (isFinite delta) then ret NotThenable
      else
        let* e := element h in
        let target := add (currentTime e) delta in
        seekTo h target >>
        ret NotThenable
  | _ => ret NotThenable
  end.

(** [commandHandlers[SEEK_ABSOLUTE]]. *)
Definition SEEK_ABSOLUTE (h : Handle) (m : Command.t) : M Completion :=
  match with_default (VNumber zero) (Command.time m) with
  | VNumber time =>
      if negb (isFinite time) then ret NotThenable
      else
        seekTo h time >>
        ret NotThenable
  | _ => ret NotThenable
  end.

(** [commandHandlers] is an object literal, so besides its three own
    properties a lookup finds the properties of [Object.prototype].
    Called as [commandHandlers[name](element, message)]:
    [constructor] returns the element, [toString] and [toLocaleString]
    a string, [valueOf] the object itself, [hasOwnProperty],
    [isPrototypeOf] and [propertyIsEnumerable] [false],
    [__lookupGetter__] and [__lookupSetter__] [undefined]; none of these
    has a [then] method.  [__defineGetter__] and [__defineSetter__] throw
    because the message is not callable, and [__proto__] is not a
    function. *)
Definition Object_prototype (name : string) : option Completion :=
  if bool_decide (name ∈ [ "constructor"; "toString"; "toLocaleString";
                           "valueOf"; "hasOwnProperty"; "isPrototypeOf";
                           "propertyIsEnumerable"; "__lookupGetter__";
                           "__lookupSetter__" ])
  then Some NotThenable
  else if bool_decide (name ∈ [ "__defineGetter__"; "__defineSetter__";
                                "__proto__" ])
  then Some Threw
  else None.

(** [commandHandlers[command]]: the function found, if any. *)
Definition commandHandlers (command : string)
    : option (Handle -> Command.t -> M Completion) :=
  if String.eqb command MEDIA_COMMANDS.TOGGLE_PLAY then Some TOGGLE_PLAY
  else if String.eqb command MEDIA_COMMANDS.SEEK_RELATIVE then Some SEEK_RELATIVE
  else if String.eqb command MEDIA_COMMANDS.SEEK_ABSOLUTE then Some SEEK_ABSOLUTE
  else match Object_prototype command with
       | Some c => Some (fun _ _ => ret c)
       | None => None
       end.

(** [finalize(ok, error)] for the tracked element [h]. *)
Definition finalize (h : Handle) (ok : bool) (error : option string) : M unit :=
  hostCall (sendResponse {| ok := ok; error := error |}) >>
  scheduleUpdate h true.

(** The reactions of
    [maybePromise.then(() => finalize(true)).catch((err) => finalize(false, err?.message))]
    once [maybePromise] has settled as [r]. *)
Definition settled (h : Handle) (r : Settled) : M unit :=
  match r with
  | Fulfilled => finalize h true None
  | Rejected message => finalize h false message
  end.

(** What the [chrome.runtime.onMessage] listener returns. *)
Inductive ListenerResult :=
  | returned_undefined
  | returned (b : bool)
  | threw.

Definition onMessage (message : Command.t) : M ListenerResult :=
  if negb (String.eqb (Command.type message) MESSAGE_TYPES.MEDIA_COMMAND)
  then ret returned_undefined
  else
    let* trackedElements := gets trackedElements in
    match trackedElements !! Command.elementId message,
          commandHandlers (Command.command message) with
    | Some tracked_element, Some handler =>
        let* maybePromise := handler tracked_element message in
        match maybePromise with
        | Threw => ret threw
        | Promise r =>
            settled tracked_element r >>
            ret (returned true)
        | PromiseOfPlay k =>
            modify (with_awaitingPlay (fun l => l ++ [(tracked_element, k)])) >>
            ret (returned true)
        | NotThenable =>
            finalize tracked_element true None >>
            ret (returned false)
        end
    | _, _ =>
        hostCall (sendResponse {| ok := false; error := Some "unknown-element" |}) >>
        ret returned_undefined
    end.

(** The host settles, as [r], the [play()] promise that the [i]-th
    waiting toggle-play command awaits. *)
Definition playSettled (i : nat) (r : Settled) : M unit :=
  let* waiting := gets awaitingPlay in
  match waiting !! i with
  | Some (h, k) =>
      modify (with_awaitingPlay (delete i)) >>
      settled h (k r)
  | None => ret tt
  end.

(** The host runs the animation-frame callbacks queued so far, in the
    order they were requested. *)
Definition animationFrame : M unit :=
  let* callbacks := gets frameCallbacks in
  modify (with_frameCallbacks (fun _ => [])) >>
  forEach callbacks (fun cb => frameCallback cb.2).

(** ** Events

    What can happen to the agent: the initial scan or the mutation
    observer finds an element ([Added]) or sees one leave ([Removed]);
    an element dispatches an event ([Media]); a frame starts; a message
    arrives; a [play()] promise settles; the page is hidden; or the host
    changes the playback attributes of an element or its place in the
    document ([Playback], which leaves the identifier attribute
    alone). *)
Inductive Event :=
  | Added (h : Handle)
  | Removed (h : Handle)
  | Media (h : Handle) (type : string)
  | Frame
  | Incoming (message : Command.t)
  | PlaySettled (i : nat) (r : Settled)
  | PageHide
  | Playback (h : Handle) (e : MediaElement).

(** An event of type [type] passes [target]: the listener runs if
    [registerElement] attached it there, which it does for the types of
    [MEDIA_EVENTS], and [unregisterElement] has not removed it. *)
Definition dispatch (type : string) (target : Handle) : M unit :=
  let* attached := gets listening in
  when (bool_decide (type ∈ MEDIA_EVENTS) && bool_decide (target ∈ attached))
    (listener target type).

(** The elements an event of [h] passes, in the order it passes them: the
    listeners are capturing, so the ancestors come first, outermost
    first, and the element itself last. *)
Definition eventPath (h : Handle) (s : State) : list Handle :=
  ancestors (dom s !!! h) ++ [h].

(** A media event is dispatched along the path it has when it is fired.
    The [pagehide] handler runs for the first [pagehide] only. *)
Definition handle (ev : Event) : M unit :=
  match ev with
  | Added h => registerElement h
  | Removed h => unregisterElement h
  | Media h type =>
      let* path := gets (eventPath h) in
      forEach path (dispatch type)
  | Frame => animationFrame
  | Incoming message => onMessage message >> ret tt
  | PlaySettled i r => playSettled i r
  | PageHide =>
      let* attached := gets pagehideListener in
      when attached
        (modify (with_pagehideListener false) >>
         pagehide)
  | Playback h e =>
      modify (with_dom (fun d =>
        <[h := set_castToTvMediaId (castToTvMediaId (d !!! h)) e]> d))
  end.

Definition step (s : State) (ev : Event) : State := exec (handle ev) s.

Definition run (evs : list Event) (s : State) : State := fold_left step evs s.

(** The state in which an event of [h] reaches [h]: the listeners of its
    ancestors have run. *)
Definition captured (h : Handle) (type : string) (s : State) : State :=
  exec (forEach (ancestors (dom s !!! h)) (dispatch type)) s.

(** No ancestor of [h] carries a listener of the agent: an event of [h]
    runs the listener of [h] only. *)
Definition outermost (h : Handle) (s : State) : Prop :=
  Forall (fun a => a ∉ listening s) (ancestors (dom s !!! h)).

(** What happens to [h] between two frames while it plays: it fires
    [timeupdate], and the host changes playback attributes (the position
    of [h] advances) without moving [h] below an element that carries a
    listener. *)
Definition ticking (h : Handle) (s : State) (ev : Event) : Prop :=
  ev = Media h "timeupdate" \/
  exists h' e, ev = Playback h' e /\
    (h' = h -> Forall (fun a => a ∉ listening s) (ancestors e)).

(** The handlers an event runs, in order: for a media event one per
    element on its path, for any other event one. *)
Definition handlers (ev : Event) (s : State) : list (M unit) :=
  match ev with
  | Media h type => map (dispatch type) (eventPath h s)
  | _ => [handle ev]
  end.

(** The state after a list of handlers. *)
Definition after (ms : list (M unit)) (s : State) : State :=
  fold_left (fun s m => exec m s) ms s.

(** The messages among the calls [tr], and those sent to the background
    worker so far, oldest first. *)
Definition sent (tr : list HostCall) : list Message :=
  omap (fun c => match c with sendMessage m => Some m | _ => None end) tr.

Definition outbox (s : State) : list Message := sent (calls s).

(** The [cancelAnimationFrame] call made for a pending flush, if there is
    one. *)
Definition cancellation (pending : option nat) : list HostCall :=
  match pending with
  | Some rafId => [cancelAnimationFrame rafId]
  | None => []
  end.

(** The element [h] carries the non-empty identifier [id]. *)
Definition identified (h : Handle) (id : string) (s : State) : Prop :=
  castToTvMediaId (dom s !!! h) = Some id /\ truthy id = true.

(** The call [sendResponse({ ok: true, error: undefined })]. *)
Definition acknowledged : HostCall := sendResponse {| ok := true; error := None |}.

(** The playback attributes of an element: the element without its
    identifier attribute. *)
Definition playback (e : MediaElement) : MediaElement :=
  set_castToTvMediaId None e.

(** No element of the page has had a playback attribute changed. *)
Definition same_playback (s s' : State) : Prop :=
  forall h, playback (dom s' !!! h) = playback (dom s !!! h).

(** The host calls a flush can make. *)
Definition flush_call (c : HostCall) : Prop :=
  match c with
  | sendMessage _ | requestAnimationFrame _ | cancelAnimationFrame _ => True
  | _ => False
  end.

(** ** What the registry holds for this page

    The worker keeps a session per identifier from the [MEDIA_UPDATE]
    that names it until the [MEDIA_REMOVED] that names it.  [reported tr]
    is the set of identifiers with a session after the calls [tr]; that
    this is what [handleMediaUpdate] and [handleMediaRemoved] make of the
    messages is lemma [reported_in_registry]. *)
Definition registry_step (alive : gset string) (c : HostCall) : gset string :=
  match c with
  | sendMessage (MEDIA_UPDATE payload) => {[Payload.elementId payload]} ∪ alive
  | sendMessage (MEDIA_REMOVED elementId) => alive ∖ {[elementId]}
  | _ => alive
  end.

Definition reported (tr : list HostCall) : gset string :=
  fold_left registry_step tr ∅.

(** The identifier a message names. *)
Definition message_elementId (m : Message) : string :=
  match m with
  | MEDIA_UPDATE payload => Payload.elementId payload
  | MEDIA_REMOVED elementId => elementId
  end.

(** The trace [tr] never has two identifiers reported at once, after it
    no identifier but the active one is reported, and its messages name
    non-empty identifiers. *)
Definition single_slot (active : option string) (tr : list HostCall) : Prop :=
  (forall id, id ∈ reported tr -> active = Some id) /\
  (forall pre, pre `prefix_of` tr -> (size (reported pre) <= 1)%nat) /\
  Forall (fun m => truthy (message_elementId m) = true) (sent tr).

(** Every [MEDIA_UPDATE] among the calls [new] names [active]. *)
Definition updates_name (active : option string) (new : list HostCall) : Prop :=
  forall payload,
    sendMessage (MEDIA_UPDATE payload) ∈ new ->
    active = Some (Payload.elementId payload).

(** From [s] to [s'] the active identifier stays and every update sent
    names it. *)
Definition gated (s s' : State) : Prop :=
  activeMediaId s' = activeMediaId s /\
  exists new, calls s' = calls s ++ new /\ updates_name (activeMediaId s) new.

(** From [s] to [s'] every update sent names the identifier that is
    active in [s']. *)
Definition emits_for_active (s s' : State) : Prop :=
  exists new, calls s' = calls s ++ new /\ updates_name (activeMediaId s') new.

(** Identifiers are never the empty string. *)
Definition identifiers_truthy (s : State) : Prop :=
  (forall n, truthy (crypto s n) = true) /\
  (forall a, activeMediaId s = Some a -> truthy a = true).

Definition Inv (s : State) : Prop :=
  identifiers_truthy s /\ single_slot (activeMediaId s) (calls s).

End Agent.

(* ===================================================================== *)
(** * background.js: the session registry *)
(* ===================================================================== *)

Module Registry.
Import JS StateMonad.
Local Open Scope monad_scope.

(** ** Messages from content scripts *)

(** The payload of a [MEDIA_UPDATE] or [MEDIA_REMOVED] message, as far as
    the worker looks into it; a field the sender left out is [None]. *)
Module Payload.
Record t := {
  elementId : option string;
  title : option string;
  artist : option string;
  sourceUrl : option string;
  origin : option string;
  siteName : option string;
  isPlaying : bool;
  isEnded : bool;
  duration : option number;
  currentTime : number
}.
End Payload.

(** [sender.tab] and [sender]. *)
Record Tab := { tab_id : Z; tab_url : option string; tab_title : option string }.
Record Sender := { sender_tab : option Tab; sender_url : option string }.

Inductive RuntimeMessage :=
  | MEDIA_UPDATE (payload : Payload.t)
  | MEDIA_REMOVED (payload : Payload.t)
  | other_message.

(** ** Sessions *)

(** A stored session: [{ ...normalized, tabId, sessionId, elementId,
    lastUpdated }], where [normalized] is [{ ...payload, sourceUrl,
    origin, siteName }].  [payload] keeps the fields no later property
    overrides. *)
Record Session := {
  payload : Payload.t;
  sourceUrl : option string;
  origin : option string;
  siteName : option string;
  tabId : Z;
  sessionId : string;
  elementId : string;
  lastUpdated : Z
}.

Definition isPlaying (session : Session) : bool := Payload.isPlaying (payload session).

(** ** Messages to and from the popup *)

(** A message a popup posts on its port. *)
Record PortMessage := {
  pm_type : string;
  pm_sessionId : string;
  pm_command : string;
  pm_delta : value;
  pm_time : value
}.

(** Calls into the host environment: [port.postMessage] of a
    [SESSIONS_UPDATED] message with that session list, and
    [chrome.tabs.sendMessage] of a command to a tab. *)
Inductive HostCall :=
  | port_postMessage (port : nat) (sessions : list Session)
  | tabs_sendMessage (tabId : Z) (message : Agent.Command.t).

(** ** Worker state

    [mediaSessions] is the session [Map], [popupPorts] the [Set] of
    connected popup ports (in insertion order, each port once) and
    [calls] the trace of host calls, oldest first. *)
Record State := {
  mediaSessions : Map Session;
  popupPorts : list nat;
  calls : list HostCall
}.

Definition with_mediaSessions (f : Map Session -> Map Session) (s : State) : State :=
  {| mediaSessions := f (mediaSessions s); popupPorts := popupPorts s;
     calls := calls s |}.

Definition set_mediaSessions (m : Map Session) (s : State) : State :=
  with_mediaSessions (fun _ => m) s.

Definition with_popupPorts (f : list nat -> list nat) (s : State) : State :=
  {| mediaSessions := mediaSessions s; popupPorts := f (popupPorts s);
     calls := calls s |}.

Definition with_calls (f : list HostCall -> list HostCall) (s : State) : State :=
  {| mediaSessions := mediaSessions s; popupPorts := popupPorts s;
     calls := f (calls s) |}.

Definition init : State := {| mediaSessions := []; popupPorts := []; calls := [] |}.

Abbreviation M := (StateMonad.M State).

Definition hostCall (c : HostCall) : M unit := modify (with_calls (fun l => l ++ [c])).

(** ** The worker's functions *)

Section Worker.

(** [new URL(u).hostname]; [None] when the constructor throws. *)
Variable URL_hostname : string -> option string.

(** [a || b] on values that are a string, [undefined] or [null]. *)
Definition or_else (a b : option string) : option string :=
  if truthy_opt a then a else b.

Definition buildSessionId (tabId : Z) (elementId : string) : string :=
  pretty tabId +:+ ":" +:+ elementId.

(** [normalizePayload]: the three properties it computes. *)
Definition normalizePayload (payload : Payload.t) (sender : Sender)
    : option string * option string * option string :=
  let tab_url := sender_tab sender ≫= tab_url in
  let tab_title := sender_tab sender ≫= tab_title in
  let sourceUrl :=
    or_else (or_else (or_else (Payload.sourceUrl payload) (sender_url sender))
                     tab_url) None in
  let originSource := or_else sourceUrl tab_url in
  let origin :=
    if negb (truthy_opt (Payload.origin payload)) && truthy_opt originSource
    then originSource ≫= URL_hostname
    else Payload.origin payload in
  (sourceUrl,
   or_else origin None,
   or_else (or_else (or_else (Payload.siteName payload) tab_title) origin)
           (Some "Unknown site")).

Definition compareFn (a b : Session) : Z :=
  if negb (Bool.eqb (isPlaying a) (isPlaying b)) then
    if isPlaying a then -1 else 1
  else lastUpdated b - lastUpdated a.

Definition serializeSessions : M (list Session) :=
  let* mediaSessions := gets mediaSessions in
  ret (Array_sort compareFn (Map_values mediaSessions)).

Definition broadcastSessions : M unit :=
  let* sessions := serializeSessions in
  let* popupPorts := gets popupPorts in
  forEach popupPorts (fun port => hostCall (port_postMessage port sessions)).

(** [now] is what [Date.now()] returns. *)
Definition handleMediaUpdate (payload : Payload.t) (sender : Sender) (now : Z)
    : M unit :=
  match tab_id <$> sender_tab sender, Payload.elementId payload with
  | Some tabId, Some elementId =>
      if (tabId =? 0) || negb (truthy elementId) then ret tt
      else
        let sessionId := buildSessionId tabId elementId in
        let '(sourceUrl, origin, siteName) := normalizePayload payload sender in
        modify (with_mediaSessions (Map_set sessionId
          {| payload := payload; sourceUrl := sourceUrl; origin := origin;
             siteName := siteName; tabId := tabId; sessionId := sessionId;
             elementId := elementId; lastUpdated := now |})) >>
        broadcastSessions
  | _, _ => ret tt
  end.

Definition handleMediaRemoved (payload : Payload.t) (sender : Sender) : M unit :=
  match tab_id <$> sender_tab sender, Payload.elementId payload with
  | Some tabId, Some elementId =>
      if (tabId =? 0) || negb (truthy elementId) then ret tt
      else
        let sessionId := buildSessionId tabId elementId in
        let* deleted := gets (fun s => Map_has sessionId (mediaSessions s)) in
        modify (with_mediaSessions (Map_delete sessionId)) >>
        when deleted broadcastSessions
  | _, _ => ret tt
  end.

(** The [chrome.runtime.onMessage] listener. *)
Definition onMessage (message : RuntimeMessage) (sender : Sender) (now : Z)
    : M unit :=
  match message with
  | MEDIA_UPDATE payload => handleMediaUpdate payload sender now
  | MEDIA_REMOVED payload => handleMediaRemoved payload sender
  | other_message => ret tt
  end.

(** [dispatchMediaCommand]; a failing [chrome.tabs.sendMessage] is caught
    and logged. *)
Definition dispatchMediaCommand (message : PortMessage) : M unit :=
  let sessionId := pm_sessionId message in
  let* mediaSessions := gets mediaSessions in
  if negb (truthy sessionId) || negb (Map_has sessionId mediaSessions) then ret tt
  else
    match Map_get sessionId mediaSessions with
    | Some session =>
        hostCall (tabs_sendMessage (tabId session)
          {| Agent.Command.type := MESSAGE_TYPES.MEDIA_COMMAND;
             Agent.Command.elementId := elementId session;
             Agent.Command.command := pm_command message;
             Agent.Command.delta := pm_delta message;
             Agent.Command.time := pm_time message |})
    | None => ret tt
    end.

(** The [chrome.runtime.onConnect] listener. *)
Definition onConnect (port : nat) (name : string) : M unit :=
  if negb (String.eqb name PORT_NAMES.POPUP) then ret tt
  else
    modify (with_popupPorts (fun ports =>
      if bool_decide (port ∈ ports) then ports else ports ++ [port])) >>
    let* sessions := serializeSessions in
    hostCall (port_postMessage port sessions).

(** The [onDisconnect] listener of an accepted port. *)
Definition onDisconnect (port : nat) : M unit :=
  modify (with_popupPorts (filter (fun p => p <> port))).

(** The [onMessage] listener of an accepted port. *)
Definition onPortMessage (message : PortMessage) : M unit :=
  when (String.eqb (pm_type message) MESSAGE_TYPES.MEDIA_COMMAND)
    (dispatchMediaCommand message).

(** The loop of the [chrome.tabs.onRemoved] listener over
    [mediaSessions.entries()]; deleting the entry just visited does not
    disturb the traversal, so it walks the entries present when it
    starts. *)
Fixpoint evict (tabId' : Z) (entries : list (string * Session)) (hasChanges : bool)
    : M bool :=
  match entries with
  | [] => ret hasChanges
  | (sessionId, session) :: rest =>
      if tabId session =? tabId' then
        modify (with_mediaSessions (Map_delete sessionId)) >>
        evict tabId' rest true
      else evict tabId' rest hasChanges
  end.

(** The [chrome.tabs.onRemoved] listener. *)
Definition onRemoved (tabId : Z) : M unit :=
  let* entries := gets mediaSessions in
  let* hasChanges := evict tabId entries false in
  when hasChanges broadcastSessions.

(** ** Events *)

Inductive Event :=
  | Message (message : RuntimeMessage) (sender : Sender) (now : Z)
  | Connect (port : nat) (name : string)
  | Disconnect (port : nat)
  | PortPost (port : nat) (message : PortMessage)
  | TabRemoved (tabId : Z).

(** Port listeners exist for accepted ports only, from connection to
    disconnection. *)
Definition handle (ev : Event) : M unit :=
  match ev with
  | Message message sender now => onMessage message sender now
  | Connect port name => onConnect port name
  | Disconnect port =>
      let* ports := gets popupPorts in
      when (bool_decide (port ∈ ports)) (onDisconnect port)
  | PortPost port message =>
      let* ports := gets popupPorts in
      when (bool_decide (port ∈ ports)) (onPortMessage message)
  | TabRemoved tabId => onRemoved tabId
  end.

Definition step (s : State) (ev : Event) : State := exec (handle ev) s.

Definition run (evs : list Event) (s : State) : State := fold_left step evs s.

End Worker.

(** The session lists pushed to popups, oldest first. *)
Definition pushed (s : State) : list (list Session) :=
  omap (fun c => match c with
                 | port_postMessage _ sessions => Some sessions
                 | _ => None
                 end) (calls s).

(** The order of the list on adjacent sessions: playing first, then most
    recently updated first. *)
Definition in_order (x y : Session) : Prop :=
  (isPlaying y = true -> isPlaying x = true) /\
  (isPlaying x = isPlaying y -> lastUpdated y <= lastUpdated x).

(** Every adjacent pair of the list is in order. *)
Definition adjacent_in_order (sessions : list Session) : Prop :=
  forall (i : nat) (x y : Session),
    sessions !! i = Some x -> sessions !! S i = Some y -> in_order x y.

(** The entries [onRemoved tabId] leaves in the session map. *)
Definition surviving (tabId' : Z) (m : list (string * Session))
    : list (string * Session) :=
  filter (fun kv => tabId kv.2 <> tabId') m.

(** What [serializeSessions] returns for a session map. *)
Definition snapshot (m : Map Session) : list Session :=
  Array_sort compareFn (Map_values m).

(** Every list pushed so far is in order. *)
Definition pushed_in_order (s : State) : Prop :=
  Forall adjacent_in_order (pushed s).

(** One [port.postMessage] per connected port, with the same list. *)
Definition broadcast (ports : list nat) (sessions : list Session) : list HostCall :=
  map (fun port => port_postMessage port sessions) ports.

End Registry.

(* ===================================================================== *)
(** * From the agent to the worker *)
(* ===================================================================== *)

Module Wire.
Import JS.

(** The payload of a [MEDIA_UPDATE] as the worker reads it. *)
Definition update (p : Agent.Payload.t) : Registry.Payload.t :=
  {| Registry.Payload.elementId := Some (Agent.Payload.elementId p);
     Registry.Payload.title := None;
     Registry.Payload.artist := None;
     Registry.Payload.sourceUrl := None;
     Registry.Payload.origin := None;
     Registry.Payload.siteName := None;
     Registry.Payload.isPlaying := Agent.Payload.isPlaying p;
     Registry.Payload.isEnded := Agent.Payload.isEnded p;
     Registry.Payload.duration := Agent.Payload.duration p;
     Registry.Payload.currentTime := Agent.Payload.currentTime p |}.

(** The payload [{ elementId }] of a [MEDIA_REMOVED]. *)
Definition removed (elementId : string) : Registry.Payload.t :=
  {| Registry.Payload.elementId := Some elementId;
     Registry.Payload.title := None;
     Registry.Payload.artist := None;
     Registry.Payload.sourceUrl := None;
     Registry.Payload.origin := None;
     Registry.Payload.siteName := None;
     Registry.Payload.isPlaying := false;
     Registry.Payload.isEnded := false;
     Registry.Payload.duration := None;
     Registry.Payload.currentTime := zero |}.

Definition message (m : Agent.Message) : Registry.RuntimeMessage :=
  match m with
  | Agent.MEDIA_UPDATE p => Registry.MEDIA_UPDATE (update p)
  | Agent.MEDIA_REMOVED elementId => Registry.MEDIA_REMOVED (removed elementId)
  end.

(** The worker's events when the messages [ms] of one page arrive, in
    order, the [i]-th at time [clock i]. *)
Fixpoint deliveries (sender : Registry.Sender) (clock : nat -> Z) (i : nat)
    (ms : list Agent.Message) : list Registry.Event :=
  match ms with
  | [] => []
  | m :: ms' =>
      Registry.Message (message m) sender (clock i)
      :: deliveries sender clock (S i) ms'
  end.

(** The session keys of the worker are the identifiers in [alive],
    prefixed with the tab. *)
Definition holds (tabId : Z) (s : Registry.State) (alive : gset string) : Prop :=
  Map_wf (Registry.mediaSessions s) /\
  forall k, k ∈ map fst (Registry.mediaSessions s) <->
            exists id, id ∈ alive /\ k = Registry.buildSessionId tabId id.

End Wire.

(* ===================================================================== *)
(** * content/mediaTracker.js: watching the document *)
(* ===================================================================== *)

Module Document.
Import JS StateMonad Agent.
Local Open Scope monad_scope.

(** A DOM node as the observer sees it: an element with its child
    nodes, where [media] is the handle of the element if it matches
    [MEDIA_QUERY] (it is an [audio] or [video] element); or a node that
    is no element (text, comment).  The functions below are defined by
    the recursion they need, so no induction scheme is generated. *)
#[local] Unset Elimination Schemes.
Inductive Node :=
  | other_node
  | element_node (media : option Handle) (childNodes : list Node).
#[local] Set Elimination Schemes.

(** The elements matching [MEDIA_QUERY] among a node and its
    descendants, in document order. *)
Fixpoint matching (node : Node) : list Handle :=
  match node with
  | other_node => []
  | element_node media childNodes =>
      option_list media ++ flat_map matching childNodes
  end.

(** [node.querySelectorAll(MEDIA_QUERY)]: the matching descendants. *)
Definition querySelectorAll (node : Node) : list Handle :=
  match node with
  | other_node => []
  | element_node _ childNodes => flat_map matching childNodes
  end.

Definition handlePossibleMediaNode (node : Node) (action : Handle -> M unit)
    : M unit :=
  match node with
  | other_node => ret tt
  | element_node media _ =>
      match media with
      | Some h => action h
      | None => ret tt
      end >>
      forEach (querySelectorAll node) action
  end.

Record MutationRecord := {
  addedNodes : list Node;
  removedNodes : list Node
}.

(** The callback of the [MutationObserver]. *)
Definition mutationObserver (mutations : list MutationRecord) : M unit :=
  forEach mutations (fun mutation =>
    forEach (addedNodes mutation)
      (fun node => handlePossibleMediaNode node registerElement) >>
    forEach (removedNodes mutation)
      (fun node => handlePossibleMediaNode node unregisterElement)).

(** The initial scan, [document.querySelectorAll(MEDIA_QUERY).forEach(registerElement)]. *)
Definition initialScan (document : Node) : M unit :=
  forEach (querySelectorAll document) registerElement.

(** The observer's work as agent events: an [Added] or [Removed] for
    every matching element, in the order the callback visits them. *)
Definition events (mutations : list MutationRecord) : list Event :=
  flat_map (fun mutation =>
    map Added (flat_map matching (addedNodes mutation)) ++
    map Removed (flat_map matching (removedNodes mutation))) mutations.

End Document.

(* ===================================================================== *)
(** * What the agent's maps hold *)
(* ===================================================================== *)

Module Tracking.
Import JS StateMonad Agent.

(** The element [h] is the value of an entry of [trackedElements]. *)
Definition tracked (h : Handle) (s : State) : Prop :=
  exists id, trackedElements s !! id = Some h.

(** The maps agree with the page: an element is tracked under the
    identifier it carries, the listener is attached to the tracked
    elements and to no other, and the active identifier and the
    identifiers with a pending flush are tracked ones. *)
Definition consistent (s : State) : Prop :=
  (forall n, truthy (crypto s n) = true) /\
  (forall id h, trackedElements s !! id = Some h -> identified h id s) /\
  (forall h, h ∈ listening s <-> tracked h s) /\
  (forall a, activeMediaId s = Some a -> is_Some (trackedElements s !! a)) /\
  (forall id, is_Some (pendingUpdates s !! id) -> is_Some (trackedElements s !! id)).

(** From [s] to [s'] no element is registered or unregistered, the
    active identifier stays, no flush is added to the pending ones, no
    element loses its identifier, no [MEDIA_REMOVED] is sent and the
    [pagehide] handler stays as it is. *)
Definition kept (s s' : State) : Prop :=
  crypto s' = crypto s /\
  trackedElements s' = trackedElements s /\
  listening s' = listening s /\
  activeMediaId s' = activeMediaId s /\
  (forall id rafId, pendingUpdates s' !! id = Some rafId ->
     pendingUpdates s !! id = Some rafId) /\
  (forall h id, identified h id s -> identified h id s') /\
  (exists new, calls s' = calls s ++ new /\
               forall id, sendMessage (MEDIA_REMOVED id) ∉ new) /\
  trackedOrder s' = trackedOrder s /\
  pagehideListener s' = pagehideListener s.

(** Every key of [trackedElements] has its place in the order of
    insertion, so a traversal of the [Map] meets every entry. *)
Definition ordered (s : State) : Prop :=
  forall id, is_Some (trackedElements s !! id) -> id ∈ trackedOrder s.

(** Every pending flush has its callback in the host's queue, under the
    id [pendingUpdates] records; the queue's ids are distinct and were
    handed out already. *)
Definition queued (s : State) : Prop :=
  (forall id rafId, pendingUpdates s !! id = Some rafId ->
     exists h, (rafId, (id, h)) ∈ frameCallbacks s) /\
  NoDup (frameCallbacks s).*1 /\
  (forall rafId, rafId ∈ (frameCallbacks s).*1 -> (rafId < nextRafId s)%nat).

(** The pending flushes and the host's queue are the same in [s] and
    [s']. *)
Definition same_queue (s s' : State) : Prop :=
  pendingUpdates s' = pendingUpdates s /\
  frameCallbacks s' = frameCallbacks s /\
  nextRafId s' = nextRafId s.

(** Nothing is tracked, listened to, pending or active, and the worker
    holds no session of the page. *)
Definition cleared (s : State) : Prop :=
  trackedElements s = ∅ /\
  listening s = ∅ /\
  pendingUpdates s = ∅ /\
  activeMediaId s = None /\
  reported (calls s) = ∅.

(** No message leaves the agent from [s] to [s'], and no element is
    active in [s']. *)
Definition idle (s s' : State) : Prop :=
  activeMediaId s' = None /\ outbox s' = outbox s.

End Tracking.

(* ===================================================================== *)
(** * What the worker's map and trace hold *)
(* ===================================================================== *)

Module Ledger.
Import JS Registry.

(** An entry of the session map is filed under its own [sessionId],
    which is built from the tab and the element that reported it. *)
Definition filed (kv : string * Session) : Prop :=
  kv.1 = sessionId kv.2 /\
  sessionId kv.2 = buildSessionId (tabId kv.2) (elementId kv.2) /\
  tabId kv.2 <> 0 /\
  truthy (elementId kv.2) = true.

Definition well_filed (s : State) : Prop := Forall filed (mediaSessions s).

(** The object [handleMediaUpdate] stores for a payload from the tab
    [tabId] that names [elementId]. *)
Definition stored (URL_hostname : string -> option string)
    (payload : Payload.t) (sender : Sender) (now : Z)
    (tabId : Z) (elementId : string) : Session :=
  let '(sourceUrl, origin, siteName) :=
    normalizePayload URL_hostname payload sender in
  {| payload := payload; sourceUrl := sourceUrl; origin := origin;
     siteName := siteName; tabId := tabId;
     sessionId := buildSessionId tabId elementId;
     elementId := elementId; lastUpdated := now |}.

(** The session lists posted to [port] among the calls [tr], oldest
    first. *)
Definition posts_to (port : nat) (tr : list HostCall) : list (list Session) :=
  omap (fun c => match c with
                 | port_postMessage port' sessions =>
                     if bool_decide (port' = port) then Some sessions else None
                 | _ => None
                 end) tr.

(** The commands sent to tabs among the calls [tr], oldest first. *)
Definition commands (tr : list HostCall) : list (Z * Agent.Command.t) :=
  omap (fun c => match c with
                 | tabs_sendMessage tabId message => Some (tabId, message)
                 | _ => None
                 end) tr.

(** Every connected popup was last sent the list the map gives now. *)
Definition up_to_date (s : State) : Prop :=
  forall port, port ∈ popupPorts s ->
    last (posts_to port (calls s)) = Some (snapshot (mediaSessions s)).

End Ledger.

(* ===================================================================== *)
(** * popup/popup.js: the panel's channel to the worker *)
(* ===================================================================== *)

Module Popup.
Import JS StateMonad.
Local Open Scope monad_scope.

(** A message arriving on the port. *)
Record PortMessage := {
  type : string;
  sessions : option (list Registry.Session)
}.

(** Calls into the host environment.  [tabs_update] is the first call
    of [focusSessionTab]; what follows it ([tabs.get], [windows.update],
    [window.close]) touches nothing of the panel's state. *)
Inductive HostCall :=
  | runtime_connect (name : string)
  | port_postMessage (port : nat) (message : Registry.PortMessage)
  | setTimeout (delay : Z)
  | tabs_update (tabId : Z).

(** [port] is the variable of that name ([None] for [null]),
    [sessionMap] the panel's copy of the session list, [timers] the
    number of [setTimeout(connectPort, 600)] timers that have not fired
    yet.  Rendering writes the cards into the panel's document and reads
    no state; it is left out. *)
Record State := {
  port : option nat;
  sessionMap : Map Registry.Session;
  timers : nat;
  calls : list HostCall
}.

Definition set_port (v : option nat) (s : State) : State :=
  {| port := v; sessionMap := sessionMap s; timers := timers s; calls := calls s |}.

Definition with_sessionMap (f : Map Registry.Session -> Map Registry.Session)
    (s : State) : State :=
  {| port := port s; sessionMap := f (sessionMap s); timers := timers s;
     calls := calls s |}.

Definition set_timers (v : nat) (s : State) : State :=
  {| port := port s; sessionMap := sessionMap s; timers := v; calls := calls s |}.

Definition with_calls (f : list HostCall -> list HostCall) (s : State) : State :=
  {| port := port s; sessionMap := sessionMap s; timers := timers s;
     calls := f (calls s) |}.

Abbreviation M := (StateMonad.M State).

Definition hostCall (c : HostCall) : M unit := modify (with_calls (fun l => l ++ [c])).

(** [connectPort]; [outcome] is the port [chrome.runtime.connect]
    returns, [None] when it throws (then the function logs and
    returns). *)
Definition connectPort (outcome : option nat) : M unit :=
  hostCall (runtime_connect PORT_NAMES.POPUP) >>
  match outcome with
  | Some p => modify (set_port (Some p))
  | None => ret tt
  end.

(** The [onDisconnect] listener of the port. *)
Definition onDisconnect : M unit :=
  modify (set_port None) >>
  hostCall (setTimeout 600) >>
  let* n := gets timers in
  modify (set_timers (S n)).

Definition updateSessions (sessions : list Registry.Session) : M unit :=
  modify (with_sessionMap (fun _ => [])) >>
  forEach sessions (fun session =>
    modify (with_sessionMap (Map_set (Registry.sessionId session) session))).

(** [handlePortMessage]; the message is [None] when it is [null] or
    [undefined]. *)
Definition handlePortMessage (message : option PortMessage) : M unit :=
  match message with
  | Some message =>
      when (String.eqb (type message) MESSAGE_TYPES.SESSIONS_UPDATED)
        (updateSessions (default [] (sessions message)))
  | None => ret tt
  end.

(** [sendCommand(sessionId, payload)], where [payload] has the property
    [command] and possibly [delta] or [time]. *)
Definition sendCommand (sessionId : string) (command : string)
    (delta time : value) : M unit :=
  let* port := gets port in
  let* sessionMap := gets sessionMap in
  match port with
  | Some p =>
      if negb (Map_has sessionId sessionMap) then ret tt
      else
        hostCall (port_postMessage p
          {| Registry.pm_type := MESSAGE_TYPES.MEDIA_COMMAND;
             Registry.pm_sessionId := sessionId;
             Registry.pm_command := command;
             Registry.pm_delta := delta;
             Registry.pm_time := time |})
  | None => ret tt
  end.

Definition focusSessionTab (sessionId : string) : M unit :=
  let* sessionMap := gets sessionMap in
  match Map_get sessionId sessionMap with
  | Some session => hostCall (tabs_update (Registry.tabId session))
  | None => ret tt
  end.

(** The button a click lands on: the [sessionId] of the card around it
    ([None] when it is in no card), its [data-action] and
    [data-command] attributes, and [Number(button.dataset.delta)]. *)
Record Button := {
  card : option string;
  action : option string;
  command : option string;
  delta : number
}.

(** [x || 0] on a number. *)
Definition or_zero (x : number) : number :=
  match x with
  | S754_nan | S754_zero _ => zero
  | _ => x
  end.

(** [onListClick]; [button] is [event.target.closest('button')]. *)
Definition onListClick (button : option Button) : M unit :=
  match button with
  | None => ret tt
  | Some button =>
      match card button with
      | None => ret tt
      | Some sessionId =>
          let* sessionMap := gets sessionMap in
          if negb (Map_has sessionId sessionMap) then ret tt
          else if bool_decide (action button = Some "open-tab")
          then focusSessionTab sessionId
          else
            match command button with
            | None => ret tt
            | Some command =>
                if negb (truthy command) then ret tt
                else
                  sendCommand sessionId command
                    (if String.eqb command MEDIA_COMMANDS.SEEK_RELATIVE
                     then VNumber (or_zero (delta button)) else VUndefined)
                    VUndefined
            end
      end
  end.

(** The target of a [change] event: whether it is a slider, whether the
    slider is disabled, the [sessionId] of the card around it and
    [Number(event.target.value)]. *)
Record Slider := {
  is_slider : bool;
  disabled : bool;
  slider_card : option string;
  slider_value : number
}.

Definition onSliderCommit (target : Slider) : M unit :=
  if negb (is_slider target) then ret tt
  else if disabled target then ret tt
  else
    match slider_card target with
    | None => ret tt
    | Some sessionId =>
        let* sessionMap := gets sessionMap in
        if negb (Map_has sessionId sessionMap) then ret tt
        else
          sendCommand sessionId MEDIA_COMMANDS.SEEK_ABSOLUTE VUndefined
            (VNumber (slider_value target))
    end.

(** ** Events

    A message arrives on the port, the port disconnects, a reconnect
    timer fires, the user clicks or commits a slider.  The port's
    listeners exist while [port] holds it. *)
Inductive Event :=
  | Received (message : option PortMessage)
  | Disconnected
  | TimerFired (outcome : option nat)
  | Click (button : option Button)
  | Commit (target : Slider).

Definition handle (ev : Event) : M unit :=
  match ev with
  | Received message =>
      let* port := gets port in
      when (bool_decide (is_Some port)) (handlePortMessage message)
  | Disconnected =>
      let* port := gets port in
      when (bool_decide (is_Some port)) onDisconnect
  | TimerFired outcome =>
      let* n := gets timers in
      match n with
      | O => ret tt
      | S n' => modify (set_timers n') >> connectPort outcome
      end
  | Click button => onListClick button
  | Commit target => onSliderCommit target
  end.

Definition step (s : State) (ev : Event) : State := exec (handle ev) s.

Definition run (evs : list Event) (s : State) : State := fold_left step evs s.

(** The panel once [init] has run, [outcome] being what its
    [connectPort] got. *)
Definition init (outcome : option nat) : State :=
  exec (connectPort outcome)
    {| port := None; sessionMap := []; timers := 0; calls := [] |}.

(** The messages posted to the worker among the calls [tr]. *)
Definition posted (tr : list HostCall) : list (nat * Registry.PortMessage) :=
  omap (fun c => match c with
                 | port_postMessage p message => Some (p, message)
                 | _ => None
                 end) tr.

End Popup.

(* ===================================================================== *)
(** * Sample pages and messages *)
(* ===================================================================== *)

Module Demo.
Import JS Agent.

(** A random source: media-0, media-1, ... *)
Definition rnd (n : nat) : string := "media-" +:+ pretty n.

(** A paused two-minute clip at 0:10. *)
Definition clip : MediaElement :=
  {| castToTvMediaId := None; paused := true; ended := false; muted := false;
     volume := of_Z 1; playbackRate := of_Z 1; duration := of_Z 120;
     currentTime := of_Z 10; ancestors := [] |}.

(** A live stream that is playing: no duration. *)
Definition stream : MediaElement :=
  {| castToTvMediaId := None; paused := false; ended := false; muted := false;
     volume := of_Z 1; playbackRate := of_Z 1; duration := Infinity;
     currentTime := of_Z 10; ancestors := [] |}.

Definition page : gmap Handle MediaElement :=
  {[ 1%nat := clip; 2%nat := clip; 3%nat := stream ]}.

(** The agent after its initial scan found elements 1 and 2: element 1
    is active as media-0, element 2 is tracked as media-1. *)
Definition scanned : State := run [Added 1%nat; Added 2%nat] (init page rnd).

(** The agent after its initial scan found the stream only. *)
Definition live : State := run [Added 3%nat] (init page rnd).

Definition command (elementId name : string) (delta time : value) : Command.t :=
  {| Command.type := MESSAGE_TYPES.MEDIA_COMMAND;
     Command.elementId := elementId;
     Command.command := name;
     Command.delta := delta;
     Command.time := time |}.

(** A stand-in for the URL parser: everything after the scheme's two
    slashes, if the string has a scheme. *)
Fixpoint after_slashes (u : string) : option string :=
  match u with
  | String "/"%char (String "/"%char rest) => Some rest
  | String _ rest => after_slashes rest
  | EmptyString => None
  end.

Definition update (elementId : string) (playing : bool) : Registry.Payload.t :=
  {| Registry.Payload.elementId := Some elementId;
     Registry.Payload.title := None;
     Registry.Payload.artist := None;
     Registry.Payload.sourceUrl := None;
     Registry.Payload.origin := None;
     Registry.Payload.siteName := None;
     Registry.Payload.isPlaying := playing;
     Registry.Payload.isEnded := false;
     Registry.Payload.duration := None;
     Registry.Payload.currentTime := zero |}.

Definition from_tab (tabId : Z) : Registry.Sender :=
  {| Registry.sender_tab :=
       Some {| Registry.tab_id := tabId;
               Registry.tab_url := Some "https://example.org";
               Registry.tab_title := None |};
     Registry.sender_url := None |}.

(** Two popups are connected; tab 1 reported elements a and c, tab 2
    element b. *)
Definition registry : Registry.State :=
  Registry.run after_slashes
    [ Registry.Connect 7%nat PORT_NAMES.POPUP;
      Registry.Connect 8%nat PORT_NAMES.POPUP;
      Registry.Message (Registry.MEDIA_UPDATE (update "a" true)) (from_tab 1) 100;
      Registry.Message (Registry.MEDIA_UPDATE (update "b" false)) (from_tab 2) 200;
      Registry.Message (Registry.MEDIA_UPDATE (update "c" true)) (from_tab 1) 300 ]
    Registry.init.

Definition popup_command (sessionId : string) : Registry.PortMessage :=
  {| Registry.pm_type := MESSAGE_TYPES.MEDIA_COMMAND;
     Registry.pm_sessionId := sessionId;
     Registry.pm_command := MEDIA_COMMANDS.TOGGLE_PLAY;
     Registry.pm_delta := VUndefined;
     Registry.pm_time := VUndefined |}.

(** A subtree with three media elements: element 1 with element 2
    nested in it, and element 3, under a container. *)
Definition tree : Document.Node :=
  Document.element_node None
    [ Document.other_node;
      Document.element_node (Some 1%nat)
        [ Document.element_node (Some 2%nat) [] ];
      Document.element_node (Some 3%nat) [] ].

(** The page of [tree]: element 2, a paused clip, lies inside
    element 1. *)
Definition inner : MediaElement :=
  {| castToTvMediaId := None; paused := true; ended := false; muted := false;
     volume := of_Z 1; playbackRate := of_Z 1; duration := of_Z 120;
     currentTime := of_Z 10; ancestors := [1%nat] |}.

Definition nested_page : gmap Handle MediaElement :=
  {[ 1%nat := clip; 2%nat := inner; 3%nat := stream ]}.

(** The agent after its initial scan of that page found elements 1 and
    2: element 1 is active as media-0, element 2 is tracked as
    media-1. *)
Definition nested : State := run [Added 1%nat; Added 2%nat] (init nested_page rnd).

(** The clip a second later. *)
Definition later : MediaElement := set_currentTime (of_Z 11) clip.

(** The agent with element 1 registered and active, the others not
    seen yet. *)
Definition first : State := run [Added 1%nat] (init page rnd).

(** The agent after element 1, the active one, left the page: element
    2 is still tracked and no element is active. *)
Definition vacated : State := run [Removed 1%nat] scanned.

(** The events by which [registry] is reached. *)
Definition registry_events : list Registry.Event :=
  [ Registry.Connect 7%nat PORT_NAMES.POPUP;
    Registry.Connect 8%nat PORT_NAMES.POPUP;
    Registry.Message (Registry.MEDIA_UPDATE (update "a" true)) (from_tab 1) 100;
    Registry.Message (Registry.MEDIA_UPDATE (update "b" false)) (from_tab 2) 200;
    Registry.Message (Registry.MEDIA_UPDATE (update "c" true)) (from_tab 1) 300 ].

(** The popup on port 7, holding the list the worker pushed last. *)
Definition panel : Popup.State :=
  Popup.run
    [ Popup.Received
        (Some {| Popup.type := MESSAGE_TYPES.SESSIONS_UPDATED;
                 Popup.sessions :=
                   Some (Registry.snapshot (Registry.mediaSessions registry)) |}) ]
    (Popup.init (Some 7%nat)).

(** The popup after its port disconnected and the reconnect failed. *)
Definition stranded : Popup.State :=
  Popup.run [Popup.Disconnected; Popup.TimerFired None] panel.

(** The back-ten-seconds button on the card of session 1:a. *)
Definition back_button : Popup.Button :=
  {| Popup.card := Some "1:a"; Popup.action := None;
     Popup.command := Some MEDIA_COMMANDS.SEEK_RELATIVE;
     Popup.delta := of_Z (-10) |}.

End Demo.

(* ===================================================================== *)
(** * Facts about the JavaScript fragment *)
(* ===================================================================== *)

Section MonadFacts.
Import StateMonad.
Context {S : Type}.

Lemma exec_bind {A B} (m : M S A) (k : A -> M S B) (s : S) :
  exec (bind m k) s = exec (k (eval m s)) (exec m s).
Proof. unfold exec, eval, bind. destruct (m s); reflexivity. Qed.

Lemma eval_bind {A B} (m : M S A) (k : A -> M S B) (s : S) :
  eval (bind m k) s = eval (k (eval m s)) (exec m s).
Proof. unfold exec, eval, bind. destruct (m s); reflexivity. Qed.

Lemma exec_ret {A} (a : A) (s : S) : exec (ret a) s = s.
Proof. reflexivity. Qed.

Lemma eval_ret {A} (a : A) (s : S) : eval (ret a) s = a.
Proof. reflexivity. Qed.

Lemma exec_gets {A} (f : S -> A) (s : S) : exec (gets f) s = s.
Proof. reflexivity. Qed.

Lemma eval_gets {A} (f : S -> A) (s : S) : eval (gets f) s = f s.
Proof. reflexivity. Qed.

Lemma exec_modify (f : S -> S) (s : S) : exec (modify f) s = f s.
Proof. reflexivity. Qed.

Lemma exec_when (c : bool) (m : M S unit) (s : S) :
  exec (when c m) s = if c then exec m s else s.
Proof. destruct c; reflexivity. Qed.

Lemma exec_forEach_cons {A} (x : A) (l : list A) (f : A -> M S unit) (s : S) :
  exec (forEach (x :: l) f) s = exec (forEach l f) (exec (f x) s).
Proof. cbn [forEach]. apply exec_bind. Qed.

Lemma exec_forEach_app {A} (l1 l2 : list A) (f : A -> M S unit) (s : S) :
  exec (forEach (l1 ++ l2) f) s = exec (forEach l2 f) (exec (forEach l1 f) s).
Proof.
  revert s. induction l1 as [|x l1 IH]; intros s; [reflexivity|].
  cbn [app]. rewrite !exec_forEach_cons. apply IH.
Qed.

(** A property kept by every iteration is kept by the loop. *)
Lemma forEach_preserves {A} (P : S -> Prop) (l : list A) (f : A -> M S unit) :
  (forall x s, P s -> P (exec (f x) s)) ->
  forall s, P s -> P (exec (forEach l f) s).
Proof.
  intros Hf. induction l as [|x l IH]; intros s Hs.
  - exact Hs.
  - rewrite exec_forEach_cons. apply IH, Hf, Hs.
Qed.

End MonadFacts.

Create Rewrite HintDb monad.
#[global] Hint Rewrite @exec_bind @eval_bind @exec_ret @eval_ret @exec_gets
  @eval_gets @exec_modify @exec_when : monad.

Section NumberFacts.
Import JS.

Lemma SFcompare_refl (x : number) : isNaN x = false -> SFcompare x x = Some Eq.
Proof.
  destruct x as [s|s| |s m e]; cbn; intros H; try discriminate H;
    try (destruct s; reflexivity).
  destruct s; rewrite Z.compare_refl, Pos.compare_cont_refl; reflexivity.
Qed.

Lemma le_refl (x : number) : isNaN x = false -> le x x = true.
Proof. intros H. unfold le, SFleb. rewrite (SFcompare_refl x H). reflexivity. Qed.

Lemma strict_eq_refl (x : number) : isNaN x = false -> strict_eq x x = true.
Proof. intros H. unfold strict_eq, SFeqb. rewrite (SFcompare_refl x H). reflexivity. Qed.

Lemma lt_le (x y : number) : lt x y = true -> le x y = true.
Proof. unfold lt, le, SFltb, SFleb. destruct (SFcompare x y) as [[]|]; auto. Qed.

Lemma isFinite_not_NaN (x : number) : isFinite x = true -> isNaN x = false.
Proof. destruct x; cbn; congruence. Qed.

(** [Math.max(0, t)] is [t] when [0 < t] and [+0] otherwise. *)
Lemma Math_max_zero (t : number) :
  isNaN t = false ->
  (lt zero t = true /\ Math_max zero t = t) \/
  (lt zero t = false /\ Math_max zero t = zero).
Proof.
  intros H. unfold Math_max, lt, SFltb.
  destruct (SFcompare zero t) as [[]|] eqn:E; auto.
  destruct t; cbn in *; congruence.
Qed.

(** The clamp of [seekTo] for a known duration stays within [0, d]. *)
Lemma clamp_in_range (t d : number) :
  isNaN t = false -> isFinite d = true -> lt zero d = true ->
  le zero (Math_min (Math_max zero t) d) = true /\
  le (Math_min (Math_max zero t) d) d = true.
Proof.
  intros Ht Hd Hpos.
  pose proof (isFinite_not_NaN d Hd) as Hn.
  assert (Hmin : forall m, le zero m = true ->
            le zero (Math_min m d) = true /\ le (Math_min m d) d = true).
  { intros m Hm. unfold Math_min.
    destruct (SFcompare m d) as [[]|] eqn:E.
    - assert (Hmd : le m d = true) by (unfold le, SFleb; rewrite E; reflexivity).
      destruct m as [[]|[]| |]; auto using lt_le, le_refl.
    - split; [exact Hm|]. unfold le, SFleb. rewrite E. reflexivity.
    - split; [apply lt_le, Hpos | apply le_refl, Hn].
    - destruct m, d; cbn in *; congruence. }
  destruct (Math_max_zero t Ht) as [[Hlt ->]|[_ ->]].
  - apply Hmin, lt_le, Hlt.
  - apply Hmin. reflexivity.
Qed.

(** Without a duration [seekTo] floors at 0: the position it stores is
    [Math.max(0, t)] as a number. *)
Lemma floor_is_max (t : number) :
  isNaN t = false ->
  strict_eq (if lt t zero then zero else t) (Math_max zero t) = true.
Proof.
  intros Ht. destruct t as [[]|[]| |[] m e]; cbn in *; try reflexivity; try discriminate.
  all: unfold strict_eq, SFeqb; cbn; rewrite Z.compare_refl, Pos.compare_cont_refl;
    reflexivity.
Qed.

End NumberFacts.

(* ===================================================================== *)
(** * The page agent: the single active slot *)
(* ===================================================================== *)

Section AgentSlot.
Import JS StateMonad Agent.
Local Open Scope monad_scope.

Lemma reported_snoc (tr : list HostCall) (c : HostCall) :
  reported (tr ++ [c]) = registry_step (reported tr) c.
Proof. unfold reported. rewrite fold_left_app. reflexivity. Qed.

Lemma prefix_snoc_cases {A} (pre l : list A) (x : A) :
  pre `prefix_of` l ++ [x] -> pre `prefix_of` l \/ pre = l ++ [x].
Proof.
  intros [k Hk]. destruct (decide (k = [])) as [->|Hne].
  - right. rewrite app_nil_r in Hk. congruence.
  - left. destruct (exists_last Hne) as [k' [y ->]].
    rewrite app_assoc in Hk. apply app_inj_tail in Hk as [-> _].
    exists k'. reflexivity.
Qed.

Lemma single_slot_snoc (active active' : option string) tr c :
  single_slot active tr ->
  (forall id, id ∈ registry_step (reported tr) c -> active' = Some id) ->
  (forall m, c = sendMessage m -> truthy (message_elementId m) = true) ->
  single_slot active' (tr ++ [c]).
Proof.
  intros (_ & Hpre & Hmsg) Hin Hc. split; [|split].
  - intros id. rewrite reported_snoc. apply Hin.
  - intros pre [H| ->]%prefix_snoc_cases; [apply Hpre, H|].
    rewrite reported_snoc.
    destruct active' as [a|].
    + transitivity (size ({[a]} : gset string)); [|rewrite size_singleton; lia].
      apply subseteq_size. intros id Hid. apply Hin in Hid.
      injection Hid as ->. set_solver.
    + replace (registry_step (reported tr) c) with (∅ : gset string).
      * rewrite size_empty. lia.
      * symmetry. apply leibniz_equiv. apply elem_of_equiv_empty.
        intros id Hid. apply Hin in Hid. discriminate.
  - unfold sent. rewrite omap_app. apply Forall_app. split; [exact Hmsg|].
    destruct c as [m| | | | |]; cbn; constructor; [apply Hc; reflexivity|constructor].
Qed.

(** A call that is not a message leaves the slot as it is. *)
Lemma single_slot_quiet active tr c :
  single_slot active tr ->
  (forall m, c <> sendMessage m) ->
  single_slot active (tr ++ [c]).
Proof.
  intros H Hc. apply (single_slot_snoc active); [exact H| |].
  - intros id Hid. apply H.
    destruct c as [m| | | | |]; try exact Hid. destruct (Hc m eq_refl).
  - intros m ->. destruct (Hc m eq_refl).
Qed.

Lemma single_slot_update id tr payload :
  single_slot (Some id) tr ->
  Payload.elementId payload = id ->
  truthy id = true ->
  single_slot (Some id) (tr ++ [sendMessage (MEDIA_UPDATE payload)]).
Proof.
  intros H <- T.
  apply (single_slot_snoc (Some (Payload.elementId payload))); [exact H| |].
  - cbn. intros id [->%elem_of_singleton|Hid]%elem_of_union; [reflexivity|].
    apply H, Hid.
  - intros m [= <-]. exact T.
Qed.

(** Removing the active identifier empties the slot, whatever becomes
    active next. *)
Lemma single_slot_removed id active' tr :
  single_slot (Some id) tr ->
  truthy id = true ->
  single_slot active' (tr ++ [sendMessage (MEDIA_REMOVED id)]).
Proof.
  intros H T. apply (single_slot_snoc (Some id)); [exact H| |].
  - cbn. intros id' [Hid Hne]%elem_of_difference.
    apply H in Hid. injection Hid as ->.
    destruct Hne. apply elem_of_singleton. reflexivity.
  - intros m [= <-]. exact T.
Qed.

Lemma single_slot_vacant active' tr :
  single_slot None tr -> single_slot active' tr.
Proof.
  intros [H Hpre]. split; [|exact Hpre].
  intros id Hid. apply H in Hid. discriminate.
Qed.

End AgentSlot.

Section AgentInvariant.
Import JS StateMonad Agent.
Local Open Scope monad_scope.

(** [ensureElementId] either finds a non-empty identifier on the element
    and changes nothing, or draws one and stores it. *)
Lemma ensureElementId_cases (h : Handle) (s : State) :
  let e := dom s !!! h in
  (truthy_opt (castToTvMediaId e) = true /\
   castToTvMediaId e = Some (eval (ensureElementId h) s) /\
   exec (ensureElementId h) s = s) \/
  (truthy_opt (castToTvMediaId e) = false /\
   eval (ensureElementId h) s = crypto s (uuidDraws s) /\
   exec (ensureElementId h) s =
     with_dom <[h := set_castToTvMediaId (Some (crypto s (uuidDraws s))) e]>
       (with_uuidDraws (S (uuidDraws s)) s)).
Proof.
  unfold ensureElementId, element. cbn zeta.
  rewrite exec_bind, eval_bind, eval_gets, exec_gets.
  destruct (castToTvMediaId (dom s !!! h)) as [id|] eqn:E; cbn [truthy_opt].
  - destruct (truthy id) eqn:T; [left|right]; auto.
  - right. auto.
Qed.

(** An element that carries a non-empty identifier keeps it. *)
Lemma ensureElementId_known (h : Handle) (s : State) (id : string) :
  castToTvMediaId (dom s !!! h) = Some id -> truthy id = true ->
  ensureElementId h s = (id, s).
Proof.
  intros E T. unfold ensureElementId, element, bind, gets. rewrite E, T.
  reflexivity.
Qed.

Lemma ensureElementId_stored (h : Handle) (s : State) :
  castToTvMediaId (dom (exec (ensureElementId h) s) !!! h)
  = Some (eval (ensureElementId h) s).
Proof.
  destruct (ensureElementId_cases h s) as [(_ & E & ->)|(_ & -> & ->)].
  - exact E.
  - cbn. rewrite lookup_total_insert_eq. reflexivity.
Qed.

Lemma ensureElementId_view (h : Handle) (s : State) :
  crypto (exec (ensureElementId h) s) = crypto s /\
  activeMediaId (exec (ensureElementId h) s) = activeMediaId s /\
  calls (exec (ensureElementId h) s) = calls s.
Proof.
  destruct (ensureElementId_cases h s) as [(_ & _ & ->)|(_ & _ & ->)]; auto.
Qed.

Lemma ensureElementId_truthy (h : Handle) (s : State) :
  (forall n, truthy (crypto s n) = true) ->
  truthy (eval (ensureElementId h) s) = true.
Proof.
  intros Hrnd.
  destruct (ensureElementId_cases h s) as [(T & E & _)|(_ & -> & _)]; [|apply Hrnd].
  rewrite E in T. exact T.
Qed.

Lemma Inv_view (s s' : State) :
  crypto s' = crypto s -> activeMediaId s' = activeMediaId s ->
  calls s' = calls s -> Inv s -> Inv s'.
Proof.
  unfold Inv, identifiers_truthy. intros -> -> ->. auto.
Qed.

Lemma Inv_ensureElementId (h : Handle) (s : State) :
  Inv s -> Inv (exec (ensureElementId h) s).
Proof.
  destruct (ensureElementId_view h s) as (? & ? & ?). apply Inv_view; assumption.
Qed.

Lemma Inv_hostCall (c : HostCall) (s : State) :
  (forall m, c <> sendMessage m) -> Inv s -> Inv (exec (hostCall c) s).
Proof.
  intros Hc [Hid Hslot]. split; [exact Hid|].
  cbn. apply single_slot_quiet; assumption.
Qed.

Lemma Inv_cancelPending (elementId : string) (s : State) :
  Inv s -> Inv (exec (cancelPending elementId) s).
Proof.
  intros H. unfold cancelPending. autorewrite with monad.
  destruct (pendingUpdates s !! elementId) as [rafId|]; [|exact H].
  unfold host_cancelAnimationFrame. autorewrite with monad.
  eapply Inv_view; [| | |apply (Inv_hostCall (cancelAnimationFrame rafId) s); [discriminate|exact H]];
    reflexivity.
Qed.

Lemma serializeElement_known (h : Handle) (s : State) (id : string) :
  castToTvMediaId (dom s !!! h) = Some id -> truthy id = true ->
  exec (serializeElement h) s = s /\
  Payload.elementId (eval (serializeElement h) s) = id.
Proof.
  intros E T. unfold serializeElement, exec, eval, bind.
  rewrite (ensureElementId_known h s id E T). split; reflexivity.
Qed.

Lemma Inv_flushUpdate (h : Handle) (s : State) :
  Inv s -> Inv (exec (flushUpdate h) s).
Proof.
  intros H. unfold flushUpdate. autorewrite with monad.
  pose proof (Inv_ensureElementId h s H) as H1.
  pose proof (ensureElementId_stored h s) as Hst.
  assert (T : truthy (eval (ensureElementId h) s) = true)
    by (apply ensureElementId_truthy, H).
  set (s1 := exec (ensureElementId h) s) in *.
  set (id := eval (ensureElementId h) s) in *.
  case_bool_decide as Hact; [|exact H1].
  autorewrite with monad.
  destruct (serializeElement_known h s1 id Hst T) as [-> Hp].
  destruct H1 as [Hid Hslot]. split; [exact Hid|].
  cbn. rewrite Hact in *. apply single_slot_update; assumption.
Qed.

Lemma Inv_scheduleUpdate (h : Handle) (immediate : bool) (s : State) :
  Inv s -> Inv (exec (scheduleUpdate h immediate) s).
Proof.
  intros H. unfold scheduleUpdate. autorewrite with monad.
  pose proof (Inv_ensureElementId h s H) as H1.
  set (s1 := exec (ensureElementId h) s) in *.
  destruct immediate.
  - autorewrite with monad. apply Inv_flushUpdate, Inv_cancelPending, H1.
  - autorewrite with monad. case_bool_decide; [exact H1|].
    unfold host_requestAnimationFrame. autorewrite with monad.
    eapply Inv_view;
      [| | |apply (Inv_hostCall (requestAnimationFrame (nextRafId s1))
                     (with_frameCallbacks
                        (fun l => l ++ [(nextRafId s1, (eval (ensureElementId h) s, h))])
                        (with_nextRafId (S (nextRafId s1)) s1)));
            [discriminate|eapply Inv_view; [| | |exact H1]; reflexivity]];
      reflexivity.
Qed.

Lemma Inv_setActiveElement (h : Handle) (s : State) :
  Inv s -> Inv (exec (setActiveElement h) s).
Proof.
  intros H. unfold setActiveElement. autorewrite with monad.
  pose proof (Inv_ensureElementId h s H) as H1.
  assert (T : truthy (eval (ensureElementId h) s) = true)
    by (apply ensureElementId_truthy, H).
  set (s1 := exec (ensureElementId h) s) in *.
  set (newId := eval (ensureElementId h) s) in *.
  case_bool_decide as Hact; [exact H1|].
  autorewrite with monad. apply Inv_scheduleUpdate.
  destruct (activeMediaId s1) as [old|] eqn:Eold.
  - assert (Told : truthy old = true) by (apply H1, Eold).
    rewrite Told. cbn [when]. autorewrite with monad.
    pose proof (Inv_cancelPending old s1 H1) as H2.
    assert (E2 : activeMediaId (exec (cancelPending old) s1) = Some old).
    { unfold cancelPending. autorewrite with monad.
      destruct (pendingUpdates s1 !! old); [|exact Eold].
      unfold host_cancelAnimationFrame. autorewrite with monad. exact Eold. }
    set (s2 := exec (cancelPending old) s1) in *.
    destruct H2 as [[Hrnd _] Hslot]. split.
    + split; [exact Hrnd|]. cbn. intros a [= <-]. exact T.
    + cbn. rewrite E2 in Hslot. apply single_slot_removed; assumption.
  - autorewrite with monad. destruct H1 as [[Hrnd _] Hslot]. split.
    + split; [exact Hrnd|]. cbn. intros a [= <-]. exact T.
    + cbn. rewrite Eold in Hslot. apply single_slot_vacant, Hslot.
Qed.

Lemma Inv_listener (h : Handle) (type : string) (s : State) :
  Inv s -> Inv (exec (listener h type) s).
Proof.
  intros H. unfold listener. autorewrite with monad.
  apply Inv_scheduleUpdate. destruct (String.eqb type "play"); [|exact H].
  apply Inv_setActiveElement, H.
Qed.

Lemma Inv_registerElement (h : Handle) (s : State) :
  Inv s -> Inv (exec (registerElement h) s).
Proof.
  intros H. unfold registerElement. autorewrite with monad.
  pose proof (Inv_ensureElementId h s H) as H1.
  set (s1 := exec (ensureElementId h) s) in *.
  case_bool_decide; [exact H1|].
  autorewrite with monad.
  match goal with |- Inv (if ?c then _ else ?s2) =>
    assert (H2 : Inv s2) by (eapply Inv_view; [| | |exact H1]; reflexivity);
    destruct c; [apply Inv_setActiveElement, H2|exact H2]
  end.
Qed.

Lemma Inv_unregisterElement (h : Handle) (s : State) :
  Inv s -> Inv (exec (unregisterElement h) s).
Proof.
  intros H. unfold unregisterElement, element. autorewrite with monad.
  destruct (castToTvMediaId (dom s !!! h)) as [elementId|]; [|exact H].
  destruct (truthy elementId) eqn:T; [|exact H]. cbn [negb].
  autorewrite with monad.
  destruct (trackedElements s !! elementId) as [tracked_element|]; [|exact H].
  autorewrite with monad.
  set (s1 := with_listening _ s).
  assert (H1 : Inv s1) by (eapply Inv_view; [| | |exact H]; reflexivity).
  pose proof (Inv_cancelPending elementId s1 H1) as H2.
  set (s2 := exec (cancelPending elementId) s1) in *.
  cbn [activeMediaId with_dom with_trackedElements trackedElements_delete with_trackedOrder].
  case_bool_decide as Hact.
  - autorewrite with monad. destruct H2 as [[Hrnd _] Hslot]. split.
    + split; [exact Hrnd|]. cbn. discriminate.
    + cbn. rewrite Hact in Hslot. apply single_slot_removed; assumption.
  - eapply Inv_view; [| | |exact H2]; reflexivity.
Qed.

Lemma Inv_finalize (h : Handle) (ok : bool) (error : option string) (s : State) :
  Inv s -> Inv (exec (finalize h ok error) s).
Proof.
  intros H. unfold finalize. autorewrite with monad.
  apply Inv_scheduleUpdate, Inv_hostCall; [discriminate|exact H].
Qed.

Lemma Inv_settled (h : Handle) (r : Settled) (s : State) :
  Inv s -> Inv (exec (settled h r) s).
Proof. destruct r; apply Inv_finalize. Qed.

Lemma Inv_seekTo (h : Handle) (t : number) (s : State) :
  Inv s -> Inv (exec (seekTo h t) s).
Proof.
  intros H. unfold seekTo, element. autorewrite with monad.
  eapply Inv_view; [| | |exact H]; reflexivity.
Qed.

Lemma Inv_commandHandler (command : string) handler (h : Handle)
    (m : Command.t) (s : State) :
  commandHandlers command = Some handler ->
  Inv s -> Inv (exec (handler h m) s).
Proof.
  unfold commandHandlers. intros Hh H.
  repeat match type of Hh with
  | (if ?c then _ else _) = _ => destruct c
  end.
  - injection Hh as <-. unfold TOGGLE_PLAY, element. autorewrite with monad.
    destruct (paused (dom s !!! h) || ended (dom s !!! h)); autorewrite with monad.
    + apply Inv_hostCall; [discriminate|exact H].
    + eapply Inv_view; [| | |apply (Inv_hostCall (element_pause h) s); [discriminate|exact H]];
        reflexivity.
  - injection Hh as <-. unfold SEEK_RELATIVE.
    destruct (with_default _ _) as [| | |delta|]; try exact H.
    destruct (isFinite delta); cbn [negb]; [|exact H].
    unfold element. autorewrite with monad. apply Inv_seekTo, H.
  - injection Hh as <-. unfold SEEK_ABSOLUTE.
    destruct (with_default _ _) as [| | |time|]; try exact H.
    destruct (isFinite time); cbn [negb]; [|exact H].
    autorewrite with monad. apply Inv_seekTo, H.
  - destruct (Object_prototype command); [|discriminate].
    injection Hh as <-. exact H.
Qed.

Lemma Inv_onMessage (m : Command.t) (s : State) :
  Inv s -> Inv (exec (onMessage m) s).
Proof.
  intros H. unfold onMessage.
  destruct (negb _); [exact H|]. autorewrite with monad.
  destruct (trackedElements s !! Command.elementId m) as [h|];
    [destruct (commandHandlers (Command.command m)) as [handler|] eqn:Hh|].
  - autorewrite with monad.
    pose proof (Inv_commandHandler _ handler h m s Hh H) as H1.
    destruct (eval (handler h m) s); autorewrite with monad.
    + apply Inv_finalize, H1.
    + apply Inv_settled, H1.
    + eapply Inv_view; [| | |exact H1]; reflexivity.
    + exact H1.
  - autorewrite with monad. apply Inv_hostCall; [discriminate|exact H].
  - autorewrite with monad. apply Inv_hostCall; [discriminate|exact H].
Qed.

Lemma Inv_playSettled (i : nat) (r : Settled) (s : State) :
  Inv s -> Inv (exec (playSettled i r) s).
Proof.
  intros H. unfold playSettled. autorewrite with monad.
  destruct (awaitingPlay s !! i) as [[h k]|]; [|exact H].
  autorewrite with monad. apply Inv_settled.
  eapply Inv_view; [| | |exact H]; reflexivity.
Qed.

Lemma Inv_animationFrame (s : State) : Inv s -> Inv (exec animationFrame s).
Proof.
  intros H. unfold animationFrame. autorewrite with monad.
  apply forEach_preserves.
  - intros cb s' H'. unfold frameCallback. autorewrite with monad.
    apply Inv_flushUpdate. eapply Inv_view; [| | |exact H']; reflexivity.
  - eapply Inv_view; [| | |exact H]; reflexivity.
Qed.

Lemma Inv_pagehide (s : State) : Inv s -> Inv (exec pagehide s).
Proof.
  intros H. unfold pagehide. autorewrite with monad.
  apply forEach_preserves; [|exact H].
  intros h s'. apply Inv_unregisterElement.
Qed.

(** ** How events are dispatched *)

Lemma exec_dispatch (type : string) (target : Handle) (s : State) :
  exec (dispatch type target) s =
  if bool_decide (type ∈ MEDIA_EVENTS) && bool_decide (target ∈ listening s)
  then exec (listener target type) s else s.
Proof. unfold dispatch. autorewrite with monad. reflexivity. Qed.

Lemma step_Media (h : Handle) (type : string) (s : State) :
  step s (Media h type) = exec (forEach (eventPath h s) (dispatch type)) s.
Proof. unfold step. cbn [handle]. autorewrite with monad. reflexivity. Qed.

(** The event reaches its target once the listeners of the ancestors have
    run. *)
Lemma step_captured (h : Handle) (type : string) (s : State) :
  step s (Media h type) = exec (dispatch type h) (captured h type s).
Proof.
  rewrite step_Media. unfold eventPath, captured.
  rewrite exec_forEach_app, exec_forEach_cons. reflexivity.
Qed.

Lemma forEach_idle {A} (l : list A) (f : A -> M unit) (s : State) :
  (forall x, x ∈ l -> exec (f x) s = s) -> exec (forEach l f) s = s.
Proof.
  induction l as [|x l IH]; intros Hl; [reflexivity|].
  rewrite exec_forEach_cons, Hl by apply list_elem_of_here.
  apply IH. intros y Hy. apply Hl, list_elem_of_further, Hy.
Qed.

(** With no listener on an ancestor the event arrives as it was fired. *)
Lemma captured_outermost (h : Handle) (type : string) (s : State) :
  outermost h s -> captured h type s = s.
Proof.
  intros Hout. unfold captured. apply forEach_idle. intros a Ha.
  rewrite exec_dispatch. unfold outermost in Hout. rewrite Forall_forall in Hout.
  rewrite (bool_decide_eq_false_2 (a ∈ listening s)) by (apply Hout, Ha).
  rewrite andb_false_r. reflexivity.
Qed.

Lemma step_outermost (h : Handle) (type : string) (s : State) :
  outermost h s -> step s (Media h type) = exec (dispatch type h) s.
Proof. intros Hout. rewrite step_captured, captured_outermost by exact Hout. reflexivity. Qed.

Lemma step_PageHide (s : State) :
  step s PageHide =
  if pagehideListener s then exec pagehide (with_pagehideListener false s) else s.
Proof. unfold step. cbn [handle]. autorewrite with monad. reflexivity. Qed.

(** The steps are the handlers of [handlers], one after the other. *)
Lemma step_handlers (s : State) (ev : Event) : step s ev = after (handlers ev s) s.
Proof.
  destruct ev; try reflexivity. rewrite step_Media. cbn [handlers].
  generalize (eventPath h s). intros path. revert s.
  induction path as [|x path IH]; intros s; [reflexivity|].
  rewrite exec_forEach_cons, IH. reflexivity.
Qed.

Lemma after_snoc (ms : list (M unit)) (m : M unit) (s : State) :
  after (ms ++ [m]) s = exec m (after ms s).
Proof. unfold after. rewrite fold_left_app. reflexivity. Qed.

Lemma Inv_dispatch (type : string) (target : Handle) (s : State) :
  Inv s -> Inv (exec (dispatch type target) s).
Proof.
  intros H. rewrite exec_dispatch. destruct (_ && _); [|exact H].
  apply Inv_listener, H.
Qed.

Lemma Inv_step (s : State) (ev : Event) : Inv s -> Inv (step s ev).
Proof.
  intros H. destruct ev as [h|h|h type| |m|i r| |h e];
    [| |rewrite step_Media| | | |rewrite step_PageHide|]; unfold step; cbn [handle].
  - apply Inv_registerElement, H.
  - apply Inv_unregisterElement, H.
  - apply forEach_preserves; [|exact H]. intros x s'. apply Inv_dispatch.
  - apply Inv_animationFrame, H.
  - autorewrite with monad. apply Inv_onMessage, H.
  - apply Inv_playSettled, H.
  - destruct (pagehideListener s); [|exact H]. apply Inv_pagehide.
    eapply Inv_view; [| | |exact H]; reflexivity.
  - eapply Inv_view; [| | |exact H]; reflexivity.
Qed.

Lemma Inv_run (evs : list Event) (s : State) : Inv s -> Inv (run evs s).
Proof.
  revert s. induction evs as [|ev evs IH]; intros s H; [exact H|].
  cbn. apply IH, Inv_step, H.
Qed.

Lemma Inv_init page rnd :
  (forall n, truthy (rnd n) = true) -> Inv (init page rnd).
Proof.
  intros Hrnd. split; [split; [exact Hrnd|discriminate]|].
  split; [|split].
  - cbn. intros id Hid. apply elem_of_empty in Hid. destruct Hid.
  - intros pre Hpre. apply prefix_nil_inv in Hpre as ->. cbn.
    rewrite size_empty. lia.
  - constructor.
Qed.

End AgentInvariant.

(* ===================================================================== *)
(** * The page agent: what each function does to an identified element *)
(* ===================================================================== *)

Section AgentEquations.
Import JS StateMonad Agent.
Local Open Scope monad_scope.

Variables (h : Handle) (id : string).

Local Abbreviation identified := (Agent.identified h id).

Lemma serializeElement_identified (s : State) :
  identified s ->
  serializeElement h s = (serialized id (dom s !!! h), s).
Proof.
  intros [E T]. unfold serializeElement, bind.
  rewrite (ensureElementId_known h s id E T). reflexivity.
Qed.

Lemma cancelPending_eq (elementId : string) (s : State) :
  exec (cancelPending elementId) s =
    match pendingUpdates s !! elementId with
    | Some rafId =>
        with_pendingUpdates (delete elementId)
          (with_frameCallbacks (filter (fun cb => cb.1 <> rafId))
             (with_calls (fun l => l ++ [cancelAnimationFrame rafId]) s))
    | None => s
    end.
Proof.
  unfold cancelPending. autorewrite with monad.
  destruct (pendingUpdates s !! elementId); reflexivity.
Qed.

Lemma cancelPending_calls (elementId : string) (s : State) :
  calls (exec (cancelPending elementId) s)
  = calls s ++ cancellation (pendingUpdates s !! elementId).
Proof.
  rewrite cancelPending_eq.
  destruct (pendingUpdates s !! elementId); cbn; [reflexivity|].
  rewrite app_nil_r. reflexivity.
Qed.

Lemma cancelPending_dom (elementId : string) (s : State) :
  dom (exec (cancelPending elementId) s) = dom s.
Proof.
  rewrite cancelPending_eq. destruct (pendingUpdates s !! elementId); reflexivity.
Qed.

Lemma cancelPending_active (elementId : string) (s : State) :
  activeMediaId (exec (cancelPending elementId) s) = activeMediaId s.
Proof.
  rewrite cancelPending_eq. destruct (pendingUpdates s !! elementId); reflexivity.
Qed.

Lemma cancelPending_pending (elementId : string) (s : State) :
  pendingUpdates (exec (cancelPending elementId) s)
  = delete elementId (pendingUpdates s).
Proof.
  rewrite cancelPending_eq.
  destruct (pendingUpdates s !! elementId) eqn:E; [reflexivity|].
  symmetry. apply delete_id, E.
Qed.

(** The gate of [flushUpdate]: one [MEDIA_UPDATE] when [id] is the active
    identifier, nothing otherwise. *)
Lemma flushUpdate_identified (s : State) :
  identified s ->
  exec (flushUpdate h) s =
    if bool_decide (activeMediaId s = Some id)
    then with_calls
           (fun l => l ++ [sendMessage (MEDIA_UPDATE (serialized id (dom s !!! h)))]) s
    else s.
Proof.
  intros Hid. unfold flushUpdate, exec, bind, gets.
  rewrite (ensureElementId_known h s id (proj1 Hid) (proj2 Hid)).
  case_bool_decide; [|reflexivity].
  rewrite (serializeElement_identified s Hid). reflexivity.
Qed.

Lemma scheduleUpdate_immediate (s : State) :
  identified s ->
  exec (scheduleUpdate h true) s = exec (flushUpdate h) (exec (cancelPending id) s).
Proof.
  intros [E T]. unfold scheduleUpdate. rewrite exec_bind.
  unfold exec at 2, eval. rewrite (ensureElementId_known h s id E T).
  cbn [fst snd]. rewrite exec_bind. reflexivity.
Qed.

(** A deferred update requests one frame callback unless one is
    pending. *)
Lemma scheduleUpdate_deferred (s : State) :
  identified s ->
  exec (scheduleUpdate h false) s =
    match pendingUpdates s !! id with
    | Some _ => s
    | None =>
        with_pendingUpdates (fun p => <[id := nextRafId s]> (<[id := nextRafId s]> p))
          (with_calls (fun l => l ++ [requestAnimationFrame (nextRafId s)])
             (with_frameCallbacks (fun l => l ++ [(nextRafId s, (id, h))])
                (with_nextRafId (S (nextRafId s)) s)))
    end.
Proof.
  intros [E T]. unfold scheduleUpdate. rewrite exec_bind.
  unfold exec at 2, eval. rewrite (ensureElementId_known h s id E T).
  cbn [fst snd]. autorewrite with monad.
  destruct (pendingUpdates s !! id) eqn:P.
  - rewrite bool_decide_eq_true_2 by eauto. reflexivity.
  - rewrite bool_decide_eq_false_2 by (intros [? ?]; discriminate).
    unfold host_requestAnimationFrame. autorewrite with monad. reflexivity.
Qed.

Lemma identified_cancelPending (elementId : string) (s : State) :
  identified s -> identified (exec (cancelPending elementId) s).
Proof. unfold identified. rewrite cancelPending_dom. auto. Qed.

End AgentEquations.

Section AgentGate.
Import JS StateMonad Agent.
Local Open Scope monad_scope.

Lemma updates_name_nil (active : option string) : updates_name active [].
Proof. intros p Hin. apply elem_of_nil in Hin. destruct Hin. Qed.

Lemma updates_name_app (active : option string) (l1 l2 : list HostCall) :
  updates_name active l1 -> updates_name active l2 -> updates_name active (l1 ++ l2).
Proof. intros H1 H2 p [Hin|Hin]%elem_of_app; auto. Qed.

Lemma updates_name_other (active : option string) (c : HostCall) :
  (forall p, c <> sendMessage (MEDIA_UPDATE p)) -> updates_name active [c].
Proof.
  intros Hc p Hin. apply list_elem_of_singleton in Hin. destruct (Hc p). auto.
Qed.

Lemma gated_refl (s : State) : gated s s.
Proof.
  split; [reflexivity|]. exists []. rewrite app_nil_r.
  split; [reflexivity|apply updates_name_nil].
Qed.

Lemma gated_trans (s1 s2 s3 : State) : gated s1 s2 -> gated s2 s3 -> gated s1 s3.
Proof.
  intros [Ha (n1 & Hc1 & H1)] [Hb (n2 & Hc2 & H2)]. split; [congruence|].
  exists (n1 ++ n2). rewrite Hc2, Hc1, app_assoc. split; [reflexivity|].
  apply updates_name_app; [exact H1|]. rewrite <- Ha. exact H2.
Qed.

(** A step that changes neither the trace nor the active identifier. *)
Lemma gated_view (s s' : State) :
  activeMediaId s' = activeMediaId s -> calls s' = calls s -> gated s s'.
Proof.
  intros Ha Hc. split; [exact Ha|]. exists []. rewrite app_nil_r.
  split; [exact Hc|apply updates_name_nil].
Qed.

Lemma gated_hostCall (c : HostCall) (s : State) :
  (forall p, c <> sendMessage (MEDIA_UPDATE p)) -> gated s (exec (hostCall c) s).
Proof.
  intros Hc. split; [reflexivity|]. exists [c].
  split; [reflexivity|apply updates_name_other, Hc].
Qed.

Lemma gated_emits (s s' : State) : gated s s' -> emits_for_active s s'.
Proof. intros [Ha (new & Hc & H)]. exists new. rewrite Ha. auto. Qed.

Lemma emits_gated (s1 s2 s3 : State) :
  emits_for_active s1 s2 -> gated s2 s3 -> emits_for_active s1 s3.
Proof.
  intros (n1 & Hc1 & H1) [Ha (n2 & Hc2 & H2)].
  exists (n1 ++ n2). rewrite Hc2, Hc1, app_assoc. split; [reflexivity|].
  rewrite Ha. apply updates_name_app; assumption.
Qed.

(** Calls that carry no update may come with any change of the active
    identifier. *)
Lemma emits_silent (s s' : State) (new : list HostCall) :
  calls s' = calls s ++ new ->
  (forall p, sendMessage (MEDIA_UPDATE p) ∉ new) ->
  emits_for_active s s'.
Proof.
  intros Hc Hn. exists new. split; [exact Hc|].
  intros p Hin. destruct (Hn p Hin).
Qed.

Lemma gated_ensureElementId (h : Handle) (s : State) :
  gated s (exec (ensureElementId h) s).
Proof.
  destruct (ensureElementId_view h s) as (_ & Ha & Hc). apply gated_view; assumption.
Qed.

Lemma gated_cancelPending (elementId : string) (s : State) :
  gated s (exec (cancelPending elementId) s).
Proof.
  split; [apply cancelPending_active|].
  exists (cancellation (pendingUpdates s !! elementId)).
  split; [apply cancelPending_calls|].
  destruct (pendingUpdates s !! elementId); cbn;
    [apply updates_name_other; discriminate|apply updates_name_nil].
Qed.

Lemma gated_flushUpdate (h : Handle) (s : State) :
  Inv s -> gated s (exec (flushUpdate h) s).
Proof.
  intros H. unfold flushUpdate. autorewrite with monad.
  pose proof (gated_ensureElementId h s) as G1.
  pose proof (ensureElementId_stored h s) as Hst.
  assert (T : truthy (eval (ensureElementId h) s) = true)
    by (apply ensureElementId_truthy, H).
  set (s1 := exec (ensureElementId h) s) in *.
  set (id := eval (ensureElementId h) s) in *.
  case_bool_decide as Hact; [|exact G1].
  autorewrite with monad.
  assert (Hid : identified h id s1) by (split; assumption).
  assert (Ex : exec (serializeElement h) s1 = s1)
    by (unfold exec; rewrite (serializeElement_identified h id s1 Hid); reflexivity).
  assert (Ev : eval (serializeElement h) s1 = serialized id (dom s1 !!! h))
    by (unfold eval; rewrite (serializeElement_identified h id s1 Hid); reflexivity).
  rewrite Ex, Ev. eapply gated_trans; [exact G1|].
  split; [reflexivity|]. eexists. split; [reflexivity|].
  intros p Hin. apply list_elem_of_singleton in Hin. injection Hin as ->.
  exact Hact.
Qed.

Lemma gated_scheduleUpdate (h : Handle) (immediate : bool) (s : State) :
  Inv s -> gated s (exec (scheduleUpdate h immediate) s).
Proof.
  intros H. unfold scheduleUpdate. autorewrite with monad.
  pose proof (gated_ensureElementId h s) as G1.
  pose proof (Inv_ensureElementId h s H) as H1.
  set (s1 := exec (ensureElementId h) s) in *.
  eapply gated_trans; [exact G1|].
  destruct immediate; autorewrite with monad.
  - eapply gated_trans; [apply gated_cancelPending|].
    apply gated_flushUpdate, Inv_cancelPending, H1.
  - case_bool_decide; [apply gated_refl|].
    unfold host_requestAnimationFrame. autorewrite with monad.
    split; [reflexivity|]. eexists. split; [reflexivity|].
    apply updates_name_other. discriminate.
Qed.

Lemma emits_setActiveElement (h : Handle) (s : State) :
  Inv s -> emits_for_active s (exec (setActiveElement h) s).
Proof.
  intros H. unfold setActiveElement. autorewrite with monad.
  pose proof (Inv_ensureElementId h s H) as H1.
  destruct (ensureElementId_view h s) as (_ & Ha & Hc).
  assert (T : truthy (eval (ensureElementId h) s) = true)
    by (apply ensureElementId_truthy, H).
  set (s1 := exec (ensureElementId h) s) in *.
  set (newId := eval (ensureElementId h) s) in *.
  case_bool_decide as Hact; [apply gated_emits, gated_view; assumption|].
  autorewrite with monad.
  match goal with |- emits_for_active s (exec _ ?s3) =>
    assert (H3 : Inv s3 /\ emits_for_active s s3); [|destruct H3 as [H3 E3]]
  end.
  { destruct (activeMediaId s1) as [old|] eqn:Eold.
    - assert (Told : truthy old = true) by (apply H1, Eold).
      rewrite Told. cbn [when]. autorewrite with monad.
      pose proof (Inv_cancelPending old s1 H1) as H2.
      pose proof (cancelPending_active old s1) as E2.
      pose proof (cancelPending_calls old s1) as C2.
      set (s2 := exec (cancelPending old) s1) in *.
      split.
      + destruct H2 as [[Hrnd _] Hslot]. split.
        * split; [exact Hrnd|]. cbn. intros a [= <-]. exact T.
        * cbn. rewrite E2, Eold in Hslot. apply single_slot_removed; assumption.
      + eapply emits_silent.
        * cbn. rewrite C2, Hc, <- app_assoc. reflexivity.
        * intros p [Hin|Hin]%elem_of_app.
          -- destruct (pendingUpdates s1 !! old); cbn in Hin;
               [apply list_elem_of_singleton in Hin; discriminate Hin
               |apply elem_of_nil in Hin; exact Hin].
          -- apply list_elem_of_singleton in Hin. discriminate Hin.
    - autorewrite with monad. split.
      + destruct H1 as [[Hrnd _] Hslot]. split.
        * split; [exact Hrnd|]. cbn. intros a [= <-]. exact T.
        * cbn. rewrite Eold in Hslot. apply single_slot_vacant, Hslot.
      + apply (emits_silent _ _ []).
        * cbn. rewrite Hc, app_nil_r. reflexivity.
        * intros p Hin. apply elem_of_nil in Hin. exact Hin. }
  eapply emits_gated; [exact E3|]. apply gated_scheduleUpdate, H3.
Qed.

Lemma emits_unregisterElement (h : Handle) (s : State) :
  exists new, calls (exec (unregisterElement h) s) = calls s ++ new /\
              forall p, sendMessage (MEDIA_UPDATE p) ∉ new.
Proof.
  assert (Hnil : exists new : list HostCall, calls s = calls s ++ new /\
                   forall p, sendMessage (MEDIA_UPDATE p) ∉ new).
  { exists []. rewrite app_nil_r. split; [reflexivity|].
    intros p Hin. apply elem_of_nil in Hin. exact Hin. }
  unfold unregisterElement, element. autorewrite with monad.
  destruct (castToTvMediaId (dom s !!! h)) as [elementId|]; [|exact Hnil].
  destruct (truthy elementId); [|exact Hnil]. cbn [negb].
  autorewrite with monad.
  destruct (trackedElements s !! elementId) as [tracked_element|]; [|exact Hnil].
  autorewrite with monad.
  set (s1 := with_listening _ s).
  pose proof (cancelPending_calls elementId s1) as C2.
  set (s2 := exec (cancelPending elementId) s1) in *.
  cbn [activeMediaId with_dom with_trackedElements trackedElements_delete with_trackedOrder].
  assert (Hc : forall p, sendMessage (MEDIA_UPDATE p)
                         ∉ cancellation (pendingUpdates s1 !! elementId)).
  { intros p Hin. destruct (pendingUpdates s1 !! elementId); cbn in Hin;
      [apply list_elem_of_singleton in Hin; discriminate Hin
      |apply elem_of_nil in Hin; exact Hin]. }
  case_bool_decide as Hact.
  - autorewrite with monad. eexists. split.
    + cbn. rewrite C2, <- app_assoc. reflexivity.
    + intros p [Hin|Hin]%elem_of_app; [exact (Hc p Hin)|].
      apply list_elem_of_singleton in Hin. discriminate Hin.
  - eexists. split; [exact C2|exact Hc].
Qed.

Lemma gated_finalize (h : Handle) ok error (s : State) :
  Inv s -> gated s (exec (finalize h ok error) s).
Proof.
  intros H. unfold finalize. autorewrite with monad.
  eapply gated_trans;
    [|apply gated_scheduleUpdate, Inv_hostCall; [discriminate|exact H]].
  apply gated_hostCall. discriminate.
Qed.

Lemma gated_commandHandler (command : string) handler (h : Handle)
    (m : Command.t) (s : State) :
  commandHandlers command = Some handler ->
  gated s (exec (handler h m) s).
Proof.
  unfold commandHandlers. intros Hh.
  repeat match type of Hh with
  | (if ?c then _ else _) = _ => destruct c
  end.
  - injection Hh as <-. unfold TOGGLE_PLAY, element. autorewrite with monad.
    destruct (paused (dom s !!! h) || ended (dom s !!! h)); autorewrite with monad.
    + apply gated_hostCall. discriminate.
    + eapply gated_trans; [apply (gated_hostCall (element_pause h)); discriminate|].
      apply gated_view; reflexivity.
  - injection Hh as <-. unfold SEEK_RELATIVE.
    destruct (with_default _ _) as [| | |delta|]; try apply gated_refl.
    destruct (isFinite delta); cbn [negb]; [|apply gated_refl].
    unfold element, seekTo, element. autorewrite with monad.
    apply gated_view; reflexivity.
  - injection Hh as <-. unfold SEEK_ABSOLUTE.
    destruct (with_default _ _) as [| | |time|]; try apply gated_refl.
    destruct (isFinite time); cbn [negb]; [|apply gated_refl].
    unfold seekTo, element. autorewrite with monad.
    apply gated_view; reflexivity.
  - destruct (Object_prototype command); [|discriminate].
    injection Hh as <-. apply gated_refl.
Qed.

Lemma gated_onMessage (m : Command.t) (s : State) :
  Inv s -> gated s (exec (onMessage m) s).
Proof.
  intros H. unfold onMessage.
  destruct (negb _); [apply gated_refl|]. autorewrite with monad.
  destruct (trackedElements s !! Command.elementId m) as [h|];
    [destruct (commandHandlers (Command.command m)) as [handler|] eqn:Hh|].
  - autorewrite with monad.
    pose proof (Inv_commandHandler _ handler h m s Hh H) as H1.
    pose proof (gated_commandHandler _ handler h m s Hh) as G1.
    eapply gated_trans; [exact G1|].
    destruct (eval (handler h m) s) as [|r|k|]; autorewrite with monad.
    + apply gated_finalize, H1.
    + destruct r; apply gated_finalize, H1.
    + apply gated_view; reflexivity.
    + apply gated_refl.
  - autorewrite with monad. apply gated_hostCall. discriminate.
  - autorewrite with monad. apply gated_hostCall. discriminate.
Qed.

(** A listener sends updates only for the identifier that is active once
    it has run. *)
Lemma emits_dispatch (type : string) (h : Handle) (s : State) :
  Inv s -> emits_for_active s (exec (dispatch type h) s).
Proof.
  intros H. rewrite exec_dispatch.
  destruct (_ && _); [|apply gated_emits, gated_refl].
  unfold listener. autorewrite with monad.
  assert (H1 : Inv (exec (when (String.eqb type "play") (setActiveElement h)) s)
               /\ emits_for_active s
                    (exec (when (String.eqb type "play") (setActiveElement h)) s)).
  { destruct (String.eqb type "play"); cbn [when].
    - split; [apply Inv_setActiveElement, H|apply emits_setActiveElement, H].
    - split; [exact H|apply gated_emits, gated_refl]. }
  destruct H1 as [H1 E1]. rewrite exec_when in H1, E1.
  eapply emits_gated; [exact E1|]. apply gated_scheduleUpdate, H1.
Qed.

(** So does the handler of any event that is not a media event. *)
Lemma emits_handle (s : State) (ev : Event) :
  Inv s -> (forall h type, ev <> Media h type) ->
  emits_for_active s (exec (handle ev) s).
Proof.
  intros H Hev. destruct ev as [h|h|h type| |m|i r| |h e]; cbn [handle].
  - unfold registerElement. autorewrite with monad.
    pose proof (Inv_ensureElementId h s H) as H1.
    pose proof (gated_ensureElementId h s) as G1.
    set (s1 := exec (ensureElementId h) s) in *.
    case_bool_decide; [apply gated_emits, G1|].
    autorewrite with monad.
    match goal with |- emits_for_active s (if ?c then _ else ?s2) =>
      assert (H2 : Inv s2) by (eapply Inv_view; [| | |exact H1]; reflexivity);
      assert (G2 : gated s s2)
        by (eapply gated_trans; [exact G1|apply gated_view; reflexivity]);
      destruct c; [|apply gated_emits, G2]
    end.
    destruct (emits_setActiveElement h _ H2) as (n2 & Hc2 & Hn2).
    destruct G2 as [_ (n1 & Hc1 & _)]. cbn in Hc1.
    pose proof (ensureElementId_view h s) as (_ & _ & Hcs). fold s1 in Hcs.
    exists n2. split; [|exact Hn2]. rewrite Hc2. cbn. rewrite Hcs. reflexivity.
  - destruct (emits_unregisterElement h s) as (new & Hc & Hn).
    eapply emits_silent; eassumption.
  - destruct (Hev h type eq_refl).
  - apply gated_emits. unfold animationFrame. autorewrite with monad.
    set (s0 := with_frameCallbacks _ s).
    assert (H0 : Inv s0 /\ gated s s0)
      by (split; [eapply Inv_view; [| | |exact H]|apply gated_view]; reflexivity).
    revert H0. generalize s0. clear s0.
    induction (frameCallbacks s) as [|cb cbs IH]; intros s0 [H0 G0]; [exact G0|].
    rewrite exec_forEach_cons. apply IH.
    unfold frameCallback. autorewrite with monad.
    set (s1 := with_pendingUpdates _ s0).
    assert (H1 : Inv s1) by (eapply Inv_view; [| | |exact H0]; reflexivity).
    split; [apply Inv_flushUpdate, H1|].
    eapply gated_trans; [exact G0|].
    eapply gated_trans; [|apply gated_flushUpdate, H1].
    apply gated_view; reflexivity.
  - autorewrite with monad. apply gated_emits, gated_onMessage, H.
  - apply gated_emits. unfold playSettled. autorewrite with monad.
    destruct (awaitingPlay s !! i) as [[h k]|]; [|apply gated_refl].
    autorewrite with monad.
    set (s1 := with_awaitingPlay _ s).
    assert (H1 : Inv s1) by (eapply Inv_view; [| | |exact H]; reflexivity).
    eapply gated_trans; [apply (gated_view s s1); reflexivity|].
    destruct (k r); apply gated_finalize, H1.
  - autorewrite with monad. destruct (pagehideListener s) eqn:Harmed;
      [|apply gated_emits, gated_refl].
    unfold pagehide. autorewrite with monad.
    assert (Hsil : forall (l : list Handle) s0,
              exists new, calls (exec (forEach l unregisterElement) s0) = calls s0 ++ new /\
                          forall p, sendMessage (MEDIA_UPDATE p) ∉ new).
    { induction l as [|h l IH]; intros s0.
      - exists []. rewrite app_nil_r. split; [reflexivity|].
        intros p Hin. apply elem_of_nil in Hin. exact Hin.
      - rewrite exec_forEach_cons.
        destruct (emits_unregisterElement h s0) as (n1 & Hc1 & Hn1).
        destruct (IH (exec (unregisterElement h) s0)) as (n2 & Hc2 & Hn2).
        exists (n1 ++ n2). rewrite Hc2, Hc1, app_assoc. split; [reflexivity|].
        intros p [Hin|Hin]%elem_of_app; [exact (Hn1 p Hin)|exact (Hn2 p Hin)]. }
    match goal with |- emits_for_active _ (exec (forEach ?l _) ?s0) =>
      destruct (Hsil l s0) as (new & Hc & Hn) end.
    eapply (emits_silent s); [exact Hc|exact Hn].
  - apply gated_emits, gated_view; reflexivity.
Qed.

(** Each handler an event runs sends updates only for the identifier that
    is active once that handler has run, and keeps the invariant. *)
Lemma emits_handler (s0 s : State) (ev : Event) (m : M unit) :
  m ∈ handlers ev s0 -> Inv s ->
  emits_for_active s (exec m s) /\ Inv (exec m s).
Proof.
  intros Hm H. destruct ev as [h|h|h type| |msg|i r| |h e]; cbn [handlers] in Hm.
  3: { apply list_elem_of_fmap in Hm as (x & -> & _).
       split; [apply emits_dispatch, H|apply Inv_dispatch, H]. }
  all: apply list_elem_of_singleton in Hm as ->.
  all: (split; [apply emits_handle; [exact H|discriminate]|]).
  all: match goal with |- Inv (exec (handle ?ev) ?s1) => exact (Inv_step s1 ev H) end.
Qed.

Lemma Inv_after (ms : list (M unit)) (s0 s : State) (ev : Event) :
  ms ⊆ handlers ev s0 -> Inv s -> Inv (after ms s).
Proof.
  revert s. induction ms as [|m ms IH]; intros s Hms H; [exact H|].
  cbn. apply IH.
  - intros x Hx. apply Hms, list_elem_of_further, Hx.
  - eapply emits_handler; [apply Hms, list_elem_of_here|exact H].
Qed.

End AgentGate.

Section AgentArbitration.
Import JS StateMonad Agent.
Local Open Scope monad_scope.

Lemma outbox_app (s : State) (new : list HostCall) (tr : list HostCall) :
  calls s = tr ++ new ->
  outbox s = sent tr ++ sent new.
Proof. unfold outbox, sent. intros ->. apply omap_app. Qed.

Lemma sent_app (l1 l2 : list HostCall) : sent (l1 ++ l2) = sent l1 ++ sent l2.
Proof. apply omap_app. Qed.

Lemma cancellation_silent (pending : option nat) : sent (cancellation pending) = [].
Proof. destruct pending; reflexivity. Qed.

(** [setActiveElement] on an element other than the active one: cancel
    the outgoing element's pending flush, send its removal, switch, then
    flush the new element at once. *)
Lemma setActiveElement_preempt (hB : Handle) (a b : string) (s : State) :
  identified hB b s -> activeMediaId s = Some a -> truthy a = true -> a <> b ->
  exec (setActiveElement hB) s =
    exec (scheduleUpdate hB true)
      (with_activeMediaId (Some b)
         (with_calls (fun l => l ++ [sendMessage (MEDIA_REMOVED a)])
            (exec (cancelPending a) s))).
Proof.
  intros [E T] Ha Ta Hne. unfold setActiveElement. rewrite exec_bind.
  unfold exec at 2, eval. rewrite (ensureElementId_known hB s b E T).
  cbn [fst snd]. autorewrite with monad.
  rewrite bool_decide_eq_false_2 by congruence.
  autorewrite with monad. rewrite Ha, Ta. cbn [when].
  autorewrite with monad. reflexivity.
Qed.

(** The listener of element B, carrying identifier [b], runs for [play]
    while [a] is the active identifier. *)
Lemma listener_preempt (s : State) (hB : Handle) (a b : string) :
  activeMediaId s = Some a -> truthy a = true ->
  identified hB b s -> a <> b ->
  let s' := exec (listener hB "play") s in
  let update := sendMessage (MEDIA_UPDATE (serialized b (dom s !!! hB))) in
  calls s' = calls s
             ++ cancellation (pendingUpdates s !! a)
             ++ [sendMessage (MEDIA_REMOVED a)]
             ++ cancellation (pendingUpdates s !! b)
             ++ [update; update] /\
  outbox s' = outbox s
              ++ [MEDIA_REMOVED a;
                  MEDIA_UPDATE (serialized b (dom s !!! hB));
                  MEDIA_UPDATE (serialized b (dom s !!! hB))] /\
  activeMediaId s' = Some b /\
  pendingUpdates s' !! a = None /\
  pendingUpdates s' !! b = None /\
  (forall rafId cb, (rafId, cb) ∈ frameCallbacks s' ->
     pendingUpdates s !! a <> Some rafId /\ pendingUpdates s !! b <> Some rafId).
Proof.
  intros Ha Ta Hid Hne s' update.
  assert (Es' : s' = exec (scheduleUpdate hB true) (exec (setActiveElement hB) s)).
  { unfold s', listener. autorewrite with monad. reflexivity. }
  rewrite (setActiveElement_preempt hB a b s Hid Ha Ta Hne) in Es'.
  set (s1 := exec (cancelPending a) s) in *.
  set (s2 := with_activeMediaId (Some b)
               (with_calls (fun l => l ++ [sendMessage (MEDIA_REMOVED a)]) s1)) in *.
  assert (Hid1 : identified hB b s1) by (apply identified_cancelPending, Hid).
  assert (Hid2 : identified hB b s2) by exact Hid1.
  rewrite (scheduleUpdate_immediate hB b s2 Hid2) in Es'.
  set (s3 := exec (cancelPending b) s2) in *.
  assert (Hid3 : identified hB b s3) by (apply identified_cancelPending, Hid2).
  assert (A3 : activeMediaId s3 = Some b) by (unfold s3; rewrite cancelPending_active; reflexivity).
  rewrite (flushUpdate_identified hB b s3 Hid3), A3, bool_decide_eq_true_2 in Es' by reflexivity.
  set (s4 := with_calls _ s3) in *.
  assert (Hid4 : identified hB b s4) by exact Hid3.
  rewrite (scheduleUpdate_immediate hB b s4 Hid4) in Es'.
  set (s5 := exec (cancelPending b) s4) in *.
  assert (Hid5 : identified hB b s5) by (apply identified_cancelPending, Hid4).
  assert (A5 : activeMediaId s5 = Some b) by (unfold s5; rewrite cancelPending_active; exact A3).
  rewrite (flushUpdate_identified hB b s5 Hid5), A5, bool_decide_eq_true_2 in Es' by reflexivity.
  assert (D1 : dom s1 = dom s) by apply cancelPending_dom.
  assert (D3 : dom s3 = dom s) by (unfold s3; rewrite cancelPending_dom; exact D1).
  assert (D5 : dom s5 = dom s) by (unfold s5; rewrite cancelPending_dom; exact D3).
  assert (P1 : pendingUpdates s1 = delete a (pendingUpdates s)) by apply cancelPending_pending.
  assert (P3 : pendingUpdates s3 = delete b (delete a (pendingUpdates s))).
  { unfold s3. rewrite cancelPending_pending. cbn. rewrite P1. reflexivity. }
  assert (P5 : pendingUpdates s5 = delete b (delete a (pendingUpdates s))).
  { unfold s5. rewrite cancelPending_pending. cbn. rewrite P3.
    apply delete_id, lookup_delete_eq. }
  assert (C1 : calls s1 = calls s ++ cancellation (pendingUpdates s !! a))
    by apply cancelPending_calls.
  assert (C3 : calls s3 = (calls s1 ++ [sendMessage (MEDIA_REMOVED a)])
                          ++ cancellation (pendingUpdates s !! b)).
  { unfold s3. rewrite cancelPending_calls. cbn. rewrite P1, lookup_delete_ne by exact Hne.
    reflexivity. }
  assert (C5 : calls s5 = calls s3 ++ [sendMessage (MEDIA_UPDATE (serialized b (dom s3 !!! hB)))]).
  { unfold s5. rewrite cancelPending_calls. cbn. rewrite P3, lookup_delete_eq.
    cbn. rewrite app_nil_r. reflexivity. }
  assert (Hcalls : calls s' = calls s
             ++ cancellation (pendingUpdates s !! a)
             ++ [sendMessage (MEDIA_REMOVED a)]
             ++ cancellation (pendingUpdates s !! b)
             ++ [update; update]).
  { rewrite Es'. cbn. rewrite C5, C3, C1, D5, D3. unfold update.
    rewrite <- !app_assoc. reflexivity. }
  split; [exact Hcalls|]. split.
  { rewrite (outbox_app s' _ _ Hcalls), !sent_app, !cancellation_silent.
    reflexivity. }
  split; [rewrite Es'; exact A5|].
  split; [rewrite Es'; cbn; rewrite P5, lookup_delete_ne, lookup_delete_eq by congruence; reflexivity|].
  split; [rewrite Es'; cbn; rewrite P5, lookup_delete_eq; reflexivity|].
  intros rafId cb Hin. rewrite Es' in Hin. cbn in Hin.
  assert (F1 : forall r, pendingUpdates s !! a = Some r -> (r, cb) ∉ frameCallbacks s1).
  { intros r Hr. unfold s1. rewrite cancelPending_eq, Hr. cbn.
    intros [Hn _]%list_elem_of_filter. apply Hn. reflexivity. }
  assert (F13 : forall x, x ∈ frameCallbacks s3 -> x ∈ frameCallbacks s1).
  { intros x. unfold s3. rewrite cancelPending_eq.
    destruct (pendingUpdates s2 !! b); cbn; [|auto].
    intros [_ ?]%list_elem_of_filter. assumption. }
  assert (F3 : forall r, pendingUpdates s !! b = Some r -> (r, cb) ∉ frameCallbacks s3).
  { intros r Hr. unfold s3. rewrite cancelPending_eq.
    replace (pendingUpdates s2 !! b) with (Some r)
      by (cbn; rewrite P1, lookup_delete_ne by exact Hne; symmetry; exact Hr).
    cbn. intros [Hn _]%list_elem_of_filter. apply Hn. reflexivity. }
  assert (F35 : forall x, x ∈ frameCallbacks s5 -> x ∈ frameCallbacks s3).
  { intros x. unfold s5. rewrite cancelPending_eq.
    destruct (pendingUpdates s4 !! b); cbn; [|auto].
    intros [_ ?]%list_elem_of_filter. assumption. }
  split; intros Hr.
  - apply (F1 rafId Hr), F13, F35, Hin.
  - apply (F3 rafId Hr), F35, Hin.
Qed.

(** ** C5 *)

(** C5 (preemption order).  Element B fires [play].  The listeners are
    capturing, so those of B's tracked ancestors run first; let [s0] be
    the state in which the event reaches B, which is the state [s] it was
    fired in when no ancestor of B carries a listener.  If then B carries
    the identifier [b] and another identifier [a] is active, B's listener
    makes these host calls, in this order: the cancellation of [a]'s
    pending flush if there is one, the message [MEDIA_REMOVED a], the
    cancellation of [b]'s own pending flush if there is one, and the
    message [MEDIA_UPDATE] with B's full state, twice (once from
    [setActiveElement], once from the listener's own immediate update).
    So B's listener sends the removal of [a] followed by updates of [b],
    nothing is sent after them while the event is handled, and afterwards
    [b] is active and neither has a flush pending.  Whatever the
    listeners of the ancestors sent before, in a state that satisfies the
    agent's invariant no two identifiers are ever reported at once while
    the event is handled: an update of [b] never comes before the removal
    of an identifier reported earlier. *)
Theorem C5_preemption_order (s : State) (hB : Handle) (a b : string) :
  let s0 := captured hB "play" s in
  activeMediaId s0 = Some a -> truthy a = true ->
  identified hB b s0 -> a <> b ->
  hB ∈ listening s0 ->
  let s' := step s (Media hB "play") in
  let update := sendMessage (MEDIA_UPDATE (serialized b (dom s0 !!! hB))) in
  (outermost hB s -> s0 = s) /\
  calls s' = calls s0
             ++ cancellation (pendingUpdates s0 !! a)
             ++ [sendMessage (MEDIA_REMOVED a)]
             ++ cancellation (pendingUpdates s0 !! b)
             ++ [update; update] /\
  outbox s' = outbox s0
              ++ [MEDIA_REMOVED a;
                  MEDIA_UPDATE (serialized b (dom s0 !!! hB));
                  MEDIA_UPDATE (serialized b (dom s0 !!! hB))] /\
  activeMediaId s' = Some b /\
  pendingUpdates s' !! a = None /\
  pendingUpdates s' !! b = None /\
  (forall rafId cb, (rafId, cb) ∈ frameCallbacks s' ->
     pendingUpdates s0 !! a <> Some rafId /\ pendingUpdates s0 !! b <> Some rafId) /\
  (Inv s -> forall pre, pre `prefix_of` calls s' -> (size (reported pre) <= 1)%nat).
Proof.
  intros s0 Ha Ta Hid Hne Hl s' update.
  split; [intros Hout; apply captured_outermost, Hout|].
  assert (Es' : s' = exec (listener hB "play") s0).
  { unfold s'. rewrite step_captured, exec_dispatch. fold s0.
    rewrite !bool_decide_eq_true_2 by (assumption || (unfold MEDIA_EVENTS; set_solver)).
    reflexivity. }
  destruct (listener_preempt s0 hB a b Ha Ta Hid Hne) as (P1 & P2 & P3 & P4 & P5 & P6).
  rewrite <- Es' in P1, P2, P3, P4, P5, P6.
  split; [exact P1|]. split; [exact P2|]. split; [exact P3|]. split; [exact P4|].
  split; [exact P5|]. split; [exact P6|].
  intros Hinv pre Hpre.
  destruct (Inv_step s (Media hB "play") Hinv) as [_ (_ & Hslot & _)].
  apply Hslot, Hpre.
Qed.

End AgentArbitration.

Section AgentScheduling.
Import JS StateMonad Agent.
Local Open Scope monad_scope.

(** ** C4 *)

(** C4 (single active slot).  Take any page, any random source that
    yields non-empty identifiers and any sequence of events.  In the
    trace of the resulting state, (1) at every instant, that is after
    every prefix of the calls made so far, at most one identifier is
    reported to the registry; (2) an identifier that is reported at the
    end is the active one; (3) whatever event comes next, it is handled
    by the handlers of [handlers], one after the other (for a media
    event the capturing listeners of the tracked elements on its path,
    for any other event its one handler), and each [MEDIA_UPDATE] one of
    them sends names the identifier that is active once that handler
    has run; (4) a flush sends nothing or exactly one [MEDIA_UPDATE], and
    that one names the active identifier, which is the identifier of the
    flushed element. *)
Theorem C4_single_active_slot (page : gmap Handle MediaElement)
    (rnd : nat -> string) (evs : list Event) :
  (forall n, truthy (rnd n) = true) ->
  let s := run evs (init page rnd) in
  (forall pre, pre `prefix_of` calls s -> (size (reported pre) <= 1)%nat) /\
  (forall id, id ∈ reported (calls s) -> activeMediaId s = Some id) /\
  (forall ev,
     step s ev = after (handlers ev s) s /\
     forall done m,
       (done ++ [m]) `prefix_of` handlers ev s ->
       let before := after done s in
       exists new,
         calls (exec m before) = calls before ++ new /\
         forall payload,
           sendMessage (MEDIA_UPDATE payload) ∈ new ->
           activeMediaId (exec m before) = Some (Payload.elementId payload)) /\
  (forall h,
     calls (exec (flushUpdate h) s) = calls s \/
     exists payload,
       calls (exec (flushUpdate h) s) = calls s ++ [sendMessage (MEDIA_UPDATE payload)] /\
       activeMediaId s = Some (Payload.elementId payload) /\
       castToTvMediaId (dom (exec (flushUpdate h) s) !!! h)
         = Some (Payload.elementId payload)).
Proof.
  intros Hrnd s.
  assert (H : Inv s) by (apply Inv_run, Inv_init, Hrnd).
  assert (Hstep : forall ev done m,
            (done ++ [m]) `prefix_of` handlers ev s ->
            emits_for_active (after done s) (exec m (after done s))).
  { intros ev done m [rest Hrest].
    assert (Hin : forall x, x ∈ done ++ [m] -> x ∈ handlers ev s)
      by (intros x Hx; rewrite Hrest; apply elem_of_app; left; exact Hx).
    eapply (emits_handler s _ ev).
    - apply Hin, elem_of_app. right. apply list_elem_of_here.
    - apply (Inv_after done s s ev); [|exact H].
      intros x Hx. apply Hin, elem_of_app. left. exact Hx. }
  destruct H as [[Hr Ht] (Hrep & Hpre & _)].
  split; [exact Hpre|]. split; [exact Hrep|].
  split; [intros ev; split; [apply step_handlers|exact (Hstep ev)]|].
  intros h. unfold flushUpdate. autorewrite with monad.
  pose proof (ensureElementId_stored h s) as Hst.
  pose proof (ensureElementId_truthy h s Hr) as T.
  destruct (ensureElementId_view h s) as (_ & Ha & Hc).
  set (s1 := exec (ensureElementId h) s) in *.
  set (id := eval (ensureElementId h) s) in *.
  case_bool_decide as Hact; [right|left; exact Hc].
  autorewrite with monad.
  assert (Hid : identified h id s1) by (split; assumption).
  assert (Ex : exec (serializeElement h) s1 = s1)
    by (unfold exec; rewrite (serializeElement_identified h id s1 Hid); reflexivity).
  assert (Ev : eval (serializeElement h) s1 = serialized id (dom s1 !!! h))
    by (unfold eval; rewrite (serializeElement_identified h id s1 Hid); reflexivity).
  rewrite Ex, Ev. exists (serialized id (dom s1 !!! h)).
  cbn. rewrite Hc, <- Ha. auto.
Qed.

(** ** Progress events and frames *)

(** A [timeupdate] event on a listening element with no listener above
    it is a deferred update. *)
Lemma timeupdate_step (h : Handle) (s : State) :
  h ∈ listening s -> outermost h s ->
  step s (Media h "timeupdate") = exec (scheduleUpdate h false) s.
Proof.
  intros Hl Hout. rewrite step_outermost, exec_dispatch by exact Hout.
  rewrite !bool_decide_eq_true_2 by (assumption || (unfold MEDIA_EVENTS; set_solver)).
  cbn [andb]. unfold listener. autorewrite with monad. reflexivity.
Qed.

(** A frame leaves no callback queued: the callbacks it runs request
    none. *)
Lemma frame_clears_callbacks (s : State) : frameCallbacks (step s Frame) = [].
Proof.
  unfold step. cbn [handle]. unfold animationFrame. autorewrite with monad.
  apply (forEach_preserves (fun x => frameCallbacks x = [])); [|reflexivity].
  intros cb x Hx. unfold frameCallback, flushUpdate. autorewrite with monad.
  assert (Hens : forall h y, frameCallbacks (exec (ensureElementId h) y) = frameCallbacks y).
  { intros h y. destruct (ensureElementId_cases h y) as [(_ & _ & ->)|(_ & _ & ->)];
      reflexivity. }
  case_bool_decide; autorewrite with monad.
  - unfold serializeElement, element. autorewrite with monad. cbn.
    rewrite !Hens. exact Hx.
  - rewrite Hens. exact Hx.
Qed.

End AgentScheduling.

(* ===================================================================== *)
(** * The page agent: commands *)
(* ===================================================================== *)

Section AgentCommands.
Import JS StateMonad Agent.
Local Open Scope monad_scope.

Lemma same_playback_refl (s : State) : same_playback s s.
Proof. intros h. reflexivity. Qed.

Lemma same_playback_trans (s1 s2 s3 : State) :
  same_playback s1 s2 -> same_playback s2 s3 -> same_playback s1 s3.
Proof. intros H12 H23 h. rewrite H23. apply H12. Qed.

Lemma same_playback_dom (s s' : State) : dom s' = dom s -> same_playback s s'.
Proof. intros E h. rewrite E. reflexivity. Qed.

Lemma same_playback_ensureElementId (h : Handle) (s : State) :
  same_playback s (exec (ensureElementId h) s).
Proof.
  destruct (ensureElementId_cases h s) as [(_ & _ & ->)|(_ & _ & ->)];
    [apply same_playback_refl|].
  intros h'. cbn. destruct (decide (h = h')) as [<-|Hne].
  - rewrite lookup_total_insert_eq. reflexivity.
  - rewrite lookup_total_insert_ne by exact Hne. reflexivity.
Qed.

Lemma same_playback_flushUpdate (h : Handle) (s : State) :
  same_playback s (exec (flushUpdate h) s).
Proof.
  unfold flushUpdate. autorewrite with monad.
  pose proof (same_playback_ensureElementId h s) as H1.
  set (s1 := exec (ensureElementId h) s) in *.
  case_bool_decide; [|exact H1]. autorewrite with monad.
  eapply same_playback_trans; [exact H1|].
  unfold serializeElement, element. autorewrite with monad.
  eapply same_playback_trans; [apply (same_playback_ensureElementId h)|].
  apply same_playback_dom. reflexivity.
Qed.

Lemma same_playback_scheduleUpdate (h : Handle) (immediate : bool) (s : State) :
  same_playback s (exec (scheduleUpdate h immediate) s).
Proof.
  unfold scheduleUpdate. autorewrite with monad.
  pose proof (same_playback_ensureElementId h s) as H1.
  set (s1 := exec (ensureElementId h) s) in *.
  eapply same_playback_trans; [exact H1|].
  destruct immediate; autorewrite with monad.
  - eapply same_playback_trans; [|apply same_playback_flushUpdate].
    apply same_playback_dom, cancelPending_dom.
  - case_bool_decide; [apply same_playback_refl|].
    unfold host_requestAnimationFrame. autorewrite with monad.
    apply same_playback_dom. reflexivity.
Qed.

Lemma same_playback_finalize (h : Handle) ok error (s : State) :
  same_playback s (exec (finalize h ok error) s).
Proof.
  unfold finalize. autorewrite with monad.
  eapply same_playback_trans; [|apply same_playback_scheduleUpdate].
  apply same_playback_dom. reflexivity.
Qed.

Lemma same_playback_currentTime (s s' : State) (h : Handle) :
  same_playback s s' -> currentTime (dom s' !!! h) = currentTime (dom s !!! h).
Proof. intros H. apply (f_equal currentTime (H h)). Qed.

(** What a flush adds to the trace. *)
Lemma flushUpdate_calls (h : Handle) (s : State) :
  exists rest, calls (exec (flushUpdate h) s) = calls s ++ rest /\
               Forall flush_call rest.
Proof.
  unfold flushUpdate. autorewrite with monad.
  destruct (ensureElementId_view h s) as (_ & _ & Hc).
  set (s1 := exec (ensureElementId h) s) in *.
  case_bool_decide.
  - autorewrite with monad. unfold serializeElement, element. autorewrite with monad.
    destruct (ensureElementId_view h s1) as (_ & _ & Hc1).
    eexists. cbn. rewrite Hc1, Hc. split; [reflexivity|].
    repeat constructor.
  - exists []. rewrite app_nil_r. split; [exact Hc|constructor].
Qed.

Lemma scheduleUpdate_immediate_calls (h : Handle) (s : State) :
  exists rest, calls (exec (scheduleUpdate h true) s) = calls s ++ rest /\
               Forall flush_call rest.
Proof.
  unfold scheduleUpdate. autorewrite with monad.
  destruct (ensureElementId_view h s) as (_ & _ & Hc).
  set (s1 := exec (ensureElementId h) s) in *.
  set (id := eval (ensureElementId h) s).
  destruct (flushUpdate_calls h (exec (cancelPending id) s1)) as (rest & -> & Hrest).
  rewrite cancelPending_calls, Hc, <- app_assoc. eexists. split; [reflexivity|].
  apply Forall_app. split; [|exact Hrest].
  destruct (pendingUpdates s1 !! id); repeat constructor.
Qed.

(** The listener on a message that is a command for a tracked element
    and names an own handler or an inherited property. *)
Lemma onMessage_dispatch (m : Command.t) (h : Handle) handler (s : State) :
  Command.type m = MESSAGE_TYPES.MEDIA_COMMAND ->
  trackedElements s !! Command.elementId m = Some h ->
  commandHandlers (Command.command m) = Some handler ->
  onMessage m s =
    (let* maybePromise := handler h m in
     match maybePromise with
     | Threw => ret threw
     | Promise r => settled h r >> ret (returned true)
     | PromiseOfPlay k =>
         modify (with_awaitingPlay (fun l => l ++ [(h, k)])) >> ret (returned true)
     | NotThenable => finalize h true None >> ret (returned false)
     end) s.
Proof.
  intros Ht Hh Hc. unfold onMessage. rewrite Ht. cbn [negb String.eqb].
  change (String.eqb MESSAGE_TYPES.MEDIA_COMMAND MESSAGE_TYPES.MEDIA_COMMAND) with true.
  cbn [negb]. unfold bind at 1, gets at 1. rewrite Hh, Hc. reflexivity.
Qed.

(** The listener on a command for an unknown element, or whose name is
    neither a handler nor an inherited property: the failure
    acknowledgment and nothing else. *)
Lemma onMessage_unknown (m : Command.t) (s : State) :
  Command.type m = MESSAGE_TYPES.MEDIA_COMMAND ->
  trackedElements s !! Command.elementId m = None \/
  commandHandlers (Command.command m) = None ->
  onMessage m s =
    (returned_undefined,
     with_calls (fun l => l ++ [sendResponse {| ok := false; error := Some "unknown-element" |}]) s).
Proof.
  intros Ht H. unfold onMessage. rewrite Ht.
  change (String.eqb MESSAGE_TYPES.MEDIA_COMMAND MESSAGE_TYPES.MEDIA_COMMAND) with true.
  cbn [negb]. unfold bind at 1, gets at 1.
  destruct H as [-> | ->]; [reflexivity|].
  destruct (trackedElements s !! Command.elementId m); reflexivity.
Qed.

End AgentCommands.

Section AgentCommandClaims.
Import JS StateMonad Agent.
Local Open Scope monad_scope.

(** [finalize] on an identified element: the acknowledgment, then the
    immediate update: a cancellation if a flush was pending, and the
    [MEDIA_UPDATE] if the element is the active one. *)
Lemma finalize_identified (h : Handle) (id : string) ok error (s : State) :
  identified h id s ->
  calls (exec (finalize h ok error) s) =
    calls s ++ [sendResponse {| ok := ok; error := error |}]
            ++ cancellation (pendingUpdates s !! id)
            ++ (if bool_decide (activeMediaId s = Some id)
                then [sendMessage (MEDIA_UPDATE (serialized id (dom s !!! h)))]
                else []).
Proof.
  intros Hid. unfold finalize. autorewrite with monad.
  set (s1 := exec (hostCall _) s).
  assert (Hid1 : identified h id s1) by exact Hid.
  rewrite (scheduleUpdate_immediate h id s1 Hid1).
  rewrite (flushUpdate_identified h id _ (identified_cancelPending h id id s1 Hid1)).
  rewrite cancelPending_active, cancelPending_dom.
  change (activeMediaId s1) with (activeMediaId s). change (dom s1) with (dom s).
  case_bool_decide; cbn [calls with_calls]; rewrite cancelPending_calls;
    cbn; rewrite <- ?app_assoc, ?app_nil_r; reflexivity.
Qed.

Lemma finalize_calls (h : Handle) ok error (s : State) :
  exists rest,
    calls (exec (finalize h ok error) s)
    = calls s ++ sendResponse {| ok := ok; error := error |} :: rest /\
    Forall flush_call rest.
Proof.
  unfold finalize. autorewrite with monad.
  destruct (scheduleUpdate_immediate_calls h
              (exec (hostCall (sendResponse {| ok := ok; error := error |})) s))
    as (rest & -> & Hrest).
  exists rest. cbn. rewrite <- app_assoc. auto.
Qed.

(** A seek command whose argument is not a finite number does nothing
    before [finalize(true)]. *)
Lemma onMessage_seek_skipped (m : Command.t) (h : Handle) (x : number) (s : State) :
  Command.type m = MESSAGE_TYPES.MEDIA_COMMAND ->
  trackedElements s !! Command.elementId m = Some h ->
  isFinite x = false ->
  (Command.command m = MEDIA_COMMANDS.SEEK_RELATIVE /\ Command.delta m = VNumber x) \/
  (Command.command m = MEDIA_COMMANDS.SEEK_ABSOLUTE /\ Command.time m = VNumber x) ->
  onMessage m s = (returned false, exec (finalize h true None) s).
Proof.
  intros Ht Hh Hx [[Hc Hv]|[Hc Hv]].
  - rewrite (onMessage_dispatch m h SEEK_RELATIVE s Ht Hh) by (rewrite Hc; reflexivity).
    unfold bind at 1, SEEK_RELATIVE. rewrite Hv. cbn [with_default]. rewrite Hx.
    cbn [negb ret]. unfold bind, exec. destruct (finalize h true None s). reflexivity.
  - rewrite (onMessage_dispatch m h SEEK_ABSOLUTE s Ht Hh) by (rewrite Hc; reflexivity).
    unfold bind at 1, SEEK_ABSOLUTE. rewrite Hv. cbn [with_default]. rewrite Hx.
    cbn [negb ret]. unfold bind, exec. destruct (finalize h true None s). reflexivity.
Qed.

(** ** C10 *)

(** C10 (non-finite seek arguments).  A [seek-relative] command whose
    [delta], or a [seek-absolute] command whose [time], is a number that
    is not finite (NaN or an infinity) reaches a tracked element [h].
    Then no element of the page has a playback attribute changed, in
    particular [currentTime] of [h] is what it was; the listener answers
    [{ ok: true }] synchronously; and the immediate update runs: the
    resulting state is that of [scheduleUpdate(element, true)] after the
    acknowledgment, whose calls are the acknowledgment followed by flush
    calls only: when [h] carries the message's identifier, a
    cancellation if a flush was pending and one [MEDIA_UPDATE] if the
    element is active. *)
Theorem C10_nonfinite_seek_acknowledged (s : State) (m : Command.t)
    (h : Handle) (x : number) :
  Command.type m = MESSAGE_TYPES.MEDIA_COMMAND ->
  trackedElements s !! Command.elementId m = Some h ->
  isFinite x = false ->
  (Command.command m = MEDIA_COMMANDS.SEEK_RELATIVE /\ Command.delta m = VNumber x) \/
  (Command.command m = MEDIA_COMMANDS.SEEK_ABSOLUTE /\ Command.time m = VNumber x) ->
  let s' := exec (onMessage m) s in
  currentTime (dom s' !!! h) = currentTime (dom s !!! h) /\
  same_playback s s' /\
  eval (onMessage m) s = returned false /\
  s' = exec (scheduleUpdate h true) (with_calls (fun l => l ++ [acknowledged]) s) /\
  (exists rest, calls s' = calls s ++ acknowledged :: rest /\ Forall flush_call rest) /\
  (identified h (Command.elementId m) s ->
   calls s' = calls s ++ [acknowledged]
              ++ cancellation (pendingUpdates s !! Command.elementId m)
              ++ (if bool_decide (activeMediaId s = Some (Command.elementId m))
                  then [sendMessage (MEDIA_UPDATE
                          (serialized (Command.elementId m) (dom s !!! h)))]
                  else [])).
Proof.
  intros Ht Hh Hx Hc s'.
  pose proof (onMessage_seek_skipped m h x s Ht Hh Hx Hc) as E.
  assert (Es : s' = exec (finalize h true None) s) by (unfold s', exec at 1; rewrite E; reflexivity).
  assert (Hsame : same_playback s s') by (rewrite Es; apply same_playback_finalize).
  split; [apply same_playback_currentTime, Hsame|].
  split; [exact Hsame|].
  split; [unfold eval; rewrite E; reflexivity|].
  split; [rewrite Es; unfold finalize; autorewrite with monad; reflexivity|].
  split; [rewrite Es; apply finalize_calls|].
  intros Hid. rewrite Es. apply (finalize_identified h _ true None s Hid).
Qed.

(** ** C2 *)

(** A seek command with a finite argument seeks, then finalizes. *)
Lemma onMessage_seek (m : Command.t) (h : Handle) (target : number) (s : State) :
  Command.type m = MESSAGE_TYPES.MEDIA_COMMAND ->
  trackedElements s !! Command.elementId m = Some h ->
  (Command.command m = MEDIA_COMMANDS.SEEK_ABSOLUTE /\
   with_default (VNumber zero) (Command.time m) = VNumber target /\
   isFinite target = true) \/
  (Command.command m = MEDIA_COMMANDS.SEEK_RELATIVE /\
   exists delta, with_default (VNumber zero) (Command.delta m) = VNumber delta /\
                 isFinite delta = true /\
                 target = add (currentTime (dom s !!! h)) delta) ->
  exec (onMessage m) s = exec (finalize h true None) (exec (seekTo h target) s).
Proof.
  intros Ht Hh [(Hc & Hv & Hx)|(Hc & delta & Hv & Hx & ->)].
  - unfold exec at 1.
    rewrite (onMessage_dispatch m h SEEK_ABSOLUTE s Ht Hh) by (rewrite Hc; reflexivity).
    unfold bind at 1, SEEK_ABSOLUTE. rewrite Hv, Hx. cbn [negb].
    unfold bind at 1 2, ret at 1, exec.
    destruct (seekTo h target s) as [[] s1]. cbn [snd].
    unfold bind. destruct (finalize h true None s1). reflexivity.
  - unfold exec at 1.
    rewrite (onMessage_dispatch m h SEEK_RELATIVE s Ht Hh) by (rewrite Hc; reflexivity).
    unfold bind at 1, SEEK_RELATIVE. rewrite Hv, Hx. cbn [negb].
    unfold bind at 1 2 3, element at 1, gets at 1, ret at 1, exec.
    destruct (seekTo h _ s) as [[] s1]. cbn [snd].
    unfold bind. destruct (finalize h true None s1). reflexivity.
Qed.

Lemma seekTo_currentTime (h : Handle) (target : number) (s : State) :
  let d := duration (dom s !!! h) in
  currentTime (dom (exec (seekTo h target) s) !!! h) =
    if isFinite d && lt zero d then Math_min (Math_max zero target) d
    else if lt target zero then zero else target.
Proof.
  unfold seekTo, element. autorewrite with monad. cbn.
  rewrite lookup_total_insert_eq. cbn.
  destruct (isFinite _ && lt zero _); reflexivity.
Qed.

(** C2 (clamp law).  A seek command reaches the tracked element [h]
    with target [target]: for [seek-absolute] the finite [time] of the
    message (0 when the field is absent), for [seek-relative]
    [currentTime + delta] with a finite [delta] (0 when absent), provided
    that sum is a number.  Let [D] be the element's duration.  If [D] is
    finite and positive the resulting [currentTime] lies in [0, D]; if
    not (unknown, infinite or zero), the resulting [currentTime] equals
    [Math.max(0, target)]. *)
Theorem C2_seek_clamp (s : State) (m : Command.t) (h : Handle) (target : number) :
  Command.type m = MESSAGE_TYPES.MEDIA_COMMAND ->
  trackedElements s !! Command.elementId m = Some h ->
  (Command.command m = MEDIA_COMMANDS.SEEK_ABSOLUTE /\
   with_default (VNumber zero) (Command.time m) = VNumber target /\
   isFinite target = true) \/
  (Command.command m = MEDIA_COMMANDS.SEEK_RELATIVE /\
   exists delta, with_default (VNumber zero) (Command.delta m) = VNumber delta /\
                 isFinite delta = true /\
                 target = add (currentTime (dom s !!! h)) delta) ->
  isNaN target = false ->
  let D := duration (dom s !!! h) in
  let result := currentTime (dom (exec (onMessage m) s) !!! h) in
  (isFinite D = true -> lt zero D = true ->
   le zero result = true /\ le result D = true) /\
  (isFinite D && lt zero D = false ->
   strict_eq result (Math_max zero target) = true).
Proof.
  intros Ht Hh Hc Hn D result.
  assert (E : result =
    if isFinite D && lt zero D then Math_min (Math_max zero target) D
    else if lt target zero then zero else target).
  { unfold result. rewrite (onMessage_seek m h target s Ht Hh Hc).
    rewrite (same_playback_currentTime _ _ h (same_playback_finalize h true None _)).
    apply seekTo_currentTime. }
  split.
  - intros HD Hpos. rewrite E, HD, Hpos. cbn [andb].
    apply clamp_in_range; assumption.
  - intros HD. rewrite E, HD. apply floor_is_max, Hn.
Qed.

Lemma C2_seek_clamp_witness :
  let m := Demo.command "media-0" "seek-relative" (VNumber (of_Z (-30))) VUndefined in
  let D := duration (dom Demo.scanned !!! 1%nat) in
  let result := currentTime (dom (exec (onMessage m) Demo.scanned) !!! 1%nat) in
  D = of_Z 120 /\ le zero result = true /\ le result D = true.
Proof.
  intros m D result. split; [vm_compute; reflexivity|].
  refine (proj1 (C2_seek_clamp Demo.scanned m 1%nat (add (of_Z 10) (of_Z (-30))) _ _ _ _) _ _).
  - reflexivity.
  - vm_compute. reflexivity.
  - right. split; [reflexivity|]. exists (of_Z (-30)).
    split; [reflexivity|]. split; vm_compute; reflexivity.
  - vm_compute. reflexivity.
  - vm_compute. reflexivity.
  - vm_compute. reflexivity.
Defined.

Lemma C10_nonfinite_seek_acknowledged_witness :
  let m := Demo.command "media-0" "seek-absolute" VUndefined (VNumber NaN) in
  let s' := exec (onMessage m) Demo.scanned in
  currentTime (dom s' !!! 1%nat) = currentTime (dom Demo.scanned !!! 1%nat) /\
  eval (onMessage m) Demo.scanned = returned false.
Proof.
  intros m s'.
  destruct (C10_nonfinite_seek_acknowledged Demo.scanned m 1%nat NaN) as (H1 & _ & H2 & _).
  - reflexivity.
  - vm_compute. reflexivity.
  - reflexivity.
  - right. split; reflexivity.
  - split; [exact H1|exact H2].
Defined.

(** ** C1 *)

(** A toggle-play command on a paused or ended tracked element calls
    [play()] once and leaves the acknowledgment to the promise. *)
Lemma onMessage_toggle_play (m : Command.t) (h : Handle) (s : State) :
  Command.type m = MESSAGE_TYPES.MEDIA_COMMAND ->
  trackedElements s !! Command.elementId m = Some h ->
  Command.command m = MEDIA_COMMANDS.TOGGLE_PLAY ->
  paused (dom s !!! h) || ended (dom s !!! h) = true ->
  onMessage m s =
    (returned true,
     with_awaitingPlay (fun l => l ++ [(h, catch_ignore)])
       (with_calls (fun l => l ++ [element_play h]) s)).
Proof.
  intros Ht Hh Hc Hp.
  rewrite (onMessage_dispatch m h TOGGLE_PLAY s Ht Hh) by (rewrite Hc; reflexivity).
  unfold bind at 1, TOGGLE_PLAY, bind at 1, element, gets. rewrite Hp. reflexivity.
Qed.

(** C1 (rejected play attempt), amended.  A toggle-play command reaches
    a tracked element that is paused or ended.  The listener calls
    [play()] once, returns [true] and sends no acknowledgment yet.  When
    the host then rejects that [play()] promise, the handler's
    [catch] has swallowed the rejection: the acknowledgment sent is
    [{ ok: true }], followed by flush calls only, so [play()] is not
    called again. *)
Theorem C1_rejected_play_acknowledged_ok (s : State) (m : Command.t)
    (h : Handle) (message : option string) :
  Command.type m = MESSAGE_TYPES.MEDIA_COMMAND ->
  trackedElements s !! Command.elementId m = Some h ->
  Command.command m = MEDIA_COMMANDS.TOGGLE_PLAY ->
  paused (dom s !!! h) || ended (dom s !!! h) = true ->
  let s1 := exec (onMessage m) s in
  let s2 := exec (playSettled (length (awaitingPlay s)) (Rejected message)) s1 in
  eval (onMessage m) s = returned true /\
  calls s1 = calls s ++ [element_play h] /\
  awaitingPlay s1 = awaitingPlay s ++ [(h, catch_ignore)] /\
  awaitingPlay s2 = awaitingPlay s /\
  exists rest,
    calls s2 = calls s ++ element_play h :: acknowledged :: rest /\
    Forall flush_call rest.
Proof.
  intros Ht Hh Hc Hp s1 s2.
  pose proof (onMessage_toggle_play m h s Ht Hh Hc Hp) as E.
  assert (E1 : s1 = with_awaitingPlay (fun l => l ++ [(h, catch_ignore)])
                      (with_calls (fun l => l ++ [element_play h]) s))
    by (unfold s1, exec; rewrite E; reflexivity).
  split; [unfold eval; rewrite E; reflexivity|].
  split; [rewrite E1; reflexivity|].
  split; [rewrite E1; reflexivity|].
  assert (E2 : s2 = exec (finalize h true None)
                      (with_awaitingPlay (delete (length (awaitingPlay s))) s1)).
  { unfold s2, playSettled. autorewrite with monad.
    replace (awaitingPlay s1 !! length (awaitingPlay s)) with (Some (h, catch_ignore))
      by (rewrite E1; cbn; symmetry; apply list_lookup_middle; reflexivity).
    autorewrite with monad. reflexivity. }
  set (s1' := with_awaitingPlay (delete (length (awaitingPlay s))) s1) in *.
  assert (Hw : forall b (x : State), awaitingPlay (exec (scheduleUpdate h b) x) = awaitingPlay x).
  { intros b x. unfold scheduleUpdate. autorewrite with monad.
    assert (Hens : forall y, awaitingPlay (exec (ensureElementId h) y) = awaitingPlay y).
    { intros y. destruct (ensureElementId_cases h y) as [(_ & _ & ->)|(_ & _ & ->)]; reflexivity. }
    destruct b; autorewrite with monad.
    - unfold flushUpdate. autorewrite with monad.
      case_bool_decide; autorewrite with monad.
      + unfold serializeElement, element. autorewrite with monad. cbn.
        rewrite !Hens, cancelPending_eq.
        destruct (pendingUpdates _ !! _); cbn; apply Hens.
      + rewrite !Hens, cancelPending_eq.
        destruct (pendingUpdates _ !! _); cbn; apply Hens.
    - case_bool_decide; [apply Hens|].
      unfold host_requestAnimationFrame. autorewrite with monad. cbn. apply Hens. }
  split.
  - rewrite E2. unfold finalize. autorewrite with monad. rewrite Hw.
    unfold s1'. rewrite E1. cbn.
    rewrite (delete_middle (awaitingPlay s) []). apply app_nil_r.
  - destruct (finalize_calls h true None s1') as (rest & Hcalls & Hrest).
    exists rest. split; [|exact Hrest].
    rewrite E2, Hcalls. unfold s1'. rewrite E1. cbn. rewrite <- app_assoc. reflexivity.
Qed.

Lemma C1_rejected_play_acknowledged_ok_witness :
  let m := Demo.command "media-0" "toggle-play" VUndefined VUndefined in
  let s1 := exec (onMessage m) Demo.scanned in
  eval (onMessage m) Demo.scanned = returned true /\
  calls s1 = calls Demo.scanned ++ [element_play 1%nat].
Proof.
  intros m s1.
  destruct (C1_rejected_play_acknowledged_ok Demo.scanned m 1%nat (Some "NotAllowedError"))
    as (H1 & H2 & _).
  - reflexivity.
  - vm_compute. reflexivity.
  - reflexivity.
  - vm_compute. reflexivity.
  - split; [exact H1|exact H2].
Defined.

(** The claim as stated, that the acknowledgment of a rejected play
    attempt reports failure, does not hold: on the sample page the
    acknowledgment of the rejected attempt is [{ ok: true }] and no
    [{ ok: false }] is ever sent. *)
Lemma C1_counterexample :
  ~ (forall (s : State) (m : Command.t) (h : Handle) (message : option string),
       Command.type m = MESSAGE_TYPES.MEDIA_COMMAND ->
       trackedElements s !! Command.elementId m = Some h ->
       Command.command m = MEDIA_COMMANDS.TOGGLE_PLAY ->
       paused (dom s !!! h) || ended (dom s !!! h) = true ->
       let s1 := exec (onMessage m) s in
       let s2 := exec (playSettled (length (awaitingPlay s)) (Rejected message)) s1 in
       exists error, sendResponse {| ok := false; error := error |} ∈ calls s2).
Proof.
  intros H.
  specialize (H Demo.scanned
                (Demo.command "media-0" "toggle-play" VUndefined VUndefined)
                1%nat (Some "NotAllowedError")).
  destruct H as [error Hin].
  - reflexivity.
  - vm_compute. reflexivity.
  - reflexivity.
  - vm_compute. reflexivity.
  - remember (calls _) as tr eqn:Etr in Hin. vm_compute in Etr. subst tr.
    repeat (apply elem_of_cons in Hin as [Hin|Hin]; [discriminate Hin|]).
    apply elem_of_nil in Hin. exact Hin.
Qed.

(** ** C8 *)

(** A command whose name is a property [Object.prototype] hands to
    [commandHandlers], and that returns when called, is treated as a
    handled synchronous command. *)
Lemma onMessage_inherited (m : Command.t) (h : Handle) (s : State) :
  Command.type m = MESSAGE_TYPES.MEDIA_COMMAND ->
  trackedElements s !! Command.elementId m = Some h ->
  Object_prototype (Command.command m) = Some NotThenable ->
  onMessage m s = (returned false, exec (finalize h true None) s).
Proof.
  intros Ht Hh Hc.
  assert (Hcmd : commandHandlers (Command.command m) = Some (fun _ _ => ret NotThenable)).
  { unfold commandHandlers.
    destruct (String.eqb_spec (Command.command m) MEDIA_COMMANDS.TOGGLE_PLAY) as [E|_];
      [rewrite E in Hc; discriminate Hc|].
    destruct (String.eqb_spec (Command.command m) MEDIA_COMMANDS.SEEK_RELATIVE) as [E|_];
      [rewrite E in Hc; discriminate Hc|].
    destruct (String.eqb_spec (Command.command m) MEDIA_COMMANDS.SEEK_ABSOLUTE) as [E|_];
      [rewrite E in Hc; discriminate Hc|].
    rewrite Hc. reflexivity. }
  rewrite (onMessage_dispatch m h _ s Ht Hh Hcmd).
  unfold bind, ret, exec. destruct (finalize h true None s). reflexivity.
Qed.

(** C8 at the failing input.  The command name [toString] has no
    handler, yet for the tracked element media-0 of the sample page the
    agent answers [{ ok: true }] and flushes, where the claim has
    [{ ok: false, error: 'unknown-element' }]. *)
Theorem C8_inherited_name_acknowledged_ok :
  let m := Demo.command "media-0" "toString" VUndefined VUndefined in
  eval (onMessage m) Demo.scanned = returned false /\
  calls (exec (onMessage m) Demo.scanned) =
    calls Demo.scanned
    ++ [acknowledged;
        sendMessage (MEDIA_UPDATE (serialized "media-0" (dom Demo.scanned !!! 1%nat)))].
Proof. vm_compute. split; reflexivity. Qed.

(** What does hold: an unknown identifier, or a name that is neither a
    handler nor inherited, gets the failure acknowledgment and leaves
    every element, and the rest of the state, as it was. *)
Lemma unknown_command_rejected (m : Command.t) (s : State) :
  Command.type m = MESSAGE_TYPES.MEDIA_COMMAND ->
  trackedElements s !! Command.elementId m = None \/
  commandHandlers (Command.command m) = None ->
  let s' := exec (onMessage m) s in
  calls s' = calls s ++ [sendResponse {| ok := false; error := Some "unknown-element" |}] /\
  dom s' = dom s /\
  pendingUpdates s' = pendingUpdates s /\
  activeMediaId s' = activeMediaId s.
Proof.
  intros Ht H s'. unfold s', exec. rewrite (onMessage_unknown m s Ht H).
  repeat split.
Qed.

End AgentCommandClaims.

(* ===================================================================== *)
(** * The page agent: sample runs *)
(* ===================================================================== *)

Section AgentSamples.
Import JS StateMonad Agent.

(** On the nested page a [play] of element 2 runs two listeners: that of
    element 1, after which media-0 is still active, and that of element
    2, whose updates all name media-1, the identifier active once it has
    run. *)
Lemma C4_single_active_slot_witness :
  let s := run [Added 1%nat; Added 2%nat; Media 2%nat "play";
                Media 1%nat "timeupdate"; Frame]
               (init Demo.page Demo.rnd) in
  let before := exec (dispatch "play" 1%nat) Demo.nested in
  let s' := exec (dispatch "play" 2%nat) before in
  (forall n, truthy (Demo.rnd n) = true) /\
  (forall id, id ∈ reported (calls s) -> activeMediaId s = Some id) /\
  step Demo.nested (Media 2%nat "play") = s' /\
  activeMediaId before = Some "media-0" /\
  exists new,
    calls s' = calls before ++ new /\
    forall payload,
      sendMessage (MEDIA_UPDATE payload) ∈ new ->
      Some "media-1" = Some (Payload.elementId payload).
Proof.
  intros s before s'.
  assert (Hrnd : forall n, truthy (Demo.rnd n) = true) by (intros n; reflexivity).
  split; [exact Hrnd|].
  split; [exact (proj1 (proj2 (C4_single_active_slot Demo.page Demo.rnd _ Hrnd)))|].
  destruct (proj1 (proj2 (proj2
              (C4_single_active_slot Demo.nested_page Demo.rnd
                 [Added 1%nat; Added 2%nat] Hrnd))) (Media 2%nat "play"))
    as [Hstep Hhandlers].
  split; [unfold Demo.nested at 1; rewrite Hstep; vm_compute; reflexivity|].
  split; [vm_compute; reflexivity|].
  destruct (Hhandlers [dispatch "play" 1%nat] (dispatch "play" 2%nat))
    as (new & Hc & Hn).
  - assert (Hpath : eventPath 2%nat
                      (run [Added 1%nat; Added 2%nat] (init Demo.nested_page Demo.rnd))
                    = [1%nat; 2%nat]) by (vm_compute; reflexivity).
    exists []. cbn [handlers]. rewrite Hpath. reflexivity.
  - exists new. split; [exact Hc|].
    intros payload Hin. rewrite <- (Hn payload Hin). vm_compute. reflexivity.
Defined.

(** Element 2 of the nested page fires [play]: the listener of element
    1, its ancestor and the active element, runs first and sends an
    update of media-0; then the listener of element 2 sends the removal
    of media-0 and the two updates of media-1. *)
Lemma C5_preemption_order_witness :
  let s0 := captured 2%nat "play" Demo.nested in
  let s' := step Demo.nested (Media 2%nat "play") in
  outbox s0 = outbox Demo.nested
              ++ [MEDIA_UPDATE (serialized "media-0" (dom Demo.nested !!! 1%nat))] /\
  activeMediaId s0 = Some "media-0" /\
  activeMediaId s' = Some "media-1" /\
  outbox s' = outbox s0
              ++ [MEDIA_REMOVED "media-0";
                  MEDIA_UPDATE (serialized "media-1" (dom s0 !!! 2%nat));
                  MEDIA_UPDATE (serialized "media-1" (dom s0 !!! 2%nat))].
Proof.
  intros s0 s'.
  assert (Ha : activeMediaId s0 = Some "media-0") by (vm_compute; reflexivity).
  destruct (C5_preemption_order Demo.nested 2%nat "media-0" "media-1")
    as (_ & _ & Hout & Hact & _).
  - exact Ha.
  - reflexivity.
  - split; [vm_compute; reflexivity|reflexivity].
  - discriminate.
  - apply (bool_decide_unpack _). vm_compute. exact I.
  - split; [vm_compute; reflexivity|].
    split; [exact Ha|]. split; [exact Hact|exact Hout].
Defined.

(** The claim as stated, exactly one [MEDIA_UPDATE] whatever the element,
    does not hold: element 2 of the sample page is tracked but not
    active, and three [timeupdate] events and a frame send nothing. *)
Lemma C9_counterexample :
  ~ (forall (s : State) (h : Handle) (id : string) (n : nat),
       identified h id s -> h ∈ listening s ->
       pendingUpdates s !! id = None -> frameCallbacks s = [] ->
       exists payload,
         outbox (step (run (replicate (S n) (Media h "timeupdate")) s) Frame)
         = outbox s ++ [MEDIA_UPDATE payload]).
Proof.
  intros H.
  destruct (H Demo.scanned 2%nat "media-1" 2%nat) as [payload Hout].
  - split; [vm_compute; reflexivity|reflexivity].
  - apply (bool_decide_unpack _). vm_compute. exact I.
  - vm_compute. reflexivity.
  - vm_compute. reflexivity.
  - apply (f_equal length) in Hout. rewrite length_app in Hout.
    remember (length (outbox (step _ Frame))) as a eqn:Ea in Hout.
    remember (length (outbox Demo.scanned)) as b eqn:Eb in Hout.
    vm_compute in Ea, Eb. subst a b. cbn in Hout. discriminate Hout.
Qed.

End AgentSamples.

(* ===================================================================== *)
(** * The session registry *)
(* ===================================================================== *)

Section MapFacts.
Import JS.
Context {V : Type}.

Lemma Map_delete_keys (k k0 : string) (m : Map V) :
  k0 ∈ map fst (Map_delete k m) -> k0 ∈ map fst m.
Proof.
  induction m as [|[k' v] m IH]; cbn; [auto|].
  destruct (String.eqb k' k); cbn.
  - intros H. apply elem_of_cons. right. exact H.
  - intros [->|H]%elem_of_cons; apply elem_of_cons; [left|right]; auto.
Qed.

Lemma Map_delete_wf (k : string) (m : Map V) :
  Map_wf m -> Map_wf (Map_delete k m).
Proof.
  unfold Map_wf. induction m as [|[k' v] m IH]; intros H; [exact H|].
  cbn in *. apply NoDup_cons in H as [Hk H].
  destruct (String.eqb k' k); [exact H|].
  cbn. apply NoDup_cons. split; [|apply IH, H].
  intros Hin. apply Hk, (Map_delete_keys k k' m), Hin.
Qed.

Lemma Map_set_keys (k k0 : string) (v : V) (m : Map V) :
  k0 ∈ map fst (Map_set k v m) -> k0 = k \/ k0 ∈ map fst m.
Proof.
  induction m as [|[k' v'] m IH]; cbn.
  - intros [->|H]%elem_of_cons; auto.
  - destruct (String.eqb_spec k' k) as [->|_]; cbn.
    + intros [->|H]%elem_of_cons; [left; reflexivity|].
      right. apply elem_of_cons. right. exact H.
    + intros [->|H]%elem_of_cons.
      * right. apply elem_of_cons. left. reflexivity.
      * destruct (IH H) as [->|H']; [left; reflexivity|].
        right. apply elem_of_cons. right. exact H'.
Qed.

Lemma Map_set_wf (k : string) (v : V) (m : Map V) :
  Map_wf m -> Map_wf (Map_set k v m).
Proof.
  unfold Map_wf. induction m as [|[k' v'] m IH]; intros H.
  - cbn. apply NoDup_singleton.
  - cbn in *. apply NoDup_cons in H as [Hk H].
    destruct (String.eqb_spec k' k) as [->|Hne]; cbn.
    + apply NoDup_cons. auto.
    + apply NoDup_cons. split; [|apply IH, H].
      intros [->|Hin]%Map_set_keys; [apply Hne; reflexivity|apply Hk, Hin].
Qed.

(** Deleting a key removes its entry and keeps the others in place. *)
Lemma Map_delete_middle (k : string) (v : V) (m1 m2 : Map V) :
  k ∉ map fst m1 ->
  Map_delete k (m1 ++ (k, v) :: m2) = m1 ++ m2.
Proof.
  induction m1 as [|[k' v'] m1 IH]; intros Hk; cbn.
  - rewrite String.eqb_refl. reflexivity.
  - cbn in Hk. apply not_elem_of_cons in Hk as [Hne Hk].
    destruct (String.eqb_spec k' k) as [->|_]; [destruct Hne; reflexivity|].
    rewrite IH by exact Hk. reflexivity.
Qed.

End MapFacts.

Section SortFacts.
Import JS.
Context {A : Type} (compareFn : A -> A -> Z).

(** The comparator relates any two elements one way or the other. *)
Hypothesis compareFn_total : forall x y, compareFn x y <= 0 \/ compareFn y x <= 0.

Let before (x y : A) : Prop := compareFn x y <= 0.

Lemma sort_insert_HdRel (y x : A) (l : list A) :
  before y x -> HdRel before y l -> HdRel before y (sort_insert compareFn x l).
Proof.
  intros Hyx Hl. destruct l as [|z l]; cbn; [constructor; exact Hyx|].
  destruct (compareFn x z <=? 0); constructor; [exact Hyx|].
  inversion Hl; assumption.
Qed.

Lemma sort_insert_Sorted (x : A) (l : list A) :
  Sorted before l -> Sorted before (sort_insert compareFn x l).
Proof.
  induction 1 as [|y l Hl IH Hhd]; cbn.
  - repeat constructor.
  - destruct (Z.leb_spec (compareFn x y) 0) as [Hle|Hgt].
    + repeat constructor; assumption.
    + constructor; [exact IH|]. apply sort_insert_HdRel; [|exact Hhd].
      destruct (compareFn_total x y) as [H|H]; [lia|exact H].
Qed.

Lemma Array_sort_Sorted (l : list A) : Sorted before (Array_sort compareFn l).
Proof.
  induction l as [|x l IH]; cbn; [constructor|].
  apply sort_insert_Sorted, IH.
Qed.

Lemma sort_insert_Permutation (x : A) (l : list A) :
  Permutation (x :: l) (sort_insert compareFn x l).
Proof.
  induction l as [|y l IH]; cbn; [reflexivity|].
  destruct (compareFn x y <=? 0); [reflexivity|].
  rewrite perm_swap. constructor. exact IH.
Qed.

(** Sorting keeps the elements. *)
Lemma Array_sort_Permutation (l : list A) : Permutation l (Array_sort compareFn l).
Proof.
  induction l as [|x l IH]; cbn; [reflexivity|].
  rewrite <- sort_insert_Permutation. constructor. exact IH.
Qed.

Lemma Sorted_adjacent (l : list A) :
  Sorted before l ->
  forall (i : nat) (x y : A), l !! i = Some x -> l !! S i = Some y -> before x y.
Proof.
  induction 1 as [|z l Hl IH Hhd]; intros i x y Hx Hy; [discriminate|].
  destruct i as [|i]; cbn in *.
  - injection Hx as ->. destruct l as [|w l]; [discriminate|].
    cbn in Hy. injection Hy as ->. inversion Hhd; assumption.
  - eapply IH; eassumption.
Qed.

End SortFacts.

Section RegistryFacts.
Import JS StateMonad Registry.
Local Open Scope monad_scope.

Variable URL_hostname : string -> option string.

Lemma compareFn_total (x y : Session) : compareFn x y <= 0 \/ compareFn y x <= 0.
Proof.
  unfold compareFn. destruct (isPlaying x), (isPlaying y); cbn; lia.
Qed.

Lemma compareFn_in_order (x y : Session) : compareFn x y <= 0 -> in_order x y.
Proof.
  unfold compareFn, in_order.
  destruct (isPlaying x), (isPlaying y); cbn; intros H; split; intros; try lia;
    congruence.
Qed.

(** The list [serializeSessions] returns is in order and has the
    sessions of the map, each once. *)
Lemma snapshot_in_order (m : Map Session) : adjacent_in_order (snapshot m).
Proof.
  intros i x y Hx Hy. apply compareFn_in_order.
  exact (Sorted_adjacent compareFn _ (Array_sort_Sorted compareFn compareFn_total _)
           i x y Hx Hy).
Qed.

Lemma snapshot_Permutation (m : Map Session) : Permutation (Map_values m) (snapshot m).
Proof. apply Array_sort_Permutation. Qed.

Lemma exec_serializeSessions (s : State) : exec serializeSessions s = s.
Proof. reflexivity. Qed.

Lemma eval_serializeSessions (s : State) :
  eval serializeSessions s = snapshot (mediaSessions s).
Proof. reflexivity. Qed.

Lemma forEach_postMessage (ports : list nat) (sessions : list Session) (s : State) :
  exec (forEach ports (fun port => hostCall (port_postMessage port sessions))) s
  = with_calls (fun l => l ++ broadcast ports sessions) s.
Proof.
  revert s. induction ports as [|port ports IH]; intros s.
  - destruct s. unfold with_calls, broadcast. cbn. rewrite app_nil_r. reflexivity.
  - rewrite exec_forEach_cons, IH. destruct s. unfold with_calls, broadcast. cbn.
    rewrite <- app_assoc. reflexivity.
Qed.

(** A broadcast posts the current snapshot once to each connected port
    and changes nothing else. *)
Lemma broadcastSessions_eq (s : State) :
  exec broadcastSessions s
  = with_calls (fun l => l ++ broadcast (popupPorts s) (snapshot (mediaSessions s))) s.
Proof.
  unfold broadcastSessions. autorewrite with monad.
  apply forEach_postMessage.
Qed.

Lemma with_mediaSessions_id (s : State) (m : Map Session) :
  mediaSessions s = m -> set_mediaSessions m s = s.
Proof. intros <-. destruct s. reflexivity. Qed.

(** The eviction loop: with [kept] the entries already passed over and
    [entries] those still to visit, it leaves [kept] followed by the
    surviving entries and reports whether it deleted any. *)
Lemma evict_eq (t : Z) (entries : list (string * Session)) :
  forall (kept : Map Session) (hasChanges : bool) (s : State),
    mediaSessions s = kept ++ entries ->
    Map_wf (kept ++ entries) ->
    evict t entries hasChanges s =
      (hasChanges || existsb (fun kv => tabId kv.2 =? t) entries,
       set_mediaSessions (kept ++ surviving t entries) s).
Proof.
  induction entries as [|[k v] rest IH]; intros kept flag s Hm Hwf.
  - cbn. rewrite orb_false_r, with_mediaSessions_id by exact Hm. reflexivity.
  - cbn [evict existsb snd]. unfold surviving. rewrite filter_cons. cbn [snd].
    destruct (Z.eqb_spec (tabId v) t) as [Ht|Ht].
    + rewrite decide_False by (intros Hn; apply Hn, Ht).
      unfold bind at 1, modify at 1.
      assert (Hk : k ∉ map fst kept).
      { unfold Map_wf in Hwf. rewrite map_app in Hwf.
        apply NoDup_app in Hwf as (_ & Hdis & _).
        intros Hin. apply (Hdis k Hin). cbn. left. }
      rewrite (IH kept true (with_mediaSessions (Map_delete k) s)).
      * rewrite orb_true_r. reflexivity.
      * cbn. rewrite Hm. apply Map_delete_middle, Hk.
      * rewrite <- (Map_delete_middle k v kept rest Hk). apply Map_delete_wf, Hwf.
    + rewrite decide_True by exact Ht.
      rewrite (IH (kept ++ [(k, v)]) flag s).
      * rewrite <- app_assoc. reflexivity.
      * rewrite <- app_assoc. exact Hm.
      * rewrite <- app_assoc. exact Hwf.
Qed.

Lemma onRemoved_eq (t : Z) (s : State) :
  Map_wf (mediaSessions s) ->
  exec (onRemoved t) s =
    let evicted := set_mediaSessions (surviving t (mediaSessions s)) s in
    if existsb (fun kv => tabId kv.2 =? t) (mediaSessions s)
    then exec broadcastSessions evicted
    else evicted.
Proof.
  intros Hwf. unfold onRemoved. autorewrite with monad.
  pose proof (evict_eq t (mediaSessions s) [] false s eq_refl Hwf) as E.
  assert (Ex : exec (evict t (mediaSessions s) false) s
               = set_mediaSessions (surviving t (mediaSessions s)) s)
    by (unfold exec; rewrite E; reflexivity).
  assert (Ev : eval (evict t (mediaSessions s) false) s
               = existsb (fun kv => tabId kv.2 =? t) (mediaSessions s))
    by (unfold eval; rewrite E; reflexivity).
  rewrite Ex, Ev. reflexivity.
Qed.

Lemma surviving_all (t : Z) (m : Map Session) :
  (forall k session, (k, session) ∈ m -> tabId session <> t) ->
  surviving t m = m /\ existsb (fun kv => tabId kv.2 =? t) m = false.
Proof.
  induction m as [|[k v] m IH]; intros H; [split; reflexivity|].
  unfold surviving in *. rewrite filter_cons. cbn [existsb snd].
  assert (Hv : tabId v <> t) by (apply (H k); left).
  rewrite decide_True by exact Hv.
  destruct IH as [-> ->]; [intros k' v' Hin; apply (H k'); right; exact Hin|].
  rewrite (proj2 (Z.eqb_neq _ _) Hv). split; reflexivity.
Qed.

Lemma surviving_owned (t : Z) (m : Map Session) :
  forall k session, (k, session) ∈ surviving t m -> tabId session <> t.
Proof.
  intros k v [H _]%list_elem_of_filter. exact H.
Qed.

Lemma surviving_wf (t : Z) (m : Map Session) : Map_wf m -> Map_wf (surviving t m).
Proof.
  unfold Map_wf, surviving. induction m as [|[k v] m IH]; intros H; [exact H|].
  cbn in H. apply NoDup_cons in H as [Hk H]. rewrite filter_cons.
  destruct (decide _); [|apply IH, H].
  cbn. apply NoDup_cons. split; [|apply IH, H].
  intros Hin. apply Hk. apply list_elem_of_fmap in Hin as ([k' v'] & -> & Hin).
  apply list_elem_of_filter in Hin as [_ Hin].
  apply list_elem_of_fmap. exists (k', v'). auto.
Qed.

Lemma existsb_owned (t : Z) (m : Map Session) :
  (exists k session, (k, session) ∈ m /\ tabId session = t) ->
  existsb (fun kv => tabId kv.2 =? t) m = true.
Proof.
  intros (k & v & Hin & Ht). apply existsb_exists. exists (k, v). split.
  - apply list_elem_of_In, Hin.
  - cbn. apply Z.eqb_eq, Ht.
Qed.

(** ** C6 *)

(** C6 (eviction).  Closing tab [t] leaves in the session map exactly
    the sessions of other tabs, in their order, and touches no port.  If
    some session belonged to [t], the listener runs [broadcastSessions]
    once on the evicted map: one message with the new snapshot per
    connected port.  If none did, the state is unchanged: nothing is
    posted.  Evicting [t] again right away changes nothing either. *)
Theorem C6_eviction (s : State) (t : Z) :
  Map_wf (mediaSessions s) ->
  let s' := exec (onRemoved t) s in
  let evicted := set_mediaSessions (surviving t (mediaSessions s)) s in
  mediaSessions s' = surviving t (mediaSessions s) /\
  popupPorts s' = popupPorts s /\
  ((exists k session, (k, session) ∈ mediaSessions s /\ tabId session = t) ->
   s' = exec broadcastSessions evicted /\
   calls s' = calls s
              ++ broadcast (popupPorts s) (snapshot (surviving t (mediaSessions s)))) /\
  ((forall k session, (k, session) ∈ mediaSessions s -> tabId session <> t) ->
   s' = s) /\
  exec (onRemoved t) s' = s'.
Proof.
  intros Hwf s' evicted.
  assert (E : s' = if existsb (fun kv => tabId kv.2 =? t) (mediaSessions s)
                   then exec broadcastSessions evicted else evicted)
    by apply (onRemoved_eq t s Hwf).
  assert (Hm : mediaSessions s' = surviving t (mediaSessions s)).
  { rewrite E. destruct (existsb _ _); [rewrite broadcastSessions_eq|]; reflexivity. }
  split; [exact Hm|].
  split; [rewrite E; destruct (existsb _ _); [rewrite broadcastSessions_eq|]; reflexivity|].
  split; [|split].
  - intros Hex. rewrite E, (existsb_owned t _ Hex).
    split; [reflexivity|]. rewrite broadcastSessions_eq. reflexivity.
  - intros Hnone. destruct (surviving_all t _ Hnone) as [Hs He].
    rewrite E, He. unfold evicted. rewrite Hs. apply with_mediaSessions_id. reflexivity.
  - assert (Hwf' : Map_wf (mediaSessions s')) by (rewrite Hm; apply surviving_wf, Hwf).
    rewrite (onRemoved_eq t s' Hwf'). cbn zeta.
    destruct (surviving_all t (mediaSessions s')) as [-> ->].
    + rewrite Hm. apply surviving_owned.
    + apply with_mediaSessions_id. reflexivity.
Qed.

(** ** C7 *)

(** C7 (command drop).  A command whose [sessionId] is not a key of the
    session map leaves the worker's state as it is: the session map is
    not changed and nothing is sent to any tab or posted to any port, the
    sender's included. *)
Theorem C7_unknown_session_dropped (s : State) (port : nat) (message : PortMessage) :
  Map_has (pm_sessionId message) (mediaSessions s) = false ->
  dispatchMediaCommand message s = (tt, s) /\
  step URL_hostname s (PortPost port message) = s.
Proof.
  intros Hhas.
  assert (E : dispatchMediaCommand message s = (tt, s)).
  { unfold dispatchMediaCommand, bind, gets. rewrite Hhas, orb_true_r. reflexivity. }
  split; [exact E|].
  unfold step. cbn [handle]. autorewrite with monad.
  destruct (bool_decide _); [|reflexivity]. cbn [when].
  unfold onPortMessage. destruct (String.eqb _ _); [|reflexivity].
  cbn [when]. unfold exec. rewrite E. reflexivity.
Qed.

(** ** C3 *)

Lemma pushed_snoc (s : State) (c : HostCall) :
  pushed (exec (hostCall c) s)
  = pushed s ++ match c with port_postMessage _ l => [l] | _ => [] end.
Proof.
  unfold pushed. cbn. rewrite omap_app. destruct c; reflexivity.
Qed.

Lemma pushed_in_order_view (s s' : State) :
  calls s' = calls s -> pushed_in_order s -> pushed_in_order s'.
Proof. unfold pushed_in_order, pushed. intros ->. auto. Qed.

Lemma pushed_in_order_post (port : nat) (s s0 : State) :
  pushed_in_order s ->
  pushed_in_order (exec (hostCall (port_postMessage port (snapshot (mediaSessions s0)))) s).
Proof.
  intros H. unfold pushed_in_order. rewrite pushed_snoc.
  apply Forall_app. split; [exact H|].
  constructor; [apply snapshot_in_order|constructor].
Qed.

Lemma pushed_in_order_broadcastSessions (s : State) :
  pushed_in_order s -> pushed_in_order (exec broadcastSessions s).
Proof.
  intros H. unfold broadcastSessions. autorewrite with monad.
  rewrite ?exec_serializeSessions, ?eval_serializeSessions.
  apply forEach_preserves; [|exact H].
  intros port s'. apply pushed_in_order_post.
Qed.

Lemma evict_calls (t : Z) (entries : list (string * Session)) :
  forall (hasChanges : bool) (s : State),
    calls (exec (evict t entries hasChanges) s) = calls s.
Proof.
  induction entries as [|[k v] rest IH]; intros flag s; [reflexivity|].
  cbn [evict]. destruct (tabId v =? t); [|apply IH].
  autorewrite with monad. rewrite IH. reflexivity.
Qed.

Lemma pushed_in_order_step (s : State) (ev : Event) :
  pushed_in_order s -> pushed_in_order (step URL_hostname s ev).
Proof.
  intros H. unfold step.
  destruct ev as [message sender now|port name|port|port message|t]; cbn [handle].
  - destruct message as [payload|payload|]; cbn [onMessage]; [| |exact H].
    + unfold handleMediaUpdate.
      destruct (tab_id <$> sender_tab sender) as [tabId|]; [|exact H].
      destruct (Payload.elementId payload) as [elementId|]; [|exact H].
      destruct (_ || _); [exact H|].
      destruct (normalizePayload _ _ _) as [[sourceUrl origin] siteName].
      autorewrite with monad. apply pushed_in_order_broadcastSessions.
      eapply pushed_in_order_view; [|exact H]. reflexivity.
    + unfold handleMediaRemoved.
      destruct (tab_id <$> sender_tab sender) as [tabId|]; [|exact H].
      destruct (Payload.elementId payload) as [elementId|]; [|exact H].
      destruct (_ || _); [exact H|].
      autorewrite with monad.
      destruct (Map_has _ _).
      * apply pushed_in_order_broadcastSessions.
        eapply pushed_in_order_view; [|exact H]. reflexivity.
      * eapply pushed_in_order_view; [|exact H]. reflexivity.
  - unfold onConnect. destruct (negb _); [exact H|].
    autorewrite with monad. rewrite ?exec_serializeSessions, ?eval_serializeSessions.
    apply pushed_in_order_post.
    eapply pushed_in_order_view; [|exact H]. reflexivity.
  - autorewrite with monad. destruct (bool_decide _); [|exact H].
    eapply pushed_in_order_view; [|exact H]. reflexivity.
  - autorewrite with monad. destruct (bool_decide _); [|exact H].
    unfold onPortMessage. destruct (String.eqb _ _); [|exact H]. cbn [when].
    unfold dispatchMediaCommand. autorewrite with monad.
    destruct (_ || _); [exact H|].
    destruct (Map_get _ _); [|exact H].
    unfold pushed_in_order. rewrite pushed_snoc, app_nil_r. exact H.
  - unfold onRemoved. autorewrite with monad.
    assert (H1 : pushed_in_order (exec (evict t (mediaSessions s) false) s))
      by (eapply pushed_in_order_view; [apply evict_calls|exact H]).
    destruct (eval _ s); [|exact H1].
    apply pushed_in_order_broadcastSessions, H1.
Qed.

Lemma pushed_in_order_run (evs : list Event) :
  pushed_in_order (run URL_hostname evs init).
Proof.
  assert (H : pushed_in_order init) by constructor.
  revert H. generalize init. induction evs as [|ev evs IH]; intros s H; [exact H|].
  cbn. apply IH, pushed_in_order_step, H.
Qed.

(** ** Reachable session maps are maps *)

Lemma evict_wf (t : Z) (entries : list (string * Session)) :
  forall (hasChanges : bool) (s : State),
    Map_wf (mediaSessions s) ->
    Map_wf (mediaSessions (exec (evict t entries hasChanges) s)).
Proof.
  induction entries as [|[k v] rest IH]; intros flag s H; [exact H|].
  cbn [evict]. destruct (tabId v =? t); [|apply IH, H].
  autorewrite with monad. apply IH. cbn. apply Map_delete_wf, H.
Qed.

Lemma step_wf (s : State) (ev : Event) :
  Map_wf (mediaSessions s) -> Map_wf (mediaSessions (step URL_hostname s ev)).
Proof.
  intros H. unfold step.
  destruct ev as [message sender now|port name|port|port message|t]; cbn [handle].
  - destruct message as [payload|payload|]; cbn [onMessage]; [| |exact H].
    + unfold handleMediaUpdate.
      destruct (tab_id <$> sender_tab sender) as [tabId|]; [|exact H].
      destruct (Payload.elementId payload) as [elementId|]; [|exact H].
      destruct (_ || _); [exact H|].
      destruct (normalizePayload _ _ _) as [[sourceUrl origin] siteName].
      autorewrite with monad. rewrite broadcastSessions_eq. cbn.
      apply Map_set_wf, H.
    + unfold handleMediaRemoved.
      destruct (tab_id <$> sender_tab sender) as [tabId|]; [|exact H].
      destruct (Payload.elementId payload) as [elementId|]; [|exact H].
      destruct (_ || _); [exact H|].
      autorewrite with monad.
      destruct (Map_has _ _); [rewrite broadcastSessions_eq|]; cbn;
        apply Map_delete_wf, H.
  - unfold onConnect. destruct (negb _); [exact H|].
    autorewrite with monad. exact H.
  - autorewrite with monad. destruct (bool_decide _); exact H.
  - autorewrite with monad. destruct (bool_decide _); [|exact H].
    unfold onPortMessage. destruct (String.eqb _ _); [|exact H]. cbn [when].
    unfold dispatchMediaCommand. autorewrite with monad.
    destruct (_ || _); [exact H|].
    destruct (Map_get _ _); exact H.
  - unfold onRemoved. autorewrite with monad.
    pose proof (evict_wf t (mediaSessions s) false s H) as H1.
    destruct (eval _ s); [rewrite broadcastSessions_eq|]; exact H1.
Qed.

(** The hypothesis of C6 holds in every state the worker can reach. *)
Lemma run_wf (evs : list Event) : Map_wf (mediaSessions (run URL_hostname evs init)).
Proof.
  assert (H : Map_wf (mediaSessions init)) by constructor.
  revert H. generalize init. induction evs as [|ev evs IH]; intros s H; [exact H|].
  cbn. apply IH, step_wf, H.
Qed.

End RegistryFacts.

Section RegistrySamples.
Import JS StateMonad Registry.

Lemma C6_eviction_witness :
  let s' := exec (onRemoved 1) Demo.registry in
  map fst (mediaSessions Demo.registry) = ["1:a"; "2:b"; "1:c"] /\
  map fst (mediaSessions s') = ["2:b"] /\
  exec (onRemoved 1) s' = s'.
Proof.
  intros s'. split; [vm_compute; reflexivity|].
  destruct (C6_eviction Demo.registry 1) as (Hm & _ & _ & _ & Hagain).
  - apply (bool_decide_unpack _). vm_compute. exact I.
  - split; [|exact Hagain]. fold s' in Hm. rewrite Hm. vm_compute. reflexivity.
Defined.

Lemma C7_unknown_session_dropped_witness :
  step Demo.after_slashes Demo.registry (PortPost 7%nat (Demo.popup_command "1:z"))
  = Demo.registry.
Proof.
  refine (proj2 (C7_unknown_session_dropped Demo.after_slashes Demo.registry 7%nat
                   (Demo.popup_command "1:z") _)).
  vm_compute. reflexivity.
Defined.

End RegistrySamples.

(* ===================================================================== *)
(** * The agent's messages in the worker's map *)
(* ===================================================================== *)

Section AgentToRegistry.
Import JS StateMonad.

Variable URL_hostname : string -> option string.
Variable sender : Registry.Sender.
Variable tabId : Z.
Hypothesis sender_tab_id : Registry.tab_id <$> Registry.sender_tab sender = Some tabId.
Hypothesis tabId_truthy : tabId <> 0.

Lemma append_cancel (p a b : string) : p +:+ a = p +:+ b -> a = b.
Proof. induction p as [|c p IH]; cbn; [auto|]. intros [= H]. auto. Qed.

Lemma buildSessionId_inj (a b : string) :
  Registry.buildSessionId tabId a = Registry.buildSessionId tabId b -> a = b.
Proof.
  unfold Registry.buildSessionId. intros H.
  apply append_cancel in H. apply append_cancel in H. exact H.
Qed.

Lemma Map_set_key_in {V} (k k0 : string) (v : V) (m : Map V) :
  k0 = k \/ k0 ∈ map fst m -> k0 ∈ map fst (Map_set k v m).
Proof.
  induction m as [|[k' v'] m IH]; cbn.
  - intros [->|H]; [apply elem_of_cons; left; reflexivity|].
    apply elem_of_nil in H. destruct H.
  - destruct (String.eqb_spec k' k) as [->|Hne]; cbn.
    + intros [->|H]; [apply elem_of_cons; left; reflexivity|exact H].
    + intros [->|[->|H]%elem_of_cons]; apply elem_of_cons.
      * right. apply IH. left. reflexivity.
      * left. reflexivity.
      * right. apply IH. right. exact H.
Qed.

Lemma Map_delete_key_in {V} (k k0 : string) (m : Map V) :
  Map_wf m ->
  (k0 ∈ map fst (Map_delete k m) <-> k0 ∈ map fst m /\ k0 <> k).
Proof.
  unfold Map_wf. induction m as [|[k' v'] m IH]; cbn; intros Hwf.
  - split; [intros H; apply elem_of_nil in H; destruct H|intros [H _]; exact H].
  - apply NoDup_cons in Hwf as [Hk Hwf].
    destruct (String.eqb_spec k' k) as [->|Hne]; cbn.
    + split.
      * intros H. split; [apply elem_of_cons; right; exact H|].
        intros ->. exact (Hk H).
      * intros [[->|H]%elem_of_cons Hn]; [destruct Hn; reflexivity|exact H].
    + rewrite !elem_of_cons, (IH Hwf). split.
      * intros [->|[H Hn]]; auto.
      * intros [[->|H] Hn]; auto.
Qed.

Lemma Map_has_key {V} (k : string) (m : Map V) :
  Map_has k m = true <-> k ∈ map fst m.
Proof.
  unfold Map_has. induction m as [|[k' v'] m IH]; cbn.
  - split; [discriminate|intros H; apply elem_of_nil in H; destruct H].
  - destruct (String.eqb_spec k' k) as [->|Hne].
    + split; [intros _; apply elem_of_cons; left; reflexivity|reflexivity].
    + rewrite IH, elem_of_cons. split; [auto|].
      intros [->|H]; [destruct Hne; reflexivity|exact H].
Qed.

Local Abbreviation holds := (Wire.holds tabId).

Lemma holds_deliver (s : Registry.State) (alive : gset string)
    (m : Agent.Message) (now : Z) :
  truthy (Agent.message_elementId m) = true ->
  holds s alive ->
  holds (Registry.step URL_hostname s (Registry.Message (Wire.message m) sender now))
        (Agent.registry_step alive (Agent.sendMessage m)).
Proof.
  intros T [Hwf Hkeys]. unfold Registry.step. cbn [Registry.handle].
  destruct m as [p|id];
    cbn [Wire.message Registry.onMessage Agent.message_elementId Agent.registry_step] in *.
  - unfold Registry.handleMediaUpdate. rewrite sender_tab_id.
    cbn [Wire.update Registry.Payload.elementId].
    rewrite (proj2 (Z.eqb_neq _ _) tabId_truthy), T. cbn [orb negb].
    destruct (Registry.normalizePayload _ _ _) as [[sourceUrl origin] siteName].
    autorewrite with monad. rewrite broadcastSessions_eq. cbn.
    split; [apply Map_set_wf, Hwf|].
    intros k. split.
    + intros [->|Hin]%Map_set_keys.
      * exists (Agent.Payload.elementId p). split; [|reflexivity].
        apply elem_of_union. left. apply elem_of_singleton. reflexivity.
      * apply Hkeys in Hin as (id & Hid & ->). exists id. split; [|reflexivity].
        apply elem_of_union. right. exact Hid.
    + intros (id & [->%elem_of_singleton|Hid]%elem_of_union & ->);
        apply Map_set_key_in; [left; reflexivity|right].
      apply Hkeys. exists id. auto.
  - unfold Registry.handleMediaRemoved. rewrite sender_tab_id.
    cbn [Wire.removed Registry.Payload.elementId].
    rewrite (proj2 (Z.eqb_neq _ _) tabId_truthy), T. cbn [orb negb].
    autorewrite with monad.
    assert (Hm : Registry.mediaSessions
                   (if Map_has (Registry.buildSessionId tabId id) (Registry.mediaSessions s)
                    then exec Registry.broadcastSessions
                           (Registry.with_mediaSessions
                              (Map_delete (Registry.buildSessionId tabId id)) s)
                    else Registry.with_mediaSessions
                           (Map_delete (Registry.buildSessionId tabId id)) s)
                 = Map_delete (Registry.buildSessionId tabId id) (Registry.mediaSessions s))
      by (destruct (Map_has _ _); [rewrite broadcastSessions_eq|]; reflexivity).
    unfold holds. rewrite Hm.
    split; [apply Map_delete_wf, Hwf|].
    intros k. rewrite (Map_delete_key_in _ _ _ Hwf), Hkeys. split.
    + intros [(id' & Hid & ->) Hne]. exists id'. split; [|reflexivity].
      apply elem_of_difference. split; [exact Hid|].
      intros ->%elem_of_singleton. apply Hne. reflexivity.
    + intros (id' & [Hid Hn]%elem_of_difference & ->). split; [eauto|].
      intros Heq%buildSessionId_inj. apply Hn, elem_of_singleton, Heq.
Qed.

Lemma holds_deliveries (ms : list Agent.Message) :
  forall (clock : nat -> Z) (i : nat) (s : Registry.State) (alive : gset string),
    Forall (fun m => truthy (Agent.message_elementId m) = true) ms ->
    holds s alive ->
    holds (Registry.run URL_hostname (Wire.deliveries sender clock i ms) s)
          (fold_left Agent.registry_step (map Agent.sendMessage ms) alive).
Proof.
  induction ms as [|m ms IH]; intros clock i s alive Hms H; [exact H|].
  apply Forall_cons in Hms as [Hm Hms]. cbn.
  apply IH; [exact Hms|]. apply holds_deliver; assumption.
Qed.

Lemma reported_sent (tr : list Agent.HostCall) (alive : gset string) :
  fold_left Agent.registry_step (map Agent.sendMessage (Agent.sent tr)) alive
  = fold_left Agent.registry_step tr alive.
Proof.
  revert alive. induction tr as [|c tr IH]; intros alive; [reflexivity|].
  destruct c as [m| | | | |]; cbn; apply IH.
Qed.

(** The identifiers [reported] says the worker holds are those of the
    sessions in the worker's map, once the messages of the trace have
    arrived: [reported] follows [handleMediaUpdate] and
    [handleMediaRemoved]. *)
Lemma reported_in_registry (tr : list Agent.HostCall) (clock : nat -> Z) :
  Forall (fun m => truthy (Agent.message_elementId m) = true) (Agent.sent tr) ->
  let s := Registry.run URL_hostname (Wire.deliveries sender clock 0 (Agent.sent tr))
             Registry.init in
  forall k, Map_has k (Registry.mediaSessions s) = true <->
            exists id, id ∈ Agent.reported tr /\ k = Registry.buildSessionId tabId id.
Proof.
  intros Hms s k.
  assert (H0 : holds Registry.init ∅).
  { split; [constructor|]. intros k'. cbn. split.
    - intros H. apply elem_of_nil in H. destruct H.
    - intros (id & Hid & _). apply elem_of_empty in Hid. destruct Hid. }
  pose proof (holds_deliveries (Agent.sent tr) clock 0%nat Registry.init ∅ Hms H0)
    as [_ Hkeys].
  rewrite reported_sent in Hkeys. rewrite Map_has_key. apply Hkeys.
Qed.

Lemma sent_prefix (pre tr : list Agent.HostCall) :
  pre `prefix_of` tr -> Agent.sent pre `prefix_of` Agent.sent tr.
Proof. intros [k ->]. exists (Agent.sent k). apply sent_app. Qed.

Lemma at_most_one (X : gset string) (x y : string) :
  (size X <= 1)%nat -> x ∈ X -> y ∈ X -> x = y.
Proof.
  intros Hsize Hx Hy. apply (size_singleton_inv X); [|exact Hx|exact Hy].
  destruct (size X) as [|[|n]] eqn:E; [|reflexivity|lia].
  apply size_empty_inv in E. apply E in Hx. apply elem_of_empty in Hx. destruct Hx.
Qed.

(** The single slot, seen from the worker.  Let the page of tab [tabId]
    run any sequence of events, and let the worker receive the messages
    the agent has sent up to any instant.  Then the worker's map holds
    at most one session. *)
Lemma one_session_per_page (page : gmap Agent.Handle Agent.MediaElement)
    (rnd : nat -> string) (evs : list Agent.Event)
    (pre : list Agent.HostCall) (clock : nat -> Z) :
  (forall n, truthy (rnd n) = true) ->
  pre `prefix_of` Agent.calls (Agent.run evs (Agent.init page rnd)) ->
  (length (Registry.mediaSessions
             (Registry.run URL_hostname
                (Wire.deliveries sender clock 0 (Agent.sent pre)) Registry.init))
   <= 1)%nat.
Proof.
  intros Hrnd Hpre.
  assert (H : Agent.Inv (Agent.run evs (Agent.init page rnd)))
    by (apply Inv_run, Inv_init, Hrnd).
  destruct H as [_ (_ & Hsize & Hmsg)].
  assert (Hms : Forall (fun m => truthy (Agent.message_elementId m) = true) (Agent.sent pre)).
  { destruct (sent_prefix _ _ Hpre) as [k Hk]. rewrite Hk in Hmsg.
    apply Forall_app in Hmsg as [Hmsg _]. exact Hmsg. }
  assert (H0 : holds Registry.init ∅).
  { split; [constructor|]. intros k'. cbn. split.
    - intros H. apply elem_of_nil in H. destruct H.
    - intros (id & Hid & _). apply elem_of_empty in Hid. destruct Hid. }
  pose proof (holds_deliveries (Agent.sent pre) clock 0%nat Registry.init ∅ Hms H0)
    as [Hwf Hkeys].
  rewrite reported_sent in Hkeys. fold (Agent.reported pre) in Hkeys.
  specialize (Hsize pre Hpre).
  destruct (Registry.mediaSessions _) as [|[k1 v1] [|[k2 v2] m]]; cbn; try lia.
  exfalso. unfold Map_wf in Hwf. cbn in Hwf.
  apply NoDup_cons in Hwf as [Hne _]. apply Hne.
  destruct (proj1 (Hkeys k1)) as (id1 & Hid1 & ->); [cbn; apply elem_of_cons; left; reflexivity|].
  destruct (proj1 (Hkeys k2)) as (id2 & Hid2 & ->);
    [cbn; apply elem_of_cons; right; apply elem_of_cons; left; reflexivity|].
  rewrite (at_most_one _ id1 id2 Hsize Hid1 Hid2).
  apply elem_of_cons. left. reflexivity.
Qed.

End AgentToRegistry.

(* ===================================================================== *)
(** * More on insertion-ordered maps *)
(* ===================================================================== *)

Section MapLookups.
Import JS.
Context {V : Type}.

Lemma Map_get_set (k k0 : string) (v : V) (m : Map V) :
  Map_get k0 (Map_set k v m) = if String.eqb k k0 then Some v else Map_get k0 m.
Proof.
  induction m as [|[k' v'] m IH]; cbn.
  - reflexivity.
  - destruct (String.eqb k' k) eqn:E; cbn.
    + apply String.eqb_eq in E. subst k'. destruct (String.eqb k k0); reflexivity.
    + rewrite IH. destruct (String.eqb k' k0) eqn:E0; [|reflexivity].
      apply String.eqb_eq in E0. subst k0. rewrite String.eqb_sym, E. reflexivity.
Qed.

Lemma Map_get_None (k : string) (m : Map V) :
  Map_get k m = None <-> k ∉ map fst m.
Proof.
  induction m as [|[k' v'] m IH]; cbn.
  - split; [intros _; apply not_elem_of_nil|reflexivity].
  - rewrite not_elem_of_cons. destruct (String.eqb k' k) eqn:E.
    + apply String.eqb_eq in E. split; [discriminate|intros [H _]; congruence].
    + apply String.eqb_neq in E. rewrite IH. split; [intros H; split; congruence|tauto].
Qed.

Lemma Map_get_delete (k k0 : string) (m : Map V) :
  Map_wf m ->
  Map_get k0 (Map_delete k m) = if String.eqb k k0 then None else Map_get k0 m.
Proof.
  unfold Map_wf. induction m as [|[k' v'] m IH]; cbn; intros Hwf.
  - destruct (String.eqb k k0); reflexivity.
  - apply NoDup_cons in Hwf as [Hk' Hwf].
    destruct (String.eqb k' k) eqn:E; cbn.
    + apply String.eqb_eq in E. subst k'.
      destruct (String.eqb k k0) eqn:E0; [|reflexivity].
      apply String.eqb_eq in E0. subst k0. apply Map_get_None, Hk'.
    + rewrite (IH Hwf). destruct (String.eqb k' k0) eqn:E0; [|reflexivity].
      apply String.eqb_eq in E0. subst k0. rewrite String.eqb_sym, E. reflexivity.
Qed.

Lemma Map_set_present (k : string) (v : V) (m : Map V) :
  Map_has k m = true -> map fst (Map_set k v m) = map fst m.
Proof.
  unfold Map_has. induction m as [|[k' v'] m IH]; cbn; [discriminate|].
  destruct (String.eqb k' k) eqn:E; cbn.
  - apply String.eqb_eq in E. subst k'. reflexivity.
  - intros H. rewrite (IH H). reflexivity.
Qed.

Lemma Map_set_absent (k : string) (v : V) (m : Map V) :
  Map_has k m = false -> Map_set k v m = m ++ [(k, v)].
Proof.
  unfold Map_has. induction m as [|[k' v'] m IH]; cbn; [reflexivity|].
  destruct (String.eqb k' k) eqn:E; cbn; [discriminate|].
  intros H. rewrite (IH H). reflexivity.
Qed.

Lemma Map_delete_absent (k : string) (m : Map V) :
  Map_has k m = false -> Map_delete k m = m.
Proof.
  unfold Map_has. induction m as [|[k' v'] m IH]; cbn; [reflexivity|].
  destruct (String.eqb k' k) eqn:E; cbn; [discriminate|].
  intros H. rewrite (IH H). reflexivity.
Qed.

Lemma Map_delete_set (k : string) (v : V) (m : Map V) :
  Map_has k m = false -> Map_delete k (Map_set k v m) = m.
Proof.
  unfold Map_has. induction m as [|[k' v'] m IH]; cbn.
  - rewrite String.eqb_refl. reflexivity.
  - destruct (String.eqb k' k) eqn:E; cbn; [discriminate|].
    rewrite E. intros H. rewrite (IH H). reflexivity.
Qed.

Lemma Map_get_in (k : string) (v : V) (m : Map V) :
  Map_get k m = Some v -> (k, v) ∈ m.
Proof.
  induction m as [|[k' v'] m IH]; cbn; [discriminate|].
  destruct (String.eqb k' k) eqn:E.
  - apply String.eqb_eq in E. intros [= ->]. subst. apply list_elem_of_here.
  - intros H. apply list_elem_of_further, IH, H.
Qed.

End MapLookups.

(* ===================================================================== *)
(** * The worker's map: reports, removals and what the popups were sent *)
(* ===================================================================== *)

Section RegistryReports.
Import JS StateMonad Registry Ledger.
Local Open Scope monad_scope.

Variable URL_hostname : string -> option string.

Local Abbreviation step := (Registry.step URL_hostname).
Local Abbreviation run := (Registry.run URL_hostname).

Lemma handleMediaUpdate_eq (payload : Payload.t) (sender : Sender) (now : Z)
    (tab : Tab) (id : string) (s : State) :
  sender_tab sender = Some tab -> tab_id tab <> 0 ->
  Payload.elementId payload = Some id -> truthy id = true ->
  exec (handleMediaUpdate URL_hostname payload sender now) s =
    exec broadcastSessions
      (with_mediaSessions
         (Map_set (buildSessionId (tab_id tab) id)
            (stored URL_hostname payload sender now (tab_id tab) id)) s).
Proof.
  intros Htab Hid Hel Ht. unfold handleMediaUpdate, stored.
  rewrite Htab, Hel. cbn [fmap option_fmap option_map].
  apply Z.eqb_neq in Hid. rewrite Hid, Ht. cbn [negb orb].
  destruct (normalizePayload _ _ _) as [[sourceUrl origin] siteName].
  autorewrite with monad. reflexivity.
Qed.

Lemma handleMediaRemoved_eq (payload : Payload.t) (sender : Sender)
    (tab : Tab) (id : string) (s : State) :
  sender_tab sender = Some tab -> tab_id tab <> 0 ->
  Payload.elementId payload = Some id -> truthy id = true ->
  let sid := buildSessionId (tab_id tab) id in
  exec (handleMediaRemoved payload sender) s =
    if Map_has sid (mediaSessions s)
    then exec broadcastSessions (with_mediaSessions (Map_delete sid) s)
    else with_mediaSessions (Map_delete sid) s.
Proof.
  intros Htab Hid Hel Ht sid. unfold handleMediaRemoved.
  rewrite Htab, Hel. cbn [fmap option_fmap option_map].
  apply Z.eqb_neq in Hid. rewrite Hid, Ht. cbn [negb orb].
  autorewrite with monad. reflexivity.
Qed.

(** X1.  A [MEDIA_UPDATE] from a tab with a non-zero id that names a
    non-empty element id is stored under [buildSessionId tabId
    elementId]: looking the key up gives the session built from the
    payload, stamped with the time of arrival; every other key keeps
    what it had; a key already present keeps its place in the map and a
    new one goes last; and the new list goes to every popup port. *)
Theorem update_stored (payload : Payload.t) (sender : Sender) (now : Z)
    (tab : Tab) (id : string) (s : State) :
  sender_tab sender = Some tab -> tab_id tab <> 0 ->
  Payload.elementId payload = Some id -> truthy id = true ->
  let sid := buildSessionId (tab_id tab) id in
  let session := stored URL_hostname payload sender now (tab_id tab) id in
  let s' := step s (Message (MEDIA_UPDATE payload) sender now) in
  Map_get sid (mediaSessions s') = Some session /\
  lastUpdated session = now /\
  (forall k, k <> sid -> Map_get k (mediaSessions s') = Map_get k (mediaSessions s)) /\
  (Map_has sid (mediaSessions s) = true ->
   map fst (mediaSessions s') = map fst (mediaSessions s)) /\
  (Map_has sid (mediaSessions s) = false ->
   mediaSessions s' = mediaSessions s ++ [(sid, session)]) /\
  popupPorts s' = popupPorts s /\
  calls s' = calls s ++ broadcast (popupPorts s) (snapshot (mediaSessions s')).
Proof.
  intros Htab Hid Hel Ht sid session s'.
  assert (Hs' : s' = exec broadcastSessions
                       (with_mediaSessions (Map_set sid session) s)).
  { apply handleMediaUpdate_eq; assumption. }
  rewrite broadcastSessions_eq in Hs'. rewrite Hs'.
  cbn [mediaSessions popupPorts calls with_calls with_mediaSessions].
  split; [|split; [|split; [|split; [|split; [|split; reflexivity]]]]].
  - rewrite Map_get_set, String.eqb_refl. reflexivity.
  - unfold session, stored.
    destruct (normalizePayload _ _ _) as [[? ?] ?]. reflexivity.
  - intros k Hk. rewrite Map_get_set.
    destruct (String.eqb sid k) eqn:E; [|reflexivity].
    apply String.eqb_eq in E. congruence.
  - apply Map_set_present.
  - apply Map_set_absent.
Qed.

(** X2.  A report or a removal whose sender has no tab or the tab id 0,
    or whose payload has no element id or the empty one, is dropped:
    the worker's state stays as it is and nothing is posted. *)
Theorem unresolvable_identity_dropped (payload : Payload.t) (sender : Sender)
    (now : Z) (s : State) :
  sender_tab sender = None \/
  tab_id <$> sender_tab sender = Some 0 \/
  Payload.elementId payload = None \/
  Payload.elementId payload = Some "" ->
  step s (Message (MEDIA_UPDATE payload) sender now) = s /\
  step s (Message (MEDIA_REMOVED payload) sender now) = s.
Proof.
  intros H. unfold Registry.step. cbn [handle onMessage].
  unfold handleMediaUpdate, handleMediaRemoved.
  destruct H as [H|[H|[H|H]]]; rewrite H; cbn.
  - split; reflexivity.
  - destruct (Payload.elementId payload); split; reflexivity.
  - destruct (tab_id <$> sender_tab sender); split; reflexivity.
  - destruct (tab_id <$> sender_tab sender) as [t|]; [|split; reflexivity].
    rewrite orb_true_r. split; reflexivity.
Qed.

(** X3.  A [MEDIA_REMOVED] with a resolvable identity deletes that
    session and no other.  If the session was there, the new list goes
    to every popup port; if not, the worker's state stays as it is.  A
    second removal changes nothing. *)
Theorem removal_deletes (payload : Payload.t) (sender : Sender) (now : Z)
    (tab : Tab) (id : string) (s : State) :
  sender_tab sender = Some tab -> tab_id tab <> 0 ->
  Payload.elementId payload = Some id -> truthy id = true ->
  Map_wf (mediaSessions s) ->
  let sid := buildSessionId (tab_id tab) id in
  let s' := step s (Message (MEDIA_REMOVED payload) sender now) in
  Map_get sid (mediaSessions s') = None /\
  (forall k, k <> sid -> Map_get k (mediaSessions s') = Map_get k (mediaSessions s)) /\
  popupPorts s' = popupPorts s /\
  (Map_has sid (mediaSessions s) = true ->
   calls s' = calls s ++ broadcast (popupPorts s) (snapshot (mediaSessions s'))) /\
  (Map_has sid (mediaSessions s) = false -> s' = s) /\
  step s' (Message (MEDIA_REMOVED payload) sender now) = s'.
Proof.
  intros Htab Hid Hel Ht Hwf sid s'.
  assert (Hs' : forall s0, step s0 (Message (MEDIA_REMOVED payload) sender now) =
                  if Map_has sid (mediaSessions s0)
                  then exec broadcastSessions (with_mediaSessions (Map_delete sid) s0)
                  else with_mediaSessions (Map_delete sid) s0).
  { intros s0. apply handleMediaRemoved_eq; assumption. }
  assert (Hm : mediaSessions s' = Map_delete sid (mediaSessions s)).
  { unfold s'. rewrite Hs'. destruct (Map_has _ _);
      [rewrite broadcastSessions_eq|]; reflexivity. }
  assert (Hgone : Map_get sid (mediaSessions s') = None).
  { rewrite Hm, Map_get_delete, String.eqb_refl by exact Hwf. reflexivity. }
  split; [exact Hgone|]. split; [|split; [|split; [|split]]].
  - intros k Hk. rewrite Hm, Map_get_delete by exact Hwf.
    destruct (String.eqb sid k) eqn:E; [|reflexivity].
    apply String.eqb_eq in E. congruence.
  - unfold s'. rewrite Hs'. destruct (Map_has _ _);
      [rewrite broadcastSessions_eq|]; reflexivity.
  - intros Hhas. unfold s'. rewrite Hs', Hhas, broadcastSessions_eq. reflexivity.
  - intros Hhas. unfold s'. rewrite Hs', Hhas.
    unfold with_mediaSessions. rewrite Map_delete_absent by exact Hhas.
    destruct s; reflexivity.
  - rewrite Hs'. unfold Map_has. rewrite Hgone.
    unfold with_mediaSessions. rewrite Map_delete_absent
      by (unfold Map_has; rewrite Hgone; reflexivity).
    destruct s'; reflexivity.
Qed.

(** X4.  Reporting an element the map does not have and then removing
    it leaves the session map as it was. *)
Theorem report_then_remove (payload removal : Payload.t) (sender : Sender)
    (now now' : Z) (tab : Tab) (id : string) (s : State) :
  sender_tab sender = Some tab -> tab_id tab <> 0 ->
  Payload.elementId payload = Some id -> Payload.elementId removal = Some id ->
  truthy id = true ->
  Map_has (buildSessionId (tab_id tab) id) (mediaSessions s) = false ->
  mediaSessions (run [Message (MEDIA_UPDATE payload) sender now;
                      Message (MEDIA_REMOVED removal) sender now'] s)
  = mediaSessions s.
Proof.
  intros Htab Hid Hel Hel' Ht Hnew. cbn [Registry.run fold_left].
  unfold Registry.step at 1. cbn [handle onMessage].
  rewrite (handleMediaRemoved_eq removal sender tab id) by assumption.
  unfold Registry.step. cbn [handle onMessage].
  rewrite (handleMediaUpdate_eq payload sender now tab id) by assumption.
  revert Hnew.
  generalize (stored URL_hostname payload sender now (tab_id tab) id).
  generalize (buildSessionId (tab_id tab) id).
  intros sid session Hnew.
  rewrite !broadcastSessions_eq.
  cbn [mediaSessions popupPorts calls with_calls with_mediaSessions].
  assert (Hset : Map_has sid (Map_set sid session (mediaSessions s)) = true).
  { unfold Map_has. rewrite Map_get_set, String.eqb_refl. reflexivity. }
  rewrite Hset.
  cbn [mediaSessions popupPorts calls with_calls with_mediaSessions].
  apply Map_delete_set, Hnew.
Qed.

(** X5.  [normalizePayload] never yields an empty string: the site name
    is always a non-empty string, the origin and the source URL are a
    non-empty string or [null].  A non-empty site name or origin sent by
    the page is kept as it is, whatever the URL parser says. *)
Theorem normalizePayload_total (payload : Payload.t) (sender : Sender) :
  let '(sourceUrl, origin, siteName) :=
    normalizePayload URL_hostname payload sender in
  truthy_opt siteName = true /\
  (origin = None \/ truthy_opt origin = true) /\
  (sourceUrl = None \/ truthy_opt sourceUrl = true) /\
  (truthy_opt (Payload.siteName payload) = true ->
   siteName = Payload.siteName payload) /\
  (truthy_opt (Payload.origin payload) = true ->
   origin = Payload.origin payload).
Proof.
  unfold normalizePayload.
  assert (Hor : forall a, or_else a None = None \/ truthy_opt (or_else a None) = true).
  { intros a. unfold or_else. destruct (truthy_opt a) eqn:E; auto. }
  assert (Hlast : forall a, truthy_opt (or_else a (Some "Unknown site")) = true).
  { intros a. unfold or_else. destruct (truthy_opt a) eqn:E; auto. }
  split; [apply Hlast|]. split; [apply Hor|]. split; [apply Hor|]. split.
  - intros H.
    assert (H1 : forall b, or_else (Payload.siteName payload) b
                           = Payload.siteName payload).
    { intros b. unfold or_else. rewrite H. reflexivity. }
    rewrite (H1 (sender_tab sender ≫= tab_title)), !H1. reflexivity.
  - intros H. rewrite H. cbn [negb andb]. unfold or_else. rewrite H. reflexivity.
Qed.

End RegistryReports.

Section RegistryInvariants.
Import JS StateMonad Registry Ledger.
Local Open Scope monad_scope.

Variable URL_hostname : string -> option string.

Local Abbreviation step := (Registry.step URL_hostname).
Local Abbreviation run := (Registry.run URL_hostname).

Lemma posts_to_app (p : nat) (l1 l2 : list HostCall) :
  posts_to p (l1 ++ l2) = posts_to p l1 ++ posts_to p l2.
Proof. apply omap_app. Qed.

Lemma posts_to_broadcast_out (p : nat) (ports : list nat) (l : list Session) :
  p ∉ ports -> posts_to p (broadcast ports l) = [].
Proof.
  induction ports as [|q ports IH]; [reflexivity|].
  rewrite not_elem_of_cons. intros [Hq Hout]. cbn.
  rewrite bool_decide_false by congruence. apply IH, Hout.
Qed.

Lemma posts_to_broadcast (p : nat) (ports : list nat) (l : list Session) :
  NoDup ports -> p ∈ ports -> posts_to p (broadcast ports l) = [l].
Proof.
  induction ports as [|q ports IH]; intros Hnd Hin.
  - apply elem_of_nil in Hin. destruct Hin.
  - apply NoDup_cons in Hnd as [Hq Hnd]. cbn.
    destruct (decide (q = p)) as [->|Hne].
    + rewrite bool_decide_true by reflexivity. cbn.
      f_equal. apply posts_to_broadcast_out, Hq.
    + rewrite bool_decide_false by exact Hne.
      apply elem_of_cons in Hin as [->|Hin]; [congruence|].
      apply IH; assumption.
Qed.

Lemma evict_Forall (P : string * Session -> Prop) (t : Z)
    (entries : list (string * Session)) :
  forall (hasChanges : bool) (s : State),
    Forall P (mediaSessions s) ->
    Forall P (mediaSessions (exec (evict t entries hasChanges) s)).
Proof.
  induction entries as [|[k v] rest IH]; intros flag s H; [exact H|].
  cbn [evict]. destruct (tabId v =? t); [|apply IH, H].
  autorewrite with monad. apply IH. cbn.
  apply Forall_forall. intros kv Hin.
  assert (Hsub : forall m : list (string * Session), kv ∈ Map_delete k m -> kv ∈ m).
  { clear. induction m as [|[k' v'] m IHm]; cbn; [tauto|].
    destruct (String.eqb k' k).
    - apply list_elem_of_further.
    - rewrite !elem_of_cons. intros [->|Hin]; [left; reflexivity|right; auto]. }
  rewrite Forall_forall in H. apply H, Hsub, Hin.
Qed.

Lemma Map_delete_Forall (P : string * Session -> Prop) (k : string)
    (m : list (string * Session)) :
  Forall P m -> Forall P (Map_delete k m).
Proof.
  induction 1 as [|[k' v'] m Hx Hm IH]; cbn; [constructor|].
  destruct (String.eqb k' k); [exact Hm|constructor; assumption].
Qed.

Lemma Map_set_Forall (P : string * Session -> Prop) (k : string) (v : Session)
    (m : list (string * Session)) :
  P (k, v) -> Forall P m -> Forall P (Map_set k v m).
Proof.
  intros Hkv. induction 1 as [|[k' v'] m Hx Hm IH]; cbn.
  - constructor; [exact Hkv|constructor].
  - destruct (String.eqb k' k); constructor; assumption.
Qed.

Lemma existsb_none (t : Z) (m : list (string * Session)) :
  existsb (fun kv => tabId kv.2 =? t) m = false -> surviving t m = m.
Proof.
  intros H. apply surviving_all. intros k session Hin Heq.
  rewrite (existsb_owned t m) in H; [discriminate|]. eauto.
Qed.

(** What an event does to the ports, the map and the trace: nothing a
    popup sees; or a broadcast of the new list; or the list for a
    popup that connects; or the removal of a port. *)
Lemma step_shape (s : State) (ev : Event) :
  Map_wf (mediaSessions s) ->
  let s' := step s ev in
  (mediaSessions s' = mediaSessions s /\ popupPorts s' = popupPorts s /\
   forall p, posts_to p (calls s') = posts_to p (calls s)) \/
  (popupPorts s' = popupPorts s /\
   calls s' = calls s ++ broadcast (popupPorts s) (snapshot (mediaSessions s'))) \/
  (exists p, ev = Connect p PORT_NAMES.POPUP /\
     mediaSessions s' = mediaSessions s /\
     popupPorts s' = (if bool_decide (p ∈ popupPorts s) then popupPorts s
                      else popupPorts s ++ [p]) /\
     calls s' = calls s ++ [port_postMessage p (snapshot (mediaSessions s))]) \/
  (exists p, ev = Disconnect p /\
     mediaSessions s' = mediaSessions s /\
     popupPorts s' = filter (fun q => q <> p) (popupPorts s) /\
     calls s' = calls s).
Proof.
  intros Hwf s'. unfold s', Registry.step.
  assert (Hquiet : forall P : Prop, (mediaSessions s = mediaSessions s /\
             popupPorts s = popupPorts s /\
             forall p, posts_to p (calls s) = posts_to p (calls s)) \/ P)
    by (intros P; left; repeat split).
  destruct ev as [message sender now|port name|port|port message|t]; cbn [handle].
  - destruct message as [payload|payload|]; cbn [onMessage]; [| |apply Hquiet].
    + unfold handleMediaUpdate.
      destruct (tab_id <$> sender_tab sender) as [tabId|]; [|apply Hquiet].
      destruct (Payload.elementId payload) as [elementId|]; [|apply Hquiet].
      destruct (_ || _); [apply Hquiet|].
      destruct (normalizePayload _ _ _) as [[sourceUrl origin] siteName].
      autorewrite with monad. rewrite broadcastSessions_eq.
      right; left. split; reflexivity.
    + unfold handleMediaRemoved.
      destruct (tab_id <$> sender_tab sender) as [tabId|]; [|apply Hquiet].
      destruct (Payload.elementId payload) as [elementId|]; [|apply Hquiet].
      destruct (_ || _); [apply Hquiet|].
      autorewrite with monad.
      destruct (Map_has _ _) eqn:Hhas.
      * rewrite broadcastSessions_eq. right; left. split; reflexivity.
      * left. cbn. rewrite Map_delete_absent by exact Hhas. repeat split.
  - unfold onConnect. destruct (negb _) eqn:Hname; [apply Hquiet|].
    apply negb_false_iff, String.eqb_eq in Hname. subst name.
    autorewrite with monad. right; right; left. exists port.
    repeat split.
  - autorewrite with monad. destruct (bool_decide _) eqn:Hin; [|apply Hquiet].
    right; right; right. exists port. repeat split.
  - autorewrite with monad. destruct (bool_decide _); [|apply Hquiet].
    unfold onPortMessage. destruct (String.eqb _ _); [|apply Hquiet]. cbn [when].
    unfold dispatchMediaCommand. autorewrite with monad.
    destruct (_ || _); [apply Hquiet|].
    destruct (Map_get _ _); [|apply Hquiet].
    left. unfold hostCall. rewrite exec_modify.
    cbn [calls with_calls mediaSessions popupPorts].
    split; [reflexivity|]. split; [reflexivity|].
    intros p. rewrite posts_to_app. apply app_nil_r.
  - rewrite (onRemoved_eq t s Hwf). cbv zeta.
    destruct (existsb _ _) eqn:Hany.
    + rewrite broadcastSessions_eq. right; left. split; reflexivity.
    + left. cbn. rewrite existsb_none by exact Hany. repeat split.
Qed.

Lemma step_ports_NoDup (s : State) (ev : Event) :
  Map_wf (mediaSessions s) ->
  NoDup (popupPorts s) -> NoDup (popupPorts (step s ev)).
Proof.
  intros Hwf Hnd.
  destruct (step_shape s ev Hwf) as [(_ & -> & _)|[(-> & _)|[(p & _ & _ & -> & _)|(p & _ & _ & -> & _)]]];
    try exact Hnd.
  - destruct (bool_decide_reflect (p ∈ popupPorts s)) as [Hin|Hout]; [exact Hnd|].
    apply NoDup_app. split; [exact Hnd|]. split.
    + intros x Hx Hp. apply list_elem_of_singleton in Hp. subst x. tauto.
    + apply NoDup_singleton.
  - apply NoDup_filter, Hnd.
Qed.

Lemma run_ind (P : State -> Prop) :
  P init ->
  (forall s ev, Map_wf (mediaSessions s) -> P s -> P (step s ev)) ->
  forall evs, P (run evs init).
Proof.
  intros H0 Hstep evs.
  assert (H : Map_wf (mediaSessions init) /\ P init) by (split; [constructor|exact H0]).
  revert H. generalize init.
  induction evs as [|ev evs IH]; intros s [Hwf H]; [exact H|].
  cbn. apply IH. split; [apply step_wf, Hwf|apply Hstep; assumption].
Qed.

(** X6.  The popup ports of the worker are distinct in every state it
    reaches, so a broadcast posts the list exactly once to each
    connected port and nothing to any other. *)
Theorem broadcast_once (evs : list Event) (p : nat) :
  let s := run evs init in
  NoDup (popupPorts s) /\
  posts_to p (calls (exec broadcastSessions s))
  = posts_to p (calls s)
    ++ (if bool_decide (p ∈ popupPorts s) then [snapshot (mediaSessions s)] else []).
Proof.
  intros s.
  assert (Hnd : NoDup (popupPorts s)).
  { unfold s. apply run_ind; [constructor|].
    intros s0 ev Hwf H. apply step_ports_NoDup; assumption. }
  split; [exact Hnd|].
  rewrite broadcastSessions_eq. cbn [calls with_calls]. rewrite posts_to_app. f_equal.
  destruct (bool_decide_reflect (p ∈ popupPorts s)) as [Hin|Hout].
  - apply posts_to_broadcast; assumption.
  - apply posts_to_broadcast_out, Hout.
Qed.

Lemma up_to_date_step (s : State) (ev : Event) :
  Map_wf (mediaSessions s) -> NoDup (popupPorts s) ->
  up_to_date s -> up_to_date (step s ev).
Proof.
  intros Hwf Hnd H p Hp.
  destruct (step_shape s ev Hwf)
    as [(Hm & Hports & Hposts)|[(Hports & Hcalls)|[(q & _ & Hm & Hports & Hcalls)
       |(q & _ & Hm & Hports & Hcalls)]]].
  - rewrite Hposts, Hm. apply H. rewrite <- Hports. exact Hp.
  - rewrite Hports in Hp. rewrite Hcalls, posts_to_app.
    rewrite (posts_to_broadcast p _ _ Hnd Hp). apply last_snoc.
  - rewrite Hcalls, posts_to_app, Hm. cbn.
    destruct (bool_decide_reflect (q = p)) as [->|Hne].
    + apply last_snoc.
    + rewrite app_nil_r. apply H. rewrite Hports in Hp.
      destruct (bool_decide (q ∈ popupPorts s)); [exact Hp|].
      apply elem_of_app in Hp as [Hp|Hp]; [exact Hp|].
      apply list_elem_of_singleton in Hp. congruence.
  - rewrite Hcalls, Hm. apply H. rewrite Hports in Hp.
    apply list_elem_of_filter in Hp. tauto.
Qed.

(** X7.  In every state the worker reaches, the list last posted to a
    connected popup port is the list the session map gives now: no
    change of the map is left unannounced, and a popup that connects is
    brought up to date at once. *)
Theorem popups_up_to_date (evs : list Event) (port : nat) :
  let s := run evs init in
  port ∈ popupPorts s ->
  last (posts_to port (calls s)) = Some (snapshot (mediaSessions s)).
Proof.
  intros s. unfold s.
  cut (NoDup (popupPorts (run evs init)) /\ up_to_date (run evs init)).
  { intros [_ H]. apply H. }
  apply run_ind.
  - split; [constructor|]. intros p Hp. apply elem_of_nil in Hp. destruct Hp.
  - intros s0 ev Hwf [Hnd H]. split.
    + apply step_ports_NoDup; assumption.
    + apply up_to_date_step; assumption.
Qed.

Lemma step_disconnected (s : State) (ev : Event) (p : nat) :
  Map_wf (mediaSessions s) ->
  (forall name, ev <> Connect p name) ->
  p ∉ popupPorts s ->
  (p ∉ popupPorts (step s ev)) /\
  posts_to p (calls (step s ev)) = posts_to p (calls s).
Proof.
  intros Hwf Hev Hout.
  destruct (step_shape s ev Hwf)
    as [(Hm & Hports & Hposts)|[(Hports & Hcalls)|[(q & Heq & Hm & Hports & Hcalls)
       |(q & _ & Hm & Hports & Hcalls)]]].
  - rewrite Hports, Hposts. split; [exact Hout|reflexivity].
  - rewrite Hports, Hcalls, posts_to_app, posts_to_broadcast_out, app_nil_r
      by exact Hout. split; [exact Hout|reflexivity].
  - assert (Hq : q <> p) by (intros ->; exact (Hev _ Heq)).
    rewrite Hports, Hcalls, posts_to_app. cbn.
    rewrite (bool_decide_false (q = p)), app_nil_r by exact Hq.
    split; [|reflexivity].
    destruct (bool_decide (q ∈ popupPorts s)); [exact Hout|].
    rewrite elem_of_app, list_elem_of_singleton. intros [H|H]; [tauto|congruence].
  - rewrite Hports, Hcalls. split; [|reflexivity].
    rewrite list_elem_of_filter. tauto.
Qed.

(** X8.  Once a port has disconnected the worker posts nothing to it,
    whatever happens, until the port connects again. *)
Theorem silent_after_disconnect (s : State) (p : nat) (evs : list Event) :
  Map_wf (mediaSessions s) ->
  Forall (fun ev => forall name, ev <> Connect p name) evs ->
  let s' := run evs (step s (Disconnect p)) in
  (p ∉ popupPorts s') /\
  posts_to p (calls s') = posts_to p (calls s).
Proof.
  intros Hwf Hevs s'. unfold s'. clear s'.
  assert (H0 : Map_wf (mediaSessions (step s (Disconnect p))) /\
               (p ∉ popupPorts (step s (Disconnect p))) /\
               posts_to p (calls (step s (Disconnect p))) = posts_to p (calls s)).
  { split; [apply step_wf, Hwf|].
    unfold Registry.step. cbn [handle]. autorewrite with monad.
    destruct (bool_decide_reflect (p ∈ popupPorts s)) as [Hin|Hout].
    - cbn. split; [|reflexivity]. rewrite list_elem_of_filter. tauto.
    - split; [exact Hout|reflexivity]. }
  revert H0. generalize (step s (Disconnect p)).
  induction Hevs as [|ev evs Hev Hevs IH]; intros s0 (Hwf0 & Hout & Hposts).
  - split; assumption.
  - cbn. apply IH.
    destruct (step_disconnected s0 ev p Hwf0 Hev Hout) as [Hout' Hposts'].
    split; [apply step_wf, Hwf0|]. split; [exact Hout'|]. congruence.
Qed.

Lemma step_well_filed (s : State) (ev : Event) :
  well_filed s -> well_filed (step s ev).
Proof.
  unfold well_filed, Registry.step. intros H.
  destruct ev as [message sender now|port name|port|port message|t]; cbn [handle].
  - destruct message as [payload|payload|]; cbn [onMessage]; [| |exact H].
    + unfold handleMediaUpdate.
      destruct (tab_id <$> sender_tab sender) as [tabId|]; [|exact H].
      destruct (Payload.elementId payload) as [elementId|]; [|exact H].
      destruct (_ || _) eqn:Hid; [exact H|].
      apply orb_false_iff in Hid as [Htab Hel].
      apply Z.eqb_neq in Htab. apply negb_false_iff in Hel.
      destruct (normalizePayload _ _ _) as [[sourceUrl origin] siteName].
      autorewrite with monad. rewrite broadcastSessions_eq. cbn.
      apply Map_set_Forall; [|exact H]. repeat split; assumption.
    + unfold handleMediaRemoved.
      destruct (tab_id <$> sender_tab sender) as [tabId|]; [|exact H].
      destruct (Payload.elementId payload) as [elementId|]; [|exact H].
      destruct (_ || _); [exact H|].
      autorewrite with monad.
      destruct (Map_has _ _); [rewrite broadcastSessions_eq|]; cbn;
        apply Map_delete_Forall, H.
  - unfold onConnect. destruct (negb _); [exact H|].
    autorewrite with monad. exact H.
  - autorewrite with monad. destruct (bool_decide _); exact H.
  - autorewrite with monad. destruct (bool_decide _); [|exact H].
    unfold onPortMessage. destruct (String.eqb _ _); [|exact H]. cbn [when].
    unfold dispatchMediaCommand. autorewrite with monad.
    destruct (_ || _); [exact H|].
    destruct (Map_get _ _); exact H.
  - unfold onRemoved. autorewrite with monad.
    pose proof (evict_Forall filed t (mediaSessions s) false s H) as H1.
    destruct (eval _ s); [rewrite broadcastSessions_eq|]; exact H1.
Qed.

Lemma buildSessionId_truthy (t : Z) (id : string) : truthy (buildSessionId t id) = true.
Proof.
  unfold buildSessionId. destruct (pretty t : string); reflexivity.
Qed.

Lemma well_filed_run (evs : list Event) : well_filed (run evs init).
Proof.
  apply run_ind; [constructor|]. intros s0 ev _ H. apply step_well_filed, H.
Qed.

(** A command for a session of a well-filed map, posted on a connected
    port. *)
Lemma dispatch_routed (s : State) (port : nat) (message : PortMessage)
    (session : Session) :
  well_filed s ->
  port ∈ popupPorts s ->
  pm_type message = MESSAGE_TYPES.MEDIA_COMMAND ->
  Map_get (pm_sessionId message) (mediaSessions s) = Some session ->
  let s' := step s (PortPost port message) in
  pm_sessionId message = buildSessionId (tabId session) (elementId session) /\
  tabId session <> 0 /\ truthy (elementId session) = true /\
  calls s' = calls s ++
    [tabs_sendMessage (tabId session)
       {| Agent.Command.type := MESSAGE_TYPES.MEDIA_COMMAND;
          Agent.Command.elementId := elementId session;
          Agent.Command.command := pm_command message;
          Agent.Command.delta := pm_delta message;
          Agent.Command.time := pm_time message |}] /\
  mediaSessions s' = mediaSessions s /\
  popupPorts s' = popupPorts s.
Proof.
  intros Hfiled Hport Htype Hget s'.
  apply Map_get_in in Hget as Hin.
  unfold well_filed in Hfiled. rewrite Forall_forall in Hfiled.
  destruct (Hfiled _ Hin) as (Hkey & Hsid & Htab & Hel). cbn in Hkey, Hsid, Htab, Hel.
  assert (Hid : pm_sessionId message = buildSessionId (tabId session) (elementId session))
    by congruence.
  split; [exact Hid|]. split; [exact Htab|]. split; [exact Hel|].
  unfold s', Registry.step. cbn [handle]. autorewrite with monad.
  rewrite bool_decide_true by exact Hport. cbn [when].
  unfold onPortMessage. rewrite Htype.
  assert (Heqb : (MESSAGE_TYPES.MEDIA_COMMAND =? MESSAGE_TYPES.MEDIA_COMMAND)%string = true)
    by apply String.eqb_refl.
  rewrite Heqb. cbn [when].
  unfold dispatchMediaCommand. autorewrite with monad.
  assert (Htruthy : truthy (pm_sessionId message) = true)
    by (rewrite Hid; apply buildSessionId_truthy).
  unfold Map_has. rewrite Hget, Htruthy.
  cbn [negb orb]. unfold hostCall. rewrite exec_modify.
  repeat split.
Qed.

(** X9.  In every state the worker reaches, a session is filed under
    the id built from its own tab and element, so a command a connected
    popup posts for a session of the map goes, as one message, to the
    tab that reported the session and names the element that tab knows;
    the command's name and arguments are passed on as they came, and the
    map and the ports stay as they are. *)
Theorem command_routed (evs : list Event) (port : nat) (message : PortMessage)
    (session : Session) :
  let s := run evs init in
  port ∈ popupPorts s ->
  pm_type message = MESSAGE_TYPES.MEDIA_COMMAND ->
  Map_get (pm_sessionId message) (mediaSessions s) = Some session ->
  let s' := step s (PortPost port message) in
  pm_sessionId message = buildSessionId (tabId session) (elementId session) /\
  tabId session <> 0 /\ truthy (elementId session) = true /\
  calls s' = calls s ++
    [tabs_sendMessage (tabId session)
       {| Agent.Command.type := MESSAGE_TYPES.MEDIA_COMMAND;
          Agent.Command.elementId := elementId session;
          Agent.Command.command := pm_command message;
          Agent.Command.delta := pm_delta message;
          Agent.Command.time := pm_time message |}] /\
  mediaSessions s' = mediaSessions s /\
  popupPorts s' = popupPorts s.
Proof.
  intros s. apply dispatch_routed, well_filed_run.
Qed.

End RegistryInvariants.

Section RegistryOrder.
Import JS StateMonad Registry Ledger.
Local Open Scope monad_scope.

Variable URL_hostname : string -> option string.

Lemma compareFn_trans (x y z : Session) :
  compareFn x y <= 0 -> compareFn y z <= 0 -> compareFn x z <= 0.
Proof.
  unfold compareFn.
  destruct (isPlaying x), (isPlaying y), (isPlaying z); cbn; lia.
Qed.

(** The first session of a sorted list comes before every session of
    the list. *)
Lemma sorted_head (l : list Session) (x : Session) :
  Sorted (fun a b => compareFn a b <= 0) (x :: l) ->
  forall y, y ∈ l -> compareFn x y <= 0.
Proof.
  intros Hs. apply Sorted_StronglySorted in Hs.
  - apply StronglySorted_inv in Hs as [_ Hall]. rewrite Forall_forall in Hall.
    exact Hall.
  - intros a b c. apply compareFn_trans.
Qed.

Lemma Map_set_values {V} (k : string) (v v0 : V) (m : list (string * V)) :
  v0 ∈ map snd (Map_set k v m) -> v0 = v \/ v0 ∈ map snd m.
Proof.
  induction m as [|[k' v'] m IH]; cbn.
  - intros H. apply list_elem_of_singleton in H. auto.
  - destruct (String.eqb k' k); cbn; rewrite !elem_of_cons.
    + intros [->|H]; auto.
    + intros [->|H]; [auto|]. destruct (IH H); auto.
Qed.

(** X28.  When a playing element reports and the clock has moved on
    since every stored session was stamped, the session of that
    element is the first of the list pushed to the popups. *)
Theorem latest_playing_first (payload : Payload.t) (sender : Sender) (now : Z)
    (tab : Tab) (id : string) (s : State) :
  sender_tab sender = Some tab -> tab_id tab <> 0 ->
  Payload.elementId payload = Some id -> truthy id = true ->
  Payload.isPlaying payload = true ->
  (forall k session, (k, session) ∈ mediaSessions s -> lastUpdated session < now) ->
  let s' := Registry.step URL_hostname s (Message (MEDIA_UPDATE payload) sender now) in
  head (snapshot (mediaSessions s'))
  = Some (stored URL_hostname payload sender now (tab_id tab) id) /\
  calls s' = calls s ++ broadcast (popupPorts s) (snapshot (mediaSessions s')).
Proof.
  intros Htab Hid Hel Ht Hplaying Hold s'.
  set (n := stored URL_hostname payload sender now (tab_id tab) id).
  set (sid := buildSessionId (tab_id tab) id).
  assert (Hs' : s' = exec broadcastSessions (with_mediaSessions (Map_set sid n) s)).
  { apply handleMediaUpdate_eq; assumption. }
  rewrite broadcastSessions_eq in Hs'.
  assert (Hm : mediaSessions s' = Map_set sid n (mediaSessions s))
    by (rewrite Hs'; reflexivity).
  split; [|rewrite Hs' at 1; rewrite Hm; reflexivity].
  rewrite Hm.
  assert (Hn : isPlaying n = true /\ lastUpdated n = now).
  { unfold n, stored, isPlaying.
    destruct (normalizePayload _ _ _) as [[? ?] ?]. split; [exact Hplaying|reflexivity]. }
  destruct Hn as [Hnp Hnt].
  assert (Hvalues : forall v, v ∈ Map_values (Map_set sid n (mediaSessions s)) ->
                      v = n \/ lastUpdated v < now).
  { intros v Hv. apply Map_set_values in Hv as [->|Hv]; [auto|]. right.
    apply list_elem_of_fmap in Hv as ([k v'] & -> & Hin). apply (Hold k), Hin. }
  assert (Hin : n ∈ Map_values (Map_set sid n (mediaSessions s))).
  { apply (list_elem_of_fmap_2 snd (Map_set sid n (mediaSessions s)) (sid, n)).
    apply Map_get_in. rewrite Map_get_set, String.eqb_refl. reflexivity. }
  pose proof (snapshot_Permutation (Map_set sid n (mediaSessions s))) as Hperm.
  pose proof (Array_sort_Sorted compareFn compareFn_total
                (Map_values (Map_set sid n (mediaSessions s)))) as Hsorted.
  fold (snapshot (Map_set sid n (mediaSessions s))) in Hsorted.
  assert (Hvalues' : forall v, v ∈ snapshot (Map_set sid n (mediaSessions s)) ->
                       v = n \/ lastUpdated v < now).
  { intros v Hv. apply Hvalues. rewrite Hperm. exact Hv. }
  rewrite Hperm in Hin. clear Hvalues Hperm.
  destruct (snapshot (Map_set sid n (mediaSessions s))) as [|x l].
  { apply elem_of_nil in Hin. destruct Hin. }
  cbn [head]. f_equal.
  destruct (Hvalues' x (list_elem_of_here _ _)) as [Hx|Hx]; [exact Hx|].
  apply elem_of_cons in Hin as [Hin|Hin]; [congruence|].
  pose proof (sorted_head l x Hsorted n Hin) as Hle.
  unfold compareFn in Hle. rewrite Hnp in Hle.
  destruct (isPlaying x); cbn [negb Bool.eqb] in Hle; lia.
Qed.

End RegistryOrder.

(* ===================================================================== *)
(** * The lists the worker pushes *)
(* ===================================================================== *)

Section RegistryListing.
Import JS StateMonad Registry.
Local Open Scope monad_scope.

Variable URL_hostname : string -> option string.

Local Abbreviation step := (Registry.step URL_hostname).
Local Abbreviation run := (Registry.run URL_hostname).

(** In a list sorted by a transitive order any two positions are in
    order, not just adjacent ones. *)
Lemma sorted_lookup (l : list Session) :
  Sorted (fun a b => compareFn a b <= 0) l ->
  forall (i j : nat) (x y : Session),
    (i < j)%nat -> l !! i = Some x -> l !! j = Some y -> compareFn x y <= 0.
Proof.
  intros Hs. apply Sorted_StronglySorted in Hs;
    [|intros a b c; apply compareFn_trans].
  induction Hs as [|a l Hs IH Hall]; intros i j x y Hij Hx Hy; [discriminate|].
  destruct j as [|j]; [lia|]. cbn in Hy. destruct i as [|i]; cbn in Hx.
  - injection Hx as <-. rewrite Forall_forall in Hall.
    apply Hall. eapply list_elem_of_lookup_2. exact Hy.
  - apply (IH i j); [lia|assumption|assumption].
Qed.

Lemma pushed_view (s s' : State) : calls s' = calls s -> pushed s' = pushed s.
Proof. unfold pushed. intros ->. reflexivity. Qed.

Lemma pushed_broadcast (ports : list nat) (sessions : list Session) (s : State) :
  pushed (with_calls (fun l => l ++ broadcast ports sessions) s)
  = pushed s ++ replicate (length ports) sessions.
Proof.
  unfold pushed. cbn [calls with_calls]. rewrite omap_app. f_equal.
  induction ports as [|port ports IH]; [reflexivity|].
  change (sessions :: omap (fun c => match c with
                                     | port_postMessage _ sessions => Some sessions
                                     | _ => None
                                     end) (broadcast ports sessions)
          = sessions :: replicate (length ports) sessions).
  f_equal. exact IH.
Qed.

(** What an event adds to the lists pushed: some copies, one per port
    served, of the sorted values of the session map as the event leaves
    it. *)
Lemma pushed_step (s : State) (ev : Event) :
  exists n, pushed (step s ev)
            = pushed s ++ replicate n (snapshot (mediaSessions (step s ev))).
Proof.
  assert (Hquiet : forall s', calls s' = calls s ->
            exists n, pushed s' = pushed s ++ replicate n (snapshot (mediaSessions s'))).
  { intros s' Hc. exists 0%nat. cbn. rewrite app_nil_r. apply pushed_view, Hc. }
  assert (Hbroadcast : forall s1, calls s1 = calls s ->
            exists n, pushed (exec broadcastSessions s1)
                      = pushed s ++ replicate n
                          (snapshot (mediaSessions (exec broadcastSessions s1)))).
  { intros s1 Hc. exists (length (popupPorts s1)).
    rewrite broadcastSessions_eq, pushed_broadcast, (pushed_view s s1 Hc).
    reflexivity. }
  unfold Registry.step.
  destruct ev as [message sender now|port name|port|port message|t]; cbn [handle].
  - destruct message as [payload|payload|]; cbn [onMessage];
      [| |apply Hquiet; reflexivity].
    + unfold handleMediaUpdate.
      destruct (tab_id <$> sender_tab sender) as [tabId|]; [|apply Hquiet; reflexivity].
      destruct (Payload.elementId payload) as [elementId|]; [|apply Hquiet; reflexivity].
      destruct (_ || _); [apply Hquiet; reflexivity|].
      destruct (normalizePayload _ _ _) as [[sourceUrl origin] siteName].
      autorewrite with monad. apply Hbroadcast. reflexivity.
    + unfold handleMediaRemoved.
      destruct (tab_id <$> sender_tab sender) as [tabId|]; [|apply Hquiet; reflexivity].
      destruct (Payload.elementId payload) as [elementId|]; [|apply Hquiet; reflexivity].
      destruct (_ || _); [apply Hquiet; reflexivity|].
      autorewrite with monad.
      destruct (Map_has _ _); [apply Hbroadcast|apply Hquiet]; reflexivity.
  - unfold onConnect. destruct (negb _); [apply Hquiet; reflexivity|].
    autorewrite with monad. rewrite ?exec_serializeSessions, ?eval_serializeSessions.
    exists 1%nat. rewrite pushed_snoc. reflexivity.
  - autorewrite with monad. destruct (bool_decide _); apply Hquiet; reflexivity.
  - autorewrite with monad. destruct (bool_decide _); [|apply Hquiet; reflexivity].
    unfold onPortMessage. destruct (String.eqb _ _); [|apply Hquiet; reflexivity].
    cbn [when]. unfold dispatchMediaCommand. autorewrite with monad.
    destruct (_ || _); [apply Hquiet; reflexivity|].
    destruct (Map_get _ _); [|apply Hquiet; reflexivity].
    exists 0%nat. rewrite pushed_snoc. reflexivity.
  - unfold onRemoved. autorewrite with monad.
    pose proof (evict_calls t (mediaSessions s) false s) as Hc.
    destruct (eval _ s); [apply Hbroadcast|apply Hquiet]; exact Hc.
Qed.

(** ** C3 *)

(** C3 (ordering law).  Whatever events the worker has handled, every
    session list it has posted to a popup port is in order: in each
    adjacent pair [(x, y)], [x] is playing if [y] is, and if both have
    the same [isPlaying] then [x.lastUpdated >= y.lastUpdated].  And
    whatever event comes next, the lists it posts come after those
    posted before, and each of them holds exactly the sessions of the
    session map as the event leaves it (it is a permutation of the
    map's values: no session is missing, none is listed twice) and is in
    order, for adjacent sessions and for any two positions. *)
Theorem C3_pushed_lists_in_order (evs : list Event) :
  let s := run evs init in
  Forall adjacent_in_order (pushed s) /\
  forall ev,
    let s' := step s ev in
    exists new,
      pushed s' = pushed s ++ new /\
      Forall (fun sessions =>
                sessions ≡ₚ map snd (mediaSessions s') /\
                adjacent_in_order sessions /\
                forall (i j : nat) (x y : Session),
                  (i < j)%nat ->
                  sessions !! i = Some x -> sessions !! j = Some y ->
                  in_order x y)
             new.
Proof.
  intros s. split; [apply pushed_in_order_run|].
  intros ev s'. destruct (pushed_step s ev) as [n Hn]. fold s' in Hn.
  exists (replicate n (snapshot (mediaSessions s'))). split; [exact Hn|].
  apply Forall_replicate. split; [|split].
  - symmetry. apply snapshot_Permutation.
  - apply snapshot_in_order.
  - intros i j x y Hij Hx Hy. apply compareFn_in_order.
    exact (sorted_lookup _ (Array_sort_Sorted compareFn compareFn_total _)
             i j x y Hij Hx Hy).
Qed.

End RegistryListing.

(* ===================================================================== *)
(** * The agent's maps and the page *)
(* ===================================================================== *)

Section AgentTracking.
Import JS StateMonad Agent Tracking.
Local Open Scope monad_scope.

Local Ltac split_kept :=
  unfold kept;
  (split; [|split; [|split; [|split; [|split; [|split; [|split; [|split]]]]]]]).

Local Ltac split_consistent :=
  unfold consistent; (split; [|split; [|split; [|split]]]).

Lemma kept_refl (s : State) : kept s s.
Proof.
  split_kept; auto. exists []. split; [symmetry; apply app_nil_r|].
  intros id H. apply elem_of_nil in H. exact H.
Qed.

Lemma kept_trans (s1 s2 s3 : State) : kept s1 s2 -> kept s2 s3 -> kept s1 s3.
Proof.
  intros (Hc & Ht & Hl & Ha & Hp & Hi & (new & Hcalls & Hnew) & Ho & Hg)
         (Hc' & Ht' & Hl' & Ha' & Hp' & Hi' & (new' & Hcalls' & Hnew') & Ho' & Hg').
  split_kept; try congruence; auto.
  exists (new ++ new'). split; [rewrite Hcalls', Hcalls, app_assoc; reflexivity|].
  intros id Hin. apply elem_of_app in Hin as [Hin|Hin]; [eapply Hnew|eapply Hnew']; eauto.
Qed.

(** A step that touches neither the maps nor the identifiers of the
    elements, drops pending flushes at most and makes the calls [new]. *)
Lemma kept_view (s s' : State) (new : list HostCall) :
  crypto s' = crypto s -> trackedElements s' = trackedElements s ->
  listening s' = listening s -> activeMediaId s' = activeMediaId s ->
  (forall id rafId, pendingUpdates s' !! id = Some rafId ->
     pendingUpdates s !! id = Some rafId) ->
  (forall h, castToTvMediaId (dom s' !!! h) = castToTvMediaId (dom s !!! h)) ->
  calls s' = calls s ++ new ->
  (forall id, sendMessage (MEDIA_REMOVED id) ∉ new) ->
  trackedOrder s' = trackedOrder s ->
  pagehideListener s' = pagehideListener s ->
  kept s s'.
Proof.
  intros Hc Ht Hl Ha Hp Hd Hcalls Hnew Ho Hg. split_kept; auto.
  - intros h id [E T]. split; [|exact T]. rewrite Hd. exact E.
  - exists new. auto.
Qed.

Lemma kept_hostCall (c : HostCall) (s : State) :
  (forall id, c <> sendMessage (MEDIA_REMOVED id)) -> kept s (exec (hostCall c) s).
Proof.
  intros Hc. apply (kept_view _ _ [c]); auto.
  intros id Hin. apply list_elem_of_singleton in Hin. exact (Hc id (eq_sym Hin)).
Qed.

Lemma kept_quiet (s s' : State) :
  crypto s' = crypto s -> trackedElements s' = trackedElements s ->
  listening s' = listening s -> activeMediaId s' = activeMediaId s ->
  (forall id rafId, pendingUpdates s' !! id = Some rafId ->
     pendingUpdates s !! id = Some rafId) ->
  (forall h, castToTvMediaId (dom s' !!! h) = castToTvMediaId (dom s !!! h)) ->
  calls s' = calls s ->
  trackedOrder s' = trackedOrder s ->
  pagehideListener s' = pagehideListener s ->
  kept s s'.
Proof.
  intros Hc Ht Hl Ha Hp Hd Hcalls Ho Hg. apply (kept_view _ _ []); auto.
  - rewrite app_nil_r. exact Hcalls.
  - intros id Hin. apply elem_of_nil in Hin. exact Hin.
Qed.

Lemma ensureElementId_identified (h : Handle) (id : string) (s : State) :
  identified h id s ->
  eval (ensureElementId h) s = id /\ exec (ensureElementId h) s = s.
Proof.
  intros [E T]. unfold eval, exec. rewrite (ensureElementId_known h s id E T).
  split; reflexivity.
Qed.

Lemma kept_ensureElementId (h : Handle) (s : State) :
  kept s (exec (ensureElementId h) s).
Proof.
  destruct (ensureElementId_cases h s) as [(_ & _ & ->)|(T & _ & ->)];
    [apply kept_refl|].
  split_kept; auto.
  - intros h' id [E T']. split; [|exact T']. cbn.
    destruct (decide (h' = h)) as [->|Hne].
    + rewrite E in T. cbn in T. congruence.
    + rewrite lookup_total_insert_ne by congruence. exact E.
  - exists []. split; [symmetry; apply app_nil_r|].
    intros id Hin. apply elem_of_nil in Hin. exact Hin.
Qed.

Lemma kept_cancelPending (elementId : string) (s : State) :
  kept s (exec (cancelPending elementId) s).
Proof.
  rewrite cancelPending_eq.
  destruct (pendingUpdates s !! elementId) as [rafId|]; [|apply kept_refl].
  apply (kept_view _ _ [cancelAnimationFrame rafId]); auto.
  - cbn. intros id r H. apply lookup_delete_Some in H. tauto.
  - intros id Hin. apply list_elem_of_singleton in Hin. discriminate.
Qed.

Lemma exec_serializeElement (h : Handle) (s : State) :
  exec (serializeElement h) s = exec (ensureElementId h) s.
Proof. unfold serializeElement, element. autorewrite with monad. reflexivity. Qed.

Lemma kept_flushUpdate (h : Handle) (s : State) : kept s (exec (flushUpdate h) s).
Proof.
  unfold flushUpdate. autorewrite with monad.
  pose proof (kept_ensureElementId h s) as H1.
  set (s1 := exec (ensureElementId h) s) in *.
  case_bool_decide; [|exact H1].
  autorewrite with monad. rewrite exec_serializeElement.
  eapply kept_trans; [exact H1|].
  eapply kept_trans; [apply kept_ensureElementId|].
  apply kept_hostCall. discriminate.
Qed.

Lemma kept_scheduleUpdate (h : Handle) (s : State) :
  kept s (exec (scheduleUpdate h true) s).
Proof.
  unfold scheduleUpdate. autorewrite with monad.
  eapply kept_trans; [apply kept_ensureElementId|].
  eapply kept_trans; [apply kept_cancelPending|apply kept_flushUpdate].
Qed.

Lemma kept_finalize (h : Handle) ok error (s : State) :
  kept s (exec (finalize h ok error) s).
Proof.
  unfold finalize. autorewrite with monad.
  eapply kept_trans; [|apply kept_scheduleUpdate].
  apply kept_hostCall. discriminate.
Qed.

Lemma kept_settled (h : Handle) (r : Settled) (s : State) :
  kept s (exec (settled h r) s).
Proof. destruct r; apply kept_finalize. Qed.

Lemma kept_playback (h : Handle) (e : MediaElement) (s : State) :
  castToTvMediaId e = castToTvMediaId (dom s !!! h) ->
  kept s (with_dom <[h := e]> s).
Proof.
  intros He. apply kept_quiet; auto. intros h'. cbn.
  destruct (decide (h' = h)) as [->|Hne].
  - rewrite lookup_total_insert_eq. exact He.
  - rewrite lookup_total_insert_ne by congruence. reflexivity.
Qed.

Lemma kept_seekTo (h : Handle) (t : number) (s : State) :
  kept s (exec (seekTo h t) s).
Proof.
  unfold seekTo, element. autorewrite with monad. apply kept_playback. reflexivity.
Qed.

Lemma kept_commandHandler (command : string) handler (h : Handle)
    (m : Command.t) (s : State) :
  commandHandlers command = Some handler ->
  kept s (exec (handler h m) s).
Proof.
  unfold commandHandlers. intros Hh.
  repeat match type of Hh with
  | (if ?c then _ else _) = _ => destruct c
  end.
  - injection Hh as <-. unfold TOGGLE_PLAY, element. autorewrite with monad.
    destruct (paused (dom s !!! h) || ended (dom s !!! h)); autorewrite with monad.
    + apply kept_hostCall. discriminate.
    + eapply kept_trans; [apply (kept_hostCall (element_pause h)); discriminate|].
      apply (kept_playback h (set_paused true (dom s !!! h))
               (exec (hostCall (element_pause h)) s)). reflexivity.
  - injection Hh as <-. unfold SEEK_RELATIVE.
    destruct (with_default _ _) as [| | |delta|]; try apply kept_refl.
    destruct (isFinite delta); cbn [negb]; [|apply kept_refl].
    unfold element. autorewrite with monad. apply kept_seekTo.
  - injection Hh as <-. unfold SEEK_ABSOLUTE.
    destruct (with_default _ _) as [| | |time|]; try apply kept_refl.
    destruct (isFinite time); cbn [negb]; [|apply kept_refl].
    autorewrite with monad. apply kept_seekTo.
  - destruct (Object_prototype command); [|discriminate].
    injection Hh as <-. apply kept_refl.
Qed.

Lemma kept_onMessage (m : Command.t) (s : State) : kept s (exec (onMessage m) s).
Proof.
  unfold onMessage.
  destruct (negb _); [apply kept_refl|]. autorewrite with monad.
  destruct (trackedElements s !! Command.elementId m) as [h|];
    [destruct (commandHandlers (Command.command m)) as [handler|] eqn:Hh|].
  - autorewrite with monad.
    pose proof (kept_commandHandler _ handler h m s Hh) as H1.
    destruct (eval (handler h m) s); autorewrite with monad.
    + eapply kept_trans; [exact H1|apply kept_finalize].
    + eapply kept_trans; [exact H1|apply kept_settled].
    + eapply kept_trans; [exact H1|]. apply kept_quiet; auto.
    + exact H1.
  - autorewrite with monad. apply kept_hostCall. discriminate.
  - autorewrite with monad. apply kept_hostCall. discriminate.
Qed.

Lemma kept_playSettled (i : nat) (r : Settled) (s : State) :
  kept s (exec (playSettled i r) s).
Proof.
  unfold playSettled. autorewrite with monad.
  destruct (awaitingPlay s !! i) as [[h k]|]; [|apply kept_refl].
  autorewrite with monad.
  eapply kept_trans; [|apply kept_settled]. apply kept_quiet; auto.
Qed.

Lemma kept_frameCallback (cb : string * Handle) (s : State) :
  kept s (exec (frameCallback cb) s).
Proof.
  unfold frameCallback. autorewrite with monad.
  eapply kept_trans; [|apply kept_flushUpdate]. apply kept_quiet; auto.
  cbn. intros id r H. apply lookup_delete_Some in H. tauto.
Qed.

Lemma kept_animationFrame (s : State) : kept s (exec animationFrame s).
Proof.
  unfold animationFrame. autorewrite with monad.
  apply (forEach_preserves (kept s)).
  - intros cb s' H. eapply kept_trans; [exact H|apply kept_frameCallback].
  - apply kept_quiet; auto.
Qed.

(** ** The maps agree with the page *)

Lemma consistent_kept (s s' : State) : consistent s -> kept s s' -> consistent s'.
Proof.
  intros (C1 & C2 & C3 & C4 & C5) (Hc & Ht & Hl & Ha & Hp & Hi & _).
  unfold consistent, tracked. rewrite Hc, Ht, Hl, Ha.
  split; [|split; [|split; [|split]]]; auto.
  intros id [r Hr]. apply C5. exists r. apply Hp, Hr.
Qed.

Lemma consistent_active (a : string) (f : list HostCall -> list HostCall) (s : State) :
  consistent s -> is_Some (trackedElements s !! a) ->
  consistent (with_activeMediaId (Some a) (with_calls f s)).
Proof.
  intros (C1 & C2 & C3 & C4 & C5) Ha. split_consistent; auto.
  cbn. intros a' [= <-]. exact Ha.
Qed.

Lemma consistent_setActiveElement (h : Handle) (s : State) :
  consistent s -> tracked h s -> consistent (exec (setActiveElement h) s).
Proof.
  intros H [id Hid].
  assert (Hident : identified h id s) by (apply H, Hid).
  destruct (ensureElementId_identified h id s Hident) as [Hev Hex].
  unfold setActiveElement. autorewrite with monad. rewrite Hev, Hex.
  case_bool_decide as Hact; [exact H|].
  autorewrite with monad.
  eapply consistent_kept; [|apply kept_scheduleUpdate].
  destruct (activeMediaId s) as [old|] eqn:Eold.
  - destruct (truthy old); cbn [when]; autorewrite with monad.
    + unfold safeSendMessage, hostCall. rewrite exec_modify.
      apply consistent_active.
      * eapply consistent_kept; [exact H|apply kept_cancelPending].
      * destruct (kept_cancelPending old s) as (_ & -> & _). eauto.
    + apply (consistent_active id (fun l => l) s H). eauto.
  - autorewrite with monad. apply (consistent_active id (fun l => l) s H). eauto.
Qed.

(** [setActiveElement] registers and unregisters nothing and takes no
    identifier from an element. *)
Lemma setActiveElement_registry (h : Handle) (s : State) :
  let s' := exec (setActiveElement h) s in
  trackedElements s' = trackedElements s /\
  listening s' = listening s /\
  (forall h' id, identified h' id s -> identified h' id s') /\
  crypto s' = crypto s.
Proof.
  unfold setActiveElement. autorewrite with monad.
  destruct (kept_ensureElementId h s) as (Hc1 & Ht1 & Hl1 & _ & _ & Hi1 & _).
  set (s1 := exec (ensureElementId h) s) in *.
  case_bool_decide as Hact; [auto|].
  autorewrite with monad.
  match goal with |- context [exec (scheduleUpdate h true) ?s2] =>
    destruct (kept_scheduleUpdate h s2) as (Hc3 & Ht3 & Hl3 & _ & _ & Hi3 & _);
    assert (Hs2 : trackedElements s2 = trackedElements s1 /\
                  listening s2 = listening s1 /\
                  (forall h' id, identified h' id s1 -> identified h' id s2) /\
                  crypto s2 = crypto s1)
  end.
  { destruct (activeMediaId s1) as [old|]; [destruct (truthy old)|]; cbn [when];
      autorewrite with monad; auto.
    destruct (kept_cancelPending old s1) as (Hc2 & Ht2 & Hl2 & _ & _ & Hi2 & _).
    unfold safeSendMessage, hostCall. rewrite exec_modify.
    split; [exact Ht2|]. split; [exact Hl2|]. split; [exact Hi2|exact Hc2]. }
  destruct Hs2 as (Ht2 & Hl2 & Hi2 & Hc2). cbv zeta.
  split; [congruence|]. split; [congruence|]. split; [auto|congruence].
Qed.

Lemma consistent_scheduleUpdate (h : Handle) (immediate : bool) (s : State) :
  consistent s -> tracked h s -> consistent (exec (scheduleUpdate h immediate) s).
Proof.
  intros H [id Hid]. destruct immediate.
  - eapply consistent_kept; [exact H|apply kept_scheduleUpdate].
  - assert (Hident : identified h id s) by (apply H, Hid).
    rewrite (scheduleUpdate_deferred h id s Hident).
    destruct (pendingUpdates s !! id); [exact H|].
    destruct H as (C1 & C2 & C3 & C4 & C5). split_consistent; auto.
    cbn. intros id' Hsome.
      destruct (decide (id' = id)) as [->|Hne]; [eauto|].
      rewrite !lookup_insert_ne in Hsome by congruence. apply C5, Hsome.
Qed.

Lemma consistent_listener (h : Handle) (type : string) (s : State) :
  consistent s -> h ∈ listening s -> consistent (exec (listener h type) s).
Proof.
  intros H Hin. unfold listener. autorewrite with monad.
  assert (Htr : tracked h s) by (apply H, Hin).
  destruct (String.eqb type "play"); cbn [when].
  - apply consistent_scheduleUpdate.
    + apply consistent_setActiveElement; assumption.
    + destruct Htr as [id Hid]. exists id.
      destruct (setActiveElement_registry h s) as [Ht _]. cbv zeta in Ht.
      rewrite Ht. exact Hid.
  - autorewrite with monad. apply consistent_scheduleUpdate; assumption.
Qed.

Lemma consistent_registerElement (h : Handle) (s : State) :
  consistent s -> consistent (exec (registerElement h) s).
Proof.
  intros H. unfold registerElement. autorewrite with monad.
  pose proof (consistent_kept _ _ H (kept_ensureElementId h s)) as H1.
  pose proof (ensureElementId_stored h s) as Hst.
  assert (T : truthy (eval (ensureElementId h) s) = true)
    by (apply ensureElementId_truthy, H).
  set (s1 := exec (ensureElementId h) s) in *.
  set (id := eval (ensureElementId h) s) in *.
  case_bool_decide as Hknown; [exact H1|].
  autorewrite with monad.
  assert (Hnone : trackedElements s1 !! id = None).
  { destruct (trackedElements s1 !! id) eqn:E; [|reflexivity].
    exfalso. apply Hknown. eauto. }
  set (s2 := trackedElements_set id h
               (with_listening (fun L => {[h]} ∪ L) s1)).
  assert (H2 : consistent s2).
  { destruct H1 as (C1 & C2 & C3 & C4 & C5). unfold consistent, tracked.
    split; [exact C1|]. split; [|split; [|split]].
    - cbn. intros id' h' Hl. apply lookup_insert_Some in Hl as [[<- <-]|[Hne Hl]].
      + split; assumption.
      + apply (C2 _ _ Hl).
    - cbn. intros h'. rewrite elem_of_union, elem_of_singleton. split.
      + intros [->|Hin].
        * exists id. apply lookup_insert_eq.
        * apply C3 in Hin as [id' Hid']. exists id'.
          rewrite lookup_insert_ne by congruence. exact Hid'.
      + intros [id' Hl]. apply lookup_insert_Some in Hl as [[_ <-]|[Hne Hl]].
        * left; reflexivity.
        * right. apply C3. exists id'. exact Hl.
    - cbn. intros a Ha. apply lookup_insert_is_Some'. right. apply C4, Ha.
    - cbn. intros id' Hp. apply lookup_insert_is_Some'. right. apply C5, Hp. }
  match goal with |- consistent (if ?c then _ else _) => destruct c end;
    [|exact H2].
  apply consistent_setActiveElement; [exact H2|].
  exists id. cbn. apply lookup_insert_eq.
Qed.

(** What [unregisterElement] leaves of the maps: it takes entries away
    and adds none, and the element is a value of no entry any more. *)
Lemma consistent_unregisterElement (h : Handle) (s : State) :
  consistent s ->
  let s' := exec (unregisterElement h) s in
  consistent s' /\
  (forall id h', trackedElements s' !! id = Some h' ->
     trackedElements s !! id = Some h') /\
  ~ tracked h s'.
Proof.
  intros H s'. unfold s', unregisterElement, element. autorewrite with monad.
  assert (Hsame : consistent s /\
            (forall id h', trackedElements s !! id = Some h' ->
               trackedElements s !! id = Some h') /\
            (truthy_opt (castToTvMediaId (dom s !!! h)) = false \/
             (exists id, identified h id s /\ trackedElements s !! id = None) ->
             ~ tracked h s)).
  { split; [exact H|]. split; [auto|].
    intros Hcase [id' Hid']. apply H in Hid' as Hident. destruct Hident as [E T].
    destruct Hcase as [Hf|(id & [E' _] & Hnone)].
    - rewrite E in Hf. cbn in Hf. congruence.
    - congruence. }
  destruct Hsame as (_ & Hsub & Hnot).
  destruct (castToTvMediaId (dom s !!! h)) as [id|] eqn:E;
    [|split; [exact H|split; [exact Hsub|apply Hnot; left; reflexivity]]].
  destruct (truthy id) eqn:T; cbn [negb];
    [|split; [exact H|split; [exact Hsub|apply Hnot; left; exact T]]].
  autorewrite with monad.
  destruct (trackedElements s !! id) as [t|] eqn:Et;
    [|split; [exact H|split; [exact Hsub|apply Hnot; right; exists id; repeat split; auto]]].
  autorewrite with monad.
  set (s1 := with_listening (fun L => L ∖ {[t]}) s).
  destruct (kept_cancelPending id s1) as (Hc2 & Ht2 & Hl2 & Ha2 & _).
  pose proof (cancelPending_pending id s1) as Hp2.
  pose proof (cancelPending_dom id s1) as Hd2.
  set (s2 := exec (cancelPending id) s1) in *.
  set (s4 := with_dom (fun d => <[h := set_castToTvMediaId None (d !!! h)]> d)
               (trackedElements_delete id s2)).
  destruct H as (C1 & C2 & C3 & C4 & C5).
  assert (H4 : (forall n, truthy (crypto s4 n) = true) /\
               (forall id' h', trackedElements s4 !! id' = Some h' -> identified h' id' s4) /\
               (forall h', h' ∈ listening s4 <-> tracked h' s4) /\
               (forall id', is_Some (pendingUpdates s4 !! id') ->
                  is_Some (trackedElements s4 !! id')) /\
               (forall a, activeMediaId s = Some a -> a <> id ->
                  is_Some (trackedElements s4 !! a)) /\
               trackedElements s4 = delete id (trackedElements s)).
  { assert (Hs4c : crypto s4 = crypto s) by exact Hc2.
    assert (Hs4t : trackedElements s4 = delete id (trackedElements s))
      by (unfold s4; cbn; rewrite Ht2; reflexivity).
    assert (Hs4l : listening s4 = listening s ∖ {[t]}) by exact Hl2.
    assert (Hs4p : pendingUpdates s4 = delete id (pendingUpdates s)) by exact Hp2.
    assert (Hs4d : dom s4 = <[h := set_castToTvMediaId None (dom s !!! h)]> (dom s))
      by (unfold s4; cbn; rewrite Hd2; reflexivity).
    unfold tracked, identified. rewrite Hs4c, Hs4t, Hs4l, Hs4p, Hs4d.
    split; [exact C1|]. split; [|split; [|split; [|split; [|reflexivity]]]].
    - intros id' h' Hl. apply lookup_delete_Some in Hl as [Hne Hl].
      destruct (C2 _ _ Hl) as [E' T']. split; [|exact T'].
      destruct (decide (h' = h)) as [->|Hh]; [congruence|].
      rewrite lookup_total_insert_ne by congruence. exact E'.
    - intros h'. rewrite elem_of_difference, elem_of_singleton. split.
      + intros [Hin Hne]. apply C3 in Hin as [id' Hid']. exists id'.
        apply lookup_delete_Some. split; [|exact Hid']. congruence.
      + intros [id' Hl]. apply lookup_delete_Some in Hl as [Hne Hl]. split.
        * apply C3. exists id'. exact Hl.
        * intros ->. destruct (C2 _ _ Hl) as [E1 _]. destruct (C2 _ _ Et) as [E2 _].
          congruence.
    - intros id' Hp. apply lookup_delete_is_Some in Hp as [Hne Hp].
      apply lookup_delete_is_Some. split; [exact Hne|]. apply C5, Hp.
    - intros a Ha Hne. apply lookup_delete_is_Some. split; [congruence|].
      apply C4, Ha. }
  destruct H4 as (D1 & D2 & D3 & D5 & D4 & Ht4).
  assert (Hgone : ~ tracked h s4).
  { intros [id' Hid']. rewrite Ht4 in Hid'.
    apply lookup_delete_Some in Hid' as [Hne Hid'].
    destruct (C2 _ _ Hid') as [E' _]. congruence. }
  assert (Hsub4 : forall id' h', trackedElements s4 !! id' = Some h' ->
                    trackedElements s !! id' = Some h').
  { intros id' h' Hl. rewrite Ht4 in Hl. apply lookup_delete_Some in Hl. tauto. }
  assert (Ha4 : activeMediaId s4 = activeMediaId s) by exact Ha2.
  rewrite Ha4.
  case_bool_decide as Hact.
  - autorewrite with monad. unfold safeSendMessage, hostCall. rewrite exec_modify.
    split; [|split; [exact Hsub4|exact Hgone]].
    split_consistent; auto. cbn. discriminate.
  - split; [|split; [exact Hsub4|exact Hgone]].
    split_consistent; auto.
    intros a Ha. rewrite Ha4 in Ha. apply D4; [exact Ha|].
    intros ->. apply Hact, Ha.
Qed.

(** Unregistering the elements of a list, in the list's order. *)
Lemma consistent_teardown (l : list Handle) :
  forall s, consistent s ->
    let s' := exec (forEach l unregisterElement) s in
    consistent s' /\
    (forall id h', trackedElements s' !! id = Some h' ->
       trackedElements s !! id = Some h') /\
    (forall h, h ∈ l -> ~ tracked h s').
Proof.
  induction l as [|x l IH]; intros s H; cbn zeta.
  - split; [exact H|]. split; [auto|]. intros h Hin. apply elem_of_nil in Hin. tauto.
  - rewrite exec_forEach_cons.
    destruct (consistent_unregisterElement x s H) as (H1 & Hsub1 & Hgone1).
    destruct (IH _ H1) as (H2 & Hsub2 & Hgone2).
    split; [exact H2|]. split; [auto|].
    intros h Hin. apply elem_of_cons in Hin as [->|Hin]; [|apply Hgone2, Hin].
    intros [id Hid]. apply Hgone1. exists id. apply Hsub2, Hid.
Qed.

Lemma consistent_dispatch (type : string) (h : Handle) (s : State) :
  consistent s -> consistent (exec (dispatch type h) s).
Proof.
  intros H. rewrite exec_dispatch.
  destruct (bool_decide (type ∈ MEDIA_EVENTS)); cbn [andb]; [|exact H].
  case_bool_decide as Hin; [|exact H]. apply consistent_listener; assumption.
Qed.

Lemma consistent_step (s : State) (ev : Event) : consistent s -> consistent (step s ev).
Proof.
  intros H. destruct ev as [h|h|h type| |m|i r| |h e];
    [| |rewrite step_Media| | | |rewrite step_PageHide|]; unfold step; cbn [handle].
  - apply consistent_registerElement, H.
  - apply consistent_unregisterElement, H.
  - apply forEach_preserves; [|exact H]. intros x s'. apply consistent_dispatch.
  - eapply consistent_kept; [exact H|apply kept_animationFrame].
  - autorewrite with monad. eapply consistent_kept; [exact H|apply kept_onMessage].
  - eapply consistent_kept; [exact H|apply kept_playSettled].
  - destruct (pagehideListener s); [|exact H].
    unfold pagehide. autorewrite with monad.
    apply (consistent_teardown _ (with_pagehideListener false s) H).
  - rewrite exec_modify. eapply consistent_kept; [exact H|].
    apply (kept_playback h (set_castToTvMediaId (castToTvMediaId (dom s !!! h)) e) s).
    reflexivity.
Qed.

Lemma consistent_run (evs : list Event) (s : State) :
  consistent s -> consistent (run evs s).
Proof.
  revert s. induction evs as [|ev evs IH]; intros s H; [exact H|].
  cbn. apply IH, consistent_step, H.
Qed.

Lemma consistent_init page rnd :
  (forall n, truthy (rnd n) = true) -> consistent (init page rnd).
Proof.
  intros Hrnd. unfold consistent, tracked. cbn. split; [exact Hrnd|].
  split; [|split; [|split]].
  - intros id h H. rewrite lookup_empty in H. discriminate.
  - intros h. split.
    + intros H. apply elem_of_empty in H. destruct H.
    + intros [id H]. rewrite lookup_empty in H. discriminate.
  - discriminate.
  - intros id H. rewrite lookup_empty in H. destruct H as [? H]. discriminate.
Qed.

(** ** The order of insertion and the [pagehide] handler *)

Lemma scheduleUpdate_order (h : Handle) (immediate : bool) (s : State) :
  let s' := exec (scheduleUpdate h immediate) s in
  trackedElements s' = trackedElements s /\
  trackedOrder s' = trackedOrder s /\
  pagehideListener s' = pagehideListener s.
Proof.
  destruct immediate.
  - destruct (kept_scheduleUpdate h s) as (_ & Ht & _ & _ & _ & _ & _ & Ho & Hg).
    auto.
  - unfold scheduleUpdate. autorewrite with monad.
    destruct (kept_ensureElementId h s) as (_ & Ht & _ & _ & _ & _ & _ & Ho & Hg).
    case_bool_decide; [auto|].
    unfold host_requestAnimationFrame. autorewrite with monad. cbn. auto.
Qed.

Lemma setActiveElement_order (h : Handle) (s : State) :
  let s' := exec (setActiveElement h) s in
  trackedOrder s' = trackedOrder s /\
  pagehideListener s' = pagehideListener s.
Proof.
  unfold setActiveElement. autorewrite with monad.
  destruct (kept_ensureElementId h s) as (_ & _ & _ & _ & _ & _ & _ & Ho1 & Hg1).
  set (s1 := exec (ensureElementId h) s) in *.
  case_bool_decide as Hact; [auto|].
  autorewrite with monad.
  match goal with |- context [exec (scheduleUpdate h true) ?s2] =>
    destruct (scheduleUpdate_order h true s2) as (_ & Ho3 & Hg3);
    assert (Hs2 : trackedOrder s2 = trackedOrder s1 /\
                  pagehideListener s2 = pagehideListener s1)
  end.
  { destruct (activeMediaId s1) as [old|]; [destruct (truthy old)|]; cbn [when];
      autorewrite with monad; auto.
    destruct (kept_cancelPending old s1) as (_ & _ & _ & _ & _ & _ & _ & Ho2 & Hg2).
    unfold safeSendMessage, hostCall. rewrite exec_modify. auto. }
  destruct Hs2 as [Ho2 Hg2]. cbv zeta. split; congruence.
Qed.

Lemma dispatch_order (type : string) (h : Handle) (s : State) :
  let s' := exec (dispatch type h) s in
  trackedElements s' = trackedElements s /\
  trackedOrder s' = trackedOrder s /\
  pagehideListener s' = pagehideListener s.
Proof.
  cbv zeta. rewrite exec_dispatch. destruct (_ && _); [|auto].
  unfold listener. autorewrite with monad.
  match goal with |- context [exec (scheduleUpdate h ?b) ?s1] =>
    destruct (scheduleUpdate_order h b s1) as (Ht2 & Ho2 & Hg2);
    assert (H1 : trackedElements s1 = trackedElements s /\
                 trackedOrder s1 = trackedOrder s /\
                 pagehideListener s1 = pagehideListener s)
  end.
  { destruct (String.eqb type "play"); cbn [when]; [|auto].
    destruct (setActiveElement_order h s) as [Ho1 Hg1].
    destruct (setActiveElement_registry h s) as (Ht1 & _). auto. }
  destruct H1 as (Ht1 & Ho1 & Hg1). split; [|split]; congruence.
Qed.

Lemma ordered_registerElement (h : Handle) (s : State) :
  let s' := exec (registerElement h) s in
  (ordered s -> ordered s') /\ pagehideListener s' = pagehideListener s.
Proof.
  unfold registerElement. autorewrite with monad.
  destruct (kept_ensureElementId h s) as (_ & Ht1 & _ & _ & _ & _ & _ & Ho1 & Hg1).
  set (id := eval (ensureElementId h) s).
  set (s1 := exec (ensureElementId h) s) in *.
  assert (H1 : ordered s -> ordered s1).
  { unfold ordered. rewrite Ht1, Ho1. auto. }
  case_bool_decide as Hknown; [rewrite exec_ret; auto|].
  autorewrite with monad.
  set (s2 := trackedElements_set id h (with_listening (fun L => {[h]} ∪ L) s1)).
  assert (H2 : (ordered s -> ordered s2) /\ pagehideListener s2 = pagehideListener s).
  { split; [|exact Hg1]. intros H id' Hid'. cbn in Hid' |- *.
    destruct (decide (id' = id)) as [->|Hne].
    - case_bool_decide; [assumption|]. apply elem_of_app. right.
      apply list_elem_of_here.
    - rewrite lookup_insert_ne in Hid' by congruence.
      apply (H1 H) in Hid'. case_bool_decide; [exact Hid'|].
      apply elem_of_app. left. exact Hid'. }
  match goal with |- context [if ?c then _ else _] => destruct c end; [|exact H2].
  destruct (setActiveElement_order h s2) as [Ho3 Hg3].
  destruct (setActiveElement_registry h s2) as (Ht3 & _).
  destruct H2 as [H2 Hg2]. cbv zeta. unfold element. rewrite exec_gets.
  split; [|congruence].
  intros H. unfold ordered. rewrite Ht3, Ho3. exact (H2 H).
Qed.

Lemma ordered_unregisterElement (h : Handle) (s : State) :
  let s' := exec (unregisterElement h) s in
  (ordered s -> ordered s') /\ pagehideListener s' = pagehideListener s.
Proof.
  unfold unregisterElement, element. autorewrite with monad.
  destruct (castToTvMediaId (dom s !!! h)) as [id|]; [|auto].
  destruct (truthy id); cbn [negb]; [|auto].
  autorewrite with monad.
  destruct (trackedElements s !! id) as [t|]; [|auto].
  autorewrite with monad.
  set (s1 := with_listening (fun L => L ∖ {[t]}) s).
  destruct (kept_cancelPending id s1) as (_ & Ht2 & _ & _ & _ & _ & _ & Ho2 & Hg2).
  set (s2 := exec (cancelPending id) s1) in *.
  set (s4 := with_dom (fun d => <[h := set_castToTvMediaId None (d !!! h)]> d)
               (trackedElements_delete id s2)).
  assert (H4 : (ordered s -> ordered s4) /\ pagehideListener s4 = pagehideListener s).
  { split; [|exact Hg2]. intros H id' Hid'.
    unfold s4 in Hid' |- *. cbn in Hid' |- *. rewrite Ht2 in Hid'. rewrite Ho2.
    apply lookup_delete_is_Some in Hid' as [Hne Hid'].
    apply list_elem_of_filter. split; [congruence|]. apply H, Hid'. }
  match goal with |- context [if ?c then _ else _] => destruct c end; [|exact H4].
  autorewrite with monad. exact H4.
Qed.

Lemma ordered_teardown (l : list Handle) (s : State) :
  let s' := exec (forEach l unregisterElement) s in
  (ordered s -> ordered s') /\ pagehideListener s' = pagehideListener s.
Proof.
  cbv zeta. apply (forEach_preserves
    (fun s' => (ordered s -> ordered s') /\ pagehideListener s' = pagehideListener s));
    [|auto].
  intros x s' [H Hg]. destruct (ordered_unregisterElement x s') as [H' Hg'].
  split; [auto|congruence].
Qed.

(** The events keep the order of insertion complete, and none but
    [pagehide] touches the [pagehide] handler, which is gone after its
    first run. *)
Lemma ordered_step (s : State) (ev : Event) :
  (ordered s -> ordered (step s ev)) /\
  pagehideListener (step s ev)
  = match ev with PageHide => false | _ => pagehideListener s end.
Proof.
  destruct ev as [h|h|h type| |m|i r| |h e];
    [| |rewrite step_Media| | | |rewrite step_PageHide|]; unfold step; cbn [handle].
  - apply ordered_registerElement.
  - apply ordered_unregisterElement.
  - apply (forEach_preserves
      (fun s' => (ordered s -> ordered s') /\ pagehideListener s' = pagehideListener s));
      [|auto].
    intros x s' [H Hg]. destruct (dispatch_order type x s') as (Ht' & Ho' & Hg').
    split; [|congruence]. intros H0. unfold ordered. rewrite Ht', Ho'. exact (H H0).
  - destruct (kept_animationFrame s) as (_ & Ht & _ & _ & _ & _ & _ & Ho & Hg).
    split; [|exact Hg]. unfold ordered. rewrite Ht, Ho. auto.
  - autorewrite with monad.
    destruct (kept_onMessage m s) as (_ & Ht & _ & _ & _ & _ & _ & Ho & Hg).
    split; [|exact Hg]. unfold ordered. rewrite Ht, Ho. auto.
  - destruct (kept_playSettled i r s) as (_ & Ht & _ & _ & _ & _ & _ & Ho & Hg).
    split; [|exact Hg]. unfold ordered. rewrite Ht, Ho. auto.
  - destruct (pagehideListener s) eqn:Harmed; [|auto].
    unfold pagehide. autorewrite with monad.
    destruct (ordered_teardown (trackedElements_values (with_pagehideListener false s))
                (with_pagehideListener false s)) as [H Hg].
    split; [exact H|exact Hg].
  - rewrite exec_modify. split; [auto|reflexivity].
Qed.

Lemma ordered_run (evs : list Event) (s : State) :
  ordered s -> ordered (run evs s).
Proof.
  revert s. induction evs as [|ev evs IH]; intros s H; [exact H|].
  cbn. apply IH, ordered_step, H.
Qed.

Lemma ordered_init page rnd : ordered (init page rnd).
Proof. intros id [h H]. cbn in H. rewrite lookup_empty in H. discriminate. Qed.

(** The [pagehide] handler is attached until the first [pagehide]. *)
Lemma armed_run (evs : list Event) (s : State) :
  (PageHide ∉ evs -> pagehideListener (run evs s) = pagehideListener s) /\
  (PageHide ∈ evs \/ pagehideListener s = false -> pagehideListener (run evs s) = false).
Proof.
  revert s. induction evs as [|ev evs IH]; intros s.
  - split; [reflexivity|]. intros [Hin|H]; [apply elem_of_nil in Hin; destruct Hin|exact H].
  - cbn [run fold_left]. destruct (IH (step s ev)) as [IH1 IH2].
    pose proof (proj2 (ordered_step s ev)) as Hg. split.
    + intros Hnot. change (fold_left step evs (step s ev)) with (run evs (step s ev)).
      rewrite IH1 by (intros Hin; apply Hnot, list_elem_of_further, Hin).
      rewrite Hg. destruct ev; try reflexivity.
      exfalso. apply Hnot, list_elem_of_here.
    + intros Hor. apply IH2. destruct ev; rewrite Hg;
        try (destruct Hor as [Hin|H];
             [left; apply elem_of_cons in Hin as [Hin|Hin];
                [discriminate Hin|exact Hin]
             |right; exact H]).
      right. reflexivity.
Qed.

(** A traversal of [trackedElements] meets every tracked element. *)
Lemma trackedElements_values_cover (s : State) (id : string) (h : Handle) :
  ordered s -> trackedElements s !! id = Some h -> h ∈ trackedElements_values s.
Proof.
  intros H Hid. unfold trackedElements_values. apply list_elem_of_omap.
  exists id. split; [apply H; eauto|exact Hid].
Qed.

End AgentTracking.

(* ===================================================================== *)
(** * Identifiers, payloads, registration *)
(* ===================================================================== *)

Section AgentRegistration.
Import JS StateMonad Agent Tracking.
Local Open Scope monad_scope.

(** X10.  [ensureElementId] gives an element its identifier once: the
    identifier it returns is stored on the element, a second call
    returns the same one and changes nothing, at most one string is
    drawn from the random source, no other element is touched, and an
    element that carries a non-empty identifier already is left as it
    is. *)
Theorem ensureElementId_stable (h : Handle) (s : State) :
  (forall n, truthy (crypto s n) = true) ->
  let id := eval (ensureElementId h) s in
  let s1 := exec (ensureElementId h) s in
  identified h id s1 /\
  ensureElementId h s1 = (id, s1) /\
  (forall h', h' <> h -> dom s1 !!! h' = dom s !!! h') /\
  (truthy_opt (castToTvMediaId (dom s !!! h)) = true -> s1 = s) /\
  (uuidDraws s1 <= S (uuidDraws s))%nat.
Proof.
  intros Hrnd id s1.
  assert (Hident : identified h id s1).
  { split; [apply ensureElementId_stored|apply ensureElementId_truthy, Hrnd]. }
  split; [exact Hident|]. split.
  { destruct Hident as [E T]. apply ensureElementId_known; assumption. }
  unfold s1.
  destruct (ensureElementId_cases h s) as [(T & _ & ->)|(T & _ & ->)].
  - split; [reflexivity|]. split; [reflexivity|]. lia.
  - split; [|split].
    + intros h' Hne. cbn. apply lookup_total_insert_ne. congruence.
    + rewrite T. discriminate.
    + cbn. lia.
Qed.

(** X11.  The payload [serializeElement] builds is fit to be shown
    whatever the element's attributes are: it names the identifier the
    element carries afterwards; the duration is absent unless it is a
    finite number above 0; the position is a finite number that is not
    negative; the volume is finite; and a payload never says both
    playing and ended. *)
Theorem serializeElement_sanitised (h : Handle) (s : State) :
  let p := eval (serializeElement h) s in
  let s' := exec (serializeElement h) s in
  castToTvMediaId (dom s' !!! h) = Some (Payload.elementId p) /\
  (forall d, Payload.duration p = Some d -> isFinite d = true /\ lt zero d = true) /\
  isFinite (Payload.currentTime p) = true /\
  le zero (Payload.currentTime p) = true /\
  isFinite (Payload.volume p) = true /\
  (Payload.isPlaying p = true -> Payload.isEnded p = false).
Proof.
  intros p s'. unfold p, s', serializeElement, element.
  autorewrite with monad.
  set (e := dom (exec (ensureElementId h) s) !!! h).
  split; [apply ensureElementId_stored|]. unfold serialized. cbn.
  split; [|split; [|split; [|split]]].
  - intros d. destruct (isFinite (duration e) && lt zero (duration e)) eqn:E;
      [|discriminate].
    intros [= <-]. apply andb_true_iff in E. exact E.
  - destruct (isFinite (currentTime e) && le zero (currentTime e)) eqn:E;
      [|reflexivity].
    apply andb_true_iff in E. tauto.
  - destruct (isFinite (currentTime e) && le zero (currentTime e)) eqn:E;
      [|reflexivity].
    apply andb_true_iff in E. tauto.
  - destruct (isFinite (volume e)) eqn:E; [exact E|reflexivity].
  - destruct (paused e), (ended e); cbn; congruence.
Qed.

Lemma registerElement_known (h : Handle) (id : string) (s : State) :
  identified h id s -> is_Some (trackedElements s !! id) ->
  exec (registerElement h) s = s.
Proof.
  intros Hident Htr. unfold registerElement, element. autorewrite with monad.
  destruct (ensureElementId_identified h id s Hident) as [-> ->].
  rewrite bool_decide_true by exact Htr. reflexivity.
Qed.

Lemma registerElement_tracks (h : Handle) (s : State) :
  (forall n, truthy (crypto s n) = true) ->
  exists id, identified h id (exec (registerElement h) s) /\
             is_Some (trackedElements (exec (registerElement h) s) !! id).
Proof.
  intros Hrnd. exists (eval (ensureElementId h) s).
  assert (Hident : identified h (eval (ensureElementId h) s)
                     (exec (ensureElementId h) s)).
  { split; [apply ensureElementId_stored|apply ensureElementId_truthy, Hrnd]. }
  unfold registerElement, element. autorewrite with monad.
  set (s1 := exec (ensureElementId h) s) in *.
  set (id := eval (ensureElementId h) s) in *.
  case_bool_decide as Hknown; [split; assumption|].
  autorewrite with monad.
  set (s2 := trackedElements_set id h
               (with_listening (fun L => {[h]} ∪ L) s1)).
  assert (H2 : identified h id s2 /\ trackedElements s2 !! id = Some h).
  { split; [exact Hident|]. cbn. apply lookup_insert_eq. }
  match goal with |- context [if ?c then _ else _] => destruct c end.
  - destruct (setActiveElement_registry h s2) as (Ht & _ & Hi & _). cbv zeta in Ht, Hi.
    rewrite Ht. split; [apply Hi, H2|]. destruct H2 as [_ ->]. eauto.
  - destruct H2 as [? ->]. eauto.
Qed.

(** X12.  Registration is idempotent: after [registerElement] the
    element carries a non-empty identifier that is tracked, and
    registering it again changes nothing and sends nothing. *)
Theorem registerElement_idempotent (h : Handle) (s : State) :
  (forall n, truthy (crypto s n) = true) ->
  let s1 := exec (registerElement h) s in
  (exists id, identified h id s1 /\ is_Some (trackedElements s1 !! id)) /\
  exec (registerElement h) s1 = s1.
Proof.
  intros Hrnd s1. destruct (registerElement_tracks h s Hrnd) as (id & Hident & Htr).
  split; [eauto|]. apply (registerElement_known h id); assumption.
Qed.

(** [registerElement] leaves the identifiers the elements carry. *)
Lemma registerElement_grows_id (h : Handle) (id : string) (s : State) :
  identified h id s -> identified h id (exec (registerElement h) s).
Proof.
  intros Hident. unfold registerElement, element. autorewrite with monad.
  destruct (kept_ensureElementId h s) as (_ & _ & _ & _ & _ & Hi1 & _).
  apply Hi1 in Hident.
  set (s1 := exec (ensureElementId h) s) in *.
  case_bool_decide; [rewrite exec_ret; exact Hident|]. autorewrite with monad.
  match goal with |- context [if ?c then _ else _] => destruct c end;
    [|exact Hident].
  match goal with |- identified h id (exec (setActiveElement h) ?s2) =>
    destruct (setActiveElement_registry h s2) as (_ & _ & Hi & _);
    apply Hi; exact Hident
  end.
Qed.

(** Registering, while no element is active, an element that carries
    an identifier which is not tracked. *)
Lemma registerElement_first (h : Handle) (id : string) (s : State) :
  identified h id s ->
  trackedElements s !! id = None ->
  truthy_opt (activeMediaId s) = false ->
  let s' := exec (registerElement h) s in
  activeMediaId s' = Some id /\
  trackedElements s' = <[id := h]> (trackedElements s) /\
  listening s' = {[h]} ∪ listening s /\
  calls s' = calls s ++ cancellation (pendingUpdates s !! id)
             ++ [sendMessage (MEDIA_UPDATE (serialized id (dom s !!! h)))] /\
  outbox s' = outbox s ++ [MEDIA_UPDATE (serialized id (dom s !!! h))].
Proof.
  intros Hident Hnew Hact s'.
  assert (Hs' : s' = exec (flushUpdate h)
            (exec (cancelPending id)
               (with_activeMediaId (Some id)
                  (trackedElements_set id h
                     (with_listening (fun L => {[h]} ∪ L) s))))).
  { unfold s', registerElement, element. autorewrite with monad.
    destruct (ensureElementId_identified h id s Hident) as [-> ->].
    rewrite bool_decide_false by (rewrite Hnew; apply is_Some_None).
    autorewrite with monad. cbn [activeMediaId with_trackedElements with_listening trackedElements_set with_trackedOrder].
    rewrite Hact. cbn [negb orb when].
    set (s2 := trackedElements_set _ _ _).
    assert (Hident2 : identified h id s2) by exact Hident.
    unfold setActiveElement. autorewrite with monad.
    destruct (ensureElementId_identified h id s2 Hident2) as [-> ->].
    assert (Hne : activeMediaId s2 <> Some id).
    { destruct Hident as [_ T]. intros E. change (activeMediaId s = Some id) in E.
      rewrite E in Hact. cbn in Hact. congruence. }
    rewrite bool_decide_false by exact Hne. autorewrite with monad.
    assert (Hold : exec (match activeMediaId s2 with
                         | Some old => when (truthy old)
                             (cancelPending old >> safeSendMessage (MEDIA_REMOVED old))
                         | None => ret tt
                         end) s2 = s2).
    { change (activeMediaId s2) with (activeMediaId s).
      destruct (activeMediaId s) as [old|]; [|reflexivity].
      cbn in Hact. rewrite Hact. reflexivity. }
    rewrite Hold.
    rewrite (scheduleUpdate_immediate h id) by exact Hident. reflexivity. }
  set (s3 := with_activeMediaId (Some id) _) in Hs'.
  assert (Hident4 : identified h id (exec (cancelPending id) s3)).
  { apply identified_cancelPending. exact Hident. }
  rewrite (flushUpdate_identified h id _ Hident4) in Hs'.
  rewrite cancelPending_active in Hs'.
  rewrite bool_decide_true in Hs' by reflexivity.
  rewrite cancelPending_dom in Hs'.
  destruct (kept_cancelPending id s3) as (_ & Ht & Hl & Ha & _).
  pose proof (cancelPending_calls id s3) as Hc.
  rewrite Hs'. cbn [activeMediaId trackedElements listening calls with_calls].
  rewrite Ha, Ht, Hl, Hc.
  split; [reflexivity|]. split; [reflexivity|]. split; [reflexivity|].
  assert (Hcalls : (calls s3 ++ cancellation (pendingUpdates s3 !! id))
                   ++ [sendMessage (MEDIA_UPDATE (serialized id (dom s3 !!! h)))]
                   = calls s ++ cancellation (pendingUpdates s !! id)
                     ++ [sendMessage (MEDIA_UPDATE (serialized id (dom s !!! h)))]).
  { rewrite <- app_assoc. reflexivity. }
  split; [exact Hcalls|].
  unfold outbox. cbn [calls with_calls]. rewrite Hc, Hcalls, !sent_app.
  rewrite cancellation_silent. reflexivity.
Qed.

(** X13.  While no element is active, the first element that is
    registered becomes the active one without any play event: it is
    given an identifier if it has none, it is tracked and listened to,
    and one update for it is sent at once (after cancelling a flush
    pending under its identifier, if any). *)
Theorem first_registration_activates (h : Handle) (s : State) :
  (forall n, truthy (crypto s n) = true) ->
  truthy_opt (activeMediaId s) = false ->
  let id := eval (ensureElementId h) s in
  let e := dom (exec (ensureElementId h) s) !!! h in
  trackedElements s !! id = None ->
  let s' := exec (registerElement h) s in
  activeMediaId s' = Some id /\
  castToTvMediaId (dom s' !!! h) = Some id /\
  trackedElements s' = <[id := h]> (trackedElements s) /\
  listening s' = {[h]} ∪ listening s /\
  calls s' = calls s ++ cancellation (pendingUpdates s !! id)
             ++ [sendMessage (MEDIA_UPDATE (serialized id e))] /\
  outbox s' = outbox s ++ [MEDIA_UPDATE (serialized id e)].
Proof.
  intros Hrnd Hact id e Hnew s'.
  set (s0 := exec (ensureElementId h) s).
  assert (Hident : identified h id s0).
  { split; [apply ensureElementId_stored|apply ensureElementId_truthy, Hrnd]. }
  assert (Hs' : s' = exec (registerElement h) s0).
  { unfold s', registerElement. rewrite !exec_bind. fold s0. fold id.
    destruct (ensureElementId_identified h id s0 Hident) as [-> ->]. reflexivity. }
  destruct (kept_ensureElementId h s) as (_ & Ht & Hl & Ha & _).
  destruct (ensureElementId_view h s) as (_ & _ & Hc).
  assert (Hp : pendingUpdates (exec (ensureElementId h) s) = pendingUpdates s)
    by (destruct (ensureElementId_cases h s) as [(_ & _ & ->)|(_ & _ & ->)];
        reflexivity).
  fold s0 in Ht, Hl, Ha, Hc, Hp.
  destruct (registerElement_first h id s0 Hident) as (F1 & F2 & F3 & F4 & F5).
  - rewrite Ht. exact Hnew.
  - rewrite Ha. exact Hact.
  - rewrite Hs'. unfold outbox in *. rewrite Ht, Hl, Hc, Hp in *.
    split; [exact F1|]. split; [|split; [exact F2|split; [exact F3|split; assumption]]].
    destruct (registerElement_grows_id h id s0 Hident) as [E _]. exact E.
Qed.

(** X14.  While an element is active, registering an element that is
    paused or has ended does not take the slot: the active identifier
    stays and nothing is sent.  The element carries the identifier [id]
    afterwards, the one it had or a fresh one.  If [id] was not tracked
    the element is tracked under it and listened to all the same.  If
    [id] was tracked already (the element itself, registered before, or
    a copy of a tracked element that carries its identifier attribute),
    [registerElement] returns early: nothing is added to
    [trackedElements] and no listener is attached. *)
Theorem idle_registration_keeps_active (h : Handle) (a : string) (s : State) :
  (forall n, truthy (crypto s n) = true) ->
  activeMediaId s = Some a -> truthy a = true ->
  paused (dom s !!! h) || ended (dom s !!! h) = true ->
  let id := eval (ensureElementId h) s in
  let s' := exec (registerElement h) s in
  activeMediaId s' = Some a /\
  calls s' = calls s /\
  identified h id s' /\
  (trackedElements s !! id = None ->
     trackedElements s' = <[id := h]> (trackedElements s) /\
     listening s' = {[h]} ∪ listening s) /\
  (is_Some (trackedElements s !! id) ->
     trackedElements s' = trackedElements s /\
     listening s' = listening s).
Proof.
  intros Hrnd Hact Ta Hidle id s'.
  destruct (ensureElementId_view h s) as (_ & Ha1 & Hc1).
  destruct (kept_ensureElementId h s) as (_ & Ht1 & Hl1 & _).
  pose proof (same_playback_ensureElementId h s h) as Hp1.
  assert (Hident : identified h id (exec (ensureElementId h) s)).
  { split; [apply ensureElementId_stored|apply ensureElementId_truthy, Hrnd]. }
  set (s1 := exec (ensureElementId h) s) in *.
  assert (Hs' : s' = if bool_decide (is_Some (trackedElements s !! id)) then s1
                     else trackedElements_set id h
                            (with_listening (fun L => {[h]} ∪ L) s1)).
  { unfold s', registerElement, element. autorewrite with monad.
    fold s1. fold id. rewrite Ht1.
    case_bool_decide; [rewrite exec_ret; reflexivity|].
    autorewrite with monad.
    cbn [activeMediaId with_trackedElements with_listening dom trackedElements_set
         with_trackedOrder].
    rewrite Ha1, Hact. cbn [truthy_opt]. rewrite Ta. cbn [negb orb].
    assert (Hsame : negb (paused (dom s1 !!! h)) && negb (ended (dom s1 !!! h)) = false).
    { assert (E1 : paused (dom s1 !!! h) = paused (dom s !!! h))
        by exact (f_equal paused Hp1).
      assert (E2 : ended (dom s1 !!! h) = ended (dom s !!! h))
        by exact (f_equal ended Hp1).
      rewrite E1, E2. destruct (paused (dom s !!! h)), (ended (dom s !!! h));
        cbn in *; congruence. }
    rewrite Hsame. reflexivity. }
  rewrite Hs'. case_bool_decide as Hknown.
  - split; [congruence|]. split; [exact Hc1|]. split; [exact Hident|].
    split; [|auto]. intros Hnone. rewrite Hnone in Hknown.
    destruct (is_Some_None Hknown).
  - split; [cbn; congruence|]. split; [exact Hc1|]. split; [exact Hident|].
    split; [|intros Hsome; destruct (Hknown Hsome)].
    intros _. cbn. rewrite Ht1, Hl1. auto.
Qed.

(** X15.  Unregistering a tracked element takes it out of every map:
    its entry, its listener, its pending flush (cancelled with the
    host) and the identifier on the element itself.  [MEDIA_REMOVED] is
    sent exactly when the element was the active one, and then no
    element is active: no other tracked element is promoted.  A second
    unregistration changes nothing. *)
Theorem unregisterElement_teardown (h : Handle) (id : string) (s : State) :
  identified h id s ->
  trackedElements s !! id = Some h ->
  let s' := exec (unregisterElement h) s in
  let was_active := bool_decide (activeMediaId s = Some id) in
  trackedElements s' = delete id (trackedElements s) /\
  listening s' = listening s ∖ {[h]} /\
  pendingUpdates s' = delete id (pendingUpdates s) /\
  castToTvMediaId (dom s' !!! h) = None /\
  activeMediaId s' = (if was_active then None else activeMediaId s) /\
  calls s' = calls s ++ cancellation (pendingUpdates s !! id)
             ++ (if was_active then [sendMessage (MEDIA_REMOVED id)] else []) /\
  exec (unregisterElement h) s' = s'.
Proof.
  intros [E T] Htr s' was_active.
  set (s1 := with_listening (fun L => L ∖ {[h]}) s).
  set (s4 := with_dom (fun d => <[h := set_castToTvMediaId None (d !!! h)]> d)
               (trackedElements_delete id (exec (cancelPending id) s1))).
  assert (Hs' : s' = if was_active
                     then with_calls (fun l => l ++ [sendMessage (MEDIA_REMOVED id)])
                            (with_activeMediaId None s4)
                     else s4).
  { unfold s', unregisterElement, element. autorewrite with monad.
    rewrite E, T. cbn [negb]. autorewrite with monad. rewrite Htr.
    autorewrite with monad. fold s1. fold s4.
    change (activeMediaId s4) with (activeMediaId (exec (cancelPending id) s1)).
    rewrite cancelPending_active. change (activeMediaId s1) with (activeMediaId s).
    fold was_active. destruct was_active; reflexivity. }
  destruct (kept_cancelPending id s1) as (_ & Ht & Hl & Ha & _).
  pose proof (cancelPending_calls id s1) as Hc.
  pose proof (cancelPending_pending id s1) as Hp.
  pose proof (cancelPending_dom id s1) as Hd.
  assert (F1 : trackedElements s' = delete id (trackedElements s))
    by (rewrite Hs'; destruct was_active; cbn; rewrite Ht; reflexivity).
  assert (F2 : listening s' = listening s ∖ {[h]})
    by (rewrite Hs'; destruct was_active; cbn; rewrite Hl; reflexivity).
  assert (F3 : pendingUpdates s' = delete id (pendingUpdates s))
    by (rewrite Hs'; destruct was_active; cbn; rewrite Hp; reflexivity).
  assert (F4 : castToTvMediaId (dom s' !!! h) = None)
    by (rewrite Hs'; destruct was_active; cbn; rewrite lookup_total_insert_eq;
        reflexivity).
  assert (F5 : activeMediaId s' = if was_active then None else activeMediaId s)
    by (rewrite Hs'; destruct was_active; cbn; [|rewrite Ha]; reflexivity).
  assert (F6 : calls s' = calls s ++ cancellation (pendingUpdates s !! id)
                 ++ (if was_active then [sendMessage (MEDIA_REMOVED id)] else []))
    by (rewrite Hs'; destruct was_active; cbn; rewrite Hc; cbn;
        rewrite <- ?app_assoc, ?app_nil_r; reflexivity).
  repeat (split; [assumption|]).
  unfold unregisterElement, element. autorewrite with monad. rewrite F4. reflexivity.
Qed.

End AgentRegistration.

(* ===================================================================== *)
(** * When no element is active *)
(* ===================================================================== *)

Section AgentIdle.
Import JS StateMonad Agent Tracking.
Local Open Scope monad_scope.

Lemma idle_refl (s : State) : activeMediaId s = None -> idle s s.
Proof. intros H. split; [exact H|reflexivity]. Qed.

Lemma idle_trans (s1 s2 s3 : State) : idle s1 s2 -> idle s2 s3 -> idle s1 s3.
Proof. intros [_ H1] [H2 H3]. split; [exact H2|congruence]. Qed.

Lemma idle_view (s s' : State) (new : list HostCall) :
  activeMediaId s' = None -> calls s' = calls s ++ new -> sent new = [] ->
  idle s s'.
Proof.
  intros Ha Hc Hn. split; [exact Ha|]. unfold outbox.
  rewrite Hc, sent_app, Hn. apply app_nil_r.
Qed.

Lemma idle_quiet (s s' : State) :
  activeMediaId s' = None -> calls s' = calls s -> idle s s'.
Proof. intros Ha Hc. split; [exact Ha|]. unfold outbox. rewrite Hc. reflexivity. Qed.

Lemma idle_ensureElementId (h : Handle) (s : State) :
  activeMediaId s = None -> idle s (exec (ensureElementId h) s).
Proof.
  intros H. destruct (ensureElementId_view h s) as (_ & Ha & Hc).
  apply idle_quiet; congruence.
Qed.

Lemma idle_cancelPending (elementId : string) (s : State) :
  activeMediaId s = None -> idle s (exec (cancelPending elementId) s).
Proof.
  intros H. eapply idle_view.
  - rewrite cancelPending_active. exact H.
  - apply cancelPending_calls.
  - apply cancellation_silent.
Qed.

Lemma idle_flushUpdate (h : Handle) (s : State) :
  activeMediaId s = None -> idle s (exec (flushUpdate h) s).
Proof.
  intros H. unfold flushUpdate. autorewrite with monad.
  pose proof (idle_ensureElementId h s H) as H1.
  rewrite bool_decide_false; [exact H1|].
  destruct H1 as [-> _]. discriminate.
Qed.

Lemma idle_scheduleUpdate (h : Handle) (immediate : bool) (s : State) :
  activeMediaId s = None -> idle s (exec (scheduleUpdate h immediate) s).
Proof.
  intros H. unfold scheduleUpdate. autorewrite with monad.
  pose proof (idle_ensureElementId h s H) as H1.
  set (s1 := exec (ensureElementId h) s) in *.
  eapply idle_trans; [exact H1|]. destruct H1 as [H1 _].
  destruct immediate; autorewrite with monad.
  - eapply idle_trans; [apply idle_cancelPending, H1|].
    apply idle_flushUpdate. rewrite cancelPending_active. exact H1.
  - case_bool_decide; [apply idle_refl, H1|].
    unfold host_requestAnimationFrame, hostCall. autorewrite with monad.
    apply (idle_view _ _ [requestAnimationFrame (nextRafId s1)]);
      [exact H1|reflexivity|reflexivity].
Qed.

Lemma idle_hostCall (c : HostCall) (s : State) :
  (forall m, c <> sendMessage m) ->
  activeMediaId s = None -> idle s (exec (hostCall c) s).
Proof.
  intros Hc H. apply (idle_view _ _ [c]); [exact H|reflexivity|].
  destruct c; try reflexivity. exfalso. exact (Hc _ eq_refl).
Qed.

Lemma idle_finalize (h : Handle) ok error (s : State) :
  activeMediaId s = None -> idle s (exec (finalize h ok error) s).
Proof.
  intros H. unfold finalize. autorewrite with monad.
  eapply idle_trans; [|apply idle_scheduleUpdate, H].
  apply idle_hostCall; [discriminate|exact H].
Qed.

Lemma idle_settled (h : Handle) (r : Settled) (s : State) :
  activeMediaId s = None -> idle s (exec (settled h r) s).
Proof. destruct r; apply idle_finalize. Qed.

Lemma idle_commandHandler (command : string) handler (h : Handle)
    (m : Command.t) (s : State) :
  commandHandlers command = Some handler ->
  activeMediaId s = None -> idle s (exec (handler h m) s).
Proof.
  unfold commandHandlers. intros Hh H.
  repeat match type of Hh with
  | (if ?c then _ else _) = _ => destruct c
  end.
  - injection Hh as <-. unfold TOGGLE_PLAY, element. autorewrite with monad.
    destruct (paused (dom s !!! h) || ended (dom s !!! h)); autorewrite with monad.
    + apply idle_hostCall; [discriminate|exact H].
    + apply (idle_view _ _ [element_pause h]); [exact H|reflexivity|reflexivity].
  - injection Hh as <-. unfold SEEK_RELATIVE.
    destruct (with_default _ _) as [| | |delta|]; try apply idle_refl, H.
    destruct (isFinite delta); cbn [negb]; [|apply idle_refl, H].
    unfold seekTo, element. autorewrite with monad. apply idle_quiet; [exact H|reflexivity].
  - injection Hh as <-. unfold SEEK_ABSOLUTE.
    destruct (with_default _ _) as [| | |time|]; try apply idle_refl, H.
    destruct (isFinite time); cbn [negb]; [|apply idle_refl, H].
    unfold seekTo, element. autorewrite with monad. apply idle_quiet; [exact H|reflexivity].
  - destruct (Object_prototype command); [|discriminate].
    injection Hh as <-. apply idle_refl, H.
Qed.

Lemma idle_onMessage (m : Command.t) (s : State) :
  activeMediaId s = None -> idle s (exec (onMessage m) s).
Proof.
  intros H. unfold onMessage.
  destruct (negb _); [apply idle_refl, H|]. autorewrite with monad.
  destruct (trackedElements s !! Command.elementId m) as [h|];
    [destruct (commandHandlers (Command.command m)) as [handler|] eqn:Hh|].
  - autorewrite with monad.
    pose proof (idle_commandHandler _ handler h m s Hh H) as H1.
    destruct (eval (handler h m) s); autorewrite with monad.
    + eapply idle_trans; [exact H1|apply idle_finalize, H1].
    + eapply idle_trans; [exact H1|apply idle_settled, H1].
    + eapply idle_trans; [exact H1|]. apply idle_quiet; [apply H1|reflexivity].
    + exact H1.
  - autorewrite with monad. apply idle_hostCall; [discriminate|exact H].
  - autorewrite with monad. apply idle_hostCall; [discriminate|exact H].
Qed.

Lemma idle_playSettled (i : nat) (r : Settled) (s : State) :
  activeMediaId s = None -> idle s (exec (playSettled i r) s).
Proof.
  intros H. unfold playSettled. autorewrite with monad.
  destruct (awaitingPlay s !! i) as [[h k]|]; [|apply idle_refl, H].
  autorewrite with monad.
  eapply idle_trans; [|apply idle_settled, H]. apply idle_quiet; [exact H|reflexivity].
Qed.

Lemma idle_animationFrame (s : State) :
  activeMediaId s = None -> idle s (exec animationFrame s).
Proof.
  intros H. unfold animationFrame. autorewrite with monad.
  apply (forEach_preserves (idle s)).
  - intros cb s' H'. eapply idle_trans; [exact H'|].
    unfold frameCallback. autorewrite with monad.
    eapply idle_trans; [|apply idle_flushUpdate, H'].
    apply idle_quiet; [apply H'|reflexivity].
  - apply idle_quiet; [exact H|reflexivity].
Qed.

Lemma idle_unregisterElement (h : Handle) (s : State) :
  activeMediaId s = None -> idle s (exec (unregisterElement h) s).
Proof.
  intros H. unfold unregisterElement, element. autorewrite with monad.
  destruct (castToTvMediaId (dom s !!! h)) as [id|]; [|apply idle_refl, H].
  destruct (truthy id); cbn [negb]; [|apply idle_refl, H].
  autorewrite with monad.
  destruct (trackedElements s !! id) as [t|]; [|apply idle_refl, H].
  autorewrite with monad.
  set (s1 := with_listening _ s).
  pose proof (idle_cancelPending id s1 H) as H2.
  cbn [activeMediaId with_dom with_trackedElements trackedElements_delete with_trackedOrder].
  rewrite bool_decide_false; [|destruct H2 as [-> _]; discriminate].
  eapply idle_trans; [|apply idle_quiet; [apply H2|reflexivity]].
  destruct H2 as [Ha Ho]. split; [exact Ha|exact Ho].
Qed.

Lemma idle_step (s : State) (ev : Event) :
  activeMediaId s = None ->
  (forall h, ev <> Added h) -> (forall h, ev <> Media h "play") ->
  idle s (step s ev).
Proof.
  intros H Hadd Hplay.
  destruct ev as [h|h|h type| |m|i r| |h e];
    [| |rewrite step_Media| | | |rewrite step_PageHide|]; unfold step; cbn [handle].
  - exfalso. exact (Hadd h eq_refl).
  - apply idle_unregisterElement, H.
  - apply (forEach_preserves (idle s)); [|apply idle_refl, H].
    intros x s' H'. eapply idle_trans; [exact H'|].
    rewrite exec_dispatch. destruct (_ && _); [|apply idle_refl, H'].
    unfold listener. autorewrite with monad.
    destruct (String.eqb type "play") eqn:E.
    + apply String.eqb_eq in E. subst type. exfalso. exact (Hplay h eq_refl).
    + cbn [when]. autorewrite with monad. apply idle_scheduleUpdate, H'.
  - apply idle_animationFrame, H.
  - autorewrite with monad. apply idle_onMessage, H.
  - apply idle_playSettled, H.
  - destruct (pagehideListener s); [|apply idle_refl, H].
    unfold pagehide. autorewrite with monad.
    apply (forEach_preserves (idle s)); [|apply idle_quiet; [exact H|reflexivity]].
    intros x s' H'. eapply idle_trans; [exact H'|]. apply idle_unregisterElement, H'.
  - rewrite exec_modify. apply idle_quiet; [exact H|reflexivity].
Qed.

(** X16.  While no element is active the agent sends no message at
    all, whatever the tracked elements do, until an element fires
    [play] or a new element is registered: progress, pause, seek and
    volume events, frames, commands and settled promises leave the
    outbox as it is and the slot empty.  In particular, after the
    active element is removed the other tracked elements are not
    reported, playing or not. *)
Theorem silent_while_idle (s : State) (evs : list Event) :
  activeMediaId s = None ->
  Forall (fun ev => (forall h, ev <> Added h) /\ (forall h, ev <> Media h "play")) evs ->
  activeMediaId (run evs s) = None /\ outbox (run evs s) = outbox s.
Proof.
  intros H Hevs. change (idle s (run evs s)).
  assert (H0 : idle s s) by (apply idle_refl, H).
  revert H0. generalize s at 2 4.
  induction Hevs as [|ev evs [Hadd Hplay] Hevs IH]; intros s0 H0; [exact H0|].
  cbn. apply IH. eapply idle_trans; [exact H0|].
  apply idle_step; [apply H0|exact Hadd|exact Hplay].
Qed.

(** X17.  A toggle-play command for an element that is playing pauses
    it synchronously: the listener returns [true], the element is
    paused when the listener returns, the acknowledgement is
    [{ok: true}], nothing waits for a promise, and if the element is
    the active one the update sent right after the acknowledgement
    already reports it as not playing. *)
Theorem toggle_play_pauses (s : State) (m : Command.t) (h : Handle) (id : string) :
  Command.type m = MESSAGE_TYPES.MEDIA_COMMAND ->
  trackedElements s !! Command.elementId m = Some h ->
  Command.command m = MEDIA_COMMANDS.TOGGLE_PLAY ->
  paused (dom s !!! h) || ended (dom s !!! h) = false ->
  identified h id s ->
  let s' := exec (onMessage m) s in
  let e' := set_paused true (dom s !!! h) in
  eval (onMessage m) s = returned true /\
  paused (dom s' !!! h) = true /\
  awaitingPlay s' = awaitingPlay s /\
  calls s' = calls s ++ [element_pause h; acknowledged]
             ++ cancellation (pendingUpdates s !! id)
             ++ (if bool_decide (activeMediaId s = Some id)
                 then [sendMessage (MEDIA_UPDATE (serialized id e'))] else []) /\
  Payload.isPlaying (serialized id e') = false.
Proof.
  intros Htype Htr Hcmd Hplaying Hident s' e'.
  set (s1 := with_dom <[h := e']> (with_calls (fun l => l ++ [element_pause h]) s)).
  assert (Hh : exec (TOGGLE_PLAY h m) s = s1 /\
               eval (TOGGLE_PLAY h m) s = Promise Fulfilled).
  { unfold TOGGLE_PLAY, element. autorewrite with monad. rewrite Hplaying.
    cbv iota. autorewrite with monad. split; reflexivity. }
  destruct Hh as [Hh1 Hh2].
  pose proof (onMessage_dispatch m h TOGGLE_PLAY s Htype Htr) as Hd.
  rewrite Hcmd in Hd. specialize (Hd eq_refl).
  assert (Hex : exec (onMessage m) s = exec (finalize h true None) s1).
  { etransitivity; [exact (f_equal snd Hd)|].
    match goal with |- snd (?f s) = ?r => change (exec f s = r) end.
    rewrite exec_bind, Hh1, Hh2. autorewrite with monad. reflexivity. }
  assert (Hev : eval (onMessage m) s = returned true).
  { etransitivity; [exact (f_equal fst Hd)|].
    match goal with |- fst (?f s) = ?r => change (eval f s = r) end.
    rewrite eval_bind, Hh1, Hh2. autorewrite with monad. reflexivity. }
  assert (Hident1 : identified h id s1).
  { destruct Hident as [E T]. split; [|exact T]. cbn.
    rewrite lookup_total_insert_eq. exact E. }
  assert (Hd1 : dom s1 !!! h = e') by (cbn; apply lookup_total_insert_eq).
  unfold s'. rewrite Hex.
  split; [exact Hev|]. split; [|split; [|split]].
  - pose proof (same_playback_finalize h true None s1 h) as Hp.
    apply (f_equal paused) in Hp. cbn in Hp. rewrite Hp, lookup_total_insert_eq.
    reflexivity.
  - unfold finalize. autorewrite with monad.
    set (s2 := exec (hostCall _) s1).
    assert (Hident2 : identified h id s2) by exact Hident1.
    rewrite (scheduleUpdate_immediate h id s2 Hident2).
    rewrite (flushUpdate_identified h id _ (identified_cancelPending h id id s2 Hident2)).
    rewrite cancelPending_eq.
    destruct (pendingUpdates s2 !! id); case_bool_decide; reflexivity.
  - rewrite (finalize_identified h id true None s1 Hident1). rewrite Hd1.
    change (calls s1) with (calls s ++ [element_pause h]).
    change (pendingUpdates s1) with (pendingUpdates s).
    change (activeMediaId s1) with (activeMediaId s).
    rewrite <- app_assoc. reflexivity.
  - unfold serialized, e'. cbn. reflexivity.
Qed.

(** X18.  Handling a command, a settled [play()] promise or a frame
    never registers or unregisters an element, never changes the active
    identifier, adds no pending flush, takes no identifier from an
    element and never sends [MEDIA_REMOVED]. *)
Theorem commands_keep_tracking (s : State) (ev : Event) :
  (exists m, ev = Incoming m) \/ (exists i r, ev = PlaySettled i r) \/ ev = Frame ->
  kept s (step s ev).
Proof.
  intros [[m ->]|[(i & r & ->)| ->]]; unfold step; cbn [handle].
  - autorewrite with monad. apply kept_onMessage.
  - apply kept_playSettled.
  - apply kept_animationFrame.
Qed.

End AgentIdle.

(* ===================================================================== *)
(** * Leaving the page, and the mutation observer *)
(* ===================================================================== *)

Section AgentTeardown.
Import JS StateMonad Agent Tracking Document.
Local Open Scope monad_scope.

Lemma cleared_teardown (snapshot : list Handle) (s : State) :
  consistent s -> Inv s ->
  (forall id h, trackedElements s !! id = Some h -> h ∈ snapshot) ->
  cleared (exec (forEach snapshot unregisterElement) s).
Proof.
  intros Hcons Hinv Hcover.
  destruct (consistent_teardown snapshot s Hcons) as (Hcons' & Hsub & Hgone).
  assert (Hinv' : Inv (exec (forEach snapshot unregisterElement) s)).
  { apply forEach_preserves; [|exact Hinv]. intros x s0. apply Inv_unregisterElement. }
  set (s' := exec (forEach snapshot unregisterElement) s) in *.
  assert (Ht : trackedElements s' = ∅).
  { apply map_empty. intros id.
    destruct (trackedElements s' !! id) as [h|] eqn:E; [|reflexivity].
    exfalso. apply (Hgone h); [apply (Hcover id), Hsub, E|]. exists id. exact E. }
  destruct Hcons' as (_ & _ & C3 & C4 & C5).
  assert (Ha : activeMediaId s' = None).
  { destruct (activeMediaId s') as [a|] eqn:E; [|reflexivity].
    exfalso. destruct (C4 a eq_refl) as [h Hh]. rewrite Ht, lookup_empty in Hh.
    discriminate. }
  unfold cleared. split; [exact Ht|]. split; [|split; [|split; [exact Ha|]]].
  - apply elem_of_equiv_empty_L. intros h Hin. apply C3 in Hin as [id Hid].
    rewrite Ht, lookup_empty in Hid. discriminate.
  - apply map_empty. intros id.
    destruct (pendingUpdates s' !! id) as [r|] eqn:E; [|reflexivity].
    exfalso. destruct (C5 id) as [h Hh]; [eauto|].
    rewrite Ht, lookup_empty in Hh. discriminate.
  - apply elem_of_equiv_empty_L. intros id Hin.
    destruct Hinv' as [_ (Hslot & _)]. apply Hslot in Hin. congruence.
Qed.

(** X19.  Leaving the page clears the agent: in every state the agent
    reaches, unregistering a snapshot of the tracked elements, in
    whatever order the snapshot lists them, leaves nothing tracked,
    listened to, pending or active, and the messages sent so far leave
    the worker without a session of the page.  The [pagehide] handler
    does this, over the tracked elements in the order of insertion, the
    first time the page is hidden; it is registered with
    [{ once: true }], so it is attached exactly as long as there has
    been no [pagehide], it is gone after one, and a later [pagehide]
    changes nothing. *)
Theorem pagehide_clears (page : gmap Handle MediaElement) (rnd : nat -> string)
    (evs : list Event) :
  (forall n, truthy (rnd n) = true) ->
  let s := run evs (init page rnd) in
  (forall snapshot : list Handle,
     (forall id h, trackedElements s !! id = Some h -> h ∈ snapshot) ->
     cleared (exec (forEach snapshot unregisterElement) s)) /\
  (PageHide ∉ evs ->
     pagehideListener s = true /\
     step s PageHide
     = exec (forEach (trackedElements_values s) unregisterElement)
         (with_pagehideListener false s) /\
     cleared (step s PageHide)) /\
  (PageHide ∈ evs -> pagehideListener s = false /\ step s PageHide = s) /\
  pagehideListener (step s PageHide) = false.
Proof.
  intros Hrnd s.
  assert (Hcons : consistent s) by (apply consistent_run, consistent_init, Hrnd).
  assert (Hinv : Inv s) by (apply Inv_run, Inv_init, Hrnd).
  assert (Hord : ordered s) by (apply ordered_run, ordered_init).
  destruct (armed_run evs (init page rnd)) as [Harmed Hgone]. fold s in Harmed, Hgone.
  split; [|split; [|split]].
  - intros snapshot Hcover. apply cleared_teardown; assumption.
  - intros Hnot. specialize (Harmed Hnot). cbn in Harmed.
    split; [exact Harmed|]. rewrite step_PageHide, Harmed.
    unfold pagehide. autorewrite with monad. split; [reflexivity|].
    apply (cleared_teardown _ (with_pagehideListener false s)); [exact Hcons|exact Hinv|].
    intros id h Hid. exact (trackedElements_values_cover s id h Hord Hid).
  - intros Hin. assert (Hoff : pagehideListener s = false) by (apply Hgone; left; exact Hin).
    split; [exact Hoff|]. rewrite step_PageHide, Hoff. reflexivity.
  - apply (proj2 (ordered_step s PageHide)).
Qed.

Lemma handlePossibleMediaNode_eq (node : Node) (action : Handle -> M unit)
    (s : State) :
  exec (handlePossibleMediaNode node action) s
  = exec (forEach (matching node) action) s.
Proof.
  destruct node as [|[h|] childNodes];
    cbn [handlePossibleMediaNode matching querySelectorAll option_list
         option_rect app];
    [reflexivity| |]; autorewrite with monad; rewrite ?exec_forEach_cons;
    reflexivity.
Qed.

Lemma forEach_nodes (nodes : list Node) (action : Handle -> M unit) (s : State) :
  exec (forEach nodes (fun node => handlePossibleMediaNode node action)) s
  = exec (forEach (flat_map matching nodes) action) s.
Proof.
  revert s. induction nodes as [|node nodes IH]; intros s; [reflexivity|].
  cbn [flat_map]. rewrite exec_forEach_cons, exec_forEach_app.
  rewrite handlePossibleMediaNode_eq. apply IH.
Qed.

Lemma run_app (evs1 evs2 : list Event) (s : State) :
  run (evs1 ++ evs2) s = run evs2 (run evs1 s).
Proof. apply fold_left_app. Qed.

Lemma run_forEach (mk : Handle -> Event) (action : Handle -> M unit)
    (l : list Handle) :
  (forall h s, step s (mk h) = exec (action h) s) ->
  forall s, run (map mk l) s = exec (forEach l action) s.
Proof.
  intros Hmk. induction l as [|h l IH]; intros s; [reflexivity|].
  cbn [map run fold_left]. rewrite exec_forEach_cons, <- Hmk. apply IH.
Qed.

(** X20.  The observer's callback does what the agent does when the
    matching elements are added and removed one by one: for each
    mutation, the audio and video elements of every added node, the
    node itself first and then its descendants in document order, are
    registered, then those of every removed node are unregistered.  So
    what holds after every sequence of such events holds after every
    callback. *)
Theorem mutationObserver_run (mutations : list MutationRecord) (s : State) :
  exec (mutationObserver mutations) s = run (events mutations) s.
Proof.
  unfold mutationObserver, events. revert s.
  induction mutations as [|mutation mutations IH]; intros s; [reflexivity|].
  cbn [flat_map]. rewrite exec_forEach_cons, !run_app, <- IH.
  autorewrite with monad. rewrite !forEach_nodes.
  rewrite (run_forEach Added registerElement) by reflexivity.
  rewrite (run_forEach Removed unregisterElement) by reflexivity.
  reflexivity.
Qed.

Lemma registerElement_grows (h : Handle) (s : State) :
  let s' := exec (registerElement h) s in
  crypto s' = crypto s /\
  (forall h' id, identified h' id s -> identified h' id s') /\
  (forall id, is_Some (trackedElements s !! id) -> is_Some (trackedElements s' !! id)).
Proof.
  unfold registerElement, element. autorewrite with monad.
  destruct (kept_ensureElementId h s) as (Hc1 & Ht1 & _ & _ & _ & Hi1 & _).
  set (s1 := exec (ensureElementId h) s) in *.
  set (id := eval (ensureElementId h) s).
  case_bool_decide as Hknown; cbv zeta.
  { rewrite exec_ret, Ht1. auto. }
  autorewrite with monad.
  set (s2 := trackedElements_set id h
               (with_listening (fun L => {[h]} ∪ L) s1)).
  assert (H2 : crypto s2 = crypto s /\
               (forall h' id', identified h' id' s -> identified h' id' s2) /\
               (forall id', is_Some (trackedElements s !! id') ->
                  is_Some (trackedElements s2 !! id'))).
  { split; [exact Hc1|]. split; [exact Hi1|].
    intros id' Hsome. cbn. apply lookup_insert_is_Some'. right.
    rewrite Ht1. exact Hsome. }
  match goal with |- context [if ?c then _ else _] => destruct c end; [|exact H2].
  destruct H2 as (Hc2 & Hi2 & Ht2).
  destruct (setActiveElement_registry h s2) as (Ht3 & _ & Hi3 & Hc3).
  cbv zeta in Ht3, Hi3, Hc3.
  rewrite Ht3, Hc3. split; [exact Hc2|]. split; auto.
Qed.

Lemma forEach_registers (l : list Handle) :
  forall s, (forall n, truthy (crypto s n) = true) ->
    let s' := exec (forEach l registerElement) s in
    crypto s' = crypto s /\
    (forall h' id, identified h' id s -> identified h' id s') /\
    (forall id, is_Some (trackedElements s !! id) -> is_Some (trackedElements s' !! id)) /\
    forall h, h ∈ l ->
      exists id, identified h id s' /\ is_Some (trackedElements s' !! id).
Proof.
  induction l as [|x l IH]; intros s Hrnd; cbv zeta.
  - split; [reflexivity|]. split; [auto|]. split; [auto|].
    intros h Hin. apply elem_of_nil in Hin. destruct Hin.
  - rewrite exec_forEach_cons.
    destruct (registerElement_grows x s) as (Hc1 & Hi1 & Ht1). cbv zeta in Hc1, Hi1, Ht1.
    destruct (registerElement_tracks x s Hrnd) as (idx & Hix & Htx).
    set (s1 := exec (registerElement x) s) in *.
    assert (Hrnd1 : forall n, truthy (crypto s1 n) = true)
      by (intros n; rewrite Hc1; apply Hrnd).
    destruct (IH s1 Hrnd1) as (Hc2 & Hi2 & Ht2 & Hall).
    split; [congruence|]. split; [auto|]. split; [auto|].
    intros h Hin. apply elem_of_cons in Hin as [->|Hin]; [|apply Hall, Hin].
    exists idx. split; [apply Hi2, Hix|apply Ht2, Htx].
Qed.

(** X21.  Every audio or video element the initial scan finds in the
    document, and every one in a subtree the observer sees added,
    carries afterwards a non-empty identifier that is tracked,
    including the elements nested in other elements and the root of the
    subtree itself. *)
Theorem scan_registers (s : State) (node : Node) :
  (forall n, truthy (crypto s n) = true) ->
  (forall h, h ∈ querySelectorAll node ->
     let s' := exec (initialScan node) s in
     exists id, identified h id s' /\ is_Some (trackedElements s' !! id)) /\
  (forall h, h ∈ matching node ->
     let s' := exec (handlePossibleMediaNode node registerElement) s in
     exists id, identified h id s' /\ is_Some (trackedElements s' !! id)).
Proof.
  intros Hrnd. split; intros h Hin; cbv zeta.
  - unfold initialScan. apply (forEach_registers _ s Hrnd), Hin.
  - rewrite handlePossibleMediaNode_eq. apply (forEach_registers _ s Hrnd), Hin.
Qed.

(** X22.  In every state the agent reaches, once the observer has seen
    a subtree removed no audio or video element of it is tracked or
    listened to any more, and no element outside it was added to the
    map. *)
Theorem removed_subtree_untracked (page : gmap Handle MediaElement)
    (rnd : nat -> string) (evs : list Event) (node : Node) :
  (forall n, truthy (rnd n) = true) ->
  let s := run evs (init page rnd) in
  let s' := exec (handlePossibleMediaNode node unregisterElement) s in
  (forall h, h ∈ matching node -> ~ tracked h s' /\ h ∉ listening s') /\
  (forall id h, trackedElements s' !! id = Some h -> trackedElements s !! id = Some h).
Proof.
  intros Hrnd s s'.
  assert (Hcons : consistent s) by (apply consistent_run, consistent_init, Hrnd).
  unfold s'. rewrite handlePossibleMediaNode_eq.
  destruct (consistent_teardown (matching node) s Hcons) as (Hcons' & Hsub & Hgone).
  split; [|exact Hsub].
  intros h Hin. split; [apply Hgone, Hin|].
  intros Hl. apply Hcons' in Hl. exact (Hgone h Hin Hl).
Qed.

End AgentTeardown.

(* ===================================================================== *)
(** * Pending flushes and the frame queue *)
(* ===================================================================== *)

Section AgentQueue.
Import JS StateMonad Agent Tracking.
Local Open Scope monad_scope.

Lemma same_queue_refl (s : State) : same_queue s s.
Proof. repeat split. Qed.

Lemma same_queue_trans (s1 s2 s3 : State) :
  same_queue s1 s2 -> same_queue s2 s3 -> same_queue s1 s3.
Proof. intros (? & ? & ?) (? & ? & ?). repeat split; congruence. Qed.

Lemma queued_same (s s' : State) : same_queue s s' -> queued s -> queued s'.
Proof. intros (Hp & Hf & Hn). unfold queued. rewrite Hp, Hf, Hn. auto. Qed.

Lemma same_queue_ensureElementId (h : Handle) (s : State) :
  same_queue s (exec (ensureElementId h) s).
Proof.
  destruct (ensureElementId_cases h s) as [(_ & _ & ->)|(_ & _ & ->)];
    repeat split.
Qed.

Lemma same_queue_flushUpdate (h : Handle) (s : State) :
  same_queue s (exec (flushUpdate h) s).
Proof.
  unfold flushUpdate. autorewrite with monad.
  pose proof (same_queue_ensureElementId h s) as H1.
  set (s1 := exec (ensureElementId h) s) in *.
  case_bool_decide; [|exact H1].
  autorewrite with monad. rewrite exec_serializeElement.
  eapply same_queue_trans; [exact H1|].
  eapply same_queue_trans; [apply same_queue_ensureElementId|].
  repeat split.
Qed.

Lemma fst_unique {A B} (l : list (A * B)) (k : A) (v v' : B) :
  NoDup l.*1 -> (k, v) ∈ l -> (k, v') ∈ l -> v = v'.
Proof.
  induction l as [|[k0 v0] l IH]; cbn; intros Hnd H1 H2.
  - apply elem_of_nil in H1. destruct H1.
  - apply NoDup_cons in Hnd as [Hk Hnd].
    apply elem_of_cons in H1 as [[= -> ->]|H1];
      apply elem_of_cons in H2 as [[= <-]|H2]; auto.
    + exfalso. apply Hk. apply (list_elem_of_fmap_2 fst) in H2. exact H2.
    + exfalso. apply Hk. subst. apply (list_elem_of_fmap_2 fst) in H1. exact H1.
Qed.

Lemma NoDup_fst_filter {A B} (P : A * B -> Prop) `{!forall x, Decision (P x)}
    (l : list (A * B)) :
  NoDup l.*1 -> NoDup (filter P l).*1.
Proof.
  induction l as [|x l IH]; intros Hnd; [constructor|].
  rewrite fmap_cons in Hnd. apply NoDup_cons in Hnd as [Hx Hnd].
  rewrite filter_cons.
  destruct (decide (P x)); [|apply IH, Hnd].
  rewrite fmap_cons. apply NoDup_cons. split; [|apply IH, Hnd].
  intros Hin. apply Hx. apply list_elem_of_fmap in Hin as (y & -> & Hy).
  apply list_elem_of_filter in Hy as [_ Hy].
  apply (list_elem_of_fmap_2 fst) in Hy. exact Hy.
Qed.

Lemma queued_cancelPending (elementId : string) (s : State) :
  queued s -> queued (exec (cancelPending elementId) s).
Proof.
  intros (Q1 & Q2 & Q3). rewrite cancelPending_eq.
  destruct (pendingUpdates s !! elementId) as [rafId|] eqn:E;
    [|split; [exact Q1|split; assumption]].
  unfold queued. cbn. split; [|split].
  - intros id r Hl. apply lookup_delete_Some in Hl as [Hne Hl].
    destruct (Q1 _ _ Hl) as [h Hh]. exists h.
    apply list_elem_of_filter. split; [|exact Hh]. cbn. intros ->.
    destruct (Q1 _ _ E) as [h0 Hh0].
    pose proof (fst_unique _ _ _ _ Q2 Hh Hh0) as Heq. congruence.
  - apply NoDup_fst_filter, Q2.
  - intros r Hin. apply Q3. apply list_elem_of_fmap in Hin as (y & -> & Hy).
    apply list_elem_of_filter in Hy as [_ Hy].
    apply (list_elem_of_fmap_2 fst) in Hy. exact Hy.
Qed.

Lemma queued_scheduleUpdate (h : Handle) (immediate : bool) (s : State) :
  queued s -> queued (exec (scheduleUpdate h immediate) s).
Proof.
  intros H. unfold scheduleUpdate. autorewrite with monad.
  pose proof (queued_same _ _ (same_queue_ensureElementId h s) H) as H1.
  set (s1 := exec (ensureElementId h) s) in *.
  set (id := eval (ensureElementId h) s).
  destruct immediate; autorewrite with monad.
  - eapply queued_same; [apply same_queue_flushUpdate|].
    apply queued_cancelPending, H1.
  - case_bool_decide as Hp; [exact H1|].
    unfold host_requestAnimationFrame, hostCall. autorewrite with monad.
    destruct H1 as (Q1 & Q2 & Q3). unfold queued. cbn. split; [|split].
    + intros id' r Hl. rewrite insert_insert_eq in Hl.
      apply lookup_insert_Some in Hl as [[<- <-]|[Hne Hl]].
      * exists h. apply elem_of_app. right. apply list_elem_of_here.
      * destruct (Q1 _ _ Hl) as [h' Hh']. exists h'.
        apply elem_of_app. left. exact Hh'.
    + rewrite fmap_app. apply NoDup_app. split; [exact Q2|]. split.
      * intros r Hr Hin. cbn in Hin. apply list_elem_of_singleton in Hin. subst r.
        apply Q3 in Hr. lia.
      * cbn. apply NoDup_singleton.
    + intros r Hin. rewrite fmap_app in Hin. apply elem_of_app in Hin as [Hin|Hin].
      * apply Q3 in Hin. lia.
      * cbn in Hin. apply list_elem_of_singleton in Hin. subst r. lia.
Qed.

Lemma queued_setActiveElement (h : Handle) (s : State) :
  queued s -> queued (exec (setActiveElement h) s).
Proof.
  intros H. unfold setActiveElement. autorewrite with monad.
  pose proof (queued_same _ _ (same_queue_ensureElementId h s) H) as H1.
  set (s1 := exec (ensureElementId h) s) in *.
  case_bool_decide; [exact H1|]. autorewrite with monad.
  apply queued_scheduleUpdate.
  destruct (activeMediaId s1) as [old|]; [destruct (truthy old)|]; cbn [when];
    autorewrite with monad; try exact H1.
  unfold safeSendMessage, hostCall. rewrite exec_modify.
  exact (queued_cancelPending old s1 H1).
Qed.

Lemma queued_registerElement (h : Handle) (s : State) :
  queued s -> queued (exec (registerElement h) s).
Proof.
  intros H. unfold registerElement, element. autorewrite with monad.
  pose proof (queued_same _ _ (same_queue_ensureElementId h s) H) as H1.
  set (s1 := exec (ensureElementId h) s) in *.
  case_bool_decide; [exact H1|]. autorewrite with monad.
  match goal with |- queued (if ?c then _ else _) => destruct c end; [|exact H1].
  apply queued_setActiveElement. exact H1.
Qed.

Lemma queued_unregisterElement (h : Handle) (s : State) :
  queued s -> queued (exec (unregisterElement h) s).
Proof.
  intros H. unfold unregisterElement, element. autorewrite with monad.
  destruct (castToTvMediaId (dom s !!! h)) as [id|]; [|exact H].
  destruct (truthy id); cbn [negb]; [|exact H]. autorewrite with monad.
  destruct (trackedElements s !! id) as [t|]; [|exact H]. autorewrite with monad.
  set (s1 := with_listening _ s).
  pose proof (queued_cancelPending id s1 H) as H2.
  case_bool_decide; [autorewrite with monad|]; exact H2.
Qed.

Lemma queued_finalize (h : Handle) ok error (s : State) :
  queued s -> queued (exec (finalize h ok error) s).
Proof.
  intros H. unfold finalize. autorewrite with monad.
  apply queued_scheduleUpdate. exact H.
Qed.

Lemma queued_settled (h : Handle) (r : Settled) (s : State) :
  queued s -> queued (exec (settled h r) s).
Proof. destruct r; apply queued_finalize. Qed.

Lemma same_queue_commandHandler (command : string) handler (h : Handle)
    (m : Command.t) (s : State) :
  commandHandlers command = Some handler ->
  same_queue s (exec (handler h m) s).
Proof.
  unfold commandHandlers. intros Hh.
  repeat match type of Hh with
  | (if ?c then _ else _) = _ => destruct c
  end.
  - injection Hh as <-. unfold TOGGLE_PLAY, element. autorewrite with monad.
    destruct (paused (dom s !!! h) || ended (dom s !!! h)); autorewrite with monad;
      repeat split.
  - injection Hh as <-. unfold SEEK_RELATIVE.
    destruct (with_default _ _) as [| | |delta|]; try apply same_queue_refl.
    destruct (isFinite delta); cbn [negb]; [|apply same_queue_refl].
    unfold seekTo, element. autorewrite with monad. repeat split.
  - injection Hh as <-. unfold SEEK_ABSOLUTE.
    destruct (with_default _ _) as [| | |time|]; try apply same_queue_refl.
    destruct (isFinite time); cbn [negb]; [|apply same_queue_refl].
    unfold seekTo, element. autorewrite with monad. repeat split.
  - destruct (Object_prototype command); [|discriminate].
    injection Hh as <-. apply same_queue_refl.
Qed.

Lemma queued_onMessage (m : Command.t) (s : State) :
  queued s -> queued (exec (onMessage m) s).
Proof.
  intros H. unfold onMessage.
  destruct (negb _); [exact H|]. autorewrite with monad.
  destruct (trackedElements s !! Command.elementId m) as [h|];
    [destruct (commandHandlers (Command.command m)) as [handler|] eqn:Hh|];
    [|exact H|exact H].
  autorewrite with monad.
  pose proof (queued_same _ _ (same_queue_commandHandler _ handler h m s Hh) H) as H1.
  destruct (eval (handler h m) s); autorewrite with monad.
  - apply queued_finalize, H1.
  - apply queued_settled, H1.
  - exact H1.
  - exact H1.
Qed.

Lemma queued_playSettled (i : nat) (r : Settled) (s : State) :
  queued s -> queued (exec (playSettled i r) s).
Proof.
  intros H. unfold playSettled. autorewrite with monad.
  destruct (awaitingPlay s !! i) as [[h k]|]; [|exact H].
  autorewrite with monad. apply queued_settled. exact H.
Qed.

(** A frame runs every queued callback; each takes its identifier out of
    [pendingUpdates], so no flush is pending when the frame is over. *)
Lemma frame_callbacks (callbacks : list (nat * (string * Handle))) :
  forall s,
    frameCallbacks s = [] ->
    (forall id, is_Some (pendingUpdates s !! id) -> id ∈ callbacks.*2.*1) ->
    let s' := exec (forEach callbacks (fun cb => frameCallback cb.2)) s in
    frameCallbacks s' = [] /\ pendingUpdates s' = ∅.
Proof.
  induction callbacks as [|[r [id h]] callbacks IH]; intros s Hf Hp; cbv zeta.
  - split; [exact Hf|]. apply map_empty. intros id.
    change (pendingUpdates s !! id = None).
    destruct (pendingUpdates s !! id) eqn:E; [|reflexivity].
    exfalso. specialize (Hp id (mk_is_Some _ _ E)). apply elem_of_nil in Hp. exact Hp.
  - rewrite exec_forEach_cons. cbn [snd].
    assert (Hcb : exec (frameCallback (id, h)) s
                  = exec (flushUpdate h) (with_pendingUpdates (delete id) s))
      by (unfold frameCallback; autorewrite with monad; reflexivity).
    rewrite Hcb.
    destruct (same_queue_flushUpdate h (with_pendingUpdates (delete id) s))
      as (Hpe & Hfe & _).
    apply IH.
    + rewrite Hfe. exact Hf.
    + intros id' Hsome. rewrite Hpe in Hsome. cbn in Hsome.
      apply lookup_delete_is_Some in Hsome as [Hne Hsome].
      specialize (Hp id' Hsome). cbn in Hp.
      apply elem_of_cons in Hp as [->|Hp]; [congruence|exact Hp].
Qed.

Lemma animationFrame_flushes (s : State) :
  queued s ->
  frameCallbacks (exec animationFrame s) = [] /\
  pendingUpdates (exec animationFrame s) = ∅.
Proof.
  intros (Q1 & _). unfold animationFrame. autorewrite with monad.
  apply frame_callbacks; [reflexivity|].
  intros id [r Hr]. cbn in Hr. destruct (Q1 _ _ Hr) as [h Hh].
  apply (list_elem_of_fmap_2 snd) in Hh. apply (list_elem_of_fmap_2 fst) in Hh.
  exact Hh.
Qed.

Lemma queued_step (s : State) (ev : Event) : queued s -> queued (step s ev).
Proof.
  intros H. destruct ev as [h|h|h type| |m|i r| |h e];
    [| |rewrite step_Media| | | |rewrite step_PageHide|]; unfold step; cbn [handle].
  - apply queued_registerElement, H.
  - apply queued_unregisterElement, H.
  - apply forEach_preserves; [|exact H]. intros x s' H'.
    rewrite exec_dispatch. destruct (_ && _); [|exact H'].
    unfold listener. autorewrite with monad. apply queued_scheduleUpdate.
    destruct (String.eqb type "play"); [|exact H'].
    apply queued_setActiveElement, H'.
  - destruct (animationFrame_flushes s H) as [Hf Hp].
    unfold queued. rewrite Hf, Hp. split; [|split].
    + intros id r Hl. rewrite lookup_empty in Hl. discriminate.
    + constructor.
    + intros r Hin. apply elem_of_nil in Hin. destruct Hin.
  - autorewrite with monad. apply queued_onMessage, H.
  - apply queued_playSettled, H.
  - destruct (pagehideListener s); [|exact H].
    unfold pagehide. autorewrite with monad.
    apply forEach_preserves; [|exact H]. intros x s0. apply queued_unregisterElement.
  - exact H.
Qed.

Lemma queued_run (evs : list Event) (s : State) : queued s -> queued (run evs s).
Proof.
  revert s. induction evs as [|ev evs IH]; intros s H; [exact H|].
  cbn. apply IH, queued_step, H.
Qed.

(** X23.  In every state the agent reaches, a flush recorded as pending
    has its callback in the host's frame queue under the recorded id,
    so a deferred update is never lost; and when a frame has run no
    flush is pending and the queue is empty, so the next progress event
    schedules again. *)
Theorem pending_flushes_run (page : gmap Handle MediaElement)
    (rnd : nat -> string) (evs : list Event) :
  let s := run evs (init page rnd) in
  (forall id rafId, pendingUpdates s !! id = Some rafId ->
     exists h, (rafId, (id, h)) ∈ frameCallbacks s) /\
  pendingUpdates (step s Frame) = ∅ /\
  frameCallbacks (step s Frame) = [].
Proof.
  intros s.
  assert (H : queued s).
  { apply queued_run. unfold queued. cbn. split; [|split].
    - intros id r Hl. rewrite lookup_empty in Hl. discriminate.
    - constructor.
    - intros r Hin. apply elem_of_nil in Hin. destruct Hin. }
  split; [apply H|].
  destruct (animationFrame_flushes s H) as [Hf Hp]. split; assumption.
Qed.

End AgentQueue.

(* ===================================================================== *)
(** * Events that are reported at once *)
(* ===================================================================== *)

Section AgentImmediate.
Import JS StateMonad Agent Tracking.
Local Open Scope monad_scope.

(** The listener of an element that carries [id], run for an event
    other than [timeupdate] and [play]. *)
Lemma listener_immediate (s : State) (h : Handle) (id type : string) :
  identified h id s -> type <> "timeupdate" -> type <> "play" ->
  exec (listener h type) s = exec (flushUpdate h) (exec (cancelPending id) s).
Proof.
  intros Hident Hnt Hnp. unfold listener. autorewrite with monad.
  apply String.eqb_neq in Hnt, Hnp. rewrite Hnt, Hnp. cbn [when negb].
  autorewrite with monad. apply scheduleUpdate_immediate, Hident.
Qed.

(** Such a listener leaves the active identifier alone, whatever its
    element carries. *)
Lemma captured_active (s : State) (h : Handle) (type : string) :
  type <> "play" -> activeMediaId (captured h type s) = activeMediaId s.
Proof.
  intros Hnp. unfold captured.
  apply (forEach_preserves (fun s' => activeMediaId s' = activeMediaId s));
    [|reflexivity].
  intros x s' H'. rewrite exec_dispatch. destruct (_ && _); [|exact H'].
  unfold listener. autorewrite with monad.
  apply String.eqb_neq in Hnp. rewrite Hnp. cbn [when].
  destruct (negb (String.eqb type "timeupdate")).
  - destruct (kept_scheduleUpdate x s') as (_ & _ & _ & Ha & _). congruence.
  - unfold scheduleUpdate. autorewrite with monad.
    destruct (kept_ensureElementId x s') as (_ & _ & _ & Ha & _).
    case_bool_decide; [rewrite exec_ret; congruence|].
    unfold host_requestAnimationFrame. autorewrite with monad. cbn. congruence.
Qed.

(** X27.  A media event other than [timeupdate] and [play] on a tracked
    element is handled at once.  The listeners are capturing, so those
    of the element's tracked ancestors run first; they leave the active
    identifier alone, and [s0] is the state in which the event reaches
    the element, the state [s] it was fired in when no ancestor carries
    a listener.  The element's own listener then cancels the flush
    pending for the element, if any, with the host, and its callback
    leaves the frame queue, so the next frame does not report the element
    a second time; it sends one update if the element is the active one
    and none otherwise; and the event does not change which element is
    active. *)
Theorem immediate_event_flushes_now (s : State) (h : Handle) (id type : string) :
  let s0 := captured h type s in
  identified h id s0 -> h ∈ listening s0 ->
  type ∈ MEDIA_EVENTS -> type <> "timeupdate" -> type <> "play" ->
  let s' := step s (Media h type) in
  (outermost h s -> s0 = s) /\
  activeMediaId s0 = activeMediaId s /\
  calls s' = calls s0 ++ cancellation (pendingUpdates s0 !! id)
             ++ (if bool_decide (activeMediaId s = Some id)
                 then [sendMessage (MEDIA_UPDATE (serialized id (dom s0 !!! h)))]
                 else []) /\
  pendingUpdates s' = delete id (pendingUpdates s0) /\
  (forall rafId cb, pendingUpdates s0 !! id = Some rafId ->
     (rafId, cb) ∉ frameCallbacks s') /\
  activeMediaId s' = activeMediaId s.
Proof.
  intros s0 Hident Hin Htype Hnt Hnp s'.
  split; [intros Hout; apply captured_outermost, Hout|].
  pose proof (captured_active s h type Hnp) as Ha0. fold s0 in Ha0.
  split; [exact Ha0|]. rewrite <- Ha0.
  assert (Hs' : s' = exec (flushUpdate h) (exec (cancelPending id) s0)).
  { unfold s'. rewrite step_captured, exec_dispatch. fold s0.
    rewrite !bool_decide_true by assumption. cbn [andb].
    apply listener_immediate; assumption. }
  clearbody s0. clear Ha0.
  rewrite (flushUpdate_identified h id _ (identified_cancelPending h id id s0 Hident))
    in Hs'.
  rewrite cancelPending_active, cancelPending_dom in Hs'.
  pose proof (cancelPending_calls id s0) as Hc.
  pose proof (cancelPending_pending id s0) as Hp.
  pose proof (cancelPending_active id s0) as Ha.
  assert (Hf : frameCallbacks (exec (cancelPending id) s0) =
               match pendingUpdates s0 !! id with
               | Some rafId => filter (fun cb => cb.1 <> rafId) (frameCallbacks s0)
               | None => frameCallbacks s0
               end).
  { rewrite cancelPending_eq. destruct (pendingUpdates s0 !! id); reflexivity. }
  rewrite Hs'. case_bool_decide; cbn [calls pendingUpdates frameCallbacks
                                      activeMediaId with_calls];
    rewrite Hc, Hp, Hf, Ha, <- ?app_assoc, ?app_nil_r;
    (split; [reflexivity|]; split; [reflexivity|]; split; [|reflexivity]);
    intros rafId cb Hr; rewrite Hr; intros Hcb;
    apply list_elem_of_filter in Hcb as [Hne _]; apply Hne; reflexivity.
Qed.

End AgentImmediate.

(* ===================================================================== *)
(** * Progress events between two frames *)
(* ===================================================================== *)

Section AgentCoalescing.
Import JS StateMonad Agent Tracking.
Local Open Scope monad_scope.

Lemma element_ext (e e' : MediaElement) :
  playback e = playback e' -> castToTvMediaId e = castToTvMediaId e' -> e = e'.
Proof.
  destruct e, e'. unfold playback, set_castToTvMediaId. cbn.
  intros H E. injection H as -> -> -> -> -> -> -> ->. subst. reflexivity.
Qed.

(** A frame callback leaves an identified element, and the active
    identifier, as they are. *)
Lemma frameCallback_element (h : Handle) (id : string) (cb : string * Handle)
    (s : State) :
  identified h id s ->
  let s' := exec (frameCallback cb) s in
  identified h id s' /\ dom s' !!! h = dom s !!! h /\
  activeMediaId s' = activeMediaId s.
Proof.
  intros Hident s'.
  destruct (kept_frameCallback cb s) as (_ & _ & _ & Ha & _ & Hi & _).
  fold s' in Ha, Hi. pose proof (Hi h id Hident) as Hident'.
  split; [exact Hident'|]. split; [|exact Ha].
  apply element_ext.
  - unfold s', frameCallback. autorewrite with monad.
    apply (same_playback_flushUpdate cb.2 (with_pendingUpdates (delete cb.1) s) h).
  - destruct Hident as [E _], Hident' as [E' _]. congruence.
Qed.

(** While a flush of [h] is pending, progress events change nothing but
    the attributes of the elements. *)
Lemma ticking_pending (h : Handle) (id : string) (base : State) (evs : list Event) :
  truthy id = true -> h ∈ listening base ->
  is_Some (pendingUpdates base !! id) ->
  Forall (ticking h base) evs ->
  forall d,
    castToTvMediaId (d !!! h) = Some id ->
    Forall (fun a => a ∉ listening base) (ancestors (d !!! h)) ->
    exists d',
      castToTvMediaId (d' !!! h) = Some id /\
      Forall (fun a => a ∉ listening base) (ancestors (d' !!! h)) /\
      run evs (with_dom (fun _ => d) base) = with_dom (fun _ => d') base.
Proof.
  intros T Hl [r Hr] Hevs.
  induction Hevs as [|ev evs Hev Hevs IH]; intros d Hd Hout; [exists d; auto|].
  cbn [run fold_left]. destruct Hev as [->|(h' & e & -> & He)].
  - rewrite timeupdate_step by assumption.
    rewrite (scheduleUpdate_deferred h id) by (split; assumption).
    cbn [pendingUpdates with_dom]. rewrite Hr. apply IH; assumption.
  - unfold step. cbn [handle]. rewrite exec_modify.
    apply (IH (<[h' := set_castToTvMediaId (castToTvMediaId (d !!! h')) e]> d)).
    + destruct (decide (h' = h)) as [->|Hne].
      * rewrite lookup_total_insert_eq. exact Hd.
      * rewrite lookup_total_insert_ne by exact Hne. exact Hd.
    + destruct (decide (h' = h)) as [->|Hne].
      * rewrite lookup_total_insert_eq. exact (He eq_refl).
      * rewrite lookup_total_insert_ne by exact Hne. exact Hout.
Qed.

(** With no flush of [h] pending, the first [timeupdate] requests one
    frame callback. *)
Lemma ticking_requests (h : Handle) (id : string) (base : State) (evs : list Event) :
  truthy id = true -> h ∈ listening base ->
  pendingUpdates base !! id = None ->
  Forall (ticking h base) evs -> Media h "timeupdate" ∈ evs ->
  forall d,
    castToTvMediaId (d !!! h) = Some id ->
    Forall (fun a => a ∉ listening base) (ancestors (d !!! h)) ->
    exists d',
      castToTvMediaId (d' !!! h) = Some id /\
      Forall (fun a => a ∉ listening base) (ancestors (d' !!! h)) /\
      run evs (with_dom (fun _ => d) base)
      = with_dom (fun _ => d')
          (with_pendingUpdates
             (fun p => <[id := nextRafId base]> (<[id := nextRafId base]> p))
             (with_calls (fun l => l ++ [requestAnimationFrame (nextRafId base)])
                (with_frameCallbacks (fun l => l ++ [(nextRafId base, (id, h))])
                   (with_nextRafId (S (nextRafId base)) base)))).
Proof.
  intros T Hl Hp Hevs.
  induction Hevs as [|ev evs Hev Hevs IH]; intros Hin d Hd Hout;
    [apply elem_of_nil in Hin; destruct Hin|].
  cbn [run fold_left]. destruct Hev as [->|(h' & e & -> & He)].
  - rewrite timeupdate_step by assumption.
    rewrite (scheduleUpdate_deferred h id) by (split; assumption).
    cbn [pendingUpdates with_dom]. rewrite Hp.
    match goal with |- context [fold_left step evs ?t] =>
      match t with context [with_pendingUpdates ?f _] =>
        set (base' := with_pendingUpdates f
               (with_calls (fun l => l ++ [requestAnimationFrame (nextRafId base)])
                  (with_frameCallbacks (fun l => l ++ [(nextRafId base, (id, h))])
                     (with_nextRafId (S (nextRafId base)) base))))
      end
    end.
    destruct (ticking_pending h id base' evs T Hl) with (d := d)
      as (d' & Hd' & Hout' & Hrun); try assumption.
    { exists (nextRafId base). cbn. apply lookup_insert_eq. }
    exists d'. split; [exact Hd'|]. split; [exact Hout'|]. exact Hrun.
  - apply elem_of_cons in Hin as [Hin|Hin]; [discriminate Hin|].
    unfold step. cbn [handle]. rewrite exec_modify.
    apply (IH Hin (<[h' := set_castToTvMediaId (castToTvMediaId (d !!! h')) e]> d)).
    + destruct (decide (h' = h)) as [->|Hne].
      * rewrite lookup_total_insert_eq. exact Hd.
      * rewrite lookup_total_insert_ne by exact Hne. exact Hd.
    + destruct (decide (h' = h)) as [->|Hne].
      * rewrite lookup_total_insert_eq. exact (He eq_refl).
      * rewrite lookup_total_insert_ne by exact Hne. exact Hout.
Qed.

(** ** C9 *)

(** C9 (coalescing), amended.  Element [h] carries [id], is listened to
    and has no ancestor that carries a listener (an ancestor's capturing
    listener would schedule a flush of its own); no flush of [h] is
    pending.  Between two frames [h] fires [timeupdate] once or more
    often, and the host changes playback attributes in between.  However
    many [timeupdate] events there are, one frame callback is requested
    and recorded as pending: the only call made is one
    [requestAnimationFrame], the callback joins the end of the host's
    queue, and a further [timeupdate] leaves the state unchanged.  The
    next frame runs the callbacks queued before, which bring the agent to
    the state [before], and then that one callback: it sends exactly one
    [MEDIA_UPDATE], with the attributes [h] has at the frame, if [id] is
    the active identifier, and nothing if it is not; nothing is pending
    or queued afterwards. *)
Theorem C9_coalescing_gated (s : State) (h : Handle) (id : string)
    (evs : list Event) :
  identified h id s -> h ∈ listening s -> outermost h s ->
  pendingUpdates s !! id = None ->
  Forall (ticking h s) evs -> Media h "timeupdate" ∈ evs ->
  let sn := run evs s in
  let s' := step sn Frame in
  let before :=
    exec (forEach (frameCallbacks s) (fun cb => frameCallback cb.2))
      (with_frameCallbacks (fun _ => []) sn) in
  calls sn = calls s ++ [requestAnimationFrame (nextRafId s)] /\
  pendingUpdates sn = <[id := nextRafId s]> (pendingUpdates s) /\
  frameCallbacks sn = frameCallbacks s ++ [(nextRafId s, (id, h))] /\
  activeMediaId sn = activeMediaId s /\
  step sn (Media h "timeupdate") = sn /\
  calls s' = calls before
             ++ (if bool_decide (activeMediaId s = Some id)
                 then [sendMessage (MEDIA_UPDATE (serialized id (dom sn !!! h)))]
                 else []) /\
  (frameCallbacks s = [] -> calls before = calls sn) /\
  pendingUpdates s' !! id = None /\
  frameCallbacks s' = [].
Proof.
  intros [E T] Hl Hout Hp Hevs Hin sn s' before.
  assert (Hs : s = with_dom (fun _ => dom s) s) by (destruct s; reflexivity).
  destruct (ticking_requests h id s evs T Hl Hp Hevs Hin (dom s) E Hout)
    as (d' & Hd' & Hout' & Hrun).
  rewrite <- Hs in Hrun. fold sn in Hrun.
  assert (Hidn : identified h id sn) by (rewrite Hrun; split; assumption).
  assert (Hln : h ∈ listening sn) by (rewrite Hrun; exact Hl).
  assert (Houtn : outermost h sn) by (rewrite Hrun; exact Hout').
  assert (Hpn : pendingUpdates sn = <[id := nextRafId s]> (pendingUpdates s)).
  { rewrite Hrun. cbn. apply insert_insert_eq. }
  assert (Hfn : frameCallbacks sn = frameCallbacks s ++ [(nextRafId s, (id, h))])
    by (rewrite Hrun; reflexivity).
  assert (Han : activeMediaId sn = activeMediaId s) by (rewrite Hrun; reflexivity).
  split; [rewrite Hrun; reflexivity|]. split; [exact Hpn|]. split; [exact Hfn|].
  split; [exact Han|]. split.
  { rewrite timeupdate_step by assumption.
    rewrite (scheduleUpdate_deferred h id sn Hidn), Hpn, lookup_insert_eq.
    reflexivity. }
  assert (Hbefore : identified h id before /\ dom before !!! h = dom sn !!! h /\
                    activeMediaId before = activeMediaId sn).
  { unfold before.
    apply (forEach_preserves
      (fun t => identified h id t /\ dom t !!! h = dom sn !!! h /\
                activeMediaId t = activeMediaId sn)).
    - intros cb t (Hi & Hd & Ha).
      destruct (frameCallback_element h id cb.2 t Hi) as (Hi' & Hd'' & Ha').
      split; [exact Hi'|]. split; congruence.
    - split; [exact Hidn|]. split; reflexivity. }
  destruct Hbefore as (Hib & Hdb & Hab).
  assert (Es' : s' = exec (flushUpdate h) (with_pendingUpdates (delete id) before)).
  { unfold s', step. cbn [handle]. unfold animationFrame. autorewrite with monad.
    rewrite Hfn, exec_forEach_app, exec_forEach_cons. cbn [forEach snd].
    rewrite exec_ret. unfold frameCallback. autorewrite with monad. reflexivity. }
  assert (Hib' : identified h id (with_pendingUpdates (delete id) before)) by exact Hib.
  split.
  { rewrite Es', (flushUpdate_identified h id _ Hib').
    cbn [activeMediaId dom with_pendingUpdates]. rewrite Hab, Han, Hdb.
    case_bool_decide; [reflexivity|]. rewrite app_nil_r. reflexivity. }
  split; [intros Hq; unfold before; rewrite Hq; reflexivity|].
  split; [|apply frame_clears_callbacks].
  rewrite Es'.
  destruct (same_queue_flushUpdate h (with_pendingUpdates (delete id) before))
    as (-> & _).
  cbn. apply lookup_delete_eq.
Qed.

End AgentCoalescing.

(* ===================================================================== *)
(** * The popup's copy of the list and its commands *)
(* ===================================================================== *)

Section PopupChannel.
Import JS StateMonad Popup.
Local Open Scope monad_scope.

Variable URL_hostname : string -> option string.

Local Abbreviation Session := Registry.Session.
Local Abbreviation sessionId := Registry.sessionId.

(** The entries [updateSessions] writes, on top of the map [m]. *)
Lemma forEach_set (sessions : list Session) :
  forall (m : Map Session) (p : State),
    sessionMap p = m ->
    exec (forEach sessions (fun session =>
            modify (with_sessionMap (Map_set (sessionId session) session)))) p
    = with_sessionMap
        (fun _ => fold_left (fun m session => Map_set (sessionId session) session m)
                    sessions m) p.
Proof.
  induction sessions as [|session sessions IH]; intros m p Hm.
  - cbn. destruct p. cbn in Hm. subst m. reflexivity.
  - rewrite exec_forEach_cons, exec_modify.
    rewrite (IH (Map_set (sessionId session) session m)) by (cbn; congruence).
    reflexivity.
Qed.

Lemma updateSessions_eq (sessions : list Session) (p : State) :
  exec (updateSessions sessions) p
  = with_sessionMap
      (fun _ => fold_left (fun m session => Map_set (sessionId session) session m)
                  sessions []) p.
Proof.
  unfold updateSessions. autorewrite with monad.
  rewrite (forEach_set sessions []) by reflexivity. reflexivity.
Qed.

Lemma fold_set_distinct (sessions : list Session) :
  forall m : list (string * Session),
    NoDup (map fst m ++ map sessionId sessions) ->
    fold_left (fun (m : Map Session) session => Map_set (sessionId session) session m)
      sessions m
    = m ++ map (fun session => (sessionId session, session)) sessions.
Proof.
  induction sessions as [|session sessions IH]; intros m Hnd; cbn.
  - symmetry. apply app_nil_r.
  - assert (Hnew : Map_has (sessionId session) m = false).
    { destruct (Map_has (sessionId session) m) eqn:E; [|reflexivity].
      apply Map_has_key in E. apply NoDup_app in Hnd as (_ & Hdisj & _).
      exfalso. apply (Hdisj _ E). cbn. apply list_elem_of_here. }
    rewrite (Map_set_absent _ _ _ Hnew), IH.
    + rewrite <- app_assoc. reflexivity.
    + rewrite map_app. cbn [map fst]. rewrite <- app_assoc. exact Hnd.
Qed.

(** The ids of the sessions in a list the worker pushes are distinct,
    and they are the keys of its map. *)
Lemma snapshot_ids (evs : list Registry.Event) :
  let m := Registry.mediaSessions (Registry.run URL_hostname evs Registry.init) in
  NoDup (map sessionId (Registry.snapshot m)) /\
  forall sid, sid ∈ map sessionId (Registry.snapshot m) <-> sid ∈ map fst m.
Proof.
  intros m.
  pose proof (run_wf URL_hostname evs) as Hwf. fold m in Hwf.
  pose proof (well_filed_run URL_hostname evs) as Hfiled.
  unfold Ledger.well_filed in Hfiled. fold m in Hfiled.
  assert (Hkeys : map sessionId (Map_values m) = map fst m).
  { clear Hwf. unfold Map_values. induction Hfiled as [|[k v] l Hkv _ IH]; [reflexivity|].
    cbn. destruct Hkv as [Hk _]. cbn in Hk. rewrite IH, Hk. reflexivity. }
  pose proof (Permutation_map sessionId (snapshot_Permutation m)) as Hperm.
  rewrite Hkeys in Hperm. split.
  - rewrite <- Hperm. exact Hwf.
  - intros sid. rewrite <- Hperm. reflexivity.
Qed.

Lemma Map_has_iff {V} (k : string) (m m' : Map V) :
  (k ∈ map fst m <-> k ∈ map fst m') -> Map_has k m = Map_has k m'.
Proof.
  intros H. destruct (Map_has k m) eqn:E, (Map_has k m') eqn:E'; try reflexivity.
  - apply Map_has_key, H, Map_has_key in E. congruence.
  - apply Map_has_key, H, Map_has_key in E'. congruence.
Qed.

(** X24.  When the popup receives a list the worker pushed, its copy
    becomes exactly that list, in that order, whatever it held before,
    and it knows a session id if and only if the worker's map has it:
    the session ids of a pushed list are distinct, so no entry
    overwrites another. *)
Theorem popup_mirrors_worker (evs : list Registry.Event) (p : State) :
  let w := Registry.run URL_hostname evs Registry.init in
  let pushed_list := Registry.snapshot (Registry.mediaSessions w) in
  let message := Some {| type := MESSAGE_TYPES.SESSIONS_UPDATED;
                         sessions := Some pushed_list |} in
  let p' := exec (handlePortMessage message) p in
  Map_values (sessionMap p') = pushed_list /\
  (forall sid, Map_has sid (sessionMap p') = Map_has sid (Registry.mediaSessions w)) /\
  port p' = port p /\ calls p' = calls p.
Proof.
  intros w pushed_list message p'.
  destruct (snapshot_ids evs) as [Hnd Hids]. fold w pushed_list in Hnd, Hids.
  assert (Hp' : p' = with_sessionMap
                       (fun _ => map (fun session => (sessionId session, session))
                                   pushed_list) p).
  { unfold p', message, handlePortMessage. cbn [type sessions default].
    assert (Heqb : (MESSAGE_TYPES.SESSIONS_UPDATED =? MESSAGE_TYPES.SESSIONS_UPDATED)%string
                   = true) by apply String.eqb_refl.
    rewrite Heqb. cbn [when]. rewrite updateSessions_eq.
    unfold with_sessionMap. f_equal.
    apply (fold_set_distinct pushed_list []). exact Hnd. }
  rewrite Hp'. cbn [sessionMap with_sessionMap port calls].
  split; [|split; [|split; reflexivity]].
  - unfold Map_values. rewrite map_map. cbn. apply map_id.
  - intros sid. apply Map_has_iff. rewrite map_map. cbn. apply Hids.
Qed.

(** X25.  With a copy that agrees with the worker's map, a click on a
    command button of a session's card is one message on the popup's
    port; the worker, on receiving it from that port, sends one command
    to the tab that reported the session, naming the element and
    carrying the button's command.  A seek-relative button carries its
    [data-delta] as a number (0 if it is missing or not a number), any
    other button no argument. *)
Theorem click_reaches_tab (evs : list Registry.Event) (p : State) (q : nat)
    (button : Button) (sid name : string) (session : Session) :
  let w := Registry.run URL_hostname evs Registry.init in
  port p = Some q -> q ∈ Registry.popupPorts w ->
  Map_has sid (sessionMap p) = true ->
  Map_get sid (Registry.mediaSessions w) = Some session ->
  card button = Some sid -> action button <> Some "open-tab" ->
  command button = Some name -> truthy name = true ->
  let message :=
    {| Registry.pm_type := MESSAGE_TYPES.MEDIA_COMMAND;
       Registry.pm_sessionId := sid;
       Registry.pm_command := name;
       Registry.pm_delta :=
         if String.eqb name MEDIA_COMMANDS.SEEK_RELATIVE
         then VNumber (or_zero (delta button)) else VUndefined;
       Registry.pm_time := VUndefined |} in
  calls (step p (Click (Some button))) = calls p ++ [port_postMessage q message] /\
  Registry.calls (Registry.step URL_hostname w (Registry.PortPost q message))
  = Registry.calls w ++
    [Registry.tabs_sendMessage (Registry.tabId session)
       {| Agent.Command.type := MESSAGE_TYPES.MEDIA_COMMAND;
          Agent.Command.elementId := Registry.elementId session;
          Agent.Command.command := name;
          Agent.Command.delta := Registry.pm_delta message;
          Agent.Command.time := VUndefined |}].
Proof.
  intros w Hport Hq Hhas Hget Hcard Haction Hcommand Hname message. split.
  - unfold step. cbn [handle]. unfold onListClick. rewrite Hcard.
    autorewrite with monad. rewrite Hhas. cbn [negb].
    rewrite bool_decide_false by exact Haction. rewrite Hcommand, Hname. cbn [negb].
    unfold sendCommand. autorewrite with monad. rewrite Hport, Hhas. cbn [negb].
    reflexivity.
  - destruct (dispatch_routed URL_hostname w q message session
                (well_filed_run URL_hostname evs) Hq eq_refl Hget)
      as (_ & _ & _ & Hcalls & _).
    exact Hcalls.
Qed.

Lemma posted_app (l1 l2 : list HostCall) : posted (l1 ++ l2) = posted l1 ++ posted l2.
Proof. apply omap_app. Qed.

Lemma sendCommand_offline (sid name : string) (d t : value) (p : State) :
  port p = None -> exec (sendCommand sid name d t) p = p.
Proof.
  intros H. unfold sendCommand. autorewrite with monad. rewrite H. reflexivity.
Qed.

(** What an event does to a popup without a port: the port stays
    [null] unless a reconnect timer fires and the connection succeeds,
    no timer is added, and nothing is posted. *)
Lemma offline_step (p : State) (ev : Event) :
  port p = None ->
  (forall q, ev <> TimerFired (Some q)) ->
  port (step p ev) = None /\
  (timers (step p ev) <= timers p)%nat /\
  posted (calls (step p ev)) = posted (calls p).
Proof.
  intros Hport Hev. unfold step.
  destruct ev as [message| |outcome|button|target]; cbn [handle].
  - autorewrite with monad. rewrite Hport.
    rewrite bool_decide_false by (apply is_Some_None). cbn. auto.
  - autorewrite with monad. rewrite Hport.
    rewrite bool_decide_false by (apply is_Some_None). cbn. auto.
  - autorewrite with monad. destruct (timers p) as [|n] eqn:En.
    + rewrite exec_ret. split; [exact Hport|]. split; [lia|reflexivity].
    + destruct outcome as [q|]; [exfalso; exact (Hev q eq_refl)|].
      unfold connectPort, hostCall. autorewrite with monad.
      cbn [port timers calls with_calls set_timers].
      split; [exact Hport|]. split; [lia|].
      rewrite posted_app. apply app_nil_r.
  - unfold onListClick. destruct button as [button|]; [|cbn; auto].
    destruct (card button) as [sid|]; [|cbn; auto].
    autorewrite with monad. destruct (Map_has sid (sessionMap p)); cbn [negb];
      [|cbn; auto].
    case_bool_decide.
    + unfold focusSessionTab, hostCall. autorewrite with monad.
      destruct (Map_get sid (sessionMap p)); [|cbn; auto].
      autorewrite with monad. cbn [port timers calls with_calls].
      split; [exact Hport|]. split; [lia|].
      rewrite posted_app. apply app_nil_r.
    + destruct (command button) as [name|]; [|cbn; auto].
      destruct (truthy name); cbn [negb]; [|cbn; auto].
      rewrite sendCommand_offline by exact Hport. auto.
  - unfold onSliderCommit. destruct (is_slider target); cbn [negb]; [|cbn; auto].
    destruct (disabled target); [cbn; auto|].
    destruct (slider_card target) as [sid|]; [|cbn; auto].
    autorewrite with monad. destruct (Map_has sid (sessionMap p)); cbn [negb];
      [|cbn; auto].
    rewrite sendCommand_offline by exact Hport. auto.
Qed.

(** X26.  A popup without a port posts no command, whatever the user
    clicks or drags, until a reconnect timer fires and its connection
    succeeds.  If no timer is left, which is the case after a
    [connectPort] that threw, nothing brings the port back: the popup
    stays disconnected and silent for good. *)
Theorem offline_popup_is_silent (p : State) (evs : list Event) :
  port p = None ->
  Forall (fun ev => forall q, ev <> TimerFired (Some q)) evs \/ timers p = O ->
  port (run evs p) = None /\
  posted (calls (run evs p)) = posted (calls p).
Proof.
  intros Hport Hcase.
  assert (Hstep0 : forall p0 ev, port p0 = None -> timers p0 = O ->
            port (step p0 ev) = None /\ timers (step p0 ev) = O /\
            posted (calls (step p0 ev)) = posted (calls p0)).
  { intros p0 ev Hp0 Ht0.
    assert (Hev : (exists q, ev = TimerFired (Some q)) \/
                  (forall q, ev <> TimerFired (Some q))).
    { destruct ev as [| |[q|]| |]; try (right; discriminate). left. eauto. }
    destruct Hev as [[q ->]|Hno].
    - unfold step. cbn [handle]. autorewrite with monad. rewrite Ht0.
      rewrite exec_ret. auto.
    - destruct (offline_step p0 ev Hp0 Hno) as (H1 & H2 & H3).
      split; [exact H1|]. split; [lia|exact H3]. }
  destruct Hcase as [Hevs|Ht].
  - revert p Hport. induction Hevs as [|ev evs Hev Hevs IH]; intros p Hport; [auto|].
    cbn. destruct (offline_step p ev Hport Hev) as (H1 & _ & H3).
    destruct (IH _ H1) as [H4 H5]. split; [exact H4|etransitivity; [exact H5|exact H3]].
  - revert p Hport Ht. induction evs as [|ev evs IH]; intros p Hport Ht; [auto|].
    cbn. destruct (Hstep0 p ev Hport Ht) as (H1 & H2 & H3).
    destruct (IH _ H1 H2) as [H4 H5]. split; [exact H4|etransitivity; [exact H5|exact H3]].
Qed.

End PopupChannel.

(* ===================================================================== *)
(** * The results on the sample pages, worker and popup *)
(* ===================================================================== *)

Section RegistryExamples.
Import JS StateMonad Registry Ledger.

Local Abbreviation tab1 :=
  {| tab_id := 1; tab_url := Some "https://example.org"; tab_title := None |}.

(** The worker of the sample registry hears that element b of tab 2
    plays: each of the two popups is sent the three sessions, the playing
    ones first and the latest first among them. *)
Lemma C3_pushed_lists_in_order_witness :
  let s := Registry.run Demo.after_slashes Demo.registry_events Registry.init in
  let s' := Registry.step Demo.after_slashes s
              (Message (MEDIA_UPDATE (Demo.update "b" true)) (Demo.from_tab 2) 400) in
  exists sessions,
    pushed s' = pushed s ++ [sessions; sessions] /\
    map sessionId sessions = ["2:b"; "1:c"; "1:a"] /\
    sessions ≡ₚ map snd (mediaSessions s') /\
    adjacent_in_order sessions.
Proof.
  intros s s'.
  destruct (proj2 (C3_pushed_lists_in_order Demo.after_slashes Demo.registry_events)
              (Message (MEDIA_UPDATE (Demo.update "b" true)) (Demo.from_tab 2) 400))
    as (new & Hp & Hall).
  fold s s' in Hp, Hall.
  exists (snapshot (mediaSessions s')).
  assert (Hpushed : pushed s' = pushed s ++ [snapshot (mediaSessions s');
                                             snapshot (mediaSessions s')])
    by (vm_compute; reflexivity).
  rewrite Hpushed in Hp. apply app_inv_head in Hp. subst new.
  apply Forall_cons in Hall as [(Hperm & Hadj & _) _].
  split; [exact Hpushed|]. split; [vm_compute; reflexivity|].
  split; [exact Hperm|exact Hadj].
Defined.

Lemma update_stored_witness :
  let s' := Registry.step Demo.after_slashes Demo.registry
              (Message (MEDIA_UPDATE (Demo.update "a" false)) (Demo.from_tab 1) 400) in
  map fst (mediaSessions s') = map fst (mediaSessions Demo.registry) /\
  popupPorts s' = popupPorts Demo.registry.
Proof.
  intros s'.
  destruct (update_stored Demo.after_slashes (Demo.update "a" false)
              (Demo.from_tab 1) 400 tab1 "a" Demo.registry)
    as (_ & _ & _ & Hkeys & _ & Hports & _).
  - reflexivity.
  - discriminate.
  - reflexivity.
  - reflexivity.
  - split; [apply Hkeys; vm_compute; reflexivity|exact Hports].
Defined.

Lemma unresolvable_identity_dropped_witness :
  Registry.step Demo.after_slashes Demo.registry
    (Message (MEDIA_UPDATE (Demo.update "" true)) (Demo.from_tab 1) 400)
  = Demo.registry.
Proof.
  refine (proj1 (unresolvable_identity_dropped Demo.after_slashes
                   (Demo.update "" true) (Demo.from_tab 1) 400 Demo.registry _)).
  right; right; right. reflexivity.
Defined.

Lemma removal_deletes_witness :
  let s' := Registry.step Demo.after_slashes Demo.registry
              (Message (MEDIA_REMOVED (Demo.update "a" false)) (Demo.from_tab 1) 400) in
  Map_get "1:a" (mediaSessions s') = None /\
  Map_get "1:c" (mediaSessions s') = Map_get "1:c" (mediaSessions Demo.registry).
Proof.
  intros s'.
  destruct (removal_deletes Demo.after_slashes (Demo.update "a" false)
              (Demo.from_tab 1) 400 tab1 "a" Demo.registry)
    as (Hgone & Hothers & _).
  - reflexivity.
  - discriminate.
  - reflexivity.
  - reflexivity.
  - apply (bool_decide_unpack _). vm_compute. exact I.
  - split; [exact Hgone|]. apply Hothers. discriminate.
Defined.

Lemma report_then_remove_witness :
  mediaSessions
    (Registry.run Demo.after_slashes
       [Message (MEDIA_UPDATE (Demo.update "z" true)) (Demo.from_tab 1) 400;
        Message (MEDIA_REMOVED (Demo.update "z" false)) (Demo.from_tab 1) 500]
       Demo.registry)
  = mediaSessions Demo.registry.
Proof.
  apply (report_then_remove Demo.after_slashes (Demo.update "z" true)
           (Demo.update "z" false) (Demo.from_tab 1) 400 500 tab1 "z").
  - reflexivity.
  - discriminate.
  - reflexivity.
  - reflexivity.
  - reflexivity.
  - vm_compute. reflexivity.
Defined.

Lemma popups_up_to_date_witness :
  last (posts_to 8%nat (calls (Registry.run Demo.after_slashes Demo.registry_events init)))
  = Some (snapshot (mediaSessions
                      (Registry.run Demo.after_slashes Demo.registry_events init))).
Proof.
  apply (popups_up_to_date Demo.after_slashes Demo.registry_events 8%nat).
  apply (bool_decide_unpack _). vm_compute. exact I.
Defined.

Lemma silent_after_disconnect_witness :
  let s' := Registry.run Demo.after_slashes
              [Message (MEDIA_UPDATE (Demo.update "a" false)) (Demo.from_tab 1) 400;
               TabRemoved 2]
              (Registry.step Demo.after_slashes Demo.registry (Disconnect 7%nat)) in
  posts_to 7%nat (calls s') = posts_to 7%nat (calls Demo.registry).
Proof.
  intros s'.
  refine (proj2 (silent_after_disconnect Demo.after_slashes Demo.registry 7%nat
                   [Message (MEDIA_UPDATE (Demo.update "a" false)) (Demo.from_tab 1) 400;
                    TabRemoved 2] _ _)).
  - apply (bool_decide_unpack _). vm_compute. exact I.
  - repeat constructor; intros name; discriminate.
Defined.

Lemma command_routed_witness :
  let s := Registry.run Demo.after_slashes Demo.registry_events init in
  let s' := Registry.step Demo.after_slashes s (PortPost 7%nat (Demo.popup_command "2:b")) in
  commands (calls s') = commands (calls s)
    ++ [(2, Demo.command "b" "toggle-play" VUndefined VUndefined)].
Proof.
  intros s s'.
  assert (Hget : exists session,
            Map_get "2:b" (mediaSessions s) = Some session /\
            tabId session = 2 /\ elementId session = "b").
  { vm_compute. eexists. split; [reflexivity|]. split; reflexivity. }
  destruct Hget as (session & Hget & Htab & Hel).
  destruct (command_routed Demo.after_slashes Demo.registry_events 7%nat
              (Demo.popup_command "2:b") session)
    as (_ & _ & _ & Hcalls & _).
  - apply (bool_decide_unpack _). vm_compute. exact I.
  - reflexivity.
  - exact Hget.
  - fold s s' in Hcalls. rewrite Hcalls. unfold commands. rewrite omap_app.
    cbn [omap]. rewrite Htab, Hel. reflexivity.
Defined.

Lemma latest_playing_first_witness :
  let s' := Registry.step Demo.after_slashes Demo.registry
              (Message (MEDIA_UPDATE (Demo.update "b" true)) (Demo.from_tab 2) 400) in
  head (snapshot (mediaSessions s'))
  = Some (stored Demo.after_slashes (Demo.update "b" true) (Demo.from_tab 2) 400 2 "b").
Proof.
  intros s'.
  refine (proj1 (latest_playing_first Demo.after_slashes (Demo.update "b" true)
                   (Demo.from_tab 2) 400
                   {| tab_id := 2; tab_url := Some "https://example.org";
                      tab_title := None |} "b" Demo.registry _ _ _ _ _ _)).
  - reflexivity.
  - discriminate.
  - reflexivity.
  - reflexivity.
  - reflexivity.
  - assert (H : Forall (fun kv : string * Session => lastUpdated kv.2 < 400)
                  (mediaSessions Demo.registry)).
    { apply (bool_decide_unpack _). vm_compute. exact I. }
    rewrite Forall_forall in H. intros k session Hin. exact (H _ Hin).
Defined.

End RegistryExamples.

Section AgentExamples.
Import JS StateMonad Agent Tracking Document.

Lemma rnd_truthy (n : nat) : truthy (Demo.rnd n) = true.
Proof. reflexivity. Qed.

Lemma ensureElementId_stable_witness :
  let id := eval (ensureElementId 3%nat) Demo.scanned in
  let s1 := exec (ensureElementId 3%nat) Demo.scanned in
  identified 3%nat id s1 /\ ensureElementId 3%nat s1 = (id, s1).
Proof.
  intros id s1.
  destruct (ensureElementId_stable 3%nat Demo.scanned) as (Hident & Hagain & _).
  - intros n. vm_compute. reflexivity.
  - split; [exact Hident|exact Hagain].
Defined.

Lemma registerElement_idempotent_witness :
  let s1 := exec (registerElement 3%nat) Demo.scanned in
  exec (registerElement 3%nat) s1 = s1.
Proof.
  intros s1.
  refine (proj2 (registerElement_idempotent 3%nat Demo.scanned _)).
  intros n. vm_compute. reflexivity.
Defined.

Lemma first_registration_activates_witness :
  let s := init Demo.page Demo.rnd in
  let s' := exec (registerElement 1%nat) s in
  activeMediaId s' = Some (eval (ensureElementId 1%nat) s) /\
  castToTvMediaId (dom s' !!! 1%nat) = Some (eval (ensureElementId 1%nat) s).
Proof.
  intros s s'.
  destruct (first_registration_activates 1%nat s) as (Hact & Hid & _).
  - exact rnd_truthy.
  - reflexivity.
  - vm_compute. reflexivity.
  - split; [exact Hact|exact Hid].
Defined.

Lemma idle_registration_keeps_active_witness :
  let s' := exec (registerElement 2%nat) Demo.first in
  activeMediaId s' = Some "media-0" /\ calls s' = calls Demo.first /\
  trackedElements s' = <["media-1" := 2%nat]> (trackedElements Demo.first) /\
  listening s' = {[2%nat]} ∪ listening Demo.first.
Proof.
  intros s'.
  destruct (idle_registration_keeps_active 2%nat "media-0" Demo.first)
    as (Hact & Hcalls & _ & Hnew & _).
  - intros n. vm_compute. reflexivity.
  - vm_compute. reflexivity.
  - reflexivity.
  - vm_compute. reflexivity.
  - split; [exact Hact|]. split; [exact Hcalls|].
    apply Hnew. vm_compute. reflexivity.
Defined.

Lemma unregisterElement_teardown_witness :
  let s' := exec (unregisterElement 1%nat) Demo.scanned in
  castToTvMediaId (dom s' !!! 1%nat) = None /\
  exec (unregisterElement 1%nat) s' = s'.
Proof.
  intros s'.
  destruct (unregisterElement_teardown 1%nat "media-0" Demo.scanned)
    as (_ & _ & _ & Hid & _ & _ & Hagain).
  - split; [vm_compute; reflexivity|reflexivity].
  - vm_compute. reflexivity.
  - split; [exact Hid|exact Hagain].
Defined.

Lemma silent_while_idle_witness :
  let evs := [Media 2%nat "timeupdate"; Frame; Media 2%nat "pause"] in
  activeMediaId (run evs Demo.vacated) = None /\
  outbox (run evs Demo.vacated) = outbox Demo.vacated.
Proof.
  intros evs.
  apply (silent_while_idle Demo.vacated evs).
  - vm_compute. reflexivity.
  - repeat constructor; intros h; discriminate.
Defined.

Lemma toggle_play_pauses_witness :
  let m := Demo.command "media-0" "toggle-play" VUndefined VUndefined in
  let s' := exec (onMessage m) Demo.live in
  eval (onMessage m) Demo.live = returned true /\
  paused (dom s' !!! 3%nat) = true.
Proof.
  intros m s'.
  destruct (toggle_play_pauses Demo.live m 3%nat "media-0") as (Hret & Hpaused & _).
  - reflexivity.
  - vm_compute. reflexivity.
  - reflexivity.
  - vm_compute. reflexivity.
  - split; [vm_compute; reflexivity|reflexivity].
  - split; [exact Hret|exact Hpaused].
Defined.

Lemma commands_keep_tracking_witness :
  kept Demo.scanned (step Demo.scanned Frame).
Proof.
  apply (commands_keep_tracking Demo.scanned Frame). right; right. reflexivity.
Defined.

(** The first [pagehide] clears the agent; element 2, found after it,
    stays tracked through the next one. *)
Lemma pagehide_clears_witness :
  cleared (step (run [Added 1%nat; Added 2%nat] (init Demo.page Demo.rnd)) PageHide) /\
  (let s := run [Added 1%nat; PageHide; Added 2%nat] (init Demo.page Demo.rnd) in
   step s PageHide = s).
Proof.
  split.
  - refine (proj2 (proj2 (proj1 (proj2
      (pagehide_clears Demo.page Demo.rnd [Added 1%nat; Added 2%nat] rnd_truthy)) _))).
    intros Hin. repeat (apply elem_of_cons in Hin as [Hin|Hin]; [discriminate Hin|]).
    apply elem_of_nil in Hin. exact Hin.
  - refine (proj2 (proj1 (proj2 (proj2
      (pagehide_clears Demo.page Demo.rnd [Added 1%nat; PageHide; Added 2%nat]
         rnd_truthy))) _)).
    apply list_elem_of_further, list_elem_of_here.
Defined.

Lemma scan_registers_witness :
  let s' := exec (handlePossibleMediaNode Demo.tree registerElement)
              (init Demo.page Demo.rnd) in
  exists id, identified 2%nat id s' /\ is_Some (trackedElements s' !! id).
Proof.
  refine (proj2 (scan_registers (init Demo.page Demo.rnd) Demo.tree rnd_truthy)
            2%nat _).
  apply (bool_decide_unpack _). vm_compute. exact I.
Defined.

Lemma removed_subtree_untracked_witness :
  let s := run [Added 1%nat; Added 2%nat] (init Demo.page Demo.rnd) in
  let s' := exec (handlePossibleMediaNode Demo.tree unregisterElement) s in
  ~ tracked 1%nat s' /\ 1%nat ∉ listening s'.
Proof.
  refine (proj1 (removed_subtree_untracked Demo.page Demo.rnd
                   [Added 1%nat; Added 2%nat] Demo.tree rnd_truthy) 1%nat _).
  apply (bool_decide_unpack _). vm_compute. exact I.
Defined.

(** Element 1 of the sample page is active: it fires [timeupdate] twice,
    its position advancing in between; one callback is requested, and
    the frame sends one update, with the later position.  Element 2 is
    not active: for the same events the frame sends nothing. *)
Lemma C9_coalescing_gated_witness :
  let evs := fun h => [Media h "timeupdate"; Playback h Demo.later;
                       Media h "timeupdate"] in
  (let sn := run (evs 1%nat) Demo.scanned in
   calls sn = calls Demo.scanned ++ [requestAnimationFrame (nextRafId Demo.scanned)] /\
   calls (step sn Frame)
   = calls sn ++ [sendMessage (MEDIA_UPDATE
                    (serialized "media-0"
                       (set_castToTvMediaId (Some "media-0") Demo.later)))]) /\
  (let sn := run (evs 2%nat) Demo.scanned in
   calls (step sn Frame) = calls sn ++ []).
Proof.
  intros evs.
  assert (Hticking : forall h, Forall (ticking h Demo.scanned) (evs h)).
  { intros h. unfold evs.
    constructor; [left; reflexivity|].
    constructor;
      [right; exists h, Demo.later; split; [reflexivity|]; intros _; constructor|].
    constructor; [left; reflexivity|]. constructor. }
  split.
  - destruct (C9_coalescing_gated Demo.scanned 1%nat "media-0" (evs 1%nat))
      as (Hc & _ & _ & _ & _ & Hf & Hq & _).
    + split; [vm_compute; reflexivity|reflexivity].
    + apply (bool_decide_unpack _). vm_compute. exact I.
    + constructor.
    + vm_compute. reflexivity.
    + apply Hticking.
    + apply list_elem_of_here.
    + split; [exact Hc|]. rewrite Hf, (Hq eq_refl). f_equal.
  - destruct (C9_coalescing_gated Demo.scanned 2%nat "media-1" (evs 2%nat))
      as (_ & _ & _ & _ & _ & Hf & Hq & _).
    + split; [vm_compute; reflexivity|reflexivity].
    + apply (bool_decide_unpack _). vm_compute. exact I.
    + constructor.
    + vm_compute. reflexivity.
    + apply Hticking.
    + apply list_elem_of_here.
    + cbv zeta. rewrite Hf, (Hq eq_refl). f_equal.
Defined.

(** Element 2 of the nested page, which is not active, fires [pause]:
    the listener of element 1, its ancestor and the active element,
    sends an update of media-0, and the listener of element 2 sends
    nothing. *)
Lemma immediate_event_flushes_now_witness :
  let s0 := captured 2%nat "pause" Demo.nested in
  let s' := step Demo.nested (Media 2%nat "pause") in
  outbox s0 = outbox Demo.nested
              ++ [MEDIA_UPDATE (serialized "media-0" (dom Demo.nested !!! 1%nat))] /\
  calls s' = calls s0 ++ [] /\
  activeMediaId s' = activeMediaId Demo.nested.
Proof.
  intros s0 s'.
  destruct (immediate_event_flushes_now Demo.nested 2%nat "media-1" "pause")
    as (_ & _ & Hc & _ & _ & Ha).
  - split; [vm_compute; reflexivity|reflexivity].
  - apply (bool_decide_unpack _). vm_compute. exact I.
  - apply (bool_decide_unpack _). vm_compute. exact I.
  - discriminate.
  - discriminate.
  - split; [vm_compute; reflexivity|]. split; [|exact Ha].
    unfold s', s0. rewrite Hc. f_equal.
Defined.

End AgentExamples.

Section PopupExamples.
Import JS StateMonad Popup.

Lemma click_reaches_tab_witness :
  let w := Registry.run Demo.after_slashes Demo.registry_events Registry.init in
  let message :=
    {| Registry.pm_type := MESSAGE_TYPES.MEDIA_COMMAND;
       Registry.pm_sessionId := "1:a";
       Registry.pm_command := MEDIA_COMMANDS.SEEK_RELATIVE;
       Registry.pm_delta := VNumber (of_Z (-10));
       Registry.pm_time := VUndefined |} in
  calls (step Demo.panel (Click (Some Demo.back_button)))
  = calls Demo.panel ++ [port_postMessage 7%nat message] /\
  Ledger.commands
    (Registry.calls (Registry.step Demo.after_slashes w (Registry.PortPost 7%nat message)))
  = Ledger.commands (Registry.calls w)
    ++ [(1, Demo.command "a" "seek-relative" (VNumber (of_Z (-10))) VUndefined)].
Proof.
  intros w message.
  assert (Hget : exists session,
            Map_get "1:a" (Registry.mediaSessions w) = Some session /\
            Registry.tabId session = 1 /\ Registry.elementId session = "a").
  { vm_compute. eexists. split; [reflexivity|]. split; reflexivity. }
  destruct Hget as (session & Hget & Htab & Hel).
  destruct (click_reaches_tab Demo.after_slashes Demo.registry_events Demo.panel
              7%nat Demo.back_button "1:a" MEDIA_COMMANDS.SEEK_RELATIVE session)
    as [Hpopup Hworker].
  - vm_compute. reflexivity.
  - apply (bool_decide_unpack _). vm_compute. exact I.
  - vm_compute. reflexivity.
  - exact Hget.
  - reflexivity.
  - discriminate.
  - reflexivity.
  - reflexivity.
  - split; [exact Hpopup|].
    etransitivity; [exact (f_equal Ledger.commands Hworker)|].
    unfold Ledger.commands. rewrite omap_app.
    cbn [omap]. rewrite Htab, Hel. reflexivity.
Defined.

Lemma offline_popup_is_silent_witness :
  let evs := [Click (Some Demo.back_button); TimerFired (Some 9%nat);
              Click (Some Demo.back_button)] in
  port (run evs Demo.stranded) = None /\
  posted (calls (run evs Demo.stranded)) = posted (calls Demo.stranded).
Proof.
  intros evs.
  apply (offline_popup_is_silent Demo.stranded evs).
  - vm_compute. reflexivity.
  - right. vm_compute. reflexivity.
Defined.

End PopupExamples.

(* ===================================================================== *)
(** * The worker's sessions of a page and the page's elements *)
(* ===================================================================== *)

Section PageSessions.
Import JS StateMonad.

Variable URL_hostname : string -> option string.
Variable sender : Registry.Sender.
Variable tabId : Z.

(** X29.  Whatever happens on a page, every session the worker holds
    for it once the page's messages have arrived names the element
    that is active on the page, and that element is tracked, carries
    the session's element id and has the agent's listener attached: a
    command routed to the page for such a session finds its element. *)
Theorem session_names_tracked_element (page : gmap Agent.Handle Agent.MediaElement)
    (rnd : nat -> string) (evs : list Agent.Event) (clock : nat -> Z) (k : string) :
  Registry.tab_id <$> Registry.sender_tab sender = Some tabId -> tabId <> 0 ->
  (forall n, truthy (rnd n) = true) ->
  let a := Agent.run evs (Agent.init page rnd) in
  let w := Registry.run URL_hostname
             (Wire.deliveries sender clock 0 (Agent.outbox a)) Registry.init in
  Map_has k (Registry.mediaSessions w) = true ->
  exists id h,
    k = Registry.buildSessionId tabId id /\
    Agent.activeMediaId a = Some id /\
    Agent.trackedElements a !! id = Some h /\
    Agent.identified h id a /\
    h ∈ Agent.listening a.
Proof.
  intros Hsender Htab Hrnd a w Hk.
  assert (Hinv : Agent.Inv a) by (apply Inv_run, Inv_init, Hrnd).
  assert (Hcons : Tracking.consistent a)
    by (apply consistent_run, consistent_init, Hrnd).
  destruct Hinv as [_ (Hslot & _ & Htruthy)].
  apply (reported_in_registry URL_hostname sender tabId Hsender Htab
           (Agent.calls a) clock Htruthy) in Hk as (id & Hid & ->).
  apply Hslot in Hid.
  destruct Hcons as (_ & C2 & C3 & C4 & _).
  destruct (C4 id Hid) as [h Hh].
  exists id, h. split; [reflexivity|]. split; [exact Hid|]. split; [exact Hh|].
  split; [apply C2, Hh|]. apply C3. exists id. exact Hh.
Qed.

End PageSessions.

Section PageSessionsExample.
Import JS StateMonad.

Lemma session_names_tracked_element_witness :
  exists id h,
    "1:media-0" = Registry.buildSessionId 1 id /\
    Agent.activeMediaId Demo.scanned = Some id /\
    Agent.trackedElements Demo.scanned !! id = Some h /\
    Agent.identified h id Demo.scanned /\
    h ∈ Agent.listening Demo.scanned.
Proof.
  apply (session_names_tracked_element Demo.after_slashes (Demo.from_tab 1) 1
           Demo.page Demo.rnd
           [Agent.Added 1%nat; Agent.Added 2%nat] (fun n => Z.of_nat n) "1:media-0").
  - reflexivity.
  - discriminate.
  - exact rnd_truthy.
  - vm_compute. reflexivity.
Defined.

End PageSessionsExample.
